(** * StreetSprint route planner: the planning core of
    [src/app/components/planner/CompletionSection.tsx], embedded in Rocq.

    Conventions of the embedding.

    - A JavaScript [number] that holds a distance, a coordinate or a score is
      an exact rational ([Q]); [Number.POSITIVE_INFINITY] is a constructor of
      its own ([dnum]).  Rounding of IEEE doubles is not modelled.
    - [Map<K,V>] and [Set<K>] keep insertion order in JavaScript and the
      planner iterates over them, so they are association lists and duplicate
      free lists in insertion order ([JsMap], [JsSet]).
    - The transcendental geometry ([haversineKm], the point-to-segment distance
      and the padded bounding-box test) are parameters of the development.
    - Mutable planner state is threaded explicitly ([PlannerState]).
    - A loop of the source that has no syntactic bound runs on fuel; running
      out of fuel is reported as [None] ("does not return"). *)

From Stdlib Require Import ZArith QArith Qround Qabs Qminmax Lqa.
From Stdlib Require Import String Ascii List Bool Lia Arith PeanoNat.
From Stdlib Require Import HexadecimalString DecimalString Permutation Sorted.
Import ListNotations.

Local Open Scope Q_scope.
Local Open Scope string_scope.
Local Open Scope list_scope.

(* ------------------------------------------------------------------ *)
(** ** Keys with decidable equality *)

Class EqDec (K : Type) := eq_dec : forall x y : K, {x = y} + {x <> y}.

#[export] Instance string_EqDec : EqDec string := string_dec.
#[export] Instance Z_EqDec : EqDec Z := Z.eq_dec.
#[export] Instance nat_EqDec : EqDec nat := Nat.eq_dec.

Definition eqb {K} `{EqDec K} (x y : K) : bool :=
  if eq_dec x y then true else false.

(* ------------------------------------------------------------------ *)
(** ** [Map<K,V>]: association list in insertion order *)

Module JsMap.
Section Defs.
Context {K V : Type} `{EqDec K}.

Fixpoint get (k : K) (m : list (K * V)) : option V :=
    match m with
    | [] => None
    | (k', v) :: rest => if eq_dec k k' then Some v else get k rest
    end.

Definition has (k : K) (m : list (K * V)) : bool :=
    match get k m with Some _ => true | None => false end.

  (** [m.set(k, v)]: an existing key keeps its position, a new key goes last. *)
Fixpoint set (k : K) (v : V) (m : list (K * V)) : list (K * V) :=
    match m with
    | [] => [(k, v)]
    | (k', v') :: rest =>
        if eq_dec k k' then (k, v) :: rest else (k', v') :: set k v rest
    end.

Definition keys (m : list (K * V)) : list K := map fst m.
Definition values (m : list (K * V)) : list V := map snd m.
Definition size (m : list (K * V)) : nat := length m.
End Defs.
End JsMap.

Definition Map (K V : Type) : Type := list (K * V).


(* ------------------------------------------------------------------ *)
(** ** [Set<K>]: duplicate-free list in insertion order *)

Module JsSet.
Section Defs.
Context {K : Type} `{EqDec K}.

Definition has (k : K) (s : list K) : bool := existsb (eqb k) s.
Definition add (k : K) (s : list K) : list K := if has k s then s else s ++ [k].
Definition size (s : list K) : nat := length s.
End Defs.
End JsSet.

(* ------------------------------------------------------------------ *)
(** ** Numbers *)

Definition Qleb (a b : Q) : bool := Qle_bool a b.
Definition Qltb (a b : Q) : bool := negb (Qle_bool b a).

(** A distance that may be [Number.POSITIVE_INFINITY]. *)
Inductive dnum : Type :=
| Fin (q : Q)
| PosInf.

Definition dnum_ltb (a b : dnum) : bool :=
  match a, b with
  | Fin x, Fin y => Qltb x y
  | Fin _, PosInf => true
  | PosInf, _ => false
  end.

Definition dnum_leb (a b : dnum) : bool :=
  match a, b with
  | Fin x, Fin y => Qleb x y
  | _, PosInf => true
  | PosInf, Fin _ => false
  end.

Definition isFinite (a : dnum) : bool :=
  match a with Fin _ => true | PosInf => false end.

(** [Math.round]: to the nearest integer, halves upwards. *)
Definition Math_round (x : Q) : Z := Qfloor (x + (1 # 2)).

(** Decimal rendering of an integer-valued number in a template literal. *)
Definition string_of_Z (z : Z) : string := NilZero.string_of_int (Z.to_int z).

Fixpoint zeros (n : nat) : string :=
  match n with O => "" | S k => "0" ++ zeros k end.

(** [x.toFixed(digits)] on an exact rational: the nearest multiple of
    [10^-digits], the larger one on a tie, with the sign printed first. *)
Definition toFixed (digits : nat) (x : Q) : string :=
  let scale := (10 ^ Z.of_nat digits)%Z in
  let n := Qfloor (Qabs x * inject_Z scale + (1 # 2)) in
  let ip := (n / scale)%Z in
  let fp := string_of_Z (n mod scale)%Z in
  let sign := if Qltb x 0 then "-" else "" in
  match digits with
  | O => sign ++ string_of_Z ip
  | _ => sign ++ string_of_Z ip ++ "." ++ zeros (digits - String.length fp) ++ fp
  end.

(* ------------------------------------------------------------------ *)
(** ** Data model *)

Record LatLng : Type := mkLatLng { lat : Q; lon : Q }.

Inductive StreetSource : Type := osm | manual.

Record StreetSegment : Type := mkStreetSegment {
  seg_id : string;
  seg_name : string;
  seg_path : list LatLng;
  seg_startNodeId : option string;
  seg_endNodeId : option string;
  seg_completed : bool;
  seg_source : StreetSource
}.

Record RouteNode : Type := mkRouteNode { rn_id : string; rn_point : LatLng }.

Record CityBounds : Type := mkCityBounds {
  south : Q; north : Q; west : Q; east : Q
}.

Record SuggestedRoute : Type := mkSuggestedRoute {
  route_id : string;
  route_name : string;
  route_points : list LatLng;
  route_streetIds : list string;
  route_streetNames : list string;
  route_distanceKm : Q;
  route_strategy : string;
  route_nodeIdsCovered : list string;
  route_nodePoints : list LatLng;
  route_availableNodes : list RouteNode
}.

Record GraphNode : Type := mkGraphNode {
  node_id : string;
  node_point : LatLng;
  node_edgeIds : list string
}.

Record GraphEdge : Type := mkGraphEdge {
  edge_id : string;
  edge_streetId : string;
  edge_streetName : string;
  edge_from : string;
  edge_to : string;
  edge_path : list LatLng;
  edge_distanceKm : Q
}.

Record GraphNeighbor : Type := mkGraphNeighbor {
  nb_edgeId : string;
  nb_neighbor : string
}.

Record StreetGraph : Type := mkStreetGraph {
  nodes : Map string GraphNode;
  edges : Map string GraphEdge;
  adjacency : Map string (list GraphNeighbor)
}.

Record PrevStep : Type := mkPrevStep { prev_nodeId : string; prev_edgeId : string }.

Record DijkstraResult : Type := mkDijkstraResult {
  dist : Map string dnum;
  prev : Map string PrevStep
}.

Definition origin : LatLng := mkLatLng 0 0.

(** [path[0]] and [path[path.length - 1]]; every caller has checked
    [path.length >= 2] before. *)
Definition firstPoint (path : list LatLng) : LatLng := hd origin path.
Definition lastPoint (path : list LatLng) : LatLng := last path origin.

Definition quantizePoint (point : LatLng) : string :=
  toFixed 5 (lat point) ++ "," ++ toFixed 5 (lon point).

Inductive Endpoint : Type := EndpointStart | EndpointEnd.

Definition nodeIdForStreetEndpoint (street : StreetSegment) (endpoint : Endpoint) : string :=
  match endpoint with
  | EndpointStart =>
      match seg_startNodeId street with
      | Some i => i
      | None => quantizePoint (firstPoint (seg_path street))
      end
  | EndpointEnd =>
      match seg_endNodeId street with
      | Some i => i
      | None => quantizePoint (lastPoint (seg_path street))
      end
  end.

(** [adjacency.get(k)?.push(x)] and [nodes.get(k)?.edgeIds.push(e)]. *)
Definition pushNeighbor (k : string) (x : GraphNeighbor)
    (adj : Map string (list GraphNeighbor)) : Map string (list GraphNeighbor) :=
  match JsMap.get k adj with
  | Some l => JsMap.set k (l ++ [x]) adj
  | None => adj
  end.

Definition pushEdgeId (k : string) (e : string)
    (ns : Map string GraphNode) : Map string GraphNode :=
  match JsMap.get k ns with
  | Some n => JsMap.set k (mkGraphNode (node_id n) (node_point n) (node_edgeIds n ++ [e])) ns
  | None => ns
  end.

Definition ensureKey {V} (k : string) (v : V) (m : Map string V) : Map string V :=
  if JsMap.has k m then m else JsMap.set k v m.

Definition validStreet (street : StreetSegment) : bool :=
  (2 <=? length (seg_path street))%nat.

(* ------------------------------------------------------------------ *)
(** ** Geometry taken as parameters, and the polyline length *)

Section Graph.

(** [haversineKm(a, b)]: great-circle distance in km. *)
Variable haversineKm : LatLng -> LatLng -> Q.

Fixpoint polylineDistanceKm (path : list LatLng) : Q :=
  match path with
  | a :: (b :: _) as rest => haversineKm a b + polylineDistanceKm rest
  | _ => 0
  end.

(* ------------------------------------------------------------------ *)
(** ** Street graph construction *)

Definition addStreet (graph : StreetGraph) (street : StreetSegment) : StreetGraph :=
  if negb (validStreet street) then graph
  else
    let startPoint := firstPoint (seg_path street) in
    let endPoint := lastPoint (seg_path street) in
    let from := nodeIdForStreetEndpoint street EndpointStart in
    let to := nodeIdForStreetEndpoint street EndpointEnd in
    let edgeId := seg_id street in
    let nodes1 := ensureKey from (mkGraphNode from startPoint []) (nodes graph) in
    let nodes2 := ensureKey to (mkGraphNode to endPoint []) nodes1 in
    let edge :=
      mkGraphEdge edgeId (seg_id street) (seg_name street) from to
        (seg_path street) (polylineDistanceKm (seg_path street)) in
    let edges1 := JsMap.set edgeId edge (edges graph) in
    let nodes3 := pushEdgeId from edgeId nodes2 in
    let nodes4 := pushEdgeId to edgeId nodes3 in
    let adj1 := ensureKey from [] (adjacency graph) in
    let adj2 := ensureKey to [] adj1 in
    let adj3 := pushNeighbor from (mkGraphNeighbor edgeId to) adj2 in
    let adj4 := pushNeighbor to (mkGraphNeighbor edgeId from) adj3 in
    mkStreetGraph nodes4 edges1 adj4.

Definition emptyGraph : StreetGraph := mkStreetGraph [] [] [].

Definition buildStreetGraph (streets : list StreetSegment) : StreetGraph :=
  fold_left addStreet streets emptyGraph.

Definition neighborsOf (graph : StreetGraph) (nodeId : string) : list GraphNeighbor :=
  match JsMap.get nodeId (adjacency graph) with Some l => l | None => [] end.

(** [graph.adjacency.get(nodeId)?.length ?? 0]. *)
Definition degreeOf (graph : StreetGraph) (nodeId : string) : nat :=
  length (neighborsOf graph nodeId).

End Graph.

(* ------------------------------------------------------------------ *)
(** ** [class MinHeap<T>]: binary heap in an array *)

Fixpoint setNth {T} (i : nat) (x : T) (data : list T) : list T :=
  match data, i with
  | [], _ => []
  | _ :: rest, O => x :: rest
  | y :: rest, S j => y :: setNth j x rest
  end.

(** [[data[i], data[j]] = [data[j], data[i]]]. *)
Definition swap {T} (data : list T) (i j : nat) : list T :=
  match nth_error data i, nth_error data j with
  | Some a, Some b => setNth j a (setNth i b data)
  | _, _ => data
  end.

Module MinHeap.
Section Heap.
Context {T : Type}.
Variable compare : T -> T -> Q.

(** [compare(data[i], data[j]) < 0]. *)
Definition lessAt (data : list T) (i j : nat) : bool :=
  match nth_error data i, nth_error data j with
  | Some a, Some b => Qltb (compare a b) 0
  | _, _ => false
  end.

(** [bubbleUp]: [current] decreases at every turn, so [current] turns are
    enough; the fuel is never what stops the loop. *)
Fixpoint bubbleUp (fuel : nat) (data : list T) (current : nat) : list T :=
  match fuel with
  | O => data
  | S fuel' =>
      if (0 <? current)%nat then
        let parent := ((current - 1) / 2)%nat in
        if negb (lessAt data current parent) then data
        else bubbleUp fuel' (swap data current parent) parent
      else data
  end.

Definition push (data : list T) (value : T) : list T :=
  let data' := data ++ [value] in
  bubbleUp (length data') data' (length data' - 1).

(** [bubbleDown]: [current] grows at every turn and stays below the length. *)
Fixpoint bubbleDown (fuel : nat) (data : list T) (current : nat) : list T :=
  match fuel with
  | O => data
  | S fuel' =>
      let len := length data in
      let left := (current * 2 + 1)%nat in
      let right := (left + 1)%nat in
      let smallest := current in
      let smallest :=
        if (left <? len)%nat && lessAt data left smallest then left else smallest in
      let smallest :=
        if (right <? len)%nat && lessAt data right smallest then right else smallest in
      if (smallest =? current)%nat then data
      else bubbleDown fuel' (swap data current smallest) smallest
  end.

(** [pop()]: the top and the remaining heap; [None] on an empty heap. *)
Definition pop (data : list T) : option T * list T :=
  match data with
  | [] => (None, [])
  | top :: _ =>
      let endv := last data top in
      match removelast data with
      | [] => (Some top, [])
      | _ :: rest => (Some top, bubbleDown (S (length rest)) (endv :: rest) 0)
      end
  end.

End Heap.
End MinHeap.

(* ------------------------------------------------------------------ *)
(** ** Shortest-path engine *)

Record HeapEntry : Type := mkHeapEntry { he_nodeId : string; he_distance : Q }.

(** [(a, b) => a.distance - b.distance]. *)
Definition compareEntries (a b : HeapEntry) : Q := he_distance a - he_distance b.

Record DijkstraState : Type := mkDijkstraState {
  ds_dist : Map string dnum;
  ds_prev : Map string PrevStep;
  ds_heap : list HeapEntry
}.

(** [dist.get(k) ?? Number.POSITIVE_INFINITY]. *)
Definition getDist (d : Map string dnum) (k : string) : dnum :=
  match JsMap.get k d with Some x => x | None => PosInf end.

(** One turn of [for (const neighbor of neighbors)]. *)
Definition relaxNeighbor (graph : StreetGraph) (current : HeapEntry)
    (st : DijkstraState) (neighbor : GraphNeighbor) : DijkstraState :=
  match JsMap.get (nb_edgeId neighbor) (edges graph) with
  | None => st
  | Some edge =>
      let nextDistance := he_distance current + edge_distanceKm edge in
      let known := getDist (ds_dist st) (nb_neighbor neighbor) in
      if dnum_ltb (Fin nextDistance) known then
        mkDijkstraState
          (JsMap.set (nb_neighbor neighbor) (Fin nextDistance) (ds_dist st))
          (JsMap.set (nb_neighbor neighbor)
             (mkPrevStep (he_nodeId current) (nb_edgeId neighbor)) (ds_prev st))
          (MinHeap.push compareEntries (ds_heap st)
             (mkHeapEntry (nb_neighbor neighbor) nextDistance))
      else st
  end.

(** [while (heap.size > 0)]: one unit of fuel per turn. *)
Fixpoint dijkstraLoop (fuel : nat) (graph : StreetGraph) (st : DijkstraState)
    : option DijkstraState :=
  match ds_heap st with
  | [] => Some st
  | _ :: _ =>
      match fuel with
      | O => None
      | S fuel' =>
          match MinHeap.pop compareEntries (ds_heap st) with
          | (None, _) => Some st
          | (Some current, heap') =>
              let st1 := mkDijkstraState (ds_dist st) (ds_prev st) heap' in
              let best := getDist (ds_dist st) (he_nodeId current) in
              if dnum_ltb best (Fin (he_distance current)) then
                dijkstraLoop fuel' graph st1
              else
                dijkstraLoop fuel' graph
                  (fold_left (relaxNeighbor graph current)
                     (neighborsOf graph (he_nodeId current)) st1)
          end
      end
  end.

Definition initialDijkstraState (graph : StreetGraph) (startNodeId : string)
    : DijkstraState :=
  let dist0 :=
    fold_left (fun d nodeId => JsMap.set nodeId PosInf d) (JsMap.keys (nodes graph)) [] in
  mkDijkstraState (JsMap.set startNodeId (Fin 0) dist0) []
    (MinHeap.push compareEntries [] (mkHeapEntry startNodeId 0)).

(** Turns the heap loop can take when no edge has a negative length: one for
    the start entry and one for every adjacency record (theorem
    [dijkstraLoop_returns]). *)
Definition dijkstraFuel (graph : StreetGraph) : nat :=
  S (fold_right (fun entry acc => (length (snd entry) + acc)%nat) O (adjacency graph)).

Definition runDijkstraWithin (fuel : nat) (graph : StreetGraph) (startNodeId : string)
    : option DijkstraResult :=
  match dijkstraLoop fuel graph (initialDijkstraState graph startNodeId) with
  | Some st => Some (mkDijkstraResult (ds_dist st) (ds_prev st))
  | None => None
  end.

Definition runDijkstra (graph : StreetGraph) (startNodeId : string)
    : option DijkstraResult :=
  runDijkstraWithin (dijkstraFuel graph) graph startNodeId.

Definition getDijkstraCached (cache : Map string DijkstraResult) (graph : StreetGraph)
    (startNodeId : string) : option (DijkstraResult * Map string DijkstraResult) :=
  match JsMap.get startNodeId cache with
  | Some cached => Some (cached, cache)
  | None =>
      match runDijkstra graph startNodeId with
      | Some computed => Some (computed, JsMap.set startNodeId computed cache)
      | None => None
      end
  end.

(** [while (cursor !== startNodeId)]: the chain of [prev] visits a key at most
    once unless it is cyclic, so [length prev] turns are enough when the
    source returns; [None] is a walk that never ends. The edge ids are
    collected from the end to the start. *)
Fixpoint walkPrev (fuel : nat) (prevMap : Map string PrevStep) (startNodeId cursor : string)
    (acc : list string) : option (option (list string)) :=
  if eqb cursor startNodeId then Some (Some acc)
  else
    match JsMap.get cursor prevMap with
    | None => Some None
    | Some step =>
        match fuel with
        | O => None
        | S fuel' =>
            walkPrev fuel' prevMap startNodeId (prev_nodeId step) (acc ++ [prev_edgeId step])
        end
    end.

Definition reconstructPathEdges (result : DijkstraResult) (startNodeId endNodeId : string)
    : option (list string) :=
  if eqb startNodeId endNodeId then Some []
  else
    match walkPrev (length (prev result)) (prev result) startNodeId endNodeId [] with
    | Some (Some collected) => Some (rev collected)
    | Some None => Some []
    | None => None
    end.

Definition shortestPathEdges (graph : StreetGraph) (cache : Map string DijkstraResult)
    (fromNodeId toNodeId : string)
    : option (dnum * list string * Map string DijkstraResult) :=
  match getDijkstraCached cache graph fromNodeId with
  | None => None
  | Some (result, cache') =>
      let distanceKm := getDist (dist result) toNodeId in
      if negb (isFinite distanceKm) then Some (PosInf, [], cache')
      else
        match reconstructPathEdges result fromNodeId toNodeId with
        | Some edgeIds => Some (distanceKm, edgeIds, cache')
        | None => None
        end
  end.

(* ------------------------------------------------------------------ *)
(** ** Coverage planner *)

(** A number made from a count ([array.length], [set.size]). *)
Definition Qnat (n : nat) : Q := inject_Z (Z.of_nat n).

(** Truthiness of a string: only the empty string is falsy. *)
Definition truthy (s : string) : bool := negb (eqb s "").

Record RouteTraversalStep : Type := mkStep {
  step_edgeId : string;
  step_from : string;
  step_to : string
}.

Record PlannedMove : Type := mkPlannedMove {
  connectorSteps : list RouteTraversalStep;
  targetStep : RouteTraversalStep;
  additionalDistanceKm : Q;
  move_score : Q
}.

Record SpurPlan : Type := mkSpurPlan {
  spur_steps : list RouteTraversalStep;
  totalDistanceKm : Q;
  spur_score : Q
}.

(** The planner's mutable variables. *)
Record PlannerState : Type := mkPlannerState {
  routePoints : list LatLng;
  coveredStreetIds : list string;
  coveredStreetNames : list string;
  rewardedStreetIds : list string;
  coveredNodes : list string;
  traversedEdgeCount : Map string nat;
  dijkstraCache : Map string DijkstraResult;
  currentNodeId : string;
  distanceKm : Q
}.

(** [if (!best || candidate.score > best.score) best = candidate]. *)
Definition better {A} (score : A -> Q) (best : option A) (candidate : A) : option A :=
  match best with
  | None => Some candidate
  | Some b => if Qltb (score b) (score candidate) then Some candidate else best
  end.

(** [completedByStreetId.get(id) ?? false]. *)
Definition isCompleted (completedByStreetId : Map string bool) (streetId : string) : bool :=
  match JsMap.get streetId completedByStreetId with Some b => b | None => false end.

(** [traversedEdgeCount.get(id) ?? 0]. *)
Definition repeatCountOf (counts : Map string nat) (edgeId : string) : nat :=
  match JsMap.get edgeId counts with Some n => n | None => O end.

Fixpoint orientFrom (graph : StreetGraph) (cursor : string) (edgeIds : list string)
    : option (list RouteTraversalStep) :=
  match edgeIds with
  | [] => Some []
  | edgeId :: rest =>
      match JsMap.get edgeId (edges graph) with
      | None => None
      | Some edge =>
          if eqb (edge_from edge) cursor then
            option_map (cons (mkStep edgeId (edge_from edge) (edge_to edge)))
              (orientFrom graph (edge_to edge) rest)
          else if eqb (edge_to edge) cursor then
            option_map (cons (mkStep edgeId (edge_to edge) (edge_from edge)))
              (orientFrom graph (edge_from edge) rest)
          else None
      end
  end.

Definition orientPathEdges (graph : StreetGraph) (startNodeId : string)
    (edgeIds : list string) : option (list RouteTraversalStep) :=
  orientFrom graph startNodeId edgeIds.

Section Planner.

Variable haversineKm : LatLng -> LatLng -> Q.
(** [distancePointToSegmentMeters(p, a, b)]. *)
Variable distancePointToSegmentMeters : LatLng -> LatLng -> LatLng -> Q.
(** [isPointInCityBounds(point, bounds)] with its default padding of 40 m. *)
Variable isPointInCityBounds : LatLng -> CityBounds -> bool.

(** The polyline of the edge in the direction of the step. *)
Definition orientedPathOf (edge : GraphEdge) (step : RouteTraversalStep) : list LatLng :=
  if eqb (edge_from edge) (step_from step) && eqb (edge_to edge) (step_to step)
  then edge_path edge
  else rev (edge_path edge).

(** The points after the step, with the edge walked; [None] is [null]. *)
Definition appendRouteStep (graph : StreetGraph) (step : RouteTraversalStep)
    (points : list LatLng) : option (list LatLng * GraphEdge) :=
  match JsMap.get (step_edgeId step) (edges graph) with
  | None => None
  | Some edge =>
      let orientedPath := orientedPathOf edge step in
      if (length orientedPath <? 2)%nat then None
      else
        let points1 :=
          match points with
          | [] => [firstPoint orientedPath]
          | _ :: _ =>
              if Qltb 0.018 (haversineKm (lastPoint points) (firstPoint orientedPath))
              then points ++ [firstPoint orientedPath]
              else points
          end in
        Some (points1 ++ tl orientedPath, edge)
  end.

(** The state after the step with [nextNodeId] and [distanceKm]; the caller
    adds the distance and moves [currentNodeId]. *)
Definition applyTraversalStep (graph : StreetGraph) (completedByStreetId : Map string bool)
    (step : RouteTraversalStep) (st : PlannerState)
    : option (PlannerState * string * Q) :=
  match appendRouteStep graph step (routePoints st) with
  | None => None
  | Some (points', edge) =>
      let st' :=
        mkPlannerState points'
          (JsSet.add (edge_streetId edge) (coveredStreetIds st))
          (JsSet.add (edge_streetName edge) (coveredStreetNames st))
          (if negb (isCompleted completedByStreetId (edge_streetId edge))
           then JsSet.add (edge_streetId edge) (rewardedStreetIds st)
           else rewardedStreetIds st)
          (JsSet.add (step_to step) (JsSet.add (step_from step) (coveredNodes st)))
          (JsMap.set (edge_id edge)
             (S (repeatCountOf (traversedEdgeCount st) (edge_id edge)))
             (traversedEdgeCount st))
          (dijkstraCache st) (currentNodeId st) (distanceKm st) in
      Some (st', step_to step, edge_distanceKm edge)
  end.

(** [distanceKm += applied.distanceKm; currentNodeId = applied.nextNodeId]. *)
Definition advance (st : PlannerState) (nextNodeId : string) (km : Q) : PlannerState :=
  mkPlannerState (routePoints st) (coveredStreetIds st) (coveredStreetNames st)
    (rewardedStreetIds st) (coveredNodes st) (traversedEdgeCount st)
    (dijkstraCache st) nextNodeId (distanceKm st + km).

Definition withCache (st : PlannerState) (cache : Map string DijkstraResult) : PlannerState :=
  mkPlannerState (routePoints st) (coveredStreetIds st) (coveredStreetNames st)
    (rewardedStreetIds st) (coveredNodes st) (traversedEdgeCount st)
    cache (currentNodeId st) (distanceKm st).

Definition streetDone (completedByStreetId : Map string bool) (rewarded : list string)
    (streetId : string) : bool :=
  isCompleted completedByStreetId streetId || JsSet.has streetId rewarded.

(** The body of [for (let depth = 0; depth < maxDepth && nextEdgeId; ...)]; [fuel]
    is [maxDepth - depth]. The source returns the empty list outright when the
    first edge is done; [forward] is empty then, so stopping is the same. *)
Fixpoint forwardChainLoop (fuel : nat) (graph : StreetGraph)
    (completedByStreetId : Map string bool) (rewarded : list string)
    (current : string) (nextEdgeId : string) (forward : list RouteTraversalStep)
    : list RouteTraversalStep :=
  match fuel with
  | O => forward
  | S fuel' =>
      if negb (truthy nextEdgeId) then forward
      else
        match JsMap.get nextEdgeId (edges graph) with
        | None => forward
        | Some edge =>
            if streetDone completedByStreetId rewarded (edge_streetId edge) then forward
            else
              let toNodeId :=
                if eqb (edge_from edge) current then Some (edge_to edge)
                else if eqb (edge_to edge) current then Some (edge_from edge)
                else None in
              match toNodeId with
              | None => forward
              | Some toNode =>
                  if negb (truthy toNode) then forward
                  else
                    let forward' := forward ++ [mkStep (edge_id edge) current toNode] in
                    let outgoing :=
                      filter (fun entry => negb (eqb (nb_edgeId entry) (edge_id edge)))
                        (neighborsOf graph toNode) in
                    match outgoing with
                    | [only] =>
                        match JsMap.get (nb_edgeId only) (edges graph) with
                        | None => forward'
                        | Some candidateEdge =>
                            if streetDone completedByStreetId rewarded
                                 (edge_streetId candidateEdge)
                            then forward'
                            else
                              forwardChainLoop fuel' graph completedByStreetId rewarded
                                toNode (nb_edgeId only) forward'
                        end
                    | _ => forward'
                    end
              end
        end
  end.

Definition buildDeadEndForwardChainFromNode (graph : StreetGraph) (anchorNodeId : string)
    (firstEdgeId : string) (completedByStreetId : Map string bool)
    (rewarded : list string) : list RouteTraversalStep :=
  let forward :=
    forwardChainLoop 12 graph completedByStreetId rewarded anchorNodeId firstEdgeId [] in
  match forward with
  | [] => []
  | first :: _ =>
      let terminalNodeId := step_to (last forward first) in
      if negb (degreeOf graph terminalNodeId =? 1)%nat then [] else forward
  end.

Definition reverseStep (step : RouteTraversalStep) : RouteTraversalStep :=
  mkStep (step_edgeId step) (step_to step) (step_from step).

(** The accumulators of [for (const step of forward)]. *)
Definition spurTally (graph : StreetGraph)
    (acc : Q * list string * list string) (step : RouteTraversalStep)
    : Q * list string * list string :=
  let '(oneWay, streetIds, nodeIds) := acc in
  match JsMap.get (step_edgeId step) (edges graph) with
  | None => acc
  | Some edge =>
      (oneWay + edge_distanceKm edge,
       JsSet.add (edge_streetId edge) streetIds,
       JsSet.add (step_to step) (JsSet.add (step_from step) nodeIds))
  end.

Definition countMissing (xs : list string) (covered : list string) : nat :=
  length (filter (fun x => negb (JsSet.has x covered)) xs).

(** One neighbor of [findBestDeadEndSpurAtNode]: the candidate spur, if any. *)
Definition spurCandidate (graph : StreetGraph) (current : string)
    (targetKmN currentDistanceKm hardMaxKm : Q)
    (completedByStreetId : Map string bool) (st : PlannerState)
    (neighbor : GraphNeighbor) : option SpurPlan :=
  let forward :=
    buildDeadEndForwardChainFromNode graph current (nb_edgeId neighbor)
      completedByStreetId (rewardedStreetIds st) in
  match forward with
  | [] => None
  | _ :: _ =>
      let '(oneWayDistanceKm, forwardStreetIds, forwardNodeIds) :=
        fold_left (spurTally graph) forward (0, [], []) in
      let total := oneWayDistanceKm * 2 in
      let nextDistanceKm := currentDistanceKm + total in
      if Qltb hardMaxKm nextDistanceKm && Qleb (targetKmN * 0.5) currentDistanceKm
      then None
      else
        let newStreetGain := Qnat (countMissing forwardStreetIds (coveredStreetIds st)) in
        let newNodeGain := Qnat (countMissing forwardNodeIds (coveredNodes st)) in
        let branchLengthBonus := Qmin 1.4 (oneWayDistanceKm * 1.8) in
        let budgetFit :=
          1 - Qmin 1.5 (Qabs (targetKmN - nextDistanceKm) / Qmax 0.85 (targetKmN * 0.55)) in
        let score :=
          (newStreetGain * 4.6 + newNodeGain * 2.5 + branchLengthBonus) / (total + 0.07)
          + budgetFit * 1.1 in
        Some (mkSpurPlan (forward ++ map reverseStep (rev forward)) total score)
  end.

Definition findBestDeadEndSpurAtNode (graph : StreetGraph) (current : string)
    (targetKmN currentDistanceKm hardMaxKm : Q)
    (completedByStreetId : Map string bool) (st : PlannerState) : option SpurPlan :=
  fold_left
    (fun best neighbor =>
       match spurCandidate graph current targetKmN currentDistanceKm hardMaxKm
               completedByStreetId st neighbor with
       | None => best
       | Some candidate => better spur_score best candidate
       end)
    (neighborsOf graph current) None.

(** The edges at [current] that still wait as a short branch
    ([pendingBranchEdgeIds]). *)
Definition pendingBranchEdgeIds (graph : StreetGraph) (current : string)
    (completedByStreetId : Map string bool) (rewarded : list string) : list string :=
  fold_left (fun s e => JsSet.add e s)
    (map nb_edgeId
       (filter
          (fun entry =>
             match JsMap.get (nb_edgeId entry) (edges graph) with
             | None => false
             | Some edge =>
                 if isCompleted completedByStreetId (edge_streetId edge) then false
                 else if JsSet.has (edge_streetId edge) rewarded then false
                 else (degreeOf graph (nb_neighbor entry) <=? 2)%nat
             end)
          (neighborsOf graph current)))
    [].

(** [connectorRepeatPenalty] of a connector. *)
Definition connectorRepeatPenaltyOf (graph : StreetGraph) (counts : Map string nat)
    (connectorEdgeIds : list string) : Q :=
  fold_left
    (fun penalty connectorEdgeId =>
       match JsMap.get connectorEdgeId (edges graph) with
       | None => penalty
       | Some connectorEdge =>
           let repeatCount := repeatCountOf counts connectorEdgeId in
           if (0 <? repeatCount)%nat
           then penalty + edge_distanceKm connectorEdge * Qmin 2.4 (Qnat repeatCount)
           else penalty
       end)
    connectorEdgeIds 0.

(** One edge of [findBestCoverageMove]: outer [None] when the walk back along
    [prev] does not return, inner [None] for [continue]. *)
Definition coverageCandidate (graph : StreetGraph) (current : string)
    (targetKmN currentDistanceKm hardMaxKm : Q) (fromCurrent : DijkstraResult)
    (pending : list string) (completedByStreetId : Map string bool)
    (st : PlannerState) (edge : GraphEdge) : option (option PlannedMove) :=
  if isCompleted completedByStreetId (edge_streetId edge) then Some None
  else if JsSet.has (edge_streetId edge) (rewardedStreetIds st) then Some None
  else
    let toFrom := getDist (dist fromCurrent) (edge_from edge) in
    let toTo := getDist (dist fromCurrent) (edge_to edge) in
    if negb (isFinite toFrom) && negb (isFinite toTo) then Some None
    else
    let approachFrom := dnum_leb toFrom toTo in
    match (if approachFrom then toFrom else toTo) with
    | PosInf => Some None (* not reached: the smaller of the two is finite *)
    | Fin connectorDistanceKm =>
        let connectorNode := if approachFrom then edge_from edge else edge_to edge in
        let target :=
          if approachFrom then mkStep (edge_id edge) (edge_from edge) (edge_to edge)
          else mkStep (edge_id edge) (edge_to edge) (edge_from edge) in
        let additional := connectorDistanceKm + edge_distanceKm edge in
        let nextDistanceKm := currentDistanceKm + additional in
        if Qltb hardMaxKm nextDistanceKm && Qleb (targetKmN * 0.45) currentDistanceKm
        then Some None
        else
          match reconstructPathEdges fromCurrent current connectorNode with
          | None => None
          | Some connectorEdgeIds =>
              match orientPathEdges graph current connectorEdgeIds with
              | None => Some None
              | Some connector =>
                  let connectorRepeatPenalty :=
                    connectorRepeatPenaltyOf graph (traversedEdgeCount st) connectorEdgeIds in
                  let firstTravelEdgeId :=
                    match connector with
                    | first :: _ => step_edgeId first
                    | [] => step_edgeId target
                    end in
                  let skipNearbyBranchPenalty :=
                    if (0 <? JsSet.size pending)%nat
                       && negb (JsSet.has firstTravelEdgeId pending)
                       && Qleb currentDistanceKm (targetKmN * 0.95)
                    then Qmin 3.6 (Qnat (JsSet.size pending) * 1.18)
                    else 0 in
                  let remainingKm := Qmax 0 (targetKmN - currentDistanceKm) in
                  let newStreetGain :=
                    if JsSet.has (edge_streetId edge) (coveredStreetIds st) then 0 else 1 in
                  let newNodeGain :=
                    (if JsSet.has (step_from target) (coveredNodes st) then 0 else 1)
                    + (if JsSet.has (step_to target) (coveredNodes st) then 0 else 1) in
                  let fromDegree := degreeOf graph (edge_from edge) in
                  let toDegree := degreeOf graph (edge_to edge) in
                  let leafBonus :=
                    if (fromDegree =? 1)%nat || (toDegree =? 1)%nat then 1.75 else 0 in
                  let branchTailBonus :=
                    if (fromDegree <=? 2)%nat || (toDegree <=? 2)%nat then 0.35 else 0 in
                  let proximityBonus := Qmax 0 (1.35 - connectorDistanceKm) * 0.7 in
                  let usefulDistanceBonus := Qmin 1.5 (edge_distanceKm edge * 1.35) in
                  let budgetFit :=
                    1 - Qmin 1.4 (Qabs (remainingKm - additional) / Qmax 0.7 (targetKmN * 0.5)) in
                  let overshootPenalty :=
                    if Qltb (targetKmN * 1.08) nextDistanceKm
                    then (nextDistanceKm - targetKmN * 1.08) * 1.9
                    else 0 in
                  let score :=
                    (newStreetGain * 3.8 + newNodeGain * 2.0 + leafBonus + branchTailBonus
                     + proximityBonus + usefulDistanceBonus) / (additional + 0.08)
                    + budgetFit * 1.45
                    - overshootPenalty
                    - connectorRepeatPenalty * 2.1
                    - skipNearbyBranchPenalty in
                  Some (Some (mkPlannedMove connector target additional score))
              end
          end
    end.

Fixpoint bestCoverageOver (candidateOf : GraphEdge -> option (option PlannedMove))
    (es : list GraphEdge) (best : option PlannedMove) : option (option PlannedMove) :=
  match es with
  | [] => Some best
  | edge :: rest =>
      match candidateOf edge with
      | None => None
      | Some None => bestCoverageOver candidateOf rest best
      | Some (Some candidate) =>
          bestCoverageOver candidateOf rest (better move_score best candidate)
      end
  end.

(** The best move and the Dijkstra cache after the lookup; [None] when the
    shortest-path engine does not return. *)
Definition findBestCoverageMove (graph : StreetGraph) (current : string)
    (targetKmN currentDistanceKm hardMaxKm : Q)
    (completedByStreetId : Map string bool) (st : PlannerState)
    : option (option PlannedMove * Map string DijkstraResult) :=
  match getDijkstraCached (dijkstraCache st) graph current with
  | None => None
  | Some (fromCurrent, cache') =>
      let pending :=
        pendingBranchEdgeIds graph current completedByStreetId (rewardedStreetIds st) in
      match bestCoverageOver
              (coverageCandidate graph current targetKmN currentDistanceKm hardMaxKm
                 fromCurrent pending completedByStreetId st)
              (JsMap.values (edges graph)) None with
      | None => None
      | Some best => Some (best, cache')
      end
  end.

Definition branchCandidate (graph : StreetGraph) (current : string)
    (targetKmN currentDistanceKm hardMaxKm : Q)
    (completedByStreetId : Map string bool) (st : PlannerState)
    (currentDegree : nat) (neighbor : GraphNeighbor)
    : option (RouteTraversalStep * Q) :=
  match JsMap.get (nb_edgeId neighbor) (edges graph) with
  | None => None
  | Some edge =>
      let completed := isCompleted completedByStreetId (edge_streetId edge) in
      let isNewReward :=
        negb completed && negb (JsSet.has (edge_streetId edge) (rewardedStreetIds st)) in
      if negb isNewReward then None
      else if (0 <? repeatCountOf (traversedEdgeCount st) (edge_id edge))%nat then None
      else
        let neighborDegree := degreeOf graph (nb_neighbor neighbor) in
        if (2 <? neighborDegree)%nat then None
        else if Qltb 1.2 (edge_distanceKm edge) then None
        else
          let nextDistanceKm := currentDistanceKm + edge_distanceKm edge in
          if Qltb hardMaxKm nextDistanceKm && Qleb (targetKmN * 0.52) currentDistanceKm
          then None
          else
            let nodeGain := if JsSet.has (nb_neighbor neighbor) (coveredNodes st) then 0 else 1 in
            let culdesacBonus := if (neighborDegree =? 1)%nat then 4.0 else 2.25 in
            let branchExitBonus := if (3 <=? currentDegree)%nat then 1.45 else 0.35 in
            let shortEdgeBonus := Qmax 0 (0.95 - edge_distanceKm edge) * 1.25 in
            let budgetFit :=
              1 - Qmin 1.25 (Qabs (targetKmN - nextDistanceKm) / Qmax 0.8 (targetKmN * 0.55)) in
            let score :=
              culdesacBonus + branchExitBonus + shortEdgeBonus + nodeGain * 1.2 + budgetFit in
            Some (mkStep (edge_id edge) current (nb_neighbor neighbor), score)
  end.

Definition findBestImmediateBranchStep (graph : StreetGraph) (current : string)
    (targetKmN currentDistanceKm hardMaxKm : Q)
    (completedByStreetId : Map string bool) (st : PlannerState)
    : option RouteTraversalStep :=
  let neighbors := neighborsOf graph current in
  option_map fst
    (fold_left
       (fun best neighbor =>
          match branchCandidate graph current targetKmN currentDistanceKm hardMaxKm
                  completedByStreetId st (length neighbors) neighbor with
          | None => best
          | Some candidate => better snd best candidate
          end)
       neighbors None).

Definition localCandidate (graph : StreetGraph) (current : string)
    (targetKmN currentDistanceKm hardMaxKm : Q)
    (completedByStreetId : Map string bool) (st : PlannerState)
    (neighbor : GraphNeighbor) : option (RouteTraversalStep * Q) :=
  match JsMap.get (nb_edgeId neighbor) (edges graph) with
  | None => None
  | Some edge =>
      let nextDistanceKm := currentDistanceKm + edge_distanceKm edge in
      if Qltb hardMaxKm nextDistanceKm && Qleb (targetKmN * 0.55) currentDistanceKm
      then None
      else
        let repeatCount := repeatCountOf (traversedEdgeCount st) (edge_id edge) in
        let completed := isCompleted completedByStreetId (edge_streetId edge) in
        let isNewReward :=
          negb completed && negb (JsSet.has (edge_streetId edge) (rewardedStreetIds st)) in
        let nodeGain := if JsSet.has (nb_neighbor neighbor) (coveredNodes st) then 0 else 1 in
        let neighborDegree := degreeOf graph (nb_neighbor neighbor) in
        let culdesacBonus :=
          if (neighborDegree =? 1)%nat then 3.1
          else if (neighborDegree =? 2)%nat then 0.8 else 0 in
        let score :=
          (if isNewReward then 2.7 else 0.55)
          + nodeGain * 1.0
          + culdesacBonus
          - Qnat repeatCount * 0.92
          - (if completed then 0.3 else 0)
          - Qabs (targetKmN - nextDistanceKm) * 0.12 in
        Some (mkStep (edge_id edge) current (nb_neighbor neighbor), score)
  end.

Definition findBestLocalExtension (graph : StreetGraph) (current : string)
    (targetKmN currentDistanceKm hardMaxKm : Q)
    (completedByStreetId : Map string bool) (st : PlannerState)
    : option RouteTraversalStep :=
  option_map fst
    (fold_left
       (fun best neighbor =>
          match localCandidate graph current targetKmN currentDistanceKm hardMaxKm
                  completedByStreetId st neighbor with
          | None => best
          | Some candidate => better snd best candidate
          end)
       (neighborsOf graph current) None).

(* ------------------------------------------------------------------ *)
(** ** The planner's loops *)

Section Loops.

Variable graph : StreetGraph.
Variable completedByStreetId : Map string bool.
Variable targetKmN : Q.   (* normalizedTargetKm *)
Variable hardMaxKm : Q.

(** [for (const spurStep of spur.steps)]: the state and [failedSpur]. *)
Fixpoint applySpurSteps (steps : list RouteTraversalStep) (st : PlannerState)
    : PlannerState * bool :=
  match steps with
  | [] => (st, false)
  | spurStep :: rest =>
      match applyTraversalStep graph completedByStreetId spurStep st with
      | None => (st, true)
      | Some (st', nextNodeId, km) => applySpurSteps rest (advance st' nextNodeId km)
      end
  end.

(** [runDeadEndSpurSweeps(maxSweeps)]; the argument counts the sweeps left
    ([maxSweeps - spurSweeps]). *)
Fixpoint runDeadEndSpurSweeps (sweepsLeft : nat) (st : PlannerState) : PlannerState :=
  match sweepsLeft with
  | O => st
  | S sweepsLeft' =>
      if negb (Qltb (distanceKm st) hardMaxKm) then st
      else
        let anchorNodeId := currentNodeId st in
        match findBestDeadEndSpurAtNode graph (currentNodeId st) targetKmN
                (distanceKm st) hardMaxKm completedByStreetId st with
        | None => st
        | Some spur =>
            if Qltb hardMaxKm (distanceKm st + totalDistanceKm spur)
               && Qleb (targetKmN * 0.48) (distanceKm st)
            then st
            else
              let '(st1, failedSpur) := applySpurSteps (spur_steps spur) st in
              if failedSpur || negb (eqb (currentNodeId st1) anchorNodeId) then st1
              else if Qleb hardMaxKm (distanceKm st1)
                      || Qleb (targetKmN * 1.02) (distanceKm st1)
              then st1
              else runDeadEndSpurSweeps sweepsLeft' st1
        end
  end.

(** [runImmediateBranchSweep(maxSteps)]; the argument counts the steps left. *)
Fixpoint runImmediateBranchSweep (stepsLeft : nat) (st : PlannerState) : PlannerState :=
  match stepsLeft with
  | O => st
  | S stepsLeft' =>
      if negb (Qltb (distanceKm st) hardMaxKm) then st
      else
        match findBestImmediateBranchStep graph (currentNodeId st) targetKmN
                (distanceKm st) hardMaxKm completedByStreetId st with
        | None => st
        | Some branchStep =>
            match applyTraversalStep graph completedByStreetId branchStep st with
            | None => st
            | Some (st', nextNodeId, km) =>
                let st1 := runDeadEndSpurSweeps 2 (advance st' nextNodeId km) in
                if Qleb hardMaxKm (distanceKm st1)
                   || Qleb (targetKmN * 1.03) (distanceKm st1)
                then st1
                else runImmediateBranchSweep stepsLeft' st1
            end
        end
  end.

(** [for (const connectorStep of move.connectorSteps)]: the state and [aborted]. *)
Fixpoint walkConnector (steps : list RouteTraversalStep) (st : PlannerState)
    : PlannerState * bool :=
  match steps with
  | [] => (st, false)
  | connectorStep :: rest =>
      match JsMap.get (step_edgeId connectorStep) (edges graph) with
      | None => (st, true)
      | Some connectorEdge =>
          if Qltb hardMaxKm (distanceKm st + edge_distanceKm connectorEdge)
             && Qleb (targetKmN * 0.55) (distanceKm st)
          then (st, true)
          else
            match applyTraversalStep graph completedByStreetId connectorStep st with
            | None => (st, true)
            | Some (st', nextNodeId, km) =>
                let st1 := runDeadEndSpurSweeps 3 (advance st' nextNodeId km) in
                let st2 := runImmediateBranchSweep 2 st1 in
                if Qleb hardMaxKm (distanceKm st2)
                   || Qleb (targetKmN * 1.04) (distanceKm st2)
                then (st2, false)
                else walkConnector rest st2
            end
      end
  end.

(** What one turn of the main loop does after the two sweeps and the check
    against the ceiling: the state, and whether the loop goes on. Outer [None]:
    the shortest-path engine does not return. *)
Definition coverageTurn (st : PlannerState) : option (PlannerState * bool) :=
  match findBestCoverageMove graph (currentNodeId st) targetKmN (distanceKm st)
          hardMaxKm completedByStreetId st with
  | None => None
  | Some (None, cache') =>
      let st := withCache st cache' in
      if Qleb (targetKmN * 0.72) (distanceKm st)
         && (0 <? JsSet.size (rewardedStreetIds st))%nat
      then Some (st, false)
      else
        match findBestLocalExtension graph (currentNodeId st) targetKmN (distanceKm st)
                hardMaxKm completedByStreetId st with
        | None => Some (st, false)
        | Some localStep =>
            match applyTraversalStep graph completedByStreetId localStep st with
            | None => Some (st, false)
            | Some (st', nextNodeId, km) => Some (advance st' nextNodeId km, true)
            end
        end
  | Some (Some move, cache') =>
      let st := withCache st cache' in
      let '(st1, aborted) := walkConnector (connectorSteps move) st in
      if aborted then Some (st1, false)
      else
        match JsMap.get (step_edgeId (targetStep move)) (edges graph) with
        | None => Some (st1, false)
        | Some targetEdge =>
            if Qltb hardMaxKm (distanceKm st1 + edge_distanceKm targetEdge)
               && Qleb (targetKmN * 0.55) (distanceKm st1)
            then Some (st1, false)
            else
              match applyTraversalStep graph completedByStreetId (targetStep move) st1 with
              | None => Some (st1, false)
              | Some (st', nextNodeId, km) =>
                  let st2 := runDeadEndSpurSweeps 3 (advance st' nextNodeId km) in
                  let st3 := runImmediateBranchSweep 2 st2 in
                  if Qleb (targetKmN * 1.03) (distanceKm st3)
                     && (0 <? JsSet.size (rewardedStreetIds st3))%nat
                  then Some (st3, false)
                  else Some (st3, true)
              end
        end
  end.

(** [while (distanceKm < hardMaxKm && iterations < maxIterations)]; the
    argument counts the iterations left. *)
Fixpoint mainLoop (iterationsLeft : nat) (st : PlannerState) : option PlannerState :=
  match iterationsLeft with
  | O => Some st
  | S iterationsLeft' =>
      if negb (Qltb (distanceKm st) hardMaxKm) then Some st
      else
        let st1 := runDeadEndSpurSweeps 5 st in
        let st2 := runImmediateBranchSweep 6 st1 in
        if Qleb hardMaxKm (distanceKm st2) then Some st2
        else
          match coverageTurn st2 with
          | None => None
          | Some (st3, false) => Some st3
          | Some (st3, true) => mainLoop iterationsLeft' st3
          end
  end.

End Loops.

(* ------------------------------------------------------------------ *)
(** ** Candidate selection and the planner's entry point *)

Definition isStreetInsideCityBounds (street : StreetSegment) (bounds : CityBounds) : bool :=
  if (length (seg_path street) <? 2)%nat then false
  else if negb (isPointInCityBounds (firstPoint (seg_path street)) bounds)
          || negb (isPointInCityBounds (lastPoint (seg_path street)) bounds)
  then false
  else
    let insideCount :=
      length (filter (fun point => isPointInCityBounds point bounds) (seg_path street)) in
    Qleb 0.72 (Qnat insideCount / Qnat (length (seg_path street))).

Definition filterStreetsToCityBounds (streets : list StreetSegment) (bounds : CityBounds)
    : list StreetSegment :=
  filter (fun street => isStreetInsideCityBounds street bounds) streets.

(** [array.sort((a, b) => a.entry - b.entry)]: the sort is stable, so an entry
    goes after the entries that are not larger. *)
Fixpoint insertByEntry (x : StreetSegment * Q) (sorted : list (StreetSegment * Q))
    : list (StreetSegment * Q) :=
  match sorted with
  | [] => [x]
  | y :: rest =>
      if Qltb (snd x) (snd y) then x :: y :: rest else y :: insertByEntry x rest
  end.

Definition sortByEntry (l : list (StreetSegment * Q)) : list (StreetSegment * Q) :=
  fold_left (fun sorted x => insertByEntry x sorted) l [].

Definition selectCandidateStreets (streets : list StreetSegment) (home : LatLng)
    (targetKm : Q) : list StreetSegment :=
  let normalizedTargetKm := Qmax 0.8 targetKm in
  let scored :=
    sortByEntry
      (map
         (fun street =>
            let start := firstPoint (seg_path street) in
            let finish := lastPoint (seg_path street) in
            (street, Qmin (haversineKm home start) (haversineKm home finish)))
         (filter (fun street => (2 <=? length (seg_path street))%nat) streets)) in
  match scored with
  | [] => []
  | _ :: _ =>
      let radius := Qmax 2.2 (Qmin 32 (normalizedTargetKm * 1.45 + 1.3)) in
      let maxByRadius := Z.min 4200 (Z.max 320 (Math_round (normalizedTargetKm * 168))) in
      let byRadius :=
        map fst
          (firstn (Z.to_nat maxByRadius)
             (filter (fun entry => Qleb (snd entry) radius) scored)) in
      if (Z.max 120 (Math_round (normalizedTargetKm * 22)) <=? Z.of_nat (length byRadius))%Z
      then byRadius
      else
        let fallbackCount :=
          Z.min (Z.of_nat (length scored))
            (Z.max 320 (Math_round (normalizedTargetKm * 72))) in
        map fst (firstn (Z.to_nat fallbackCount) scored)
  end.

Definition findNearestNodeId (ns : Map string GraphNode) (target : LatLng) : option string :=
  fst
    (fold_left
       (fun (acc : option string * dnum) node =>
          let distance := haversineKm (node_point node) target in
          if dnum_ltb (Fin distance) (snd acc) then (Some (node_id node), Fin distance)
          else acc)
       (JsMap.values ns) (None, PosInf)).

Fixpoint minSegmentDistance (point : LatLng) (path : list LatLng) (minDistance : dnum) : dnum :=
  match path with
  | a :: (b :: _) as rest =>
      let distance := distancePointToSegmentMeters point a b in
      minSegmentDistance point rest
        (if dnum_ltb (Fin distance) minDistance then Fin distance else minDistance)
  | _ => minDistance
  end.

Definition distancePointToPathMeters (point : LatLng) (path : list LatLng) : dnum :=
  if (length path <? 2)%nat then PosInf else minSegmentDistance point path PosInf.

Definition NODE_CAPTURE_RADIUS_METERS : Q := 6.096.

Definition coveredNodeIdsForPath (points : list LatLng) (ns : list RouteNode) : list string :=
  map rn_id
    (filter
       (fun node =>
          dnum_leb (distancePointToPathMeters (rn_point node) points)
            (Fin NODE_CAPTURE_RADIUS_METERS))
       ns).

Definition hardMaxKmOf (normalizedTargetKm : Q) : Q :=
  Qmax 1.2 (normalizedTargetKm * 1.1 + 0.35).

Definition maxIterationsOf (normalizedTargetKm : Q) : nat :=
  Z.to_nat (Z.max 140 (Math_round (normalizedTargetKm * 95))).

Definition initialPlannerState (startNodeId : string) : PlannerState :=
  mkPlannerState [] [] [] [] [startNodeId] [] [] startNodeId 0.

(** The value returned when the loop has ended. [uuid] is what
    [crypto.randomUUID()] draws in this run. *)
Definition finishRoute (uuid : string) (graph : StreetGraph) (st : PlannerState)
    : option SuggestedRoute :=
  if (length (routePoints st) <? 2)%nat || (JsSet.size (coveredStreetIds st) =? 0)%nat
  then None
  else
    let availableNodes :=
      map (fun node => mkRouteNode (node_id node) (node_point node))
        (JsMap.values (nodes graph)) in
    let coveredNodeIds := coveredNodeIdsForPath (routePoints st) availableNodes in
    let coveredNodePoints :=
      flat_map
        (fun i =>
           match JsMap.get i (nodes graph) with
           | Some node => [node_point node]
           | None => []
           end)
        coveredNodeIds in
    let miles := distanceKm st * 0.621371 in
    Some
      (mkSuggestedRoute
         ("route-" ++ uuid)
         ("Efficient Coverage Plan (" ++ toFixed 1 miles ++ " mi)")
         (routePoints st)
         (coveredStreetIds st)
         (coveredStreetNames st)
         (distanceKm st)
         "efficient_coverage"
         coveredNodeIds
         coveredNodePoints
         availableNodes).

(** The candidates the planner works on. *)
Definition plannerCandidates (streets : list StreetSegment) (home : LatLng)
    (targetKm : Q) (cityBounds : option CityBounds) : list StreetSegment :=
  let normalizedTargetKm := Qmax 0.8 targetKm in
  let inCityStreets :=
    match cityBounds with
    | Some bounds => filterStreetsToCityBounds streets bounds
    | None => streets
    end in
  selectCandidateStreets inCityStreets home normalizedTargetKm.

(** [buildEfficientCoverageRoute]. Outer [None]: the call does not return;
    [Some None]: it returns [null]. *)
Definition buildEfficientCoverageRoute (uuid : string) (streets : list StreetSegment)
    (home : LatLng) (targetKm : Q) (cityBounds : option CityBounds)
    : option (option SuggestedRoute) :=
  let normalizedTargetKm := Qmax 0.8 targetKm in
  let candidates := plannerCandidates streets home targetKm cityBounds in
  match candidates with
  | [] => Some None
  | _ :: _ =>
      let graph := buildStreetGraph haversineKm candidates in
      if (JsMap.size (edges graph) =? 0)%nat || (JsMap.size (nodes graph) =? 0)%nat
      then Some None
      else
        match findNearestNodeId (nodes graph) home with
        | None => Some None
        | Some startNodeId =>
            if negb (truthy startNodeId) then Some None
            else
              let completedByStreetId :=
                fold_left
                  (fun m street => JsMap.set (seg_id street) (seg_completed street) m)
                  candidates [] in
              let unfinishedCount :=
                length (filter (fun street => negb (seg_completed street)) candidates) in
              if (unfinishedCount =? 0)%nat then Some None
              else
                let hardMaxKm := hardMaxKmOf normalizedTargetKm in
                match mainLoop graph completedByStreetId normalizedTargetKm hardMaxKm
                        (maxIterationsOf normalizedTargetKm)
                        (initialPlannerState startNodeId) with
                | None => None
                | Some st => Some (finishRoute uuid graph st)
                end
        end
  end.

(** [buildEulerianRoute]. *)
Definition buildEulerianRoute (uuid : string) (streets : list StreetSegment)
    (home : LatLng) (targetKm : Q) (cityBounds : option CityBounds)
    : option (option SuggestedRoute) :=
  buildEfficientCoverageRoute uuid streets home targetKm cityBounds.

End Planner.


(* ------------------------------------------------------------------ *)
(** ** Strings

    A string is read as its sequence of code units; the model covers code
    units below 256 (Latin-1), where [\s] and [trim] agree on the white space
    9-13, 32 and 160, and [toLowerCase] moves A-Z and the accented capitals
    192-214 and 216-222 up by 32. *)

Definition isWhitespace (c : ascii) : bool :=
  let n := nat_of_ascii c in
  ((9 <=? n) && (n <=? 13) || (n =? 32) || (n =? 160))%nat.

Definition lowerChar (c : ascii) : ascii :=
  let n := nat_of_ascii c in
  if ((65 <=? n) && (n <=? 90)
      || (192 <=? n) && (n <=? 214)
      || (216 <=? n) && (n <=? 222))%nat
  then ascii_of_nat (n + 32)
  else c.

Fixpoint dropLeadingWs (l : list ascii) : list ascii :=
  match l with
  | c :: rest => if isWhitespace c then dropLeadingWs rest else l
  | [] => []
  end.

(** [s.trim()] on code units. *)
Definition trimChars (l : list ascii) : list ascii :=
  rev (dropLeadingWs (rev (dropLeadingWs l))).

(** [s.replace(/\s+/g, " ")]: every maximal run of white space becomes one
    space; [inRun] tells that the run has begun. *)
Fixpoint collapseRun (inRun : bool) (l : list ascii) : list ascii :=
  match l with
  | [] => []
  | c :: rest =>
      if isWhitespace c then
        if inRun then collapseRun true rest else " "%char :: collapseRun true rest
      else c :: collapseRun false rest
  end.

Definition collapseWs (l : list ascii) : list ascii := collapseRun false l.

(** [s.replace(/\./g, "")]. *)
Definition removePeriods (l : list ascii) : list ascii :=
  filter (fun c => negb (Ascii.eqb c "."%char)) l.

Definition jsTrim (s : string) : string :=
  string_of_list_ascii (trimChars (list_ascii_of_string s)).

Definition toLowerCase (s : string) : string :=
  string_of_list_ascii (map lowerChar (list_ascii_of_string s)).

Definition normalizeChars (l : list ascii) : list ascii :=
  collapseWs (removePeriods (map lowerChar (trimChars l))).

Definition normalizeStreetName (name : string) : string :=
  string_of_list_ascii (normalizeChars (list_ascii_of_string name)).

(* ------------------------------------------------------------------ *)
(** ** Overpass payload *)

Record OverpassWayTags : Type := mkTags {
  tag_name : option string;
  tag_ref : option string;
  tag_alt_name : option string;
  tag_official_name : option string;
  tag_highway : option string;
  tag_access : option string;
  tag_foot : option string;
  tag_area : option string;
  tag_service : option string
}.

Inductive ElementType : Type := ElNode | ElWay.

Record OverpassElement : Type := mkElement {
  el_type : ElementType;
  el_id : Z;
  el_lat : option Q;
  el_lon : option Q;
  el_nodes : option (list Z);
  el_tags : option OverpassWayTags
}.

Record OverpassPayload : Type := mkPayload {
  elements : option (list OverpassElement)
}.

Record Way : Type := mkWay { way_id : Z; way_name : string; way_nodes : list Z }.

(** [tags.field?.trim().toLowerCase()]. *)
Definition normTag (field : option string) : option string :=
  option_map (fun s => toLowerCase (jsTrim s)) field.

Definition tagIs (field : option string) (value : string) : bool :=
  match normTag field with Some s => eqb s value | None => false end.

Definition allowedRoadTypes : list string :=
  ["residential"; "unclassified"; "tertiary"; "secondary"; "primary"; "living_street"].

Definition isRunnableCityStreet (tags : option OverpassWayTags) : bool :=
  match tags with
  | None => false
  | Some tags =>
      match normTag (tag_highway tags) with
      | None => false
      | Some highway =>
          if negb (truthy highway) then false
          else if negb (JsSet.has highway allowedRoadTypes) then false
          else if tagIs (tag_access tags) "private" || tagIs (tag_access tags) "no" then false
          else if tagIs (tag_foot tags) "private" || tagIs (tag_foot tags) "no" then false
          else if tagIs (tag_area tags) "yes" then false
          else
            match tag_name tags with
            | Some n => truthy (jsTrim n)
            | None => false
            end
      end
  end.

Definition payloadElements (payload : OverpassPayload) : list OverpassElement :=
  match elements payload with Some l => l | None => [] end.

(** First loop: [nodeMap]. *)
Definition collectNodes (payload : OverpassPayload) : Map Z LatLng :=
  fold_left
    (fun nodeMap element =>
       match el_type element, el_lat element, el_lon element with
       | ElNode, Some la, Some lo => JsMap.set (el_id element) (mkLatLng la lo) nodeMap
       | _, _, _ => nodeMap
       end)
    (payloadElements payload) [].

(** Second loop: the retained [ways]. *)
Definition retainedWay (element : OverpassElement) : option Way :=
  match el_type element with
  | ElNode => None
  | ElWay =>
      if negb (isRunnableCityStreet (el_tags element)) then None
      else
        match el_nodes element with
        | None => None
        | Some ns =>
            if (length ns <? 2)%nat then None
            else
              match el_tags element with
              | None => None
              | Some tags =>
                  match tag_name tags with
                  | None => None
                  | Some n =>
                      let name := jsTrim n in
                      if negb (truthy name) then None
                      else Some (mkWay (el_id element) name ns)
                  end
              end
        end
  end.

Definition retainedWays (payload : OverpassPayload) : list Way :=
  flat_map (fun element => match retainedWay element with Some w => [w] | None => [] end)
    (payloadElements payload).

(** [nodeUsage.get(id) ?? 0]. *)
Definition usageOf (nodeUsage : Map Z nat) (nodeId : Z) : nat :=
  match JsMap.get nodeId nodeUsage with Some n => n | None => O end.

Definition countNodeUsage (ways : list Way) : Map Z nat :=
  fold_left
    (fun usage way =>
       fold_left (fun usage nodeId => JsMap.set nodeId (S (usageOf usage nodeId)) usage)
         (way_nodes way) usage)
    ways [].

(** [array.sort((a, b) => a - b)] on indices. *)
Fixpoint insertNat (x : nat) (sorted : list nat) : list nat :=
  match sorted with
  | [] => [x]
  | y :: rest => if (x <? y)%nat then x :: y :: rest else y :: insertNat x rest
  end.

Definition sortNat (l : list nat) : list nat :=
  fold_left (fun sorted x => insertNat x sorted) l [].

(** [orderedSplits] of a way. *)
Definition orderedSplits (nodeUsage : Map Z nat) (way : Way) : list nat :=
  let len := length (way_nodes way) in
  let splitIndices :=
    fold_left
      (fun splits i =>
         match nth_error (way_nodes way) i with
         | Some nodeId =>
             if (1 <? usageOf nodeUsage nodeId)%nat then JsSet.add i splits else splits
         | None => splits
         end)
      (seq 1 (len - 2))
      (JsSet.add (len - 1)%nat (JsSet.add O [])) in
  sortNat splitIndices.

(** The coordinates of the nodes, or [None] for [hasMissingNode]. *)
Fixpoint lookupPath (nodeMap : Map Z LatLng) (nodeIds : list Z) : option (list LatLng) :=
  match nodeIds with
  | [] => Some []
  | nodeId :: rest =>
      match JsMap.get nodeId nodeMap with
      | None => None
      | Some node => option_map (cons node) (lookupPath nodeMap rest)
      end
  end.

Definition osmNodeId (raw : Z) : string := "osm-node-" ++ string_of_Z raw.

(** [array.slice(from, to)]. *)
Definition slice {A} (l : list A) (from to : nat) : list A :=
  firstn (to - from) (skipn from l).

(** One turn of [for (let i = 1; i < orderedSplits.length; i += 1)]. *)
Definition splitSegment (nodeMap : Map Z LatLng) (way : Way) (splits : list nat)
    (i : nat) : list StreetSegment :=
  match nth_error splits (i - 1), nth_error splits i with
  | Some fromIndex, Some toIndex =>
      if (toIndex <=? fromIndex)%nat then []
      else
        let segmentNodeIds := slice (way_nodes way) fromIndex (toIndex + 1) in
        if (length segmentNodeIds <? 2)%nat then []
        else
          match lookupPath nodeMap segmentNodeIds with
          | None => []
          | Some path =>
              if (length path <? 2)%nat then []
              else
                let startNodeRaw := hd 0%Z segmentNodeIds in
                let endNodeRaw := last segmentNodeIds 0%Z in
                [mkStreetSegment
                   ("osm-" ++ string_of_Z (way_id way) ++ "-" ++ string_of_Z startNodeRaw
                    ++ "-" ++ string_of_Z endNodeRaw ++ "-" ++ string_of_Z (Z.of_nat i))
                   (way_name way) path
                   (Some (osmNodeId startNodeRaw)) (Some (osmNodeId endNodeRaw))
                   false osm]
          end
  | _, _ => []
  end.

Definition splitWay (nodeMap : Map Z LatLng) (nodeUsage : Map Z nat) (way : Way)
    : list StreetSegment :=
  let splits := orderedSplits nodeUsage way in
  flat_map (splitSegment nodeMap way splits) (seq 1 (length splits - 1)).

(** The fallback of one way: a segment [osm-<wayId>] over the whole way. *)
Definition wholeWay (nodeMap : Map Z LatLng) (way : Way) : list StreetSegment :=
  match lookupPath nodeMap (way_nodes way) with
  | None => []
  | Some path =>
      if (length path <? 2)%nat then []
      else
        [mkStreetSegment ("osm-" ++ string_of_Z (way_id way)) (way_name way) path
           (Some (osmNodeId (hd 0%Z (way_nodes way))))
           (Some (osmNodeId (last (way_nodes way) 0%Z)))
           false osm]
  end.

Definition parseOverpassResponse (payload : OverpassPayload) : list StreetSegment :=
  let nodeMap := collectNodes payload in
  let ways := retainedWays payload in
  match ways with
  | [] => []
  | _ :: _ =>
      let nodeUsage := countNodeUsage ways in
      let segments := flat_map (splitWay nodeMap nodeUsage) ways in
      match segments with
      | [] => flat_map (wholeWay nodeMap) ways
      | _ :: _ => segments
      end
  end.

(* ================================================================== *)
(** * Further functions of the planner engine *)

(* ------------------------------------------------------------------ *)
(** ** Text: [escapeXml], [slugify], [hashPin] *)

(** The double quote, code 34. *)
Definition dquote : ascii := "034"%char.

(** [s.replace(/c/g, replacement)] for a pattern of one character. *)
Definition replaceChar (c : ascii) (replacement : string) (l : list ascii) : list ascii :=
  flat_map (fun x => if Ascii.eqb x c then list_ascii_of_string replacement else [x]) l.

Definition escapeXmlChars (l : list ascii) : list ascii :=
  replaceChar "'" "&apos;"
    (replaceChar dquote "&quot;"
       (replaceChar ">" "&gt;"
          (replaceChar "<" "&lt;"
             (replaceChar "&" "&amp;" l)))).

Definition escapeXml (value : string) : string :=
  string_of_list_ascii (escapeXmlChars (list_ascii_of_string value)).

(** [[a-z0-9]]. *)
Definition isSlugChar (c : ascii) : bool :=
  let n := nat_of_ascii c in
  ((97 <=? n) && (n <=? 122) || (48 <=? n) && (n <=? 57))%nat.

(** [s.replace(/[^a-z0-9]+/g, "-")]: every maximal run of other characters
    becomes one dash; [inRun] tells that the run has begun. *)
Fixpoint dashRuns (inRun : bool) (l : list ascii) : list ascii :=
  match l with
  | [] => []
  | c :: rest =>
      if isSlugChar c then c :: dashRuns false rest
      else if inRun then dashRuns true rest else "-"%char :: dashRuns true rest
  end.

Fixpoint dropLeadingDashes (l : list ascii) : list ascii :=
  match l with
  | c :: rest => if Ascii.eqb c "-"%char then dropLeadingDashes rest else l
  | [] => []
  end.

(** [s.replace(/^-+|-+$/g, "")]. *)
Definition stripDashes (l : list ascii) : list ascii :=
  rev (dropLeadingDashes (rev (dropLeadingDashes l))).

Definition slugifyChars (l : list ascii) : list ascii :=
  firstn 60 (stripDashes (dashRuns false (map lowerChar l))).

Definition slugify (value : string) : string :=
  string_of_list_ascii (slugifyChars (list_ascii_of_string value)).

(** [x | 0]: the number read as a signed 32-bit integer. *)
Definition toInt32 (z : Z) : Z := ((z + 2 ^ 31) mod 2 ^ 32 - 2 ^ 31)%Z.

(** [x << k] on 32-bit integers. *)
Definition shiftLeft32 (x k : Z) : Z := toInt32 (Z.shiftl (toInt32 x) k).

(** One turn of the loop of [hashPin]:
    [hash = (hash << 5) - hash + code; hash |= 0]. *)
Definition hashStep (hash : Z) (c : ascii) : Z :=
  toInt32 (shiftLeft32 hash 5 - hash + Z.of_nat (nat_of_ascii c))%Z.

Definition hashOf (l : list ascii) : Z := fold_left hashStep l 0%Z.

(** [n.toString(16)] for an integer that is not negative. *)
Definition toHex (n : Z) : string :=
  HexadecimalString.NilZero.string_of_uint (N.to_hex_uint (Z.to_N n)).

Definition hashPin (pin : string) : string :=
  toHex (Z.abs (hashOf (trimChars (list_ascii_of_string pin)))).

(* ------------------------------------------------------------------ *)
(** ** Bounding boxes and activity matching *)

(** A number that may be [Number.POSITIVE_INFINITY] or
    [Number.NEGATIVE_INFINITY]. *)
Inductive xnum : Type :=
| NegInfinity
| Finite (q : Q)
| PosInfinity.

(** [Math.min(a, q)] and [Math.max(a, q)] with a finite second argument. *)
Definition xmin (a : xnum) (q : Q) : xnum :=
  match a with
  | NegInfinity => NegInfinity
  | Finite x => Finite (Qmin x q)
  | PosInfinity => Finite q
  end.

Definition xmax (a : xnum) (q : Q) : xnum :=
  match a with
  | NegInfinity => Finite q
  | Finite x => Finite (Qmax x q)
  | PosInfinity => PosInfinity
  end.

Record Bounds : Type := mkBounds {
  minLat : xnum; maxLat : xnum; minLon : xnum; maxLon : xnum
}.

Definition calculateBoundingBox (path : list LatLng) : Bounds :=
  fold_left
    (fun box point =>
       mkBounds (xmin (minLat box) (lat point)) (xmax (maxLat box) (lat point))
                (xmin (minLon box) (lon point)) (xmax (maxLon box) (lon point)))
    path
    (mkBounds PosInfinity NegInfinity PosInfinity NegInfinity).

Definition boundsFromPoints (points : list LatLng) : Bounds :=
  calculateBoundingBox points.

(** [q < a - e], [q > a + e] for a bound [a] that may be infinite. *)
Definition belowBound (q : Q) (a : xnum) (e : Q) : bool :=
  match a with
  | NegInfinity => false
  | Finite x => Qltb q (x - e)
  | PosInfinity => true
  end.

Definition aboveBound (q : Q) (a : xnum) (e : Q) : bool :=
  match a with
  | NegInfinity => true
  | Finite x => Qltb (x + e) q
  | PosInfinity => false
  end.

(** [activity[0], activity[step], activity[2 * step], ...]; [fuel] bounds the
    recursion and is the length of the list. *)
Fixpoint everyNth (fuel : nat) (step : nat) (l : list LatLng) : list LatLng :=
  match fuel with
  | O => []
  | S fuel' =>
      match l with
      | [] => []
      | point :: _ => point :: everyNth fuel' step (skipn step l)
      end
  end.

Section Matching.

(** [distancePointToSegmentMeters(p, a, b)]. *)
Variable distancePointToSegmentMeters : LatLng -> LatLng -> LatLng -> Q.

(** The body of [for (const candidate of candidates)]. *)
Definition matchCandidate (point : LatLng) (matched : list string)
    (candidate : StreetSegment * Bounds) : list string :=
  let '(street, box) := candidate in
  if JsSet.has (seg_id street) matched then matched
  else if belowBound (lat point) (minLat box) 0.00045
          || aboveBound (lat point) (maxLat box) 0.00045
          || belowBound (lon point) (minLon box) 0.00045
          || aboveBound (lon point) (maxLon box) 0.00045
  then matched
  else if dnum_leb
            (distancePointToPathMeters distancePointToSegmentMeters point (seg_path street))
            (Fin 40)
  then JsSet.add (seg_id street) matched
  else matched.

Definition matchActivityToStreets (activity : list LatLng) (streets : list StreetSegment)
    : list string :=
  let candidates :=
    map (fun street => (street, calculateBoundingBox (seg_path street)))
      (filter (fun street => negb (seg_completed street)
                             && (2 <=? length (seg_path street))%nat)
         streets) in
  if (length candidates =? 0)%nat || (length activity <? 2)%nat then []
  else
    let sampleStep := Nat.max 1 (length activity / 700) in
    fold_left
      (fun matched point => fold_left (matchCandidate point) candidates matched)
      (everyNth (length activity) sampleStep activity)
      [].

End Matching.

(* ------------------------------------------------------------------ *)
(** ** [dedupeByName] *)

(** [a <= b] on strings: by code units, a prefix first. *)
Fixpoint charsLeb (a b : list ascii) : bool :=
  match a, b with
  | [], _ => true
  | _ :: _, [] => false
  | x :: a', y :: b' =>
      if (nat_of_ascii x <? nat_of_ascii y)%nat then true
      else if (nat_of_ascii y <? nat_of_ascii x)%nat then false
      else charsLeb a' b'
  end.

Definition strLeb (a b : string) : bool :=
  charsLeb (list_ascii_of_string a) (list_ascii_of_string b).

(** [[left, right]]: the two keys in order. *)
Definition orderedPair (a b : string) : string * string :=
  if strLeb a b then (a, b) else (b, a).

(** The two end keys of a segment; [None] when the segment has no node ids
    and an empty path, where [start.lat] throws. *)
Definition endKeys (street : StreetSegment) : option (string * string) :=
  let byPath :=
    match seg_path street with
    | [] => None
    | _ :: _ =>
        Some (orderedPair (quantizePoint (firstPoint (seg_path street)))
                          (quantizePoint (lastPoint (seg_path street))))
    end in
  match seg_startNodeId street, seg_endNodeId street with
  | Some startNodeId, Some endNodeId =>
      if truthy startNodeId && truthy endNodeId
      then Some (orderedPair startNodeId endNodeId)
      else byPath
  | _, _ => byPath
  end.

Definition dedupeKey (street : StreetSegment) : option string :=
  match endKeys street with
  | Some (leftKey, rightKey) =>
      Some (normalizeStreetName (seg_name street) ++ ":" ++ leftKey ++ ":" ++ rightKey)%string
  | None => None
  end.

(** [for (const street of streets)] with [seen] and [result]; [None] when a
    turn throws. *)
Fixpoint dedupeLoop (streets : list StreetSegment) (seen : list string)
    (result : list StreetSegment) : option (list StreetSegment) :=
  match streets with
  | [] => Some result
  | street :: rest =>
      match dedupeKey street with
      | None => None
      | Some key =>
          if JsSet.has key seen then dedupeLoop rest seen result
          else dedupeLoop rest (JsSet.add key seen) (result ++ [street])
      end
  end.

Definition dedupeByName (streets : list StreetSegment) : option (list StreetSegment) :=
  dedupeLoop streets [] [].

(* ------------------------------------------------------------------ *)
(** ** [oddDegreeNodes] *)

(** [degree.set(k, (degree.get(k) ?? 0) + count)]. *)
Definition addDegree (k : string) (count : Z) (degree : Map string Z) : Map string Z :=
  JsMap.set k ((match JsMap.get k degree with Some d => d | None => 0 end) + count)%Z degree.

(** The counts of the multiset are integers. *)
Definition oddDegreeNodes (multiset : Map string Z) (graph : StreetGraph) : list string :=
  let degree0 :=
    fold_left (fun degree nodeId => JsMap.set nodeId 0%Z degree)
      (JsMap.keys (nodes graph)) [] in
  let degree :=
    fold_left
      (fun degree (entry : string * Z) =>
         let '(edgeId, count) := entry in
         match JsMap.get edgeId (edges graph) with
         | None => degree
         | Some edge =>
             if (count <=? 0)%Z then degree
             else addDegree (edge_to edge) count (addDegree (edge_from edge) count degree)
         end)
      multiset degree0 in
  map fst (filter (fun entry => (Z.rem (snd entry) 2 =? 1)%Z) degree).

(* ------------------------------------------------------------------ *)
(** ** City boundary polygons *)

Definition ringTolerance : Q := 1 # 10000000000.

Definition isPointOnSegment (point a b : LatLng) : bool :=
  let cross :=
    (lat point - lat a) * (lon b - lon a) - (lon point - lon a) * (lat b - lat a) in
  if Qltb ringTolerance (Qabs cross) then false
  else
    let minLat := Qmin (lat a) (lat b) - ringTolerance in
    let maxLat := Qmax (lat a) (lat b) + ringTolerance in
    let minLon := Qmin (lon a) (lon b) - ringTolerance in
    let maxLon := Qmax (lon a) (lon b) + ringTolerance in
    Qleb minLat (lat point) && Qleb (lat point) maxLat
    && Qleb minLon (lon point) && Qleb (lon point) maxLon.

(** [for (let i = 0, j = ring.length - 1; i < ring.length; j = i, i += 1)]:
    [a] is the point before [b], the last one at first. *)
Fixpoint ringScan (point : LatLng) (a : LatLng) (rest : list LatLng) (inside : bool)
    : bool :=
  match rest with
  | [] => inside
  | b :: rest' =>
      if isPointOnSegment point a b then true
      else
        let intersects :=
          negb (Bool.eqb (Qltb (lat point) (lat a)) (Qltb (lat point) (lat b)))
          && Qltb (lon point)
               ((lon b - lon a) * (lat point - lat a) / (lat b - lat a) + lon a) in
        ringScan point b rest' (if intersects then negb inside else inside)
  end.

Definition isPointInRing (point : LatLng) (ring : list LatLng) : bool :=
  if (length ring <? 3)%nat then false
  else ringScan point (last ring origin) ring false.

Record CityBoundaryPolygon : Type := mkPolygon {
  outer : list LatLng;
  holes : list (list LatLng)
}.

Record CityBoundary : Type := mkBoundary { polygons : list CityBoundaryPolygon }.

Definition isPointInCityBoundary (point : LatLng) (boundary : CityBoundary) : bool :=
  existsb
    (fun polygon =>
       isPointInRing point (outer polygon)
       && negb (existsb (isPointInRing point) (holes polygon)))
    (polygons boundary).

(** [normalizeBoundaryRing]; every coordinate of the model is finite. *)
Definition normalizeBoundaryRing (points : list LatLng) : list LatLng :=
  let cleaned := points in
  if (length cleaned <? 3)%nat then []
  else
    let firstOne := firstPoint cleaned in
    let lastOne := lastPoint cleaned in
    let cleaned :=
      if Qeq_bool (lat firstOne) (lat lastOne) && Qeq_bool (lon firstOne) (lon lastOne)
      then removelast cleaned else cleaned in
    if (3 <=? length cleaned)%nat then cleaned else [].

(* ------------------------------------------------------------------ *)
(** ** [parseCsvRows] *)

Definition lineFeed : ascii := "010"%char.
Definition carriageReturn : ascii := "013"%char.

(** [input.split(/\r?\n/)], with the piece read so far: a line feed ends the
    piece, and so does a carriage return that a line feed follows. *)
Fixpoint splitLines (chars piece : list ascii) : list (list ascii) :=
  match chars with
  | [] => [piece]
  | c :: rest =>
      if Ascii.eqb c lineFeed then piece :: splitLines rest []
      else
        match rest with
        | n :: rest' =>
            if Ascii.eqb c carriageReturn && Ascii.eqb n lineFeed
            then piece :: splitLines rest' []
            else splitLines rest (piece ++ [c])
        | [] => [piece ++ [c]]
        end
  end.

(** [line.split(",")], with the piece read so far. *)
Fixpoint splitCommas (chars piece : list ascii) : list (list ascii) :=
  match chars with
  | [] => [piece]
  | c :: rest =>
      if Ascii.eqb c ","%char then piece :: splitCommas rest []
      else splitCommas rest (piece ++ [c])
  end.

Definition parseCsvChars (input : list ascii) : list (list (list ascii)) :=
  map (fun line => map trimChars (splitCommas line []))
    (filter (fun line => (0 <? length line)%nat)
       (map trimChars (splitLines input []))).

Definition parseCsvRows (input : string) : list (list string) :=
  map (map string_of_list_ascii) (parseCsvChars (list_ascii_of_string input)).

(* ------------------------------------------------------------------ *)
(** ** [eulerizeEdgeSet] *)

(** [multiset.set(edgeId, (multiset.get(edgeId) ?? 0) + 1)] for the edges of a
    path. *)
Definition countPath (path : list string) (multiset : Map string Z) : Map string Z :=
  fold_left
    (fun multiset edgeId =>
       JsMap.set edgeId
         ((match JsMap.get edgeId multiset with Some c => c | None => 0 end) + 1)%Z
         multiset)
    path multiset.

(** [bestIndex] is [None] for -1. *)
Record PairingBest : Type := mkPairingBest {
  bestIndex : option nat;
  bestDistance : dnum;
  bestPath : list string
}.

(** [for (let i = 0; i < oddNodes.length; i += 1)], from the index [i] on;
    the cache goes through the calls of [shortestPathEdges]. *)
Fixpoint pairingScan (graph : StreetGraph) (nodeA : string) (candidates : list string)
    (i : nat) (best : PairingBest) (cache : Map string DijkstraResult)
    : option (PairingBest * Map string DijkstraResult) :=
  match candidates with
  | [] => Some (best, cache)
  | nodeB :: rest =>
      match shortestPathEdges graph cache nodeA nodeB with
      | None => None
      | Some (distanceKm, edgeIds, cache') =>
          if (length edgeIds =? 0)%nat then pairingScan graph nodeA rest (S i) best cache'
          else if dnum_ltb distanceKm (bestDistance best)
          then pairingScan graph nodeA rest (S i)
                 (mkPairingBest (Some i) distanceKm edgeIds) cache'
          else pairingScan graph nodeA rest (S i) best cache'
      end
  end.

(** [array.splice(index, 1)]. *)
Definition spliceOne {A} (index : nat) (l : list A) : list A :=
  firstn index l ++ skipn (S index) l.

(** [while (oddNodes.length > 0)]: every turn takes at least one node off
    [oddNodes], so [length oddNodes] turns are enough. *)
Fixpoint eulerizeLoop (fuel : nat) (graph : StreetGraph) (oddNodes : list string)
    (multiset : Map string Z) (cache : Map string DijkstraResult)
    : option (Map string Z * Map string DijkstraResult) :=
  match oddNodes with
  | [] => Some (multiset, cache)
  | nodeA :: oddNodes' =>
      if negb (truthy nodeA) then Some (multiset, cache)
      else
        match fuel with
        | O => None
        | S fuel' =>
            match pairingScan graph nodeA oddNodes' 0
                    (mkPairingBest None PosInf []) cache with
            | None => None
            | Some (best, cache') =>
                match bestIndex best with
                | None => Some (multiset, cache')
                | Some index =>
                    eulerizeLoop fuel' graph (spliceOne index oddNodes')
                      (countPath (bestPath best) multiset) cache'
                end
            end
        end
  end.

(** [for (const edgeId of edgeIds) multiset.set(edgeId, 1)]; the set of edge
    ids is given by its elements in insertion order. *)
Definition onceEach (edgeIds : list string) : Map string Z :=
  fold_left (fun multiset edgeId => JsMap.set edgeId 1%Z multiset) edgeIds [].

Definition eulerizeEdgeSet (edgeIds : list string) (graph : StreetGraph)
    (cache : Map string DijkstraResult)
    : option (Map string Z * Map string DijkstraResult) :=
  let multiset := onceEach edgeIds in
  let oddNodes := oddDegreeNodes multiset graph in
  eulerizeLoop (length oddNodes) graph oddNodes multiset cache.

(* ------------------------------------------------------------------ *)
(** ** [buildEulerTraversal] *)

Record EulerToken : Type := mkToken {
  tok_edgeId : string;
  tok_from : string;
  tok_to : string
}.

(** One token for each count of an edge of the multiset that the graph has;
    the counts are whole numbers. *)
Definition eulerTokens (graph : StreetGraph) (multiset : Map string Z) : list EulerToken :=
  flat_map
    (fun entry : string * Z =>
       let '(edgeId, count) := entry in
       match JsMap.get edgeId (edges graph) with
       | None => []
       | Some edge =>
           repeat (mkToken edgeId (edge_from edge) (edge_to edge)) (Z.to_nat count)
       end)
    multiset.

(** [adjacency.get(k)?.push(tokenId)]. *)
Definition pushTokenId (k : string) (tokenId : nat) (adjacency : Map string (list nat))
    : Map string (list nat) :=
  match JsMap.get k adjacency with
  | Some l => JsMap.set k (l ++ [tokenId]) adjacency
  | None => adjacency
  end.

(** The token ids at each node, from the token [tokenId] on. *)
Fixpoint tokenAdjacencyFrom (tokenId : nat) (tokens : list EulerToken)
    (adjacency : Map string (list nat)) : Map string (list nat) :=
  match tokens with
  | [] => adjacency
  | token :: rest =>
      let adjacency1 := ensureKey (tok_from token) [] adjacency in
      let adjacency2 := ensureKey (tok_to token) [] adjacency1 in
      let adjacency3 := pushTokenId (tok_from token) tokenId adjacency2 in
      tokenAdjacencyFrom (S tokenId) rest (pushTokenId (tok_to token) tokenId adjacency3)
  end.

(** [while (index < list.length && used[list[index]]) index += 1] on the part
    of the list from [index] on: the index reached, and the token there. *)
Fixpoint skipUsed (used : list bool) (pending : list nat) (index : nat)
    : nat * option nat :=
  match pending with
  | [] => (index, None)
  | tokenId :: rest =>
      if nth tokenId used false then skipUsed used rest (S index)
      else (index, Some tokenId)
  end.

Definition takeToken (adjacency : Map string (list nat)) (used : list bool)
    (cursor : Map string nat) (nodeId : string) : Map string nat * option nat :=
  let list := match JsMap.get nodeId adjacency with Some l => l | None => [] end in
  let index := match JsMap.get nodeId cursor with Some i => i | None => O end in
  let '(index', found) := skipUsed used (skipn index list) index in
  (JsMap.set nodeId index' cursor, found).

Record StackEntry : Type := mkStackEntry {
  se_nodeId : string;
  se_incoming : option EulerToken
}.

(** [while (stack.length > 0)], the top of the stack first. A turn marks a
    token or takes an entry off the stack, so two turns for each token and one
    more are enough. *)
Fixpoint eulerLoop (fuel : nat) (tokens : list EulerToken)
    (adjacency : Map string (list nat)) (used : list bool) (cursor : Map string nat)
    (stack : list StackEntry) (reverse : list EulerToken) : option (list EulerToken) :=
  match stack with
  | [] => Some (rev reverse)
  | top :: below =>
      match fuel with
      | O => None
      | S fuel' =>
          let '(cursor', found) := takeToken adjacency used cursor (se_nodeId top) in
          match found with
          | Some tokenId =>
              match nth_error tokens tokenId with
              | None => None
              | Some token =>
                  let neighbor :=
                    if eqb (tok_from token) (se_nodeId top) then tok_to token
                    else tok_from token in
                  eulerLoop fuel' tokens adjacency (setNth tokenId true used) cursor'
                    (mkStackEntry neighbor
                       (Some (mkToken (tok_edgeId token) (se_nodeId top) neighbor))
                     :: stack)
                    reverse
              end
          | None =>
              eulerLoop fuel' tokens adjacency used cursor' below
                (match se_incoming top with
                 | Some incoming => reverse ++ [incoming]
                 | None => reverse
                 end)
          end
      end
  end.

Definition buildEulerTraversal (graph : StreetGraph) (multiset : Map string Z)
    (startNodeId : string) : option (list EulerToken) :=
  let tokens := eulerTokens graph multiset in
  if (length tokens =? 0)%nat then Some []
  else
    eulerLoop (2 * length tokens + 1) tokens (tokenAdjacencyFrom 0 tokens [])
      (repeat false (length tokens)) [] [mkStackEntry startNodeId None] [].

(* ------------------------------------------------------------------ *)
(** ** Vocabulary of the statements *)

(** How many records of [adjacency.get(nodeId)] carry the edge id. *)
Definition adjacencyCount (graph : StreetGraph) (nodeId edgeId : string) : nat :=
  length (filter (fun nb => eqb (nb_edgeId nb) edgeId) (neighborsOf graph nodeId)).

(** The ids of the segments that become edges. *)
Definition edgeStreetIds (streets : list StreetSegment) : list string :=
  map seg_id (filter validStreet streets).

(** Every field of a route but [id]. *)
Definition routeBody (r : SuggestedRoute) :=
  (route_name r, route_points r, route_streetIds r, route_streetNames r,
   route_distanceKm r, route_strategy r, route_nodeIdsCovered r,
   route_nodePoints r, route_availableNodes r).

(** *** Stand-ins for the geometry, for the concrete runs

    Along the equator and along a meridian the haversine distance is
    [6371 * pi / 180] km per degree; [flatKm] is that with [355/113] for [pi],
    added up over latitude and longitude. The other two are only needed to
    run the planner: they decide [nodeIdsCovered] and the filter by city
    bounds, which no statement below looks at. *)
Definition kmPerDegree : Q := 6371 * (355 # 113) / 180.

Definition flatKm (a b : LatLng) : Q :=
  kmPerDegree * (Qabs (lat a - lat b) + Qabs (lon a - lon b)).

Definition flatSegmentMeters (p a b : LatLng) : Q :=
  1000 * Qmin (flatKm p a) (flatKm p b).

Definition boxContains (p : LatLng) (b : CityBounds) : bool :=
  Qleb (south b) (lat p) && Qleb (lat p) (north b)
  && Qleb (west b) (lon p) && Qleb (lon p) (east b).

(** *** Streets of the concrete runs *)

(** One dead-end road of a tenth of a degree (about 11 km) along the equator,
    not yet run, imported without node ids. *)
Definition longRoad : StreetSegment :=
  mkStreetSegment "s1" "Long Road" [mkLatLng 0 0; mkLatLng 0 0.1] None None false manual.

(** The same road, already run. *)
Definition longRoadDone : StreetSegment :=
  mkStreetSegment "s1" "Long Road" [mkLatLng 0 0; mkLatLng 0 0.1] None None true manual.

(** A short dead-end road of about 0.56 km. *)
Definition shortRoad : StreetSegment :=
  mkStreetSegment "s2" "Short Road" [mkLatLng 0 0; mkLatLng 0 0.005] None None false manual.

Definition homeAtOrigin : LatLng := mkLatLng 0 0.

(** The planner run with the stand-in geometry. *)
Definition planWith (uuid : string) (streets : list StreetSegment) (home : LatLng)
    (targetKm : Q) (cityBounds : option CityBounds) : option (option SuggestedRoute) :=
  buildEfficientCoverageRoute flatKm flatSegmentMeters boxContains
    uuid streets home targetKm cityBounds.

(** *** Way splitting, as the amended C6 words it *)

(** How often a node occurs in the node lists of the retained ways, taken
    together. *)
Definition occurrences (ways : list Way) (nodeId : Z) : nat :=
  count_occ Z.eq_dec (flat_map way_nodes ways) nodeId.

(** The indices at which a way is cut: the first, the last, and every other
    index whose node occurs at least twice. *)
Definition cutIndices (ways : list Way) (way : Way) : list nat :=
  let len := length (way_nodes way) in
  filter
    (fun i =>
       (i =? 0)%nat || (i =? len - 1)%nat
       || match nth_error (way_nodes way) i with
          | Some nodeId => (2 <=? occurrences ways nodeId)%nat
          | None => false
          end)
    (seq 0 len).

(** The pairs of consecutive cuts, numbered from [k]. *)
Fixpoint cutPairs (k : nat) (cuts : list nat) : list (nat * nat * nat) :=
  match cuts with
  | a :: (b :: _) as rest => (k, a, b) :: cutPairs (S k) rest
  | _ => []
  end.

(** The segment of the way between two cuts, if all its nodes have
    coordinates. *)
Definition pieceOfWay (nodeMap : Map Z LatLng) (way : Way) (piece : nat * nat * nat)
    : list StreetSegment :=
  let '(k, a, b) := piece in
  match lookupPath nodeMap (slice (way_nodes way) a (b + 1)) with
  | None => []
  | Some path =>
      let startNodeRaw := nth a (way_nodes way) 0%Z in
      let endNodeRaw := nth b (way_nodes way) 0%Z in
      [mkStreetSegment
         ("osm-" ++ string_of_Z (way_id way) ++ "-" ++ string_of_Z startNodeRaw
          ++ "-" ++ string_of_Z endNodeRaw ++ "-" ++ string_of_Z (Z.of_nat k))
         (way_name way) path
         (Some (osmNodeId startNodeRaw)) (Some (osmNodeId endNodeRaw))
         false osm]
  end.

Definition segmentsOfWay (nodeMap : Map Z LatLng) (ways : list Way) (way : Way)
    : list StreetSegment :=
  flat_map (pieceOfWay nodeMap way) (cutPairs 1 (cutIndices ways way)).

Definition splitSegments (payload : OverpassPayload) : list StreetSegment :=
  flat_map (segmentsOfWay (collectNodes payload) (retainedWays payload))
    (retainedWays payload).

(** *** Payloads of the concrete runs *)

Definition elmTags : option OverpassWayTags :=
  Some (mkTags (Some "Elm Street") None None None (Some "residential") None None None None).

Definition nodeAt (i : Z) (la lo : Q) : OverpassElement :=
  mkElement ElNode i (Some la) (Some lo) None None.

Definition wayOver (i : Z) (ns : list Z) : OverpassElement :=
  mkElement ElWay i None None (Some ns) elmTags.

(** Way 10 runs over the nodes 1, 2, 3; way 11 ends on node 2. *)
Definition crossingPayload : OverpassPayload :=
  mkPayload (Some [nodeAt 1 0 0; nodeAt 2 0 0.001; nodeAt 3 0 0.002; nodeAt 4 0.001 0.001;
                   wayOver 10 [1; 2; 3]%Z; wayOver 11 [4; 2]%Z]).

(** One way that comes back to its node 1: a stem 4 - 1 and a loop
    1 - 2 - 3 - 1. *)
Definition lollipopPayload : OverpassPayload :=
  mkPayload (Some [nodeAt 1 0 0; nodeAt 2 0 0.001; nodeAt 3 0.001 0.001; nodeAt 4 0 (-0.001);
                   wayOver 10 [4; 1; 2; 3; 1]%Z]).

(** One way whose node 2 has no coordinates in the payload. *)
Definition gapPayload : OverpassPayload :=
  mkPayload (Some [nodeAt 1 0 0; nodeAt 3 0 0.002; wayOver 10 [1; 2; 3]%Z]).

(** *** Lengths *)

(** The length of the longest of the segments. *)
Definition longestKm (haversineKm : LatLng -> LatLng -> Q) (streets : list StreetSegment) : Q :=
  fold_right (fun street acc => Qmax (polylineDistanceKm haversineKm (seg_path street)) acc)
    0%Q streets.

(** [edge.distanceKm] of the edge a step walks, 0 if the graph has no such
    edge. *)
Definition stepKm (graph : StreetGraph) (step : RouteTraversalStep) : Q :=
  match JsMap.get (step_edgeId step) (edges graph) with
  | Some edge => edge_distanceKm edge
  | None => 0%Q
  end.

Definition sumStepKm (graph : StreetGraph) (steps : list RouteTraversalStep) : Q :=
  fold_right (fun step acc => (stepKm graph step + acc)%Q) 0%Q steps.

(** *** The route as steps replayed *)










(** *** Shortest paths *)

(** [graph.edges.get(edgeId).distanceKm], 0 for an id that is not an edge. *)
Definition edgeKm (graph : StreetGraph) (edgeId : string) : Q :=
  match JsMap.get edgeId (edges graph) with
  | Some edge => edge_distanceKm edge
  | None => 0%Q
  end.

(** The sum of [distanceKm] over a list of edge ids. *)
Definition sumEdgeKm (graph : StreetGraph) (edgeIds : list string) : Q :=
  fold_right (fun edgeId acc => (edgeKm graph edgeId + acc)%Q) 0%Q edgeIds.

(** The edge ids, in order, lead from [fromNodeId] to [toNodeId]: every id is
    an edge of the graph and is recorded in the adjacency list of the node
    reached so far, and the record names the node reached next. *)
Fixpoint pathInGraph (graph : StreetGraph) (fromNodeId : string) (edgeIds : list string)
    (toNodeId : string) : bool :=
  match edgeIds with
  | [] => eqb fromNodeId toNodeId
  | edgeId :: rest =>
      JsMap.has edgeId (edges graph)
      && existsb (fun nb => eqb (nb_edgeId nb) edgeId
                            && pathInGraph graph (nb_neighbor nb) rest toNodeId)
           (neighborsOf graph fromNodeId)
  end.

(** The edges stored under the ids, in order, form a path from [fromNodeId]
    to [toNodeId]: each has an end at the node reached so far and leads to
    its other end. *)
Fixpoint edgesFormPath (graph : StreetGraph) (fromNodeId : string) (edgeIds : list string)
    (toNodeId : string) : bool :=
  match edgeIds with
  | [] => eqb fromNodeId toNodeId
  | edgeId :: rest =>
      match JsMap.get edgeId (edges graph) with
      | None => false
      | Some edge =>
          eqb (edge_from edge) fromNodeId
          && edgesFormPath graph (edge_to edge) rest toNodeId
          || eqb (edge_to edge) fromNodeId
             && edgesFormPath graph (edge_from edge) rest toNodeId
      end
  end.

(** Two segments from the node [a] that share the id ["e"]: one of a degree
    of longitude to [b], one of two degrees of latitude to [c]. *)
Definition forkToB : StreetSegment :=
  mkStreetSegment "e" "Fork" [mkLatLng 0 0; mkLatLng 0 1] (Some "a") (Some "b") false manual.

Definition forkToC : StreetSegment :=
  mkStreetSegment "e" "Fork" [mkLatLng 0 0; mkLatLng 2 0] (Some "a") (Some "c") false manual.

(* ------------------------------------------------------------------ *)
(** ** Vocabulary of the further properties *)

(** *** Heaps *)

(** The array of a heap after [push] of every value in turn, from [new MinHeap]. *)
Definition pushAll {T} (compare : T -> T -> Q) (values : list T) : list T :=
  fold_left (MinHeap.push compare) values [].

(** The values returned by [pop] called [count] times, or until it returns
    [undefined]. *)
Fixpoint popAll {T} (compare : T -> T -> Q) (count : nat) (data : list T) : list T :=
  match count with
  | O => []
  | S count' =>
      match MinHeap.pop compare data with
      | (Some top, rest) => top :: popAll compare count' rest
      | (None, _) => []
      end
  end.

(** The arrays a heap can hold: the empty one of [new MinHeap], and what
    [push] and [pop] leave. *)
Inductive heapReached {T} (compare : T -> T -> Q) : list T -> Prop :=
| reached_new : heapReached compare []
| reached_push data value :
    heapReached compare data -> heapReached compare (MinHeap.push compare data value)
| reached_pop data :
    heapReached compare data -> heapReached compare (snd (MinHeap.pop compare data)).

(** *** Oriented steps *)

(** The steps follow one another from [fromNodeId]: each starts where the one
    before it ended. *)
Fixpoint stepsChain (fromNodeId : string) (steps : list RouteTraversalStep) : bool :=
  match steps with
  | [] => true
  | step :: rest => eqb (step_from step) fromNodeId && stepsChain (step_to step) rest
  end.

(** The step runs along the edge stored under its id, in one direction or the
    other. *)
Definition stepAlongEdge (graph : StreetGraph) (step : RouteTraversalStep) : bool :=
  match JsMap.get (step_edgeId step) (edges graph) with
  | Some edge =>
      eqb (edge_from edge) (step_from step) && eqb (edge_to edge) (step_to step)
      || eqb (edge_to edge) (step_from step) && eqb (edge_from edge) (step_to step)
  | None => false
  end.

(** *** Selection and geometry *)

(** The distance from [home] to the nearer end of a segment, the [entry] of
    [selectCandidateStreets]. *)
Definition entryKm (haversineKm : LatLng -> LatLng -> Q) (home : LatLng)
    (street : StreetSegment) : Q :=
  Qmin (haversineKm home (firstPoint (seg_path street)))
       (haversineKm home (lastPoint (seg_path street))).

(** The pairs [(path[i - 1], path[i])] of a polyline. *)
Definition segmentsOf (path : list LatLng) : list (LatLng * LatLng) :=
  combine path (tl path).

(** *** Text *)

(** What [escapeXml] puts for one character. *)
Definition escapeOne (c : ascii) : list ascii :=
  if Ascii.eqb c "&"%char then list_ascii_of_string "&amp;"
  else if Ascii.eqb c "<"%char then list_ascii_of_string "&lt;"
  else if Ascii.eqb c ">"%char then list_ascii_of_string "&gt;"
  else if Ascii.eqb c dquote then list_ascii_of_string "&quot;"
  else if Ascii.eqb c "'"%char then list_ascii_of_string "&apos;"
  else [c].

(** One of the characters that delimit markup or attribute values. *)
Definition isMarkupChar (c : ascii) : bool :=
  Ascii.eqb c "<"%char || Ascii.eqb c ">"%char
  || Ascii.eqb c dquote || Ascii.eqb c "'"%char.

(** The polynomial of base 31 over the character codes, by Horner's rule. *)
Definition horner31 (l : list ascii) : Z :=
  fold_left (fun h c => (31 * h + Z.of_nat (nat_of_ascii c))%Z) l 0%Z.

(** No two dashes in a row; [afterDash] tells that the character before was
    a dash. *)
Fixpoint singleDashes (afterDash : bool) (l : list ascii) : bool :=
  match l with
  | [] => true
  | c :: rest =>
      if Ascii.eqb c "-"%char then negb afterDash && singleDashes true rest
      else singleDashes false rest
  end.

(** *** Boxes and matching *)

(** The point passes the box test and the distance test of
    [matchActivityToStreets] for the segment. *)
Definition matchesStreet (distancePointToSegmentMeters : LatLng -> LatLng -> LatLng -> Q)
    (point : LatLng) (street : StreetSegment) : bool :=
  let box := calculateBoundingBox (seg_path street) in
  negb (belowBound (lat point) (minLat box) 0.00045
        || aboveBound (lat point) (maxLat box) 0.00045
        || belowBound (lon point) (minLon box) 0.00045
        || aboveBound (lon point) (maxLon box) 0.00045)
  && dnum_leb
       (distancePointToPathMeters distancePointToSegmentMeters point (seg_path street))
       (Fin 40).

(** *** Rings *)

(** The edges of a ring: from its last point to its first, then from each
    point to the next. *)
Definition ringEdges (ring : list LatLng) : list (LatLng * LatLng) :=
  segmentsOf (last ring origin :: ring).

(** The point lies on the segment from [a] to [b], at the fraction [t]. *)
Definition pointAt (a b : LatLng) (t : Q) (point : LatLng) : Prop :=
  0 <= t /\ t <= 1
  /\ lat point == lat a + t * (lat b - lat a)
  /\ lon point == lon a + t * (lon b - lon a).

(** *** Overpass payloads *)

(** The segment has the name of a way of the payload that passes
    [isRunnableCityStreet], trimmed, and ends on two nodes of that way. *)
Definition fromRunnableWay (payload : OverpassPayload) (street : StreetSegment) : Prop :=
  exists element tags name nodeIds a b,
    In element (payloadElements payload) /\ el_type element = ElWay
    /\ el_tags element = Some tags /\ isRunnableCityStreet (Some tags) = true
    /\ tag_name tags = Some name /\ seg_name street = jsTrim name
    /\ el_nodes element = Some nodeIds /\ In a nodeIds /\ In b nodeIds
    /\ seg_startNodeId street = Some (osmNodeId a)
    /\ seg_endNodeId street = Some (osmNodeId b).

(** The point is the position of a node element of the payload. *)
Definition isPayloadNode (payload : OverpassPayload) (point : LatLng) : Prop :=
  exists element,
    In element (payloadElements payload) /\ el_type element = ElNode
    /\ el_lat element = Some (lat point) /\ el_lon element = Some (lon point).

(** *** Rows of cells as text *)

(** [parts.join(sep)]. *)
Fixpoint joinWith (sep : list ascii) (parts : list (list ascii)) : list ascii :=
  match parts with
  | [] => []
  | [part] => part
  | part :: rest => part ++ sep ++ joinWith sep rest
  end.

(** The cells of each row joined by commas, the rows by line feeds. *)
Definition csvText (rows : list (list string)) : string :=
  string_of_list_ascii
    (joinWith [lineFeed]
       (map (fun row => joinWith [","%char] (map list_ascii_of_string row)) rows)).

(** A cell that [trim] leaves as it is, without comma and line feed. *)
Definition cleanCell (cell : string) : Prop :=
  jsTrim cell = cell
  /\ ~ In ","%char (list_ascii_of_string cell)
  /\ ~ In lineFeed (list_ascii_of_string cell).

(** A row of clean cells whose line is not empty. *)
Definition cleanRow (row : list string) : Prop :=
  row <> [] /\ row <> [EmptyString] /\ Forall cleanCell row.

(** *** Traversals *)

(** How often the multiset counts the edge. *)
Definition timesIn (multiset : Map string Z) (edgeId : string) : nat :=
  fold_right
    (fun (entry : string * Z) acc =>
       if eqb (fst entry) edgeId then (Z.to_nat (snd entry) + acc)%nat else acc)
    O multiset.

(** How often the traversal walks the edge. *)
Definition timesWalked (steps : list EulerToken) (edgeId : string) : nat :=
  length (filter (fun step => eqb (tok_edgeId step) edgeId) steps).

(** The step walks an edge of the graph from one of its ends to the other. *)
Definition walksEdge (graph : StreetGraph) (step : EulerToken) : Prop :=
  exists edge,
    JsMap.get (tok_edgeId step) (edges graph) = Some edge
    /\ ((tok_from step = edge_from edge /\ tok_to step = edge_to edge)
        \/ (tok_from step = edge_to edge /\ tok_to step = edge_from edge)).

(* ================================================================== *)
(** * Verification *)

(** ** Facts about keys, maps and sets *)

Lemma eqb_true_iff {K} `{EqDec K} (x y : K) : eqb x y = true <-> x = y.
Proof. unfold eqb. destruct (eq_dec x y); split; congruence. Qed.

Lemma eqb_false_iff {K} `{EqDec K} (x y : K) : eqb x y = false <-> x <> y.
Proof. unfold eqb. destruct (eq_dec x y); split; congruence. Qed.

Lemma eqb_refl {K} `{EqDec K} (x : K) : eqb x x = true.
Proof. apply eqb_true_iff. reflexivity. Qed.

Section MapFacts.
Context {K V : Type} `{EqDec K}.

Lemma get_set_same (k : K) (v : V) m : JsMap.get k (JsMap.set k v m) = Some v.
Proof.
    induction m as [|[k' v'] m IH]; simpl.
    - destruct (eq_dec k k); congruence.
    - destruct (eq_dec k k') as [->|Hne]; simpl.
      + destruct (eq_dec k' k'); congruence.
      + destruct (eq_dec k k'); congruence.
Qed.

Lemma get_set_other (k k0 : K) (v : V) m :
    k0 <> k -> JsMap.get k0 (JsMap.set k v m) = JsMap.get k0 m.
Proof.
    intros Hne. induction m as [|[k' v'] m IH]; simpl.
    - destruct (eq_dec k0 k); congruence.
    - destruct (eq_dec k k') as [->|Hk]; simpl.
      + destruct (eq_dec k0 k'); congruence.
      + destruct (eq_dec k0 k'); congruence.
Qed.

Lemma get_set (k k0 : K) (v : V) m :
    JsMap.get k0 (JsMap.set k v m) = if eq_dec k0 k then Some v else JsMap.get k0 m.
Proof.
    destruct (eq_dec k0 k) as [->|Hne].
    - apply get_set_same.
    - apply get_set_other; assumption.
Qed.

Lemma get_In (k : K) (v : V) m : JsMap.get k m = Some v -> In (k, v) m.
Proof.
    induction m as [|[k' v'] m IH]; simpl; [discriminate|].
    destruct (eq_dec k k') as [->|Hne]; intros E.
    - inversion E; subst. now left.
    - right. auto.
Qed.

Lemma In_get_some (k : K) (v : V) m : In (k, v) m -> exists v', JsMap.get k m = Some v'.
Proof.
    induction m as [|[k' v'] m IH]; simpl; [tauto|].
    intros [E|Hin].
    - inversion E; subst. destruct (eq_dec k k); [eauto|congruence].
    - destruct (eq_dec k k'); eauto.
Qed.

Lemma has_true_iff (k : K) (m : list (K * V)) :
    JsMap.has k m = true <-> exists v, JsMap.get k m = Some v.
Proof.
    unfold JsMap.has. destruct (JsMap.get k m); split; intros; eauto; try discriminate.
    destruct H0; discriminate.
Qed.

Lemma keys_set_length (k : K) (v : V) m :
    (length (JsMap.set k v m) <= S (length m))%nat.
Proof.
    induction m as [|[k' v'] m IH]; simpl; [lia|].
    destruct (eq_dec k k'); simpl; lia.
Qed.
End MapFacts.

Lemma set_has_true_iff {K} `{EqDec K} (k : K) s : JsSet.has k s = true <-> In k s.
Proof.
  unfold JsSet.has. rewrite existsb_exists. split.
  - intros [x [Hin E]]. apply eqb_true_iff in E. now subst.
  - intros Hin. exists k. split; [assumption|apply eqb_refl].
Qed.

Lemma set_add_In {K} `{EqDec K} (k x : K) s : In x (JsSet.add k s) <-> x = k \/ In x s.
Proof.
  unfold JsSet.add. destruct (JsSet.has k s) eqn:E.
  - apply set_has_true_iff in E. split; [tauto|]. intros [->|?]; assumption.
  - rewrite in_app_iff. simpl. split; intros; intuition congruence.
Qed.

Lemma set_add_nonempty {K} `{EqDec K} (k : K) s : JsSet.add k s <> [].
Proof.
  unfold JsSet.add. destruct (JsSet.has k s) eqn:E.
  - destruct s; [discriminate E|discriminate].
  - destruct s; discriminate.
Qed.

(** ** Facts about comparisons *)

Lemma Qleb_true_iff a b : Qleb a b = true <-> a <= b.
Proof. apply Qle_bool_iff. Qed.

Lemma Qltb_true_iff a b : Qltb a b = true <-> a < b.
Proof.
  unfold Qltb. rewrite negb_true_iff. split.
  - intros E. apply Qnot_le_lt. intros Hle. apply Qle_bool_iff in Hle. congruence.
  - intros Hlt. destruct (Qle_bool b a) eqn:E; [|reflexivity].
    apply Qle_bool_iff in E. exfalso. eapply Qlt_not_le; eassumption.
Qed.

Lemma Qleb_false_iff a b : Qleb a b = false <-> b < a.
Proof.
  rewrite <- Qltb_true_iff. unfold Qltb, Qleb.
  destruct (Qle_bool a b); simpl; split; congruence.
Qed.

Lemma Qltb_false_iff a b : Qltb a b = false <-> b <= a.
Proof.
  unfold Qltb. rewrite negb_false_iff. apply Qle_bool_iff.
Qed.


(* ------------------------------------------------------------------ *)
(** ** Street graph: adjacency records of an edge *)

Section GraphFacts.

Variable haversineKm : LatLng -> LatLng -> Q.

Definition listAt {V} (m : Map string (list V)) (k : string) : list V :=
  match JsMap.get k m with Some l => l | None => [] end.

Lemma listAt_ensureKey {V} (k n : string) (m : Map string (list V)) :
  listAt (ensureKey k [] m) n = listAt m n.
Proof.
  unfold ensureKey, listAt, JsMap.has.
  destruct (JsMap.get k m) eqn:E; [reflexivity|].
  rewrite get_set. destruct (eq_dec n k) as [->|]; [rewrite E|]; reflexivity.
Qed.

Lemma ensureKey_get {V} (k : string) (v : V) (m : Map string V) :
  exists v', JsMap.get k (ensureKey k v m) = Some v'.
Proof.
  unfold ensureKey, JsMap.has. destruct (JsMap.get k m) eqn:E; eauto.
  rewrite get_set_same. eauto.
Qed.

Lemma ensureKey_keeps {V} (k k0 : string) (v : V) (m : Map string V) v0 :
  JsMap.get k0 m = Some v0 -> exists v', JsMap.get k0 (ensureKey k v m) = Some v'.
Proof.
  unfold ensureKey, JsMap.has. intros E.
  destruct (JsMap.get k m) eqn:Ek; eauto.
  rewrite get_set. destruct (eq_dec k0 k); eauto.
Qed.

Lemma pushNeighbor_keeps (k k0 : string) x (m : Map string (list GraphNeighbor)) v0 :
  JsMap.get k0 m = Some v0 -> exists v', JsMap.get k0 (pushNeighbor k x m) = Some v'.
Proof.
  unfold pushNeighbor. intros E. destruct (JsMap.get k m) eqn:Ek; eauto.
  rewrite get_set. destruct (eq_dec k0 k); eauto.
Qed.

Lemma listAt_pushNeighbor (k n : string) x (m : Map string (list GraphNeighbor)) l :
  JsMap.get k m = Some l ->
  listAt (pushNeighbor k x m) n = if eq_dec n k then listAt m n ++ [x] else listAt m n.
Proof.
  intros E. unfold pushNeighbor, listAt. rewrite E, get_set.
  destruct (eq_dec n k) as [->|]; [rewrite E|]; reflexivity.
Qed.

(** The adjacency records a segment adds at a node. *)
Definition recordsAt (n : string) (street : StreetSegment) : list GraphNeighbor :=
  if validStreet street then
    (if eq_dec n (nodeIdForStreetEndpoint street EndpointStart)
     then [mkGraphNeighbor (seg_id street) (nodeIdForStreetEndpoint street EndpointEnd)]
     else [])
    ++ (if eq_dec n (nodeIdForStreetEndpoint street EndpointEnd)
        then [mkGraphNeighbor (seg_id street) (nodeIdForStreetEndpoint street EndpointStart)]
        else [])
  else [].

Lemma neighborsOf_addStreet graph street n :
  neighborsOf (addStreet haversineKm graph street) n
  = neighborsOf graph n ++ recordsAt n street.
Proof.
  unfold addStreet, recordsAt. destruct (validStreet street); simpl.
  2: now rewrite app_nil_r.
  unfold neighborsOf; simpl.
  set (from := nodeIdForStreetEndpoint street EndpointStart).
  set (to := nodeIdForStreetEndpoint street EndpointEnd).
  set (adj2 := ensureKey to [] (ensureKey from [] (adjacency graph))).
  destruct (ensureKey_get from [] (adjacency graph)) as [l1 E1].
  destruct (ensureKey_keeps to from [] _ _ E1) as [l2 E2]. fold adj2 in E2.
  destruct (ensureKey_get to [] (ensureKey from [] (adjacency graph))) as [l3 E3].
  fold adj2 in E3.
  destruct (pushNeighbor_keeps from to (mkGraphNeighbor (seg_id street) to) _ _ E3)
    as [l4 E4].
  change (listAt (pushNeighbor to (mkGraphNeighbor (seg_id street) from)
                    (pushNeighbor from (mkGraphNeighbor (seg_id street) to) adj2)) n
          = listAt (adjacency graph) n
            ++ (if eq_dec n from then [mkGraphNeighbor (seg_id street) to] else [])
            ++ (if eq_dec n to then [mkGraphNeighbor (seg_id street) from] else [])).
  rewrite (listAt_pushNeighbor _ _ _ _ _ E4), (listAt_pushNeighbor _ _ _ _ _ E2).
  unfold adj2. rewrite !listAt_ensureKey.
  destruct (eq_dec n from), (eq_dec n to); simpl;
    rewrite <- ?app_assoc, ?app_nil_r; reflexivity.
Qed.

Lemma neighborsOf_fold streets graph n :
  neighborsOf (fold_left (addStreet haversineKm) streets graph) n
  = neighborsOf graph n ++ flat_map (recordsAt n) streets.
Proof.
  revert graph. induction streets as [|s rest IH]; intros graph; simpl.
  - now rewrite app_nil_r.
  - rewrite IH, neighborsOf_addStreet, <- app_assoc. reflexivity.
Qed.

Lemma neighborsOf_buildStreetGraph streets n :
  neighborsOf (buildStreetGraph haversineKm streets) n = flat_map (recordsAt n) streets.
Proof. unfold buildStreetGraph. rewrite neighborsOf_fold. reflexivity. Qed.

(** The edge a segment is stored as. *)
Definition edgeOfStreet (street : StreetSegment) : GraphEdge :=
  mkGraphEdge (seg_id street) (seg_id street) (seg_name street)
    (nodeIdForStreetEndpoint street EndpointStart)
    (nodeIdForStreetEndpoint street EndpointEnd)
    (seg_path street) (polylineDistanceKm haversineKm (seg_path street)).

Lemma edges_addStreet graph street e :
  JsMap.get e (edges (addStreet haversineKm graph street))
  = if validStreet street && eqb e (seg_id street)
    then Some (edgeOfStreet street)
    else JsMap.get e (edges graph).
Proof.
  unfold addStreet. destruct (validStreet street); simpl; [|reflexivity].
  rewrite get_set. unfold eqb. destruct (eq_dec e (seg_id street)); reflexivity.
Qed.

Lemma edges_fold_origin streets graph e edge :
  JsMap.get e (edges (fold_left (addStreet haversineKm) streets graph)) = Some edge ->
  JsMap.get e (edges graph) = Some edge
  \/ exists street, In street streets /\ validStreet street = true
                    /\ seg_id street = e /\ edge = edgeOfStreet street.
Proof.
  revert graph. induction streets as [|s rest IH]; intros graph; simpl; [tauto|].
  intros E. apply IH in E. destruct E as [E|[street [Hin Hs]]].
  - rewrite edges_addStreet in E.
    destruct (validStreet s) eqn:Hv; simpl in E; [|tauto].
    destruct (eqb e (seg_id s)) eqn:He; [|tauto].
    apply eqb_true_iff in He. inversion E; subst. right. exists s. auto.
  - right. exists street. tauto.
Qed.

Lemma edges_buildStreetGraph_origin streets e edge :
  JsMap.get e (edges (buildStreetGraph haversineKm streets)) = Some edge ->
  exists street, In street streets /\ validStreet street = true
                 /\ seg_id street = e /\ edge = edgeOfStreet street.
Proof.
  intros E. apply edges_fold_origin in E. destruct E as [E|E]; [discriminate|assumption].
Qed.

Lemma recordsAt_other_id n street e :
  seg_id street <> e ->
  filter (fun nb => eqb (nb_edgeId nb) e) (recordsAt n street) = [].
Proof.
  intros Hne. unfold recordsAt.
  destruct (validStreet street); [|reflexivity].
  assert (Hf : eqb (seg_id street) e = false) by now apply eqb_false_iff.
  destruct (eq_dec n _), (eq_dec n _); simpl; rewrite ?Hf; reflexivity.
Qed.

Lemma recordsAt_same_id n street :
  validStreet street = true ->
  length (filter (fun nb => eqb (nb_edgeId nb) (seg_id street)) (recordsAt n street))
  = ((if eq_dec n (nodeIdForStreetEndpoint street EndpointStart) then 1 else 0)
     + (if eq_dec n (nodeIdForStreetEndpoint street EndpointEnd) then 1 else 0))%nat.
Proof.
  intros Hv. unfold recordsAt. rewrite Hv.
  destruct (eq_dec n _), (eq_dec n _); simpl; rewrite ?eqb_refl; reflexivity.
Qed.

Lemma records_of_unique_street streets street n :
  NoDup (edgeStreetIds streets) -> In street streets -> validStreet street = true ->
  length (filter (fun nb => eqb (nb_edgeId nb) (seg_id street))
            (flat_map (recordsAt n) streets))
  = ((if eq_dec n (nodeIdForStreetEndpoint street EndpointStart) then 1 else 0)
     + (if eq_dec n (nodeIdForStreetEndpoint street EndpointEnd) then 1 else 0))%nat.
Proof.
  unfold edgeStreetIds.
  induction streets as [|s rest IH]; simpl; [tauto|].
  intros Hnd Hin Hv. rewrite filter_app, length_app.
  destruct (validStreet s) eqn:Hs; simpl in Hnd.
  - inversion Hnd as [|? ? Hnotin Hnd']; subst.
    destruct Hin as [->|Hin].
    + rewrite recordsAt_same_id by assumption.
      assert (Hrest : filter (fun nb => eqb (nb_edgeId nb) (seg_id street))
                        (flat_map (recordsAt n) rest) = []).
      { clear - Hnotin. induction rest as [|r rest IHr]; simpl; [reflexivity|].
        rewrite filter_app. simpl in Hnotin.
        destruct (validStreet r) eqn:Hr.
        - simpl in Hnotin. rewrite recordsAt_other_id by tauto.
          apply IHr. tauto.
        - unfold recordsAt at 1. rewrite Hr. simpl. apply IHr. assumption. }
      rewrite Hrest. simpl. lia.
    + rewrite recordsAt_other_id.
      * simpl. apply IH; assumption.
      * intros Heq. apply Hnotin. rewrite Heq. apply in_map.
        apply filter_In. auto.
  - destruct Hin as [->|Hin]; [congruence|].
    unfold recordsAt at 1. rewrite Hs. simpl. apply IH; assumption.
Qed.

End GraphFacts.

(** A closed loop: both ends of the segment are the node [a]. *)
Definition loopStreet : StreetSegment :=
  mkStreetSegment "loop" "Oak Circle"
    [mkLatLng 0 0; mkLatLng 0 0.001; mkLatLng 0.001 0.001; mkLatLng 0 0]
    (Some "a") (Some "a") false osm.

(** C4, as stated, fails: the edge of a closed loop has two records in the
    adjacency list of its only endpoint, whatever the distance function. *)
Lemma loop_edge_listed_twice :
  JsMap.get "loop" (edges (buildStreetGraph flatKm [loopStreet]))
  = Some (edgeOfStreet flatKm loopStreet)
  /\ edge_from (edgeOfStreet flatKm loopStreet) = "a"
  /\ adjacencyCount (buildStreetGraph flatKm [loopStreet]) "a" "loop" = 2%nat.
Proof. vm_compute. repeat split. Qed.

(** C4 (amended): when the segments that become edges have pairwise distinct
    ids, every edge of the graph built by [buildStreetGraph] has exactly one
    record in the adjacency list of each of its two endpoints if the endpoints
    differ, and exactly two records in the list of its endpoint if they are
    the same node. *)
Theorem buildStreetGraph_adjacency_records
    (haversineKm : LatLng -> LatLng -> Q) (streets : list StreetSegment)
    (e : string) (edge : GraphEdge) :
  NoDup (edgeStreetIds streets) ->
  JsMap.get e (edges (buildStreetGraph haversineKm streets)) = Some edge ->
  (edge_from edge <> edge_to edge ->
     adjacencyCount (buildStreetGraph haversineKm streets) (edge_from edge) e = 1%nat
     /\ adjacencyCount (buildStreetGraph haversineKm streets) (edge_to edge) e = 1%nat)
  /\ (edge_from edge = edge_to edge ->
        adjacencyCount (buildStreetGraph haversineKm streets) (edge_from edge) e = 2%nat).
Proof.
  intros Hnd Hget.
  destruct (edges_buildStreetGraph_origin _ _ _ _ Hget) as [s [Hin [Hv [Hid ->]]]].
  subst e. unfold adjacencyCount. rewrite !neighborsOf_buildStreetGraph.
  rewrite !(records_of_unique_street streets s) by assumption.
  simpl. split.
  - intros Hne.
    destruct (eq_dec _ _) as [_|C]; [|congruence].
    destruct (eq_dec _ _) as [C|_]; [congruence|].
    destruct (eq_dec _ _) as [C|_]; [congruence|].
    destruct (eq_dec _ _) as [_|C]; [|congruence]. auto.
  - intros Heq. rewrite <- Heq.
    destruct (eq_dec _ _) as [_|C]; [|congruence]. reflexivity.
Qed.

Definition elmFirst : StreetSegment :=
  mkStreetSegment "s1" "Elm" [mkLatLng 0 0; mkLatLng 0 1] (Some "a") (Some "b") false osm.
Definition elmSecond : StreetSegment :=
  mkStreetSegment "s2" "Elm" [mkLatLng 0 1; mkLatLng 0 2] (Some "b") (Some "c") false osm.

(** The theorem at the street [a - b - c] made of two segments. *)
Lemma buildStreetGraph_adjacency_records_witness :
  NoDup (edgeStreetIds [elmFirst; elmSecond])
  /\ JsMap.get "s1" (edges (buildStreetGraph flatKm [elmFirst; elmSecond]))
     = Some (edgeOfStreet flatKm elmFirst)
  /\ adjacencyCount (buildStreetGraph flatKm [elmFirst; elmSecond]) "a" "s1" = 1%nat
  /\ adjacencyCount (buildStreetGraph flatKm [elmFirst; elmSecond]) "b" "s1" = 1%nat.
Proof.
  assert (Hnd : NoDup (edgeStreetIds [elmFirst; elmSecond])).
  { repeat constructor; simpl; intuition discriminate. }
  assert (Hget : JsMap.get "s1" (edges (buildStreetGraph flatKm [elmFirst; elmSecond]))
                 = Some (edgeOfStreet flatKm elmFirst)) by reflexivity.
  split; [exact Hnd|]. split; [exact Hget|].
  apply (proj1 (buildStreetGraph_adjacency_records flatKm
                  [elmFirst; elmSecond] "s1" _ Hnd Hget)).
  simpl. discriminate.
Defined.

(* ------------------------------------------------------------------ *)
(** ** The planner as a sequence of applied steps *)

Section PlannerRuns.

Variable haversineKm : LatLng -> LatLng -> Q.
Variable graph : StreetGraph.
Variable completedByStreetId : Map string bool.

(** One change of the planner's variables: a traversal step applied and the
    distance and position moved on, or the Dijkstra cache filled. *)
Inductive plannerStep : PlannerState -> PlannerState -> Prop :=
| plannerStep_apply st step st' nextNodeId km :
    applyTraversalStep haversineKm graph completedByStreetId step st
    = Some (st', nextNodeId, km) ->
    plannerStep st (advance st' nextNodeId km)
| plannerStep_cache st cache :
    plannerStep st (withCache st cache).

Inductive plannerRun : PlannerState -> PlannerState -> Prop :=
| plannerRun_refl st : plannerRun st st
| plannerRun_step st1 st2 st3 :
    plannerRun st1 st2 -> plannerStep st2 st3 -> plannerRun st1 st3.

Lemma plannerRun_trans st1 st2 st3 :
  plannerRun st1 st2 -> plannerRun st2 st3 -> plannerRun st1 st3.
Proof.
  intros H12 H23. induction H23 as [|a b c Hab IH Hbc]; [assumption|].
  eapply plannerRun_step; [apply IH; assumption|exact Hbc].
Qed.

Lemma plannerRun_one st1 st2 : plannerStep st1 st2 -> plannerRun st1 st2.
Proof. intros H. eapply plannerRun_step; [apply plannerRun_refl|exact H]. Qed.

(** A property kept by every step is kept by a run. *)
Lemma plannerRun_invariant (P : PlannerState -> Prop) :
  (forall st st', P st -> plannerStep st st' -> P st') ->
  forall st st', plannerRun st st' -> P st -> P st'.
Proof.
  intros Hstep st st' Hrun. induction Hrun; intros HP; [assumption|].
  eapply Hstep; [|eassumption]. auto.
Qed.

Variable targetKmN hardMaxKm : Q.

Lemma applySpurSteps_run steps st :
  plannerRun st (fst (applySpurSteps haversineKm graph completedByStreetId steps st)).
Proof.
  revert st. induction steps as [|s rest IH]; intros st; simpl.
  - apply plannerRun_refl.
  - destruct (applyTraversalStep _ _ _ s st) as [[[st' nx] km]|] eqn:E; simpl.
    + eapply plannerRun_trans; [|apply IH].
      apply plannerRun_one. econstructor. exact E.
    + apply plannerRun_refl.
Qed.

Lemma runDeadEndSpurSweeps_run n st :
  plannerRun st
    (runDeadEndSpurSweeps haversineKm graph completedByStreetId targetKmN hardMaxKm n st).
Proof.
  revert st. induction n as [|n IH]; intros st; simpl;
    [apply plannerRun_refl|].
  destruct (negb _); [apply plannerRun_refl|].
  destruct (findBestDeadEndSpurAtNode _ _ _ _ _ _ _) as [spur|]; [|apply plannerRun_refl].
  destruct (_ && _); [apply plannerRun_refl|].
  pose proof (applySpurSteps_run (spur_steps spur) st) as Hs.
  destruct (applySpurSteps _ _ _ _ st) as [st1 failed]; simpl in Hs.
  destruct (_ || _); [assumption|].
  destruct (_ || _); [assumption|].
  eapply plannerRun_trans; [exact Hs|apply IH].
Qed.

Lemma runImmediateBranchSweep_run n st :
  plannerRun st
    (runImmediateBranchSweep haversineKm graph completedByStreetId targetKmN hardMaxKm n st).
Proof.
  revert st. induction n as [|n IH]; intros st; cbn -[runDeadEndSpurSweeps];
    [apply plannerRun_refl|].
  destruct (negb _); [apply plannerRun_refl|].
  destruct (findBestImmediateBranchStep _ _ _ _ _ _ _) as [branchStep|];
    [|apply plannerRun_refl].
  destruct (applyTraversalStep _ _ _ branchStep st) as [[[st' nx] km]|] eqn:E;
    [|apply plannerRun_refl].
  assert (H1 : plannerRun st
                 (runDeadEndSpurSweeps haversineKm graph completedByStreetId targetKmN
                    hardMaxKm 2 (advance st' nx km))).
  { eapply plannerRun_trans; [|apply runDeadEndSpurSweeps_run].
    apply plannerRun_one. econstructor. exact E. }
  destruct (_ || _); [assumption|].
  eapply plannerRun_trans; [exact H1|apply IH].
Qed.

Lemma walkConnector_run steps st :
  plannerRun st
    (fst (walkConnector haversineKm graph completedByStreetId targetKmN hardMaxKm steps st)).
Proof.
  revert st. induction steps as [|s rest IH]; intros st;
    cbn -[runDeadEndSpurSweeps runImmediateBranchSweep]; [apply plannerRun_refl|].
  destruct (JsMap.get _ _); [|apply plannerRun_refl].
  destruct (_ && _); [apply plannerRun_refl|].
  destruct (applyTraversalStep _ _ _ s st) as [[[st' nx] km]|] eqn:E;
    [|apply plannerRun_refl].
  assert (H1 : plannerRun st
                 (runImmediateBranchSweep haversineKm graph completedByStreetId targetKmN
                    hardMaxKm 2
                    (runDeadEndSpurSweeps haversineKm graph completedByStreetId targetKmN
                       hardMaxKm 3 (advance st' nx km)))).
  { eapply plannerRun_trans; [|apply runImmediateBranchSweep_run].
    eapply plannerRun_trans; [|apply runDeadEndSpurSweeps_run].
    apply plannerRun_one. econstructor. exact E. }
  destruct (_ || _); [exact H1|].
  eapply plannerRun_trans; [exact H1|apply IH].
Qed.

Lemma coverageTurn_run st st' goOn :
  coverageTurn haversineKm graph completedByStreetId targetKmN hardMaxKm st
  = Some (st', goOn) ->
  plannerRun st st'.
Proof.
  unfold coverageTurn.
  destruct (findBestCoverageMove _ _ _ _ _ _ _) as [[[move|] cache']|]; [| |discriminate].
  - pose proof (walkConnector_run (connectorSteps move) (withCache st cache')) as Hw.
    destruct (walkConnector _ _ _ _ _ _ _) as [st1 aborted]; simpl in Hw.
    assert (H1 : plannerRun st st1).
    { eapply plannerRun_trans; [|exact Hw]. apply plannerRun_one. constructor. }
    destruct aborted; [intros E; inversion E; subst; assumption|].
    destruct (JsMap.get _ _); [|intros E; inversion E; subst; assumption].
    destruct (_ && _); [intros E; inversion E; subst; assumption|].
    destruct (applyTraversalStep _ _ _ _ st1) as [[[st2 nx] km]|] eqn:E2;
      [|intros E; inversion E; subst; assumption].
    assert (H3 : plannerRun st
                   (runImmediateBranchSweep haversineKm graph completedByStreetId
                      targetKmN hardMaxKm 2
                      (runDeadEndSpurSweeps haversineKm graph completedByStreetId
                         targetKmN hardMaxKm 3 (advance st2 nx km)))).
    { eapply plannerRun_trans; [|apply runImmediateBranchSweep_run].
      eapply plannerRun_trans; [|apply runDeadEndSpurSweeps_run].
      eapply plannerRun_trans; [exact H1|].
      apply plannerRun_one. econstructor. exact E2. }
    destruct (_ && _); intros E; inversion E; subst; assumption.
  - assert (H0 : plannerRun st (withCache st cache')).
    { apply plannerRun_one. constructor. }
    destruct (_ && _); [intros E; inversion E; subst; assumption|].
    destruct (findBestLocalExtension _ _ _ _ _ _ _) as [localStep|];
      [|intros E; inversion E; subst; assumption].
    destruct (applyTraversalStep _ _ _ localStep _) as [[[st2 nx] km]|] eqn:E2;
      intros E; inversion E; subst; [|assumption].
    eapply plannerRun_trans; [exact H0|].
    apply plannerRun_one. econstructor. exact E2.
Qed.

Lemma mainLoop_run n st st' :
  mainLoop haversineKm graph completedByStreetId targetKmN hardMaxKm n st = Some st' ->
  plannerRun st st'.
Proof.
  revert st. induction n as [|n IH]; intros st; cbn -[runDeadEndSpurSweeps runImmediateBranchSweep].
  - intros E; inversion E; subst. apply plannerRun_refl.
  - destruct (negb _); [intros E; inversion E; subst; apply plannerRun_refl|].
    set (st2 := runImmediateBranchSweep haversineKm graph completedByStreetId
                  targetKmN hardMaxKm 6 _).
    assert (H2 : plannerRun st st2).
    { eapply plannerRun_trans; [apply runDeadEndSpurSweeps_run|].
      apply runImmediateBranchSweep_run. }
    destruct (Qleb hardMaxKm (distanceKm st2)); [intros E; inversion E; subst; exact H2|].
    destruct (coverageTurn _ _ _ _ _ st2) as [[st3 goOn]|] eqn:E3; [|discriminate].
    apply coverageTurn_run in E3.
    destruct goOn.
    + intros E. apply IH in E. eapply plannerRun_trans; [exact H2|].
      eapply plannerRun_trans; eassumption.
    + intros E; inversion E; subst. eapply plannerRun_trans; eassumption.
Qed.

End PlannerRuns.

(* ------------------------------------------------------------------ *)
(** ** The planner's entry point *)

Section EntryPoint.

Variable haversineKm : LatLng -> LatLng -> Q.
Variable distancePointToSegmentMeters : LatLng -> LatLng -> LatLng -> Q.
Variable isPointInCityBounds : LatLng -> CityBounds -> bool.

Let plan := buildEfficientCoverageRoute haversineKm distancePointToSegmentMeters
              isPointInCityBounds.
Let candidatesOf := plannerCandidates haversineKm isPointInCityBounds.

(** What a call that returns a route went through. *)
Lemma plan_returns_route uuid streets home targetKm cityBounds r :
  plan uuid streets home targetKm cityBounds = Some (Some r) ->
  exists startNodeId st,
    let candidates := candidatesOf streets home targetKm cityBounds in
    let graph := buildStreetGraph haversineKm candidates in
    let completedByStreetId :=
      fold_left (fun m street => JsMap.set (seg_id street) (seg_completed street) m)
        candidates [] in
    mainLoop haversineKm graph completedByStreetId (Qmax 0.8 targetKm)
      (hardMaxKmOf (Qmax 0.8 targetKm)) (maxIterationsOf (Qmax 0.8 targetKm))
      (initialPlannerState startNodeId) = Some st
    /\ finishRoute distancePointToSegmentMeters uuid graph st = Some r.
Proof.
  unfold plan, candidatesOf, buildEfficientCoverageRoute. cbv zeta.
  destruct (plannerCandidates _ _ _ _ _ _) as [|c cs]; [discriminate|].
  destruct (_ || _); [discriminate|].
  destruct (findNearestNodeId _ _ _) as [startNodeId|]; [|discriminate].
  destruct (negb (truthy startNodeId)); [discriminate|].
  destruct (_ =? 0)%nat; [discriminate|].
  destruct (mainLoop _ _ _ _ _ _ _) as [st|] eqn:EM; [|discriminate].
  intros E. injection E as E'. exists startNodeId, st. split; [exact EM|exact E'].
Qed.

Lemma finishRoute_fields uuid graph st r :
  finishRoute distancePointToSegmentMeters uuid graph st = Some r ->
  route_points r = routePoints st
  /\ route_streetIds r = coveredStreetIds st
  /\ route_streetNames r = coveredStreetNames st
  /\ route_distanceKm r = distanceKm st
  /\ route_id r = ("route-" ++ uuid)%string
  /\ (2 <= length (routePoints st))%nat
  /\ coveredStreetIds st <> [].
Proof.
  unfold finishRoute.
  destruct (length (routePoints st) <? 2)%nat eqn:E1; [discriminate|].
  destruct (JsSet.size (coveredStreetIds st) =? 0)%nat eqn:E2; [discriminate|].
  simpl. intros E. inversion E; subst; simpl.
  apply Nat.ltb_ge in E1. apply Nat.eqb_neq in E2.
  repeat split; try assumption.
  intros C. apply E2. unfold JsSet.size. rewrite C. reflexivity.
Qed.

(** Street names are recorded together with street ids. *)
Lemma names_follow_ids graph completedByStreetId st st' :
  plannerRun haversineKm graph completedByStreetId st st' ->
  (coveredStreetIds st <> [] -> coveredStreetNames st <> []) ->
  coveredStreetIds st' <> [] -> coveredStreetNames st' <> [].
Proof.
  intros Hrun. apply (plannerRun_invariant haversineKm graph completedByStreetId
    (fun s => coveredStreetIds s <> [] -> coveredStreetNames s <> [])); [|assumption].
  clear. intros st st' HP Hstep. destruct Hstep as [st step st1 nx km E|st cache].
  - unfold applyTraversalStep in E.
    destruct (appendRouteStep _ _ _ _) as [[pts edge]|]; [|discriminate].
    inversion E; subst; simpl. intros _. apply set_add_nonempty.
  - simpl. assumption.
Qed.

End EntryPoint.

(** C10: a route returned by [buildEfficientCoverageRoute] has at least two
    points, at least one street id and at least one street name. *)
Theorem returned_route_is_not_degenerate
    (haversineKm : LatLng -> LatLng -> Q)
    (distancePointToSegmentMeters : LatLng -> LatLng -> LatLng -> Q)
    (isPointInCityBounds : LatLng -> CityBounds -> bool)
    (uuid : string) (streets : list StreetSegment) (home : LatLng) (targetKm : Q)
    (cityBounds : option CityBounds) (r : SuggestedRoute) :
  buildEfficientCoverageRoute haversineKm distancePointToSegmentMeters isPointInCityBounds
    uuid streets home targetKm cityBounds = Some (Some r) ->
  (2 <= length (route_points r))%nat
  /\ (1 <= length (route_streetIds r))%nat
  /\ (1 <= length (route_streetNames r))%nat.
Proof.
  intros Hplan.
  destruct (plan_returns_route _ _ _ _ _ _ _ _ _ Hplan) as [start [st [Hloop Hfin]]].
  apply mainLoop_run in Hloop.
  apply finishRoute_fields in Hfin.
  destruct Hfin as [Hp [Hi [Hn [_ [_ [Hlen Hids]]]]]].
  pose proof (names_follow_ids _ _ _ _ _ Hloop) as Hnames.
  simpl in Hnames. specialize (Hnames (fun C => False_ind _ (C eq_refl)) Hids).
  rewrite Hp, Hi, Hn. repeat split.
  - assumption.
  - destruct (coveredStreetIds st); [congruence|simpl; lia].
  - destruct (coveredStreetNames st); [congruence|simpl; lia].
Qed.

(** The theorem at the run over [longRoad] from its start with a target of
    0.8 km. *)
Lemma returned_route_is_not_degenerate_witness :
  exists r,
    planWith "run-1" [longRoad] homeAtOrigin 0.8 None = Some (Some r)
    /\ (2 <= length (route_points r))%nat
    /\ (1 <= length (route_streetIds r))%nat
    /\ (1 <= length (route_streetNames r))%nat.
Proof.
  destruct (planWith "run-1" [longRoad] homeAtOrigin 0.8 None) as [[r|]|] eqn:E;
    [|vm_compute in E; discriminate|vm_compute in E; discriminate].
  exists r. split; [reflexivity|].
  exact (returned_route_is_not_degenerate flatKm flatSegmentMeters boxContains
           "run-1" [longRoad] homeAtOrigin 0.8 None r E).
Defined.

Lemma all_completed_none_unfinished (l : list StreetSegment) :
  (forall street, In street l -> seg_completed street = true) ->
  filter (fun street => negb (seg_completed street)) l = [].
Proof.
  induction l as [|x xs IH]; intros Hall; [reflexivity|].
  simpl. rewrite (Hall x (or_introl eq_refl)). simpl.
  apply IH. intros y Hy. apply Hall. now right.
Qed.

(** C7: [buildEfficientCoverageRoute] returns [null] when every candidate is
    completed, when there is no candidate, and when the graph built from the
    candidates has no edge or no node. *)
Theorem no_route_without_unfinished_streets
    (haversineKm : LatLng -> LatLng -> Q)
    (distancePointToSegmentMeters : LatLng -> LatLng -> LatLng -> Q)
    (isPointInCityBounds : LatLng -> CityBounds -> bool)
    (uuid : string) (streets : list StreetSegment) (home : LatLng) (targetKm : Q)
    (cityBounds : option CityBounds) :
  let candidates :=
    plannerCandidates haversineKm isPointInCityBounds streets home targetKm cityBounds in
  (forall street, In street candidates -> seg_completed street = true)
  \/ candidates = []
  \/ edges (buildStreetGraph haversineKm candidates) = []
  \/ nodes (buildStreetGraph haversineKm candidates) = [] ->
  buildEfficientCoverageRoute haversineKm distancePointToSegmentMeters isPointInCityBounds
    uuid streets home targetKm cityBounds = Some None.
Proof.
  intros candidates H. unfold buildEfficientCoverageRoute. cbv zeta.
  fold candidates.
  destruct candidates as [|c cs] eqn:Ec; [reflexivity|].
  destruct H as [Hall|[Hnil|[He|Hn]]].
  - destruct (_ || _); [reflexivity|].
    destruct (findNearestNodeId _ _ _); [|reflexivity].
    destruct (negb _); [reflexivity|].
    rewrite (all_completed_none_unfinished _ Hall). reflexivity.
  - discriminate.
  - rewrite He. reflexivity.
  - rewrite Hn. simpl. rewrite orb_true_r. reflexivity.
Qed.

(** The theorem at a data set whose only street is completed. *)
Lemma no_route_without_unfinished_streets_witness :
  (forall street,
      In street (plannerCandidates flatKm boxContains [longRoadDone] homeAtOrigin 0.8 None) ->
      seg_completed street = true)
  /\ planWith "run-1" [longRoadDone] homeAtOrigin 0.8 None = Some None.
Proof.
  assert (Hall : forall street,
      In street (plannerCandidates flatKm boxContains [longRoadDone] homeAtOrigin 0.8 None) ->
      seg_completed street = true).
  { vm_compute. intros street [<-|[]]. reflexivity. }
  split; [exact Hall|].
  exact (no_route_without_unfinished_streets flatKm flatSegmentMeters boxContains
           "run-1" [longRoadDone] homeAtOrigin 0.8 None (or_introl Hall)).
Defined.

(** C9: [buildEulerianRoute] returns what [buildEfficientCoverageRoute]
    returns on the same input (and with it the same draw of
    [crypto.randomUUID()]); its definition calls nothing else, neither
    [eulerizeEdgeSet] nor [buildEulerTraversal]. *)
Theorem buildEulerianRoute_is_the_greedy_planner
    (haversineKm : LatLng -> LatLng -> Q)
    (distancePointToSegmentMeters : LatLng -> LatLng -> LatLng -> Q)
    (isPointInCityBounds : LatLng -> CityBounds -> bool)
    (uuid : string) (streets : list StreetSegment) (home : LatLng) (targetKm : Q)
    (cityBounds : option CityBounds) :
  buildEulerianRoute haversineKm distancePointToSegmentMeters isPointInCityBounds
    uuid streets home targetKm cityBounds
  = buildEfficientCoverageRoute haversineKm distancePointToSegmentMeters isPointInCityBounds
      uuid streets home targetKm cityBounds.
Proof. reflexivity. Qed.

(** C5, as stated, fails: two runs on the same input draw two ids, and the
    routes they return differ in [id]. *)
Lemma two_runs_differ_in_id :
  planWith "run-1" [longRoad] homeAtOrigin 0.8 None
  <> planWith "run-2" [longRoad] homeAtOrigin 0.8 None.
Proof. vm_compute. discriminate. Qed.

(** C5 (amended): for a fixed input, two runs of [buildEfficientCoverageRoute]
    agree on whether they return, on whether they return [null], and on every
    field of the route but [id], which is ["route-"] followed by the run's own
    draw of [crypto.randomUUID()]. *)
Theorem planner_deterministic_up_to_id
    (haversineKm : LatLng -> LatLng -> Q)
    (distancePointToSegmentMeters : LatLng -> LatLng -> LatLng -> Q)
    (isPointInCityBounds : LatLng -> CityBounds -> bool)
    (uuid1 uuid2 : string) (streets : list StreetSegment) (home : LatLng) (targetKm : Q)
    (cityBounds : option CityBounds) :
  option_map (option_map routeBody)
    (buildEfficientCoverageRoute haversineKm distancePointToSegmentMeters
       isPointInCityBounds uuid1 streets home targetKm cityBounds)
  = option_map (option_map routeBody)
      (buildEfficientCoverageRoute haversineKm distancePointToSegmentMeters
         isPointInCityBounds uuid2 streets home targetKm cityBounds)
  /\ option_map (option_map route_id)
       (buildEfficientCoverageRoute haversineKm distancePointToSegmentMeters
          isPointInCityBounds uuid1 streets home targetKm cityBounds)
     = option_map (option_map (fun _ => ("route-" ++ uuid1)%string))
         (buildEfficientCoverageRoute haversineKm distancePointToSegmentMeters
            isPointInCityBounds uuid2 streets home targetKm cityBounds).
Proof.
  unfold buildEfficientCoverageRoute. cbv zeta.
  destruct (plannerCandidates _ _ _ _ _ _) as [|c cs]; [split; reflexivity|].
  destruct (_ || _); [split; reflexivity|].
  destruct (findNearestNodeId _ _ _) as [startNodeId|]; [|split; reflexivity].
  destruct (negb (truthy startNodeId)); [split; reflexivity|].
  destruct (_ =? 0)%nat; [split; reflexivity|].
  destruct (mainLoop _ _ _ _ _ _ _) as [st|]; [|split; reflexivity].
  unfold finishRoute. destruct (_ || _); split; reflexivity.
Qed.

(* ------------------------------------------------------------------ *)
(** ** Street name normalization *)

(** C8: [normalizeStreetName] is not idempotent. The name is trimmed before
    its periods are removed, so a period at an end of the name that is
    separated from the rest by white space leaves a space at that end, and
    a second application trims it. *)
Theorem normalizeStreetName_twice_differs :
  normalizeStreetName "Main St ." = "main st "
  /\ normalizeStreetName (normalizeStreetName "Main St .") = "main st"
  /\ normalizeStreetName (normalizeStreetName "Main St .")
     <> normalizeStreetName "Main St .".
Proof.
  split; [reflexivity|]. split; [reflexivity|]. vm_compute. discriminate.
Qed.

(* ------------------------------------------------------------------ *)
(** ** Way splitting of [parseOverpassResponse] *)

Lemma usage_after_nodes (ns : list Z) (usage : Map Z nat) (n : Z) :
  usageOf (fold_left (fun u x => JsMap.set x (S (usageOf u x)) u) ns usage) n
  = (usageOf usage n + count_occ Z.eq_dec ns n)%nat.
Proof.
  revert usage. induction ns as [|x ns IH]; intros usage; simpl; [lia|].
  rewrite IH. unfold usageOf at 1. rewrite get_set.
  destruct (eq_dec n x) as [->|Hne].
  - destruct (Z.eq_dec x x); [|congruence]. lia.
  - destruct (Z.eq_dec x n); [congruence|]. reflexivity.
Qed.

Lemma usage_after_ways (ways : list Way) (usage : Map Z nat) (n : Z) :
  usageOf
    (fold_left
       (fun usage way =>
          fold_left (fun u x => JsMap.set x (S (usageOf u x)) u) (way_nodes way) usage)
       ways usage) n
  = (usageOf usage n + occurrences ways n)%nat.
Proof.
  unfold occurrences. revert usage.
  induction ways as [|w ways IH]; intros usage; simpl; [lia|].
  rewrite IH, usage_after_nodes, count_occ_app. lia.
Qed.

Lemma countNodeUsage_occurrences (ways : list Way) (n : Z) :
  usageOf (countNodeUsage ways) n = occurrences ways n.
Proof. unfold countNodeUsage. rewrite usage_after_ways. reflexivity. Qed.

(** Ascending lists of indices. *)
Fixpoint ascendingFrom (lo : nat) (l : list nat) : Prop :=
  match l with
  | [] => True
  | x :: rest => (lo <= x)%nat /\ ascendingFrom (S x) rest
  end.

Lemma ascendingFrom_weaken lo lo' l :
  (lo' <= lo)%nat -> ascendingFrom lo l -> ascendingFrom lo' l.
Proof. destruct l; simpl; [tauto|]. intros ? [? ?]. split; [lia|assumption]. Qed.

Lemma ascendingFrom_seq a k : ascendingFrom a (seq a k).
Proof. revert a. induction k; intros a; simpl; [exact I|]. split; [lia|apply IHk]. Qed.

Lemma ascendingFrom_filter f lo l :
  ascendingFrom lo l -> ascendingFrom lo (filter f l).
Proof.
  revert lo. induction l as [|x l IH]; intros lo; simpl; [tauto|].
  intros [Hlo Hrest]. destruct (f x); simpl.
  - split; [assumption|]. apply IH. assumption.
  - apply IH. eapply ascendingFrom_weaken; [|eassumption]. lia.
Qed.

Lemma ascendingFrom_lower lo l x : ascendingFrom lo l -> In x l -> (lo <= x)%nat.
Proof.
  revert lo. induction l as [|y l IH]; intros lo; simpl; [tauto|].
  intros [Hlo Hrest] [->|Hin]; [assumption|].
  specialize (IH _ Hrest Hin). lia.
Qed.

Lemma insertNat_before_last (before : list nat) (x last : nat) :
  (forall p, In p before -> p < x)%nat -> (x < last)%nat ->
  insertNat x (before ++ [last]) = before ++ [x; last].
Proof.
  intros Hb Hx. induction before as [|p before IH]; simpl.
  - destruct (x <? last)%nat eqn:E; [reflexivity|]. apply Nat.ltb_ge in E. lia.
  - destruct (x <? p)%nat eqn:E.
    + apply Nat.ltb_lt in E. specialize (Hb p (or_introl eq_refl)). lia.
    + rewrite IH; [reflexivity|]. intros q Hq. apply Hb. now right.
Qed.

Lemma sort_ascending_tail (mid before : list nat) (lo last : nat) :
  ascendingFrom lo mid ->
  (forall p, In p before -> p < lo)%nat ->
  (forall x, In x mid -> x < last)%nat ->
  fold_left (fun sorted x => insertNat x sorted) mid (before ++ [last])
  = before ++ mid ++ [last].
Proof.
  revert before lo. induction mid as [|x mid IH]; intros before lo Hasc Hb Hm; simpl.
  - reflexivity.
  - destruct Hasc as [Hlo Hrest].
    rewrite insertNat_before_last.
    + change (before ++ [x; last]) with (before ++ [x] ++ [last]).
      rewrite app_assoc. rewrite (IH (before ++ [x]) (S x)).
      * rewrite <- app_assoc. reflexivity.
      * assumption.
      * intros p Hp. apply in_app_iff in Hp. destruct Hp as [Hp|[<-|[]]].
        -- specialize (Hb p Hp). lia.
        -- lia.
      * intros y Hy. apply Hm. now right.
    + intros p Hp. specialize (Hb p Hp). lia.
    + apply Hm. now left.
Qed.

Lemma add_new_indices (crit : nat -> bool) (idxs base : list nat) (lo : nat) :
  ascendingFrom lo idxs ->
  (forall b, In b base -> (b < lo)%nat \/ (forall i, In i idxs -> b <> i)) ->
  fold_left (fun splits i => if crit i then JsSet.add i splits else splits) idxs base
  = base ++ filter crit idxs.
Proof.
  revert base lo. induction idxs as [|i idxs IH]; intros base lo Hasc Hbase; simpl.
  - now rewrite app_nil_r.
  - destruct Hasc as [Hlo Hrest].
    destruct (crit i) eqn:Ec.
    + assert (Hnew : JsSet.has i base = false).
      { destruct (JsSet.has i base) eqn:Eh; [|reflexivity].
        apply set_has_true_iff in Eh. destruct (Hbase i Eh) as [Hlt|Hne].
        - lia.
        - exfalso. apply (Hne i); [now left|reflexivity]. }
      assert (Hadd : JsSet.add i base = base ++ [i]).
      { unfold JsSet.add. rewrite Hnew. reflexivity. }
      rewrite Hadd.
      rewrite (IH (base ++ [i]) (S i)); [now rewrite <- app_assoc|assumption|].
      intros b Hb. apply in_app_iff in Hb. destruct Hb as [Hb|[<-|[]]].
      * destruct (Hbase b Hb) as [Hlt|Hne]; [left; lia|].
        right. intros j Hj. apply Hne. now right.
      * left. lia.
    + apply (IH base (S i)); [assumption|].
      intros b Hb. destruct (Hbase b Hb) as [Hlt|Hne]; [left; lia|].
      right. intros j Hj. apply Hne. now right.
Qed.

Lemma fold_left_same_fun {A B} (f g : A -> B -> A) (l : list B) (a : A) :
  (forall x y, f x y = g x y) -> fold_left f l a = fold_left g l a.
Proof.
  intros Hfg. revert a. induction l as [|y l IH]; intros a; simpl; [reflexivity|].
  rewrite Hfg. apply IH.
Qed.

(** The node criterion of the source on the interior indices. *)
Definition interiorCut (ways : list Way) (way : Way) (i : nat) : bool :=
  match nth_error (way_nodes way) i with
  | Some nodeId => (2 <=? occurrences ways nodeId)%nat
  | None => false
  end.

Lemma cutIndices_shape (ways : list Way) (way : Way) :
  (2 <= length (way_nodes way))%nat ->
  cutIndices ways way
  = O :: filter (interiorCut ways way) (seq 1 (length (way_nodes way) - 2))
      ++ [length (way_nodes way) - 1]%nat.
Proof.
  intros Hlen. unfold cutIndices. cbv zeta.
  set (len := length (way_nodes way)) in *.
  replace (seq 0 len) with (O :: seq 1 (len - 2) ++ [len - 1]%nat).
  2:{ replace len with (S ((len - 2) + 1)) at 3 by lia.
      simpl. rewrite seq_app. simpl. do 3 f_equal. lia. }
  simpl. rewrite filter_app. simpl.
  rewrite Nat.eqb_refl, orb_true_r. simpl.
  f_equal. f_equal. apply filter_ext_in. intros i Hi.
  apply in_seq in Hi. unfold interiorCut.
  destruct (i =? 0)%nat eqn:E0; [apply Nat.eqb_eq in E0; lia|].
  destruct (i =? len - 1)%nat eqn:E1; [apply Nat.eqb_eq in E1; lia|].
  reflexivity.
Qed.

Lemma orderedSplits_cutIndices (ways : list Way) (way : Way) :
  (2 <= length (way_nodes way))%nat ->
  orderedSplits (countNodeUsage ways) way = cutIndices ways way.
Proof.
  intros Hlen. rewrite cutIndices_shape by assumption.
  unfold orderedSplits. cbv zeta.
  set (len := length (way_nodes way)) in *.
  assert (Hbase : JsSet.add (len - 1)%nat (JsSet.add O []) = [O; (len - 1)%nat]).
  { unfold JsSet.add at 2. simpl. unfold JsSet.add. simpl.
    unfold eqb. destruct (eq_dec (len - 1)%nat O); [lia|reflexivity]. }
  rewrite Hbase.
  rewrite (fold_left_same_fun _
             (fun splits i => if interiorCut ways way i then JsSet.add i splits else splits)).
  2:{ intros splits i. unfold interiorCut.
      destruct (nth_error (way_nodes way) i); [|reflexivity].
      rewrite countNodeUsage_occurrences. reflexivity. }
  rewrite (add_new_indices (interiorCut ways way) _ _ 1).
  - unfold sortNat. rewrite fold_left_app. simpl.
    destruct (len - 1 <? 0)%nat eqn:E; [apply Nat.ltb_lt in E; lia|].
    apply (sort_ascending_tail _ [O] 1).
    + apply ascendingFrom_filter, ascendingFrom_seq.
    + intros p [<-|[]]. lia.
    + intros x Hx. apply filter_In in Hx. destruct Hx as [Hx _].
      apply in_seq in Hx. lia.
  - apply ascendingFrom_seq.
  - intros b [<-|[<-|[]]].
    + left. lia.
    + right. intros i Hi. apply in_seq in Hi. lia.
Qed.

Lemma cutIndices_ascending (ways : list Way) (way : Way) :
  ascendingFrom 0 (cutIndices ways way)
  /\ (forall c, In c (cutIndices ways way) -> c < length (way_nodes way))%nat.
Proof.
  unfold cutIndices. cbv zeta. split.
  - apply ascendingFrom_filter, ascendingFrom_seq.
  - intros c Hc. apply filter_In in Hc. destruct Hc as [Hc _].
    apply in_seq in Hc. lia.
Qed.

Lemma last_is_nth {A} (l : list A) (d : A) : last l d = nth (length l - 1) l d.
Proof.
  induction l as [|x l IH]; [reflexivity|].
  destruct l as [|y l]; [reflexivity|].
  change (last (x :: y :: l) d) with (last (y :: l) d). rewrite IH.
  simpl. rewrite Nat.sub_0_r. reflexivity.
Qed.

Lemma slice_ends {A} (l : list A) (a b : nat) (d : A) :
  (a <= b)%nat -> (b < length l)%nat ->
  length (slice l a (b + 1)) = (b + 1 - a)%nat
  /\ hd d (slice l a (b + 1)) = nth a l d
  /\ last (slice l a (b + 1)) d = nth b l d.
Proof.
  intros Hab Hb. unfold slice.
  assert (Hlen : length (firstn (b + 1 - a) (skipn a l)) = (b + 1 - a)%nat).
  { rewrite length_firstn, length_skipn. lia. }
  split; [exact Hlen|]. split.
  - transitivity (nth 0 (skipn a l) d); [|rewrite nth_skipn; f_equal; lia].
    destruct (skipn a l) as [|x rest] eqn:E.
    + assert (H0 : length (skipn a l) = 0%nat) by now rewrite E.
      rewrite length_skipn in H0. lia.
    + replace (b + 1 - a)%nat with (S (b - a)) by lia. reflexivity.
  - rewrite last_is_nth, Hlen, nth_firstn.
    destruct (b + 1 - a - 1 <? b + 1 - a)%nat eqn:E; [|apply Nat.ltb_ge in E; lia].
    rewrite nth_skipn. f_equal. lia.
Qed.

Lemma lookupPath_length (nodeMap : Map Z LatLng) (ids : list Z) (path : list LatLng) :
  lookupPath nodeMap ids = Some path -> length path = length ids.
Proof.
  revert path. induction ids as [|x ids IH]; intros path; simpl.
  - intros E. inversion E. reflexivity.
  - destruct (JsMap.get x nodeMap); [|discriminate].
    destruct (lookupPath nodeMap ids) as [p|]; [|discriminate].
    simpl. intros E. inversion E. simpl. f_equal. apply IH. reflexivity.
Qed.

Lemma lookupPath_known (nodeMap : Map Z LatLng) (ids : list Z) :
  (exists path, lookupPath nodeMap ids = Some path)
  <-> (forall x, In x ids -> exists p, JsMap.get x nodeMap = Some p).
Proof.
  induction ids as [|x ids IH]; simpl.
  - split; [intros _ ? []|eauto].
  - split.
    + intros [path E] y [<-|Hy].
      * destruct (JsMap.get x nodeMap); [eauto|discriminate].
      * destruct (JsMap.get x nodeMap); [|discriminate].
        destruct (lookupPath nodeMap ids) as [p|]; [|discriminate].
        apply IH; eauto.
    + intros Hall. destruct (Hall x (or_introl eq_refl)) as [p Ep]. rewrite Ep.
      destruct (proj2 IH (fun y Hy => Hall y (or_intror Hy))) as [path Epath].
      rewrite Epath. simpl. eauto.
Qed.

Lemma In_slice {A} (l : list A) (a b : nat) (x : A) : In x (slice l a b) -> In x l.
Proof.
  unfold slice. intros H.
  rewrite <- (firstn_skipn a l). apply in_or_app. right.
  rewrite <- (firstn_skipn (b - a) (skipn a l)). apply in_or_app. now left.
Qed.

(** One turn of the loop over the ordered splits is the piece between two
    consecutive cuts. *)
Lemma splitSegment_piece (nodeMap : Map Z LatLng) (way : Way) (splits : list nat)
    (i a b : nat) :
  nth_error splits (i - 1) = Some a -> nth_error splits i = Some b ->
  (a < b)%nat -> (b < length (way_nodes way))%nat ->
  splitSegment nodeMap way splits i = pieceOfWay nodeMap way (i, a, b).
Proof.
  intros Ea Eb Hab Hb. unfold splitSegment, pieceOfWay. rewrite Ea, Eb.
  destruct (b <=? a)%nat eqn:E; [apply Nat.leb_le in E; lia|].
  destruct (slice_ends (way_nodes way) a b 0%Z) as [Hlen [Hhd Hlast]]; [lia|assumption|].
  destruct (length (slice (way_nodes way) a (b + 1)) <? 2)%nat eqn:E2;
    [apply Nat.ltb_lt in E2; lia|].
  destruct (lookupPath nodeMap (slice (way_nodes way) a (b + 1))) as [path|] eqn:Ep;
    [|reflexivity].
  apply lookupPath_length in Ep.
  destruct (length path <? 2)%nat eqn:E3; [apply Nat.ltb_lt in E3; lia|].
  rewrite Hhd, Hlast. reflexivity.
Qed.

Lemma split_loop_pairs (nodeMap : Map Z LatLng) (way : Way) (cuts pre : list nat) (lo : nat) :
  ascendingFrom lo cuts ->
  (forall c, In c cuts -> c < length (way_nodes way))%nat ->
  flat_map (splitSegment nodeMap way (pre ++ cuts))
    (seq (S (length pre)) (length cuts - 1))
  = flat_map (pieceOfWay nodeMap way) (cutPairs (S (length pre)) cuts).
Proof.
  revert pre lo. induction cuts as [|a cuts IH]; intros pre lo Hasc Hlt; [reflexivity|].
  destruct cuts as [|b rest]; [reflexivity|].
  destruct Hasc as [Hlo [Hab Hrest]].
  replace (length (a :: b :: rest) - 1)%nat with (S (length rest)) by (simpl; lia).
  cbn [seq flat_map cutPairs]. f_equal.
  - apply splitSegment_piece.
    + replace (S (length pre) - 1)%nat with (length pre) by lia.
      rewrite nth_error_app2 by lia. rewrite Nat.sub_diag. reflexivity.
    + rewrite nth_error_app2 by lia.
      replace (S (length pre) - length pre)%nat with 1%nat by lia. reflexivity.
    + lia.
    + apply Hlt. right. now left.
  - specialize (IH (pre ++ [a]) (S a)).
    rewrite <- app_assoc, length_app in IH. simpl in IH.
    rewrite Nat.add_1_r, Nat.sub_0_r in IH.
    apply IH.
    + split; assumption.
    + intros c Hc. apply Hlt. now right.
Qed.

Lemma splitWay_segmentsOfWay (nodeMap : Map Z LatLng) (ways : list Way) (way : Way) :
  (2 <= length (way_nodes way))%nat ->
  splitWay nodeMap (countNodeUsage ways) way = segmentsOfWay nodeMap ways way.
Proof.
  intros Hlen. unfold splitWay, segmentsOfWay. cbv zeta.
  rewrite orderedSplits_cutIndices by assumption.
  destruct (cutIndices_ascending ways way) as [Hasc Hlt].
  exact (split_loop_pairs nodeMap way (cutIndices ways way) [] 0 Hasc Hlt).
Qed.

Lemma retainedWay_nodes (element : OverpassElement) (way : Way) :
  retainedWay element = Some way -> (2 <= length (way_nodes way))%nat.
Proof.
  unfold retainedWay. destruct (el_type element); [discriminate|].
  destruct (negb _); [discriminate|].
  destruct (el_nodes element) as [ns|]; [|discriminate].
  destruct (length ns <? 2)%nat eqn:E; [discriminate|].
  destruct (el_tags element) as [tags|]; [|discriminate].
  destruct (tag_name tags); [|discriminate].
  destruct (negb _); [discriminate|].
  intros H. inversion H; subst; simpl. apply Nat.ltb_ge in E. assumption.
Qed.

Lemma retainedWays_nodes (payload : OverpassPayload) (way : Way) :
  In way (retainedWays payload) -> (2 <= length (way_nodes way))%nat.
Proof.
  unfold retainedWays. intros H. apply in_flat_map in H.
  destruct H as [element [_ Hin]].
  destruct (retainedWay element) as [w|] eqn:E; [|destruct Hin].
  destruct Hin as [<-|[]]. eapply retainedWay_nodes. eassumption.
Qed.

(** A way whose nodes all have coordinates yields its first piece. *)
Lemma whole_way_known_gives_segment (nodeMap : Map Z LatLng) (ways : list Way) (way : Way)
    (path : list LatLng) :
  (2 <= length (way_nodes way))%nat ->
  lookupPath nodeMap (way_nodes way) = Some path ->
  segmentsOfWay nodeMap ways way <> [].
Proof.
  intros Hlen Hpath. unfold segmentsOfWay.
  rewrite cutIndices_shape by assumption.
  set (mid := filter _ _).
  assert (Hfirst : exists b rest, mid ++ [length (way_nodes way) - 1]%nat = b :: rest).
  { destruct mid; simpl; eauto. }
  destruct Hfirst as [b [rest ->]]. cbn [cutPairs flat_map].
  unfold pieceOfWay at 1.
  assert (Hknown : exists p, lookupPath nodeMap (slice (way_nodes way) 0 (b + 1)) = Some p).
  { apply lookupPath_known. intros x Hx. apply In_slice in Hx.
    revert x Hx. apply lookupPath_known. eauto. }
  destruct Hknown as [p ->]. discriminate.
Qed.

Lemma flat_map_nil_inv {A B} (f : A -> list B) (l : list A) :
  flat_map f l = [] -> forall x, In x l -> f x = [].
Proof.
  induction l as [|y l IH]; simpl; [intros _ ? []|].
  intros E. apply app_eq_nil in E. destruct E as [Ey El].
  intros x [<-|Hx]; auto.
Qed.

Lemma flat_map_all_nil {A B} (f : A -> list B) (l : list A) :
  (forall x, In x l -> f x = []) -> flat_map f l = [].
Proof.
  induction l as [|y l IH]; simpl; [reflexivity|].
  intros H. rewrite (H y (or_introl eq_refl)). apply IH. intros x Hx. apply H. now right.
Qed.

Lemma flat_map_same {A B} (f g : A -> list B) (l : list A) :
  (forall x, In x l -> f x = g x) -> flat_map f l = flat_map g l.
Proof.
  induction l as [|y l IH]; simpl; [reflexivity|].
  intros H. rewrite (H y (or_introl eq_refl)). f_equal. apply IH.
  intros x Hx. apply H. now right.
Qed.

(** The result is the list of pieces; the fallback adds nothing. *)
Lemma parseOverpassResponse_splitSegments (payload : OverpassPayload) :
  parseOverpassResponse payload = splitSegments payload.
Proof.
  unfold parseOverpassResponse, splitSegments. cbv zeta.
  destruct (retainedWays payload) as [|w ws] eqn:Ew; [reflexivity|].
  rewrite <- Ew.
  assert (Hsame : flat_map (splitWay (collectNodes payload)
                              (countNodeUsage (retainedWays payload)))
                    (retainedWays payload)
                  = flat_map (segmentsOfWay (collectNodes payload) (retainedWays payload))
                      (retainedWays payload)).
  { apply flat_map_same. intros way Hway. apply splitWay_segmentsOfWay.
    eapply retainedWays_nodes. eassumption. }
  rewrite Hsame.
  destruct (flat_map (segmentsOfWay _ _) _) as [|s segs] eqn:Es; [|reflexivity].
  apply flat_map_all_nil. intros way Hway. unfold wholeWay.
  destruct (lookupPath (collectNodes payload) (way_nodes way)) as [path|] eqn:Ep;
    [|reflexivity].
  exfalso.
  apply (whole_way_known_gives_segment (collectNodes payload) (retainedWays payload)
           way path);
    [eapply retainedWays_nodes; eassumption|assumption|].
  exact (flat_map_nil_inv _ _ Es way Hway).
Qed.

Lemma count_occ_pos_in (l : list Z) (x : Z) : In x l -> (1 <= count_occ Z.eq_dec l x)%nat.
Proof. intros H. apply (count_occ_In Z.eq_dec) in H. lia. Qed.

Lemma occurrences_shared (before after : list Way) (way other : Way) (n : Z) :
  In n (way_nodes way) -> In other (before ++ after) -> In n (way_nodes other) ->
  (2 <= occurrences (before ++ way :: after) n)%nat.
Proof.
  intros Hway Hother Hn. unfold occurrences.
  rewrite flat_map_app. simpl. rewrite !count_occ_app.
  pose proof (count_occ_pos_in _ _ Hway) as H1.
  assert (H2 : (1 <= count_occ Z.eq_dec (flat_map way_nodes before) n
                    + count_occ Z.eq_dec (flat_map way_nodes after) n)%nat).
  { apply in_app_iff in Hother. destruct Hother as [Ho|Ho].
    - assert (In n (flat_map way_nodes before)) by (apply in_flat_map; eauto).
      pose proof (count_occ_pos_in _ _ H). lia.
    - assert (In n (flat_map way_nodes after)) by (apply in_flat_map; eauto).
      pose proof (count_occ_pos_in _ _ H). lia. }
  lia.
Qed.

(** The segment of a way between two of its nodes, numbered [k]. *)
Definition segmentBetween (way : Way) (k : Z) (startNodeRaw endNodeRaw : Z)
    (path : list LatLng) : StreetSegment :=
  mkStreetSegment
    ("osm-" ++ string_of_Z (way_id way) ++ "-" ++ string_of_Z startNodeRaw
     ++ "-" ++ string_of_Z endNodeRaw ++ "-" ++ string_of_Z k)
    (way_name way) path
    (Some (osmNodeId startNodeRaw)) (Some (osmNodeId endNodeRaw)) false osm.

(** C6, as stated, fails twice. In [lollipopPayload] the only retained way is
    cut at its interior node 1, which no second way uses: the way itself
    comes back to it. In [gapPayload] the only retained way has a node
    without coordinates, and the result is empty: no piece and no segment
    [osm-10] either. *)
Lemma way_cut_at_its_own_node :
  map way_id (retainedWays lollipopPayload) = [10%Z]
  /\ map seg_id (parseOverpassResponse lollipopPayload) = ["osm-10-4-1-1"; "osm-10-1-1-2"]
  /\ map way_id (retainedWays gapPayload) = [10%Z]
  /\ parseOverpassResponse gapPayload = [].
Proof. vm_compute. repeat split. Qed.

(** C6 (amended): [parseOverpassResponse] cuts each retained way at its first
    index, at its last index and at exactly those other indices whose node
    occurs at least twice in the node lists of the retained ways taken
    together (two visits by one way count as well); for every pair of
    consecutive cuts whose nodes all have coordinates it emits one segment
    [osm-<wayId>-<startNodeRaw>-<endNodeRaw>-<k>], [k] counting the pairs of
    the way from 1, and it emits nothing else: a pair with a node without
    coordinates is dropped and the fallback [osm-<wayId>] never adds a
    segment. In particular a way [[n1, n2, n3]] whose nodes have coordinates
    and whose node [n2] lies on another retained way yields exactly the
    segments [n1 - n2] and [n2 - n3]. *)
Theorem parseOverpassResponse_way_splitting (payload : OverpassPayload) :
  parseOverpassResponse payload
  = flat_map (segmentsOfWay (collectNodes payload) (retainedWays payload))
      (retainedWays payload)
  /\ forall before way after other n1 n2 n3 p1 p2 p3,
       retainedWays payload = before ++ way :: after ->
       way_nodes way = [n1; n2; n3] ->
       In other (before ++ after) -> In n2 (way_nodes other) ->
       JsMap.get n1 (collectNodes payload) = Some p1 ->
       JsMap.get n2 (collectNodes payload) = Some p2 ->
       JsMap.get n3 (collectNodes payload) = Some p3 ->
       segmentsOfWay (collectNodes payload) (retainedWays payload) way
       = [segmentBetween way 1 n1 n2 [p1; p2]; segmentBetween way 2 n2 n3 [p2; p3]].
Proof.
  split; [apply parseOverpassResponse_splitSegments|].
  intros before way after other n1 n2 n3 p1 p2 p3 Hways Hnodes Hother Hn2 E1 E2 E3.
  assert (Hocc : (2 <= occurrences (retainedWays payload) n2)%nat).
  { rewrite Hways. apply (occurrences_shared before after way other); try assumption.
    rewrite Hnodes. simpl. auto. }
  unfold segmentsOfWay, cutIndices. rewrite Hnodes. cbn [length seq filter nth_error].
  apply Nat.leb_le in Hocc. rewrite Hocc. cbn.
  unfold pieceOfWay, slice. rewrite Hnodes. cbn.
  rewrite E1, E2, E3. cbn.
  destruct (eq_dec n2 n2); reflexivity.
Qed.

(** The theorem at [crossingPayload], for its way 10. *)
Lemma parseOverpassResponse_way_splitting_witness :
  map seg_id (parseOverpassResponse crossingPayload)
  = ["osm-10-1-2-1"; "osm-10-2-3-2"; "osm-11-4-2-1"]
  /\ segmentsOfWay (collectNodes crossingPayload) (retainedWays crossingPayload)
       (mkWay 10 "Elm Street" [1; 2; 3]%Z)
     = [segmentBetween (mkWay 10 "Elm Street" [1; 2; 3]%Z) 1 1 2
          [mkLatLng 0 0; mkLatLng 0 0.001];
        segmentBetween (mkWay 10 "Elm Street" [1; 2; 3]%Z) 2 2 3
          [mkLatLng 0 0.001; mkLatLng 0 0.002]].
Proof.
  split; [reflexivity|].
  apply (proj2 (parseOverpassResponse_way_splitting crossingPayload)
           [] (mkWay 10 "Elm Street" [1; 2; 3]%Z) [mkWay 11 "Elm Street" [4; 2]%Z]
           (mkWay 11 "Elm Street" [4; 2]%Z)).
  - reflexivity.
  - reflexivity.
  - simpl. auto.
  - simpl. auto.
  - reflexivity.
  - reflexivity.
  - reflexivity.
Defined.

(* ------------------------------------------------------------------ *)
(** ** The hard ceiling *)

(** What the best of a loop with [better] inherits from the candidates. *)
Lemma fold_better_inherits {A B} (score : B -> Q) (candidateOf : A -> option B)
    (P : B -> Prop) (l : list A) (init : option B) (chosen : B) :
  (forall x c, In x l -> candidateOf x = Some c -> P c) ->
  (forall b, init = Some b -> P b) ->
  fold_left
    (fun best x =>
       match candidateOf x with
       | None => best
       | Some candidate => better score best candidate
       end) l init = Some chosen ->
  P chosen.
Proof.
  revert init. induction l as [|x l IH]; intros init Hc Hinit; simpl.
  - intros E. auto.
  - apply IH.
    + intros y c Hy. apply Hc. now right.
    + intros b. destruct (candidateOf x) as [c|] eqn:Ex; [|auto].
      unfold better. destruct init as [b0|].
      * destruct (Qltb (score b0) (score c)); intros E; inversion E; subst.
        -- eapply Hc; [now left|eassumption].
        -- auto.
      * intros E; inversion E; subst. eapply Hc; [now left|eassumption].
Qed.

Section Ceiling.

Variable haversineKm : LatLng -> LatLng -> Q.
Variable graph : StreetGraph.
Variable completedByStreetId : Map string bool.
Variable targetKmN hardMaxKm longest : Q.

(** The keys of the edge map are the ids of the edges, and no edge is longer
    than [longest]. *)
Hypothesis edges_keyed :
  forall k edge, JsMap.get k (edges graph) = Some edge -> edge_id edge = k.
Hypothesis edges_bounded :
  forall k edge, JsMap.get k (edges graph) = Some edge ->
    0 <= edge_distanceKm edge /\ edge_distanceKm edge <= longest.
Hypothesis target_positive : 0 <= targetKmN.
Hypothesis longest_nonneg : 0 <= longest.

Local Abbreviation ceiling := (Qmax hardMaxKm (targetKmN * 0.55 + 24 * longest)).

Lemma stepKm_range step : 0 <= stepKm graph step /\ stepKm graph step <= longest.
Proof.
  unfold stepKm. destruct (JsMap.get _ _) eqn:E.
  - eapply edges_bounded. eassumption.
  - split; [lra|assumption].
Qed.

Lemma sumStepKm_cons s l : sumStepKm graph (s :: l) = stepKm graph s + sumStepKm graph l.
Proof. reflexivity. Qed.

Lemma sumStepKm_nil : sumStepKm graph [] = 0.
Proof. reflexivity. Qed.

Lemma sumStepKm_nonneg steps : 0 <= sumStepKm graph steps.
Proof.
  induction steps as [|s steps IH]; [rewrite sumStepKm_nil; lra|].
  rewrite sumStepKm_cons. pose proof (stepKm_range s). lra.
Qed.

Lemma sumStepKm_app l1 l2 :
  sumStepKm graph (l1 ++ l2) == sumStepKm graph l1 + sumStepKm graph l2.
Proof.
  induction l1 as [|s l1 IH]; [rewrite sumStepKm_nil; simpl; lra|].
  rewrite <- app_comm_cons, !sumStepKm_cons, IH. lra.
Qed.

Lemma sumStepKm_rev l : sumStepKm graph (rev l) == sumStepKm graph l.
Proof.
  induction l as [|s l IH]; [reflexivity|].
  cbn [rev]. rewrite sumStepKm_app, IH, !sumStepKm_cons, sumStepKm_nil. lra.
Qed.

Lemma sumStepKm_reversed l : sumStepKm graph (map reverseStep l) = sumStepKm graph l.
Proof.
  induction l as [|s l IH]; [reflexivity|].
  cbn [map]. rewrite !sumStepKm_cons, IH. reflexivity.
Qed.

Lemma sumStepKm_length l : sumStepKm graph l <= inject_Z (Z.of_nat (length l)) * longest.
Proof.
  induction l as [|s l IH];
    [rewrite sumStepKm_nil; change (inject_Z (Z.of_nat (length (@nil RouteTraversalStep)))) with 0; lra|].
  rewrite sumStepKm_cons. cbn [length].
  rewrite Nat2Z.inj_succ. unfold Z.succ. rewrite inject_Z_plus.
  pose proof (stepKm_range s). change (inject_Z 1) with 1. lra.
Qed.

(** A step that passed a gate below 0.55 keeps the distance under the
    ceiling. *)
Lemma gate_keeps_ceiling (d w gate : Q) :
  gate <= 0.55 -> 0 <= w -> w <= 24 * longest ->
  Qltb hardMaxKm (d + w) && Qleb (targetKmN * gate) d = false ->
  d + w <= ceiling.
Proof.
  intros Hg Hw0 Hw Hgate.
  apply andb_false_iff in Hgate. destruct Hgate as [E|E].
  - apply Qltb_false_iff in E. eapply Qle_trans; [exact E|apply Q.le_max_l].
  - apply Qleb_false_iff in E. eapply Qle_trans; [|apply Q.le_max_r].
    assert (targetKmN * gate <= targetKmN * 0.55) by nra. lra.
Qed.

Lemma applyTraversalStep_km step st st' nextNodeId km :
  applyTraversalStep haversineKm graph completedByStreetId step st
  = Some (st', nextNodeId, km) ->
  km = stepKm graph step /\ distanceKm st' = distanceKm st.
Proof.
  unfold applyTraversalStep, appendRouteStep, stepKm.
  destruct (JsMap.get _ _) as [edge|]; [|discriminate].
  destruct (length _ <? 2)%nat; [discriminate|].
  intros E. inversion E; subst. split; reflexivity.
Qed.

Lemma applySpurSteps_distance steps st :
  distanceKm (fst (applySpurSteps haversineKm graph completedByStreetId steps st))
  <= distanceKm st + sumStepKm graph steps.
Proof.
  revert st. induction steps as [|s steps IH]; intros st;
    [rewrite sumStepKm_nil; simpl; lra|].
  rewrite sumStepKm_cons. cbn [applySpurSteps].
  destruct (applyTraversalStep _ _ _ s st) as [[[st' nx] km]|] eqn:E.
  - apply applyTraversalStep_km in E. destruct E as [-> Hd].
    eapply Qle_trans; [apply IH|]. cbn [advance distanceKm]. rewrite Hd. lra.
  - cbn [fst]. pose proof (stepKm_range s). pose proof (sumStepKm_nonneg steps). lra.
Qed.

Lemma forwardChainLoop_length fuel rewarded current nextEdgeId forward :
  (length (forwardChainLoop fuel graph completedByStreetId rewarded current nextEdgeId forward)
   <= length forward + fuel)%nat.
Proof.
  revert current nextEdgeId forward.
  induction fuel as [|fuel IH]; intros current nextEdgeId forward; simpl; [lia|].
  destruct (negb (truthy nextEdgeId)); [lia|].
  destruct (JsMap.get nextEdgeId (edges graph)) as [edge|]; [|lia].
  destruct (streetDone _ _ _); [lia|].
  destruct (if eqb (edge_from edge) current then _ else _) as [toNode|]; [|lia].
  destruct (negb (truthy toNode)); [lia|].
  destruct (filter _ _) as [|only [|]]; try (rewrite length_app; simpl; lia).
  destruct (JsMap.get (nb_edgeId only) (edges graph)) as [candidateEdge|];
    [|rewrite length_app; simpl; lia].
  destruct (streetDone _ _ _); [rewrite length_app; simpl; lia|].
  eapply Nat.le_trans; [apply IH|]. rewrite length_app. simpl. lia.
Qed.

Lemma forwardChain_length anchor firstEdgeId rewarded :
  (length (buildDeadEndForwardChainFromNode graph anchor firstEdgeId
             completedByStreetId rewarded) <= 12)%nat.
Proof.
  unfold buildDeadEndForwardChainFromNode.
  pose proof (forwardChainLoop_length 12 rewarded anchor firstEdgeId []) as H.
  destruct (forwardChainLoop _ _ _ _ _ _ _) as [|first rest]; [simpl; lia|].
  destruct (negb _); [simpl; lia|exact H].
Qed.

Lemma spurTally_sum forward q a b :
  fst (fst (fold_left (spurTally graph) forward (q, a, b))) == q + sumStepKm graph forward.
Proof.
  revert q a b. induction forward as [|s forward IH]; intros q a b;
    [rewrite sumStepKm_nil; simpl; lra|].
  rewrite sumStepKm_cons. cbn [fold_left].
  unfold spurTally at 2. unfold stepKm.
  destruct (JsMap.get (step_edgeId s) (edges graph)) as [edge|].
  - rewrite IH. lra.
  - rewrite IH. lra.
Qed.

(** A spur plan walks what it announces, and at most 24 edges. *)
Definition spurPlanSound (spur : SpurPlan) : Prop :=
  sumStepKm graph (spur_steps spur) == totalDistanceKm spur
  /\ 0 <= totalDistanceKm spur
  /\ totalDistanceKm spur <= 24 * longest.

Lemma spurCandidate_sound current d st neighbor spur :
  spurCandidate graph current targetKmN d hardMaxKm completedByStreetId st neighbor
  = Some spur ->
  spurPlanSound spur.
Proof.
  unfold spurCandidate.
  pose proof (forwardChain_length current (nb_edgeId neighbor) (rewardedStreetIds st)) as Hlen.
  destruct (buildDeadEndForwardChainFromNode _ _ _ _ _) as [|first rest] eqn:Ef;
    [discriminate|].
  remember (first :: rest) as forward eqn:Hforward.
  pose proof (spurTally_sum forward 0 [] []) as Hsum.
  destruct (fold_left (spurTally graph) forward (0, [], [])) as [[oneWay sIds] nIds].
  cbn [fst] in Hsum.
  destruct (_ && _); [discriminate|].
  intros E. inversion E; subst spur; clear E.
  unfold spurPlanSound. cbn [spur_steps totalDistanceKm].
  pose proof (sumStepKm_length forward) as Hbound.
  pose proof (sumStepKm_nonneg forward) as Hnn.
  assert (Hl : inject_Z (Z.of_nat (length forward)) <= 12).
  { change 12 with (inject_Z 12). rewrite <- Zle_Qle. lia. }
  assert (Hs : sumStepKm graph (forward ++ map reverseStep (rev forward))
               == 2 * sumStepKm graph forward).
  { rewrite sumStepKm_app, sumStepKm_reversed. rewrite sumStepKm_rev. lra. }
  split; [lra|]. split; [lra|]. nra.
Qed.

Lemma findBestDeadEndSpurAtNode_sound current d st spur :
  findBestDeadEndSpurAtNode graph current targetKmN d hardMaxKm completedByStreetId st
  = Some spur ->
  spurPlanSound spur.
Proof.
  unfold findBestDeadEndSpurAtNode.
  apply (fold_better_inherits spur_score
           (spurCandidate graph current targetKmN d hardMaxKm completedByStreetId st)
           spurPlanSound).
  - intros x c _. apply spurCandidate_sound.
  - discriminate.
Qed.

Lemma runDeadEndSpurSweeps_ceiling n st :
  distanceKm st <= ceiling ->
  distanceKm (runDeadEndSpurSweeps haversineKm graph completedByStreetId targetKmN
                hardMaxKm n st) <= ceiling.
Proof.
  revert st. induction n as [|n IH]; intros st Hst; simpl; [assumption|].
  destruct (negb _); [assumption|].
  destruct (findBestDeadEndSpurAtNode _ _ _ _ _ _ _) as [spur|] eqn:Es; [|assumption].
  apply findBestDeadEndSpurAtNode_sound in Es. destruct Es as [Hsum [Hnn Hmax]].
  destruct (_ && _) eqn:Egate; [assumption|].
  pose proof (applySpurSteps_distance (spur_steps spur) st) as Hd.
  destruct (applySpurSteps _ _ _ _ st) as [st1 failed]; simpl in Hd.
  assert (H1 : distanceKm st1 <= ceiling).
  { eapply Qle_trans; [exact Hd|]. rewrite Hsum.
    apply (gate_keeps_ceiling _ _ 0.48); [lra|assumption|assumption|exact Egate]. }
  destruct (_ || _); [assumption|].
  destruct (_ || _); [assumption|].
  apply IH. assumption.
Qed.

(** A single step chosen at a node: its gate has been passed. *)
Definition stepGated (d gate : Q) (step : RouteTraversalStep) : Prop :=
  Qltb hardMaxKm (d + stepKm graph step) && Qleb (targetKmN * gate) d = false.

Lemma findBestImmediateBranchStep_gated current d st step :
  findBestImmediateBranchStep graph current targetKmN d hardMaxKm completedByStreetId st
  = Some step ->
  stepGated d 0.52 step.
Proof.
  unfold findBestImmediateBranchStep.
  destruct (fold_left _ _ _) as [[chosen score]|] eqn:E; [|discriminate].
  simpl. intros H. inversion H; subst; clear H.
  change (stepGated d 0.52 (fst (step, score))).
  revert E.
  apply (fold_better_inherits snd
           (branchCandidate graph current targetKmN d hardMaxKm completedByStreetId st
              (length (neighborsOf graph current)))
           (fun c => stepGated d 0.52 (fst c))).
  - intros nb c _. unfold branchCandidate.
    destruct (JsMap.get (nb_edgeId nb) (edges graph)) as [edge|] eqn:Ee; [|discriminate].
    destruct (negb _); [discriminate|].
    destruct (0 <? _)%nat; [discriminate|].
    destruct (2 <? _)%nat; [discriminate|].
    destruct (Qltb 1.2 _); [discriminate|].
    destruct (_ && _) eqn:Egate; [discriminate|].
    intros H. inversion H; subst; clear H. unfold stepGated, stepKm. simpl.
    rewrite (edges_keyed _ _ Ee), Ee. exact Egate.
  - discriminate.
Qed.

Lemma findBestLocalExtension_gated current d st step :
  findBestLocalExtension graph current targetKmN d hardMaxKm completedByStreetId st
  = Some step ->
  stepGated d 0.55 step.
Proof.
  unfold findBestLocalExtension.
  destruct (fold_left _ _ _) as [[chosen score]|] eqn:E; [|discriminate].
  simpl. intros H. inversion H; subst; clear H.
  change (stepGated d 0.55 (fst (step, score))).
  revert E.
  apply (fold_better_inherits snd
           (localCandidate graph current targetKmN d hardMaxKm completedByStreetId st)
           (fun c => stepGated d 0.55 (fst c))).
  - intros nb c _. unfold localCandidate.
    destruct (JsMap.get (nb_edgeId nb) (edges graph)) as [edge|] eqn:Ee; [|discriminate].
    destruct (_ && _) eqn:Egate; [discriminate|].
    intros H. inversion H; subst; clear H. unfold stepGated, stepKm. simpl.
    rewrite (edges_keyed _ _ Ee), Ee. exact Egate.
  - discriminate.
Qed.

Lemma gated_step_ceiling gate step st st' nextNodeId km :
  gate <= 0.55 ->
  stepGated (distanceKm st) gate step ->
  applyTraversalStep haversineKm graph completedByStreetId step st
  = Some (st', nextNodeId, km) ->
  distanceKm (advance st' nextNodeId km) <= ceiling.
Proof.
  intros Hg Hgate E. apply applyTraversalStep_km in E. destruct E as [-> Hd].
  simpl. rewrite Hd. pose proof (stepKm_range step) as [H0 H1].
  apply (gate_keeps_ceiling _ _ gate); [assumption|assumption|lra|exact Hgate].
Qed.

Lemma runImmediateBranchSweep_ceiling n st :
  distanceKm st <= ceiling ->
  distanceKm (runImmediateBranchSweep haversineKm graph completedByStreetId targetKmN
                hardMaxKm n st) <= ceiling.
Proof.
  revert st. induction n as [|n IH]; intros st Hst; cbn -[runDeadEndSpurSweeps];
    [assumption|].
  destruct (negb _); [assumption|].
  destruct (findBestImmediateBranchStep _ _ _ _ _ _ _) as [branchStep|] eqn:Eb;
    [|assumption].
  apply findBestImmediateBranchStep_gated in Eb.
  destruct (applyTraversalStep _ _ _ branchStep st) as [[[st' nx] km]|] eqn:E;
    [|assumption].
  assert (H1 : distanceKm (runDeadEndSpurSweeps haversineKm graph completedByStreetId
                             targetKmN hardMaxKm 2 (advance st' nx km)) <= ceiling).
  { apply runDeadEndSpurSweeps_ceiling.
    eapply (gated_step_ceiling 0.52); [lra|exact Eb|exact E]. }
  destruct (_ || _); [assumption|].
  apply IH. assumption.
Qed.

Lemma walkConnector_ceiling steps st :
  distanceKm st <= ceiling ->
  distanceKm (fst (walkConnector haversineKm graph completedByStreetId targetKmN
                     hardMaxKm steps st)) <= ceiling.
Proof.
  revert st. induction steps as [|s steps IH]; intros st Hst;
    cbn -[runDeadEndSpurSweeps runImmediateBranchSweep]; [assumption|].
  destruct (JsMap.get (step_edgeId s) (edges graph)) as [connectorEdge|] eqn:Ee;
    [|assumption].
  destruct (_ && _) eqn:Egate; [assumption|].
  destruct (applyTraversalStep _ _ _ s st) as [[[st' nx] km]|] eqn:E; [|assumption].
  assert (H1 : distanceKm
                 (runImmediateBranchSweep haversineKm graph completedByStreetId targetKmN
                    hardMaxKm 2
                    (runDeadEndSpurSweeps haversineKm graph completedByStreetId targetKmN
                       hardMaxKm 3 (advance st' nx km))) <= ceiling).
  { apply runImmediateBranchSweep_ceiling, runDeadEndSpurSweeps_ceiling.
    eapply (gated_step_ceiling 0.55); [lra| |exact E].
    unfold stepGated, stepKm. rewrite Ee. exact Egate. }
  destruct (_ || _); [exact H1|].
  apply IH. exact H1.
Qed.

Lemma coverageTurn_ceiling st st' goOn :
  distanceKm st <= ceiling ->
  coverageTurn haversineKm graph completedByStreetId targetKmN hardMaxKm st
  = Some (st', goOn) ->
  distanceKm st' <= ceiling.
Proof.
  intros Hst. unfold coverageTurn.
  destruct (findBestCoverageMove _ _ _ _ _ _ _) as [[[move|] cache']|]; [| |discriminate].
  - pose proof (walkConnector_ceiling (connectorSteps move) (withCache st cache') Hst) as Hw.
    destruct (walkConnector _ _ _ _ _ _ _) as [st1 aborted]; simpl in Hw.
    destruct aborted; [intros E; inversion E; subst; assumption|].
    destruct (JsMap.get (step_edgeId (targetStep move)) (edges graph)) as [targetEdge|] eqn:Ee;
      [|intros E; inversion E; subst; assumption].
    destruct (_ && _) eqn:Egate; [intros E; inversion E; subst; assumption|].
    destruct (applyTraversalStep _ _ _ _ st1) as [[[st2 nx] km]|] eqn:E2;
      [|intros E; inversion E; subst; assumption].
    assert (H3 : distanceKm
                   (runImmediateBranchSweep haversineKm graph completedByStreetId
                      targetKmN hardMaxKm 2
                      (runDeadEndSpurSweeps haversineKm graph completedByStreetId
                         targetKmN hardMaxKm 3 (advance st2 nx km))) <= ceiling).
    { apply runImmediateBranchSweep_ceiling, runDeadEndSpurSweeps_ceiling.
      eapply (gated_step_ceiling 0.55); [lra| |exact E2].
      unfold stepGated, stepKm. rewrite Ee. exact Egate. }
    destruct (Qleb _ _ && _); intros E; inversion E; subst; exact H3.
  - destruct (_ && _); [intros E; inversion E; subst; assumption|].
    destruct (findBestLocalExtension _ _ _ _ _ _ _) as [localStep|] eqn:El;
      [|intros E; inversion E; subst; assumption].
    apply findBestLocalExtension_gated in El.
    destruct (applyTraversalStep _ _ _ localStep _) as [[[st2 nx] km]|] eqn:E2;
      intros E; inversion E; subst; [|assumption].
    eapply (gated_step_ceiling 0.55); [lra|exact El|exact E2].
Qed.

Lemma mainLoop_ceiling n st st' :
  distanceKm st <= ceiling ->
  mainLoop haversineKm graph completedByStreetId targetKmN hardMaxKm n st = Some st' ->
  distanceKm st' <= ceiling.
Proof.
  revert st. induction n as [|n IH]; intros st Hst;
    cbn -[runDeadEndSpurSweeps runImmediateBranchSweep].
  - intros E; inversion E; subst. assumption.
  - destruct (negb _); [intros E; inversion E; subst; assumption|].
    set (st2 := runImmediateBranchSweep haversineKm graph completedByStreetId
                  targetKmN hardMaxKm 6 _).
    assert (H2 : distanceKm st2 <= ceiling).
    { apply runImmediateBranchSweep_ceiling, runDeadEndSpurSweeps_ceiling. assumption. }
    destruct (Qleb hardMaxKm (distanceKm st2)); [intros E; inversion E; subst; exact H2|].
    destruct (coverageTurn _ _ _ _ _ st2) as [[st3 goOn]|] eqn:E3; [|discriminate].
    apply coverageTurn_ceiling in E3; [|assumption].
    destruct goOn.
    + apply IH. assumption.
    + intros E; inversion E; subst. assumption.
Qed.

End Ceiling.

Lemma polylineDistanceKm_nonneg (haversineKm : LatLng -> LatLng -> Q) (path : list LatLng) :
  (forall a b, 0 <= haversineKm a b) -> 0 <= polylineDistanceKm haversineKm path.
Proof.
  intros Hnn. induction path as [|a path IH]; [simpl; lra|].
  destruct path as [|b path]; [simpl; lra|].
  change (0 <= haversineKm a b + polylineDistanceKm haversineKm (b :: path)).
  specialize (Hnn a b). lra.
Qed.

Lemma longestKm_nonneg (haversineKm : LatLng -> LatLng -> Q) (streets : list StreetSegment) :
  0 <= longestKm haversineKm streets.
Proof.
  induction streets as [|s streets IH]; simpl; [lra|].
  eapply Qle_trans; [exact IH|apply Q.le_max_r].
Qed.

Lemma longestKm_bounds (haversineKm : LatLng -> LatLng -> Q) (streets : list StreetSegment)
    (street : StreetSegment) :
  In street streets ->
  polylineDistanceKm haversineKm (seg_path street) <= longestKm haversineKm streets.
Proof.
  induction streets as [|s streets IH]; simpl; [tauto|].
  intros [->|Hin].
  - apply Q.le_max_l.
  - eapply Qle_trans; [apply IH; assumption|apply Q.le_max_r].
Qed.

Lemma flatKm_nonneg (a b : LatLng) : 0 <= flatKm a b.
Proof.
  unfold flatKm.
  pose proof (Qabs_nonneg (lat a - lat b)). pose proof (Qabs_nonneg (lon a - lon b)).
  assert (0 <= kmPerDegree) by (vm_compute; discriminate).
  nra.
Qed.

(** C1, as stated, fails: on one dead-end road of about 11 km, from its start
    and with a target of 0.8 km, the planner walks the road out and back
    (22.2 km), far above the ceiling of 1.23 km. *)
Lemma long_dead_end_exceeds_ceiling :
  exists r,
    planWith "run-1" [longRoad] homeAtOrigin 0.8 None = Some (Some r)
    /\ hardMaxKmOf (Qmax 0.8 0.8) < route_distanceKm r.
Proof.
  eexists. split; [vm_compute; reflexivity|]. vm_compute. reflexivity.
Qed.

(** C1 (amended): when the distance function is not negative, the distance of
    a route returned by [buildEfficientCoverageRoute] is at most
    [max(hardMaxKm, 0.55 * targetKm_normalized + 24 * longest)], where
    [longest] is the length of the longest candidate segment: the planner
    holds a move against [hardMaxKm] only once the distance has reached a
    gate (0.48 of the normalized target for a spur, 0.52 for a branch step,
    0.55 for a connector, target or local step), a move that starts below
    its gate is applied whole, and a spur walks at most 24 edges. *)
Theorem planner_distance_ceiling
    (haversineKm : LatLng -> LatLng -> Q)
    (distancePointToSegmentMeters : LatLng -> LatLng -> LatLng -> Q)
    (isPointInCityBounds : LatLng -> CityBounds -> bool)
    (uuid : string) (streets : list StreetSegment) (home : LatLng) (targetKm : Q)
    (cityBounds : option CityBounds) (r : SuggestedRoute) :
  (forall a b, 0 <= haversineKm a b) ->
  buildEfficientCoverageRoute haversineKm distancePointToSegmentMeters isPointInCityBounds
    uuid streets home targetKm cityBounds = Some (Some r) ->
  route_distanceKm r
  <= Qmax (hardMaxKmOf (Qmax 0.8 targetKm))
       (Qmax 0.8 targetKm * 0.55
        + 24 * longestKm haversineKm
                 (plannerCandidates haversineKm isPointInCityBounds streets home
                    targetKm cityBounds)).
Proof.
  intros Hnn Hplan.
  destruct (plan_returns_route _ _ _ _ _ _ _ _ _ Hplan) as [start [st [Hloop Hfin]]].
  apply finishRoute_fields in Hfin. destruct Hfin as [_ [_ [_ [Hd _]]]]. rewrite Hd.
  cbv zeta in Hloop.
  set (candidates := plannerCandidates haversineKm isPointInCityBounds streets home
                       targetKm cityBounds) in *.
  revert Hloop. apply mainLoop_ceiling.
  - intros k edge Hk. apply edges_buildStreetGraph_origin in Hk.
    destruct Hk as [s [_ [_ [Hid ->]]]]. exact Hid.
  - intros k edge Hk. apply edges_buildStreetGraph_origin in Hk.
    destruct Hk as [s [Hin [_ [_ ->]]]]. simpl. split.
    + apply polylineDistanceKm_nonneg. assumption.
    + apply longestKm_bounds. assumption.
  - pose proof (Q.le_max_l 0.8 targetKm). lra.
  - apply longestKm_nonneg.
  - simpl. pose proof (Q.le_max_l 0.8 targetKm).
    pose proof (Q.le_max_l (hardMaxKmOf (Qmax 0.8 targetKm))
                  (Qmax 0.8 targetKm * 0.55 + 24 * longestKm haversineKm candidates)).
    assert (1.2 <= hardMaxKmOf (Qmax 0.8 targetKm)) by apply Q.le_max_l.
    lra.
Qed.

(** The theorem at the run over [shortRoad]. *)
Lemma planner_distance_ceiling_witness :
  exists r,
    planWith "run-1" [shortRoad] homeAtOrigin 0.8 None = Some (Some r)
    /\ route_distanceKm r
       <= Qmax (hardMaxKmOf (Qmax 0.8 0.8))
            (Qmax 0.8 0.8 * 0.55
             + 24 * longestKm flatKm
                      (plannerCandidates flatKm boxContains [shortRoad] homeAtOrigin 0.8 None)).
Proof.
  destruct (planWith "run-1" [shortRoad] homeAtOrigin 0.8 None) as [[r|]|] eqn:E;
    [|vm_compute in E; discriminate|vm_compute in E; discriminate].
  exists r. split; [reflexivity|].
  exact (planner_distance_ceiling flatKm flatSegmentMeters boxContains
           "run-1" [shortRoad] homeAtOrigin 0.8 None r flatKm_nonneg E).
Defined.

(* ------------------------------------------------------------------ *)
(** ** Distance of the route and length of its polyline *)

Section Polyline.

Variable haversineKm : LatLng -> LatLng -> Q.
Hypothesis haversine_refl : forall p, haversineKm p p == 0.
Hypothesis haversine_sym : forall a b, haversineKm a b == haversineKm b a.

Local Abbreviation polyline := (polylineDistanceKm haversineKm).






Variable graph : StreetGraph.
Variable completedByStreetId : Map string bool.

(** The length stored with an edge is the length of its polyline. *)
Hypothesis edges_measured :
  forall k edge, JsMap.get k (edges graph) = Some edge ->
    edge_distanceKm edge == polyline (edge_path edge).












End Polyline.






(* ------------------------------------------------------------------ *)
(** ** The binary heap *)

Lemma parent_spec (i p : nat) :
  (0 < i)%nat -> ((i - 1) / 2 = p <-> i = 2 * p + 1 \/ i = 2 * p + 2)%nat.
Proof.
  intros Hi.
  pose proof (Nat.div_mod_eq (i - 1) 2) as Hd.
  pose proof (Nat.mod_upper_bound (i - 1) 2) as Hm.
  split.
  - intros <-. lia.
  - intros [->| ->].
    + replace (2 * p + 1 - 1)%nat with (p * 2)%nat by lia. apply Nat.div_mul. lia.
    + replace (2 * p + 2 - 1)%nat with (1 + p * 2)%nat by lia.
      rewrite Nat.div_add by lia. reflexivity.
Qed.

Lemma parent_below (i : nat) : (0 < i)%nat -> ((i - 1) / 2 < i)%nat.
Proof.
  intros Hi. destruct (proj1 (parent_spec i _ Hi) eq_refl); lia.
Qed.

Section ArrayFacts.
Context {T : Type}.

Lemma setNth_length (i : nat) (x : T) (l : list T) : length (setNth i x l) = length l.
Proof.
  revert i. induction l as [|y l IH]; intros i; [destruct i; reflexivity|].
  destruct i; simpl; [reflexivity|]. now rewrite IH.
Qed.

Lemma setNth_nth_error (i k : nat) (x : T) (l : list T) :
  (i < length l)%nat ->
  nth_error (setNth i x l) k = if (k =? i)%nat then Some x else nth_error l k.
Proof.
  revert i k. induction l as [|y l IH]; intros i k Hi; [simpl in Hi; lia|].
  destruct i, k; simpl; try reflexivity.
  apply IH. simpl in Hi. lia.
Qed.

Lemma setNth_exact (l1 : list T) (a x : T) (l2 : list T) :
  setNth (length l1) x (l1 ++ a :: l2) = l1 ++ x :: l2.
Proof. induction l1 as [|y l1 IH]; simpl; [reflexivity|]. now rewrite IH. Qed.

Lemma setNth_same (i : nat) (x : T) (l : list T) :
  nth_error l i = Some x -> setNth i x l = l.
Proof.
  revert i. induction l as [|y l IH]; intros i; [destruct i; reflexivity|].
  destruct i; simpl.
  - intros E. inversion E. reflexivity.
  - intros E. now rewrite IH.
Qed.

Lemma swap_length (l : list T) (i j : nat) : length (swap l i j) = length l.
Proof.
  unfold swap. destruct (nth_error l i), (nth_error l j); try reflexivity.
  now rewrite !setNth_length.
Qed.

Lemma swap_nth_error (l : list T) (i j k : nat) :
  (i < length l)%nat -> (j < length l)%nat ->
  nth_error (swap l i j) k
  = if (k =? j)%nat then nth_error l i
    else if (k =? i)%nat then nth_error l j
    else nth_error l k.
Proof.
  intros Hi Hj. unfold swap.
  destruct (nth_error l i) as [a|] eqn:Ea; [|apply nth_error_None in Ea; lia].
  destruct (nth_error l j) as [b|] eqn:Eb; [|apply nth_error_None in Eb; lia].
  rewrite setNth_nth_error by (rewrite setNth_length; assumption).
  destruct (k =? j)%nat; [reflexivity|].
  rewrite setNth_nth_error by assumption. reflexivity.
Qed.

Lemma swap_ordered_Permutation (l : list T) (i j : nat) :
  (i < j)%nat -> Permutation (swap l i j) l /\ Permutation (swap l j i) l.
Proof.
  intros Hij. unfold swap.
  destruct (nth_error l i) as [a|] eqn:Ea;
    [|destruct (nth_error l j); split; apply Permutation_refl].
  destruct (nth_error l j) as [b|] eqn:Eb; [|split; apply Permutation_refl].
  destruct (nth_error_split l i Ea) as [l1 [r [Hl Hl1]]].
  assert (Eb' : nth_error r (j - i - 1) = Some b).
  { rewrite Hl in Eb. rewrite nth_error_app2 in Eb by lia.
    rewrite Hl1 in Eb. replace (j - i)%nat with (S (j - i - 1)) in Eb by lia.
    exact Eb. }
  destruct (nth_error_split r (j - i - 1) Eb') as [l2 [l3 [Hr Hl2]]].
  subst l r.
  assert (Hj : j = length (l1 ++ a :: l2)) by (rewrite length_app; simpl; lia).
  assert (Hj' : length (l1 ++ a :: l2) = length (l1 ++ b :: l2))
    by (rewrite !length_app; reflexivity).
  subst i j. clear Ea Eb Eb' Hl2 Hij.
  assert (Hperm : Permutation (l1 ++ b :: l2 ++ a :: l3) (l1 ++ a :: l2 ++ b :: l3)).
  { apply Permutation_app_head.
    apply Permutation_trans with (b :: a :: l2 ++ l3).
    - apply perm_skip, Permutation_sym, Permutation_middle.
    - apply Permutation_trans with (a :: b :: l2 ++ l3); [apply perm_swap|].
      apply perm_skip, Permutation_middle. }
  split.
  - rewrite setNth_exact.
    replace (l1 ++ b :: l2 ++ b :: l3) with ((l1 ++ b :: l2) ++ b :: l3)
      by (rewrite <- app_assoc; reflexivity).
    rewrite Hj', setNth_exact, <- app_assoc. exact Hperm.
  - replace (l1 ++ a :: l2 ++ b :: l3) with ((l1 ++ a :: l2) ++ b :: l3) at 1
      by (rewrite <- app_assoc; reflexivity).
    rewrite setNth_exact, <- app_assoc. cbn [app].
    rewrite setNth_exact. exact Hperm.
Qed.
End ArrayFacts.

(** [Math.floor((current - 1) / 2)]. *)
Definition parentIndex (i : nat) : nat := ((i - 1) / 2)%nat.

Lemma parentIndex_spec (i p : nat) :
  (0 < i)%nat -> (parentIndex i = p <-> i = 2 * p + 1 \/ i = 2 * p + 2)%nat.
Proof. apply parent_spec. Qed.

Lemma parentIndex_below (i : nat) : (0 < i)%nat -> (parentIndex i < i)%nat.
Proof. apply parent_below. Qed.

Section HeapFacts.
Context {T : Type}.
Variable compare : T -> T -> Q.
Variable key : T -> Q.
Hypothesis compare_key : forall a b, compare a b == key a - key b.

(** The key at an index of the array (0 outside). *)
Definition keyAt (data : list T) (i : nat) : Q :=
  match nth_error data i with Some a => key a | None => 0 end.

(** Every element is at least its parent. *)
Definition heapOrdered (data : list T) : Prop :=
  forall i, (0 < i < length data)%nat -> keyAt data (parentIndex i) <= keyAt data i.

(** The order holds except between [c] and its parent; the children of [c]
    are at least the parent of [c]. *)
Definition orderedButUp (data : list T) (c : nat) : Prop :=
  forall i, (0 < i < length data)%nat ->
    (i <> c -> keyAt data (parentIndex i) <= keyAt data i)
    /\ (parentIndex i = c -> (0 < c)%nat -> keyAt data (parentIndex c) <= keyAt data i).

(** The order holds except between [c] and its children; they are at least
    the parent of [c]. *)
Definition orderedButDown (data : list T) (c : nat) : Prop :=
  forall i, (0 < i < length data)%nat ->
    (parentIndex i <> c -> keyAt data (parentIndex i) <= keyAt data i)
    /\ (parentIndex i = c -> (0 < c)%nat -> keyAt data (parentIndex c) <= keyAt data i).

Lemma lessAt_spec (data : list T) (i j : nat) :
  (i < length data)%nat -> (j < length data)%nat ->
  (MinHeap.lessAt compare data i j = true <-> keyAt data i < keyAt data j).
Proof.
  intros Hi Hj. unfold MinHeap.lessAt, keyAt.
  destruct (nth_error data i) as [a|] eqn:Ea; [|apply nth_error_None in Ea; lia].
  destruct (nth_error data j) as [b|] eqn:Eb; [|apply nth_error_None in Eb; lia].
  rewrite Qltb_true_iff, compare_key. split; intros; lra.
Qed.

Lemma lessAt_false (data : list T) (i j : nat) :
  (i < length data)%nat -> (j < length data)%nat ->
  MinHeap.lessAt compare data i j = false -> keyAt data j <= keyAt data i.
Proof.
  intros Hi Hj E. destruct (Qlt_le_dec (keyAt data i) (keyAt data j)) as [Hlt|]; [|assumption].
  apply (lessAt_spec data i j Hi Hj) in Hlt. congruence.
Qed.

Lemma keyAt_swap (data : list T) (i j k : nat) :
  (i < length data)%nat -> (j < length data)%nat ->
  keyAt (swap data i j) k
  = if (k =? j)%nat then keyAt data i
    else if (k =? i)%nat then keyAt data j
    else keyAt data k.
Proof.
  intros Hi Hj. unfold keyAt. rewrite swap_nth_error by assumption.
  destruct (k =? j)%nat; [reflexivity|]. destruct (k =? i)%nat; reflexivity.
Qed.

Lemma swap_Permutation (data : list T) (i j : nat) : Permutation (swap data i j) data.
Proof.
  destruct (Nat.lt_trichotomy i j) as [H|[->|H]].
  - apply (swap_ordered_Permutation data i j H).
  - unfold swap. destruct (nth_error data j) as [a|] eqn:E; [|apply Permutation_refl].
    rewrite (setNth_same j a data E), (setNth_same j a data E). apply Permutation_refl.
  - apply (swap_ordered_Permutation data j i H).
Qed.

Lemma orderedButUp_root (data : list T) : orderedButUp data 0 -> heapOrdered data.
Proof. intros H i Hi. apply (H i Hi). lia. Qed.

Lemma bubbleUp_ordered (fuel : nat) (data : list T) (c : nat) :
  (c < length data)%nat -> (c < fuel)%nat -> orderedButUp data c ->
  heapOrdered (MinHeap.bubbleUp compare fuel data c).
Proof.
  revert data c. induction fuel as [|fuel IH]; intros data c Hc Hfuel Hinv; [lia|].
  cbn [MinHeap.bubbleUp].
  destruct (0 <? c)%nat eqn:E0.
  2:{ apply Nat.ltb_ge in E0. assert (c = 0)%nat by lia. subst c.
      apply orderedButUp_root. assumption. }
  apply Nat.ltb_lt in E0.
  pose proof (parentIndex_below c E0) as Hp.
  change ((c - 1) / 2)%nat with (parentIndex c).
  set (p := parentIndex c) in *.
  destruct (MinHeap.lessAt compare data c p) eqn:El; cbn [negb].
  - apply (lessAt_spec data c p) in El; [|lia|lia].
    apply IH; [rewrite swap_length; lia|lia|].
    intros i Hi. rewrite swap_length in Hi.
    destruct (Hinv i Hi) as [H1 H2].
    rewrite !(keyAt_swap data c p) by lia.
    assert (Hpi : (parentIndex i < i)%nat) by (apply parentIndex_below; lia).
    split.
    + intros Hne.
      destruct (i =? p)%nat eqn:Eip; [apply Nat.eqb_eq in Eip; lia|].
      destruct (i =? c)%nat eqn:Eic.
      * apply Nat.eqb_eq in Eic. subst i. fold p. rewrite Nat.eqb_refl. lra.
      * apply Nat.eqb_neq in Eic.
        destruct (parentIndex i =? p)%nat eqn:Epp.
        -- specialize (H1 Eic). apply Nat.eqb_eq in Epp. rewrite Epp in H1. lra.
        -- destruct (parentIndex i =? c)%nat eqn:Epc.
           ++ apply Nat.eqb_eq in Epc. apply (H2 Epc E0).
           ++ apply (H1 Eic).
    + intros Hpar Hp0.
      assert (Hpp : (parentIndex p < p)%nat) by (apply parentIndex_below; lia).
      destruct (parentIndex p =? p)%nat eqn:E1; [apply Nat.eqb_eq in E1; lia|].
      destruct (parentIndex p =? c)%nat eqn:E2; [apply Nat.eqb_eq in E2; lia|].
      assert (Hpk : keyAt data (parentIndex p) <= keyAt data p).
      { apply (Hinv p); lia. }
      destruct (i =? p)%nat eqn:Eip; [apply Nat.eqb_eq in Eip; lia|].
      destruct (i =? c)%nat eqn:Eic; [assumption|].
      apply Nat.eqb_neq in Eic. specialize (H1 Eic). rewrite Hpar in H1. lra.
  - apply (lessAt_false data c p) in El; [|lia|lia].
    intros i Hi. destruct (Hinv i Hi) as [H1 H2].
    destruct (Nat.eq_dec i c) as [->|Hne]; [exact El|apply (H1 Hne)].
Qed.

Lemma push_ordered (data : list T) (value : T) :
  heapOrdered data -> heapOrdered (MinHeap.push compare data value).
Proof.
  intros Hord. unfold MinHeap.push. cbv zeta.
  rewrite length_app. cbn [length].
  apply bubbleUp_ordered; [rewrite length_app; simpl; lia|lia|].
  intros i Hi. rewrite length_app in Hi. cbn [length] in Hi.
  assert (Hpi : (parentIndex i < i)%nat) by (apply parentIndex_below; lia).
  split.
  - intros Hne. unfold keyAt. rewrite !nth_error_app1 by lia. apply Hord. lia.
  - intros Hpar Hpos. destruct (proj1 (parentIndex_spec i _ (proj1 Hi)) Hpar); lia.
Qed.

Lemma bubbleUp_Permutation (fuel : nat) (data : list T) (c : nat) :
  Permutation (MinHeap.bubbleUp compare fuel data c) data.
Proof.
  revert data c. induction fuel as [|fuel IH]; intros data c; [apply Permutation_refl|].
  cbn [MinHeap.bubbleUp].
  destruct (0 <? c)%nat; [|apply Permutation_refl].
  destruct (negb _); [apply Permutation_refl|].
  eapply Permutation_trans; [apply IH|apply swap_Permutation].
Qed.

Lemma push_Permutation (data : list T) (value : T) :
  Permutation (MinHeap.push compare data value) (value :: data).
Proof.
  unfold MinHeap.push. cbv zeta.
  eapply Permutation_trans; [apply bubbleUp_Permutation|].
  apply Permutation_sym, Permutation_cons_append.
Qed.

Lemma orderedButDown_stop (data : list T) (c : nat) :
  (c < length data)%nat -> orderedButDown data c ->
  (forall i, (i < length data)%nat -> parentIndex i = c -> (0 < i)%nat ->
             keyAt data c <= keyAt data i) ->
  heapOrdered data.
Proof.
  intros Hc Hinv Hch i Hi. destruct (Hinv i Hi) as [H1 H2].
  destruct (Nat.eq_dec (parentIndex i) c) as [E|E].
  - rewrite E. apply Hch; lia.
  - apply (H1 E).
Qed.

Lemma bubbleDown_ordered (fuel : nat) (data : list T) (c : nat) :
  (length data <= c + fuel)%nat -> orderedButDown data c ->
  heapOrdered (MinHeap.bubbleDown compare fuel data c).
Proof.
  revert data c. induction fuel as [|fuel IH]; intros data c Hfuel Hinv.
  - cbn [MinHeap.bubbleDown]. intros i Hi. destruct (Hinv i Hi) as [H1 _].
    apply H1. pose proof (parentIndex_below i (proj1 Hi)). lia.
  - cbn [MinHeap.bubbleDown]. cbv zeta.
    destruct (Nat.lt_ge_cases c (length data)) as [Hc|Hc].
    2:{ assert (El : (c * 2 + 1 <? length data)%nat = false) by (apply Nat.ltb_ge; lia).
        assert (Er : (c * 2 + 1 + 1 <? length data)%nat = false) by (apply Nat.ltb_ge; lia).
        rewrite El, Er. cbn [andb]. rewrite Nat.eqb_refl.
        intros i Hi. destruct (Hinv i Hi) as [H1 _].
        apply H1. pose proof (parentIndex_below i (proj1 Hi)). lia. }
    set (left := (c * 2 + 1)%nat).
    set (s1 := if (left <? length data)%nat && MinHeap.lessAt compare data left c
               then left else c).
    set (s2 := if (left + 1 <? length data)%nat && MinHeap.lessAt compare data (left + 1) s1
               then (left + 1)%nat else s1).
    assert (Hs1 : (s1 = c \/ s1 = left /\ (left < length data)%nat
                                /\ keyAt data left < keyAt data c)
                  /\ (s1 = c -> (left < length data)%nat ->
                      keyAt data c <= keyAt data left)).
    { unfold s1. destruct (left <? length data)%nat eqn:E1; cbn [andb].
      - apply Nat.ltb_lt in E1.
        destruct (MinHeap.lessAt compare data left c) eqn:E2.
        + apply (lessAt_spec data left c E1 Hc) in E2. split; [right; auto|].
          unfold left. lia.
        + apply (lessAt_false data left c E1 Hc) in E2. split; [left; reflexivity|auto].
      - apply Nat.ltb_ge in E1. split; [left; reflexivity|lia]. }
    destruct Hs1 as [Hs1 Hs1c].
    assert (Hs1lt : (s1 < length data)%nat) by (destruct Hs1 as [->|[-> [? ?]]]; lia).
    assert (Hs1le : keyAt data s1 <= keyAt data c)
      by (destruct Hs1 as [->|[-> [? ?]]]; lra).
    assert (Hs2 : (s2 = s1 /\ ((left + 1 < length data)%nat ->
                               keyAt data s1 <= keyAt data (left + 1)))
                  \/ (s2 = (left + 1)%nat /\ (left + 1 < length data)%nat
                      /\ keyAt data (left + 1) < keyAt data s1)).
    { unfold s2. destruct (left + 1 <? length data)%nat eqn:E1; cbn [andb].
      - apply Nat.ltb_lt in E1.
        destruct (MinHeap.lessAt compare data (left + 1) s1) eqn:E2.
        + apply (lessAt_spec data (left + 1) s1 E1 Hs1lt) in E2. right. auto.
        + apply (lessAt_false data (left + 1) s1 E1 Hs1lt) in E2. left. auto.
      - apply Nat.ltb_ge in E1. left. split; [reflexivity|lia]. }
    assert (Hchildren : forall i, (0 < i < length data)%nat ->
              (parentIndex i = c <-> i = left \/ i = (left + 1)%nat)).
    { intros i Hi. rewrite (parentIndex_spec i c) by lia. unfold left. lia. }
    destruct (s2 =? c)%nat eqn:Estop.
    + apply Nat.eqb_eq in Estop.
      apply (orderedButDown_stop data c Hc Hinv).
      intros i Hi Hpar Hpos.
      assert (Hs2c : s2 = s1 /\ s1 = c).
      { destruct Hs2 as [[E _]|[E _]]; [|unfold left in E; lia].
        split; [assumption|]. destruct Hs1 as [E1|[E1 _]]; [assumption|].
        unfold left in E1. lia. }
      destruct Hs2c as [E21 E1c].
      destruct (proj1 (Hchildren i (conj Hpos Hi)) Hpar) as [->| ->].
      * apply Hs1c; assumption.
      * destruct Hs2 as [[_ Hle]|[E _]]; [|unfold left in E; lia].
        rewrite E1c in Hle. apply Hle. assumption.
    + apply Nat.eqb_neq in Estop.
      assert (Hs2child : (s2 = left \/ s2 = (left + 1)%nat) /\ (s2 < length data)%nat
                         /\ keyAt data s2 < keyAt data c
                         /\ (forall i, (0 < i < length data)%nat -> parentIndex i = c ->
                                       keyAt data s2 <= keyAt data i)).
      { destruct Hs2 as [[E2 Hle]|[E2 [Hlt Hk]]].
        - destruct Hs1 as [E1|[E1 [Hl Hk]]]; [congruence|].
          rewrite E2, E1. repeat split; [left; reflexivity|assumption|assumption|].
          intros i Hi Hpar.
          destruct (proj1 (Hchildren i Hi) Hpar) as [->| ->]; [lra|].
          rewrite E1 in Hle. apply Hle. lia.
        - rewrite E2. repeat split; [right; reflexivity|assumption|lra|].
          intros i Hi Hpar.
          destruct (proj1 (Hchildren i Hi) Hpar) as [->| ->]; [|lra].
          destruct Hs1 as [E1|[E1 _]].
          + rewrite E1 in Hk. specialize (Hs1c E1 ltac:(lia)). lra.
          + rewrite E1 in Hk. lra. }
      destruct Hs2child as [Hwhich [Hs2lt [Hs2key Hs2min]]].
      assert (Hpar2 : parentIndex s2 = c).
      { apply Hchildren; [unfold left in Hwhich; lia|assumption]. }
      assert (Hgt : (c < s2)%nat) by (unfold left in Hwhich; lia).
      apply IH; [rewrite swap_length; lia|].
      intros i Hi. rewrite swap_length in Hi.
      destruct (Hinv i Hi) as [H1 H2].
      rewrite !(keyAt_swap data c s2) by lia.
      assert (Hpi : (parentIndex i < i)%nat) by (apply parentIndex_below; lia).
      split.
      * intros Hne.
        destruct (i =? s2)%nat eqn:Eis.
        { apply Nat.eqb_eq in Eis. rewrite Eis, Hpar2.
          rewrite (proj2 (Nat.eqb_neq c s2)) by lia. rewrite Nat.eqb_refl. lra. }
        destruct (i =? c)%nat eqn:Eic.
        { apply Nat.eqb_eq in Eic. subst i.
          destruct (parentIndex c =? s2)%nat eqn:E1; [apply Nat.eqb_eq in E1; lia|].
          destruct (parentIndex c =? c)%nat eqn:E3; [apply Nat.eqb_eq in E3; lia|].
          apply (Hinv s2); [lia|assumption|lia]. }
        apply Nat.eqb_neq in Eis. apply Nat.eqb_neq in Eic.
        destruct (parentIndex i =? s2)%nat eqn:E1; [apply Nat.eqb_eq in E1; lia|].
        destruct (parentIndex i =? c)%nat eqn:E3.
        { apply Nat.eqb_eq in E3. apply Hs2min; assumption. }
        apply Nat.eqb_neq in E3. apply (H1 E3).
      * intros Hpar Hpos.
        rewrite Hpar2, Nat.eqb_refl.
        destruct (c =? s2)%nat eqn:E0; [apply Nat.eqb_eq in E0; lia|].
        destruct (i =? s2)%nat eqn:Eis; [apply Nat.eqb_eq in Eis; lia|].
        destruct (i =? c)%nat eqn:Eic; [apply Nat.eqb_eq in Eic; lia|].
        rewrite <- Hpar. apply H1. lia.
Qed.

Lemma bubbleDown_Permutation (fuel : nat) (data : list T) (c : nat) :
  Permutation (MinHeap.bubbleDown compare fuel data c) data.
Proof.
  revert data c. induction fuel as [|fuel IH]; intros data c; [apply Permutation_refl|].
  cbn [MinHeap.bubbleDown]. cbv zeta.
  destruct (_ =? c)%nat; [apply Permutation_refl|].
  eapply Permutation_trans; [apply IH|apply swap_Permutation].
Qed.

Lemma heapOrdered_root (data : list T) (i : nat) :
  heapOrdered data -> (i < length data)%nat -> keyAt data 0 <= keyAt data i.
Proof.
  intros Hord. induction i as [i IH] using lt_wf_ind. intros Hi.
  destruct i as [|i]; [lra|].
  pose proof (parentIndex_below (S i) ltac:(lia)) as Hp.
  specialize (IH (parentIndex (S i)) Hp ltac:(lia)).
  specialize (Hord (S i) ltac:(lia)). lra.
Qed.

Lemma heapOrdered_top (top : T) (rest : list T) (x : T) :
  heapOrdered (top :: rest) -> In x (top :: rest) -> key top <= key x.
Proof.
  intros Hord Hin. apply In_nth_error in Hin. destruct Hin as [i Hi].
  assert (Hlt : (i < length (top :: rest))%nat).
  { apply nth_error_Some. congruence. }
  pose proof (heapOrdered_root (top :: rest) i Hord Hlt) as H.
  unfold keyAt in H. rewrite Hi in H. exact H.
Qed.

Lemma heapOrdered_nil : heapOrdered [].
Proof. intros i Hi. simpl in Hi. lia. Qed.

(** What [pop] returns on a heap that is not empty. *)
Lemma pop_cons (top : T) (tl : list T) :
  exists heap',
    MinHeap.pop compare (top :: tl) = (Some top, heap')
    /\ Permutation (top :: tl) (top :: heap')
    /\ (heapOrdered (top :: tl) -> heapOrdered heap').
Proof.
  unfold MinHeap.pop.
  destruct tl as [|b tl].
  - cbn. exists []. split; [reflexivity|]. split; [apply Permutation_refl|].
    intros _. apply heapOrdered_nil.
  - assert (Hne : top :: b :: tl <> []) by discriminate.
    pose proof (app_removelast_last top Hne) as Hsplit.
    remember (last (top :: b :: tl) top) as endv eqn:Eend.
    assert (Hrl : exists rest, removelast (top :: b :: tl) = top :: rest).
    { cbn [removelast]. eexists. reflexivity. }
    destruct Hrl as [rest Hrest]. rewrite Hrest in Hsplit |- *.
    exists (MinHeap.bubbleDown compare (S (length rest)) (endv :: rest) 0).
    split; [reflexivity|]. split.
    + rewrite Hsplit at 1. cbn [app]. apply perm_skip.
      eapply Permutation_trans; [apply Permutation_sym, Permutation_cons_append|].
      apply Permutation_sym. eapply Permutation_trans; [apply bubbleDown_Permutation|].
      apply Permutation_refl.
    + intros Hord. apply bubbleDown_ordered; [cbn [length]; lia|].
      intros i Hi. cbn [length] in Hi.
      pose proof (parentIndex_below i (proj1 Hi)) as Hp.
      split; [|lia].
      intros Hpar.
      assert (Hsame : forall k, (0 < k <= length rest)%nat ->
                keyAt (endv :: rest) k = keyAt (top :: b :: tl) k).
      { intros k Hk. rewrite Hsplit. unfold keyAt.
        destruct k as [|k]; [lia|]. cbn [app nth_error].
        rewrite nth_error_app1 by lia. reflexivity. }
      rewrite !Hsame by lia.
      pose proof (f_equal (@length T) Hsplit) as Hlen.
      rewrite length_app in Hlen. cbn [length] in Hlen.
      apply Hord. cbn [length]. lia.
Qed.

End HeapFacts.

(* ------------------------------------------------------------------ *)
(** ** The shortest-path engine *)

Lemma compareEntries_key (a b : HeapEntry) :
  compareEntries a b == he_distance a - he_distance b.
Proof. reflexivity. Qed.

(** Position of a node in the order of expansion, counted from the first
    node expanded; 0 for a node not expanded yet. The list has the node
    expanded last at its head. *)
Fixpoint rankIn (done : list string) (x : string) : nat :=
  match done with
  | [] => O
  | y :: rest => if eqb x y then S (length rest) else rankIn rest x
  end.

Lemma rankIn_le (done : list string) (x : string) : (rankIn done x <= length done)%nat.
Proof.
  induction done as [|y done IH]; simpl; [lia|].
  destruct (eqb x y); lia.
Qed.

Lemma rankIn_pos (done : list string) (x : string) : (0 < rankIn done x)%nat <-> In x done.
Proof.
  induction done as [|y done IH]; simpl; [split; [lia|tauto]|].
  destruct (eqb x y) eqn:E.
  - apply eqb_true_iff in E. subst. split; [auto|lia].
  - apply eqb_false_iff in E. rewrite IH. split; [auto|].
    intros [Heq|Hin]; [congruence|assumption].
Qed.

(** The rank, with the nodes not expanded yet above all the others. *)
Definition depthIn (done : list string) (x : string) : nat :=
  match rankIn done x with O => S (length done) | r => r end.

(** The heap entry still carries the best distance known for its node: the
    test [best < current.distance] of the loop fails on it. *)
Definition isFresh (d : Map string dnum) (entry : HeapEntry) : bool :=
  negb (dnum_ltb (getDist d (he_nodeId entry)) (Fin (he_distance entry))).

Definition freshOf (d : Map string dnum) (x : string) (entry : HeapEntry) : bool :=
  eqb (he_nodeId entry) x && isFresh d entry.

Definition freshCount (d : Map string dnum) (x : string) (heap : list HeapEntry) : nat :=
  length (filter (freshOf d x) heap).

Lemma filter_length_Permutation {A} (f : A -> bool) (l l' : list A) :
  Permutation l l' -> length (filter f l) = length (filter f l').
Proof.
  induction 1 as [|a l l' _ IH|a b l|l l' l'' _ IH1 _ IH2]; simpl.
  - reflexivity.
  - destruct (f a); simpl; congruence.
  - destruct (f a), (f b); reflexivity.
  - congruence.
Qed.

Lemma freshCount_Permutation d x heap heap' :
  Permutation heap heap' -> freshCount d x heap = freshCount d x heap'.
Proof. apply filter_length_Permutation. Qed.

Lemma freshCount_cons d x entry heap :
  freshCount d x (entry :: heap)
  = ((if freshOf d x entry then 1 else 0) + freshCount d x heap)%nat.
Proof. unfold freshCount. simpl. destruct (freshOf d x entry); reflexivity. Qed.

Lemma freshCount_same_dist d d' x heap :
  JsMap.get x d' = JsMap.get x d -> freshCount d' x heap = freshCount d x heap.
Proof.
  intros E. unfold freshCount. f_equal. apply filter_ext_in. intros a _.
  unfold freshOf, isFresh, getDist.
  destruct (eqb (he_nodeId a) x) eqn:Ea; [|reflexivity].
  apply eqb_true_iff in Ea. rewrite Ea, E. reflexivity.
Qed.

Lemma freshCount_none d x heap :
  (forall entry, In entry heap -> he_nodeId entry = x -> isFresh d entry = false) ->
  freshCount d x heap = 0%nat.
Proof.
  intros Hall. unfold freshCount. induction heap as [|a heap IH]; [reflexivity|].
  simpl. unfold freshOf at 1. destruct (eqb (he_nodeId a) x) eqn:Ea.
  - apply eqb_true_iff in Ea. rewrite (Hall a (or_introl eq_refl) Ea). simpl.
    apply IH. intros e He. apply Hall. right. assumption.
  - simpl. apply IH. intros e He. apply Hall. right. assumption.
Qed.

(** The adjacency records of the nodes not expanded yet. *)
Definition pendingRecords (adj : Map string (list GraphNeighbor)) (done : list string) : nat :=
  fold_right (fun entry acc =>
                ((if existsb (eqb (fst entry)) done then 0 else length (snd entry)) + acc)%nat)
    O adj.

Lemma pendingRecords_cons_le adj done u :
  (pendingRecords adj (u :: done) <= pendingRecords adj done)%nat.
Proof.
  induction adj as [|[k l] adj IH]; simpl; [lia|].
  destruct (eqb k u); simpl; destruct (existsb (eqb k) done); lia.
Qed.

Lemma pendingRecords_expand adj done u :
  ~ In u done ->
  (pendingRecords adj (u :: done)
   + length (match JsMap.get u adj with Some l => l | None => [] end)
   <= pendingRecords adj done)%nat.
Proof.
  intros Hnot. induction adj as [|[k l] adj IH]; simpl; [lia|].
  destruct (eq_dec u k) as [<-|Hne].
  - rewrite eqb_refl. simpl.
    assert (E : existsb (eqb u) done = false).
    { apply not_true_is_false. intros E. apply existsb_exists in E.
      destruct E as [y [Hy Ey]]. apply eqb_true_iff in Ey. subst y. contradiction. }
    rewrite E. pose proof (pendingRecords_cons_le adj done u). lia.
  - assert (E : eqb k u = false) by (apply eqb_false_iff; congruence).
    rewrite E. simpl. destruct (existsb (eqb k) done); lia.
Qed.

Lemma pendingRecords_nil (graph : StreetGraph) :
  dijkstraFuel graph = S (pendingRecords (adjacency graph) []).
Proof. reflexivity. Qed.

Section Dijkstra.

Variable graph : StreetGraph.
Variable startNodeId : string.
Hypothesis edges_nonneg :
  forall e edge, JsMap.get e (edges graph) = Some edge -> 0 <= edge_distanceKm edge.

(** What an entry of [prev] records: the edge is listed at the previous node,
    the distances differ by its length, and the previous node was expanded,
    before this one if this one was. *)
Definition prevOk (done : list string) (d : Map string dnum) (v u e : string) : Prop :=
  In (mkGraphNeighbor e v) (neighborsOf graph u)
  /\ In u done
  /\ (In v done -> (rankIn done u < rankIn done v)%nat)
  /\ exists edge du dv,
       JsMap.get e (edges graph) = Some edge
       /\ JsMap.get u d = Some (Fin du)
       /\ JsMap.get v d = Some (Fin dv)
       /\ dv == du + edge_distanceKm edge.

(** The state between two turns of the heap loop: [done] are the nodes
    expanded so far and [bound] the distance of the entry popped last. *)
Record loopInv (done : list string) (bound : Q) (st : DijkstraState) : Prop := {
  inv_heap : heapOrdered he_distance (ds_heap st);
  inv_bound : 0 <= bound;
  inv_start : JsMap.get startNodeId (ds_dist st) = Some (Fin 0);
  inv_entry : forall entry, In entry (ds_heap st) ->
    bound <= he_distance entry
    /\ exists dx, JsMap.get (he_nodeId entry) (ds_dist st) = Some (Fin dx)
                  /\ dx <= he_distance entry;
  inv_fresh : forall x,
    (freshCount (ds_dist st) x (ds_heap st) <= 1)%nat
    /\ (In x done -> freshCount (ds_dist st) x (ds_heap st) = 0%nat);
  inv_done : forall u, In u done ->
    exists du, JsMap.get u (ds_dist st) = Some (Fin du) /\ du <= bound;
  inv_prev : forall v u e, JsMap.get v (ds_prev st) = Some (mkPrevStep u e) ->
    prevOk done (ds_dist st) v u e;
  inv_finite : forall v dv, JsMap.get v (ds_dist st) = Some (Fin dv) ->
    v = startNodeId \/ exists step, JsMap.get v (ds_prev st) = Some step
}.

(** One neighbour relaxed while [current] is being expanded. *)
Lemma relaxNeighbor_inv done (current : HeapEntry) st neighbor :
  loopInv done (he_distance current) st ->
  In (he_nodeId current) done ->
  (exists du, JsMap.get (he_nodeId current) (ds_dist st) = Some (Fin du)
              /\ du == he_distance current) ->
  In neighbor (neighborsOf graph (he_nodeId current)) ->
  loopInv done (he_distance current) (relaxNeighbor graph current st neighbor)
  /\ (forall x, In x done ->
        JsMap.get x (ds_dist (relaxNeighbor graph current st neighbor))
        = JsMap.get x (ds_dist st))
  /\ (length (ds_heap (relaxNeighbor graph current st neighbor)) <= S (length (ds_heap st)))%nat.
Proof.
  intros Hinv Hcur [du [Hdu Hdueq]] Hnb.
  destruct current as [u d]. cbn [he_nodeId he_distance] in *.
  destruct neighbor as [e v].
  unfold relaxNeighbor. cbn [nb_edgeId nb_neighbor he_nodeId he_distance].
  destruct (JsMap.get e (edges graph)) as [edge|] eqn:Eedge; [|split; [assumption|split; [reflexivity|lia]]].
  cbv zeta.
  destruct (dnum_ltb (Fin (d + edge_distanceKm edge)) (getDist (ds_dist st) v)) eqn:Elt;
    [|split; [assumption|split; [reflexivity|lia]]].
  pose proof (edges_nonneg e edge Eedge) as Hw.
  set (nd := d + edge_distanceKm edge) in *.
  destruct Hinv as [Hheap Hbound Hstart Hentry Hfresh Hdone Hprev Hfinite].
  (* the neighbour has not been expanded and is not the start *)
  assert (Hvdone : ~ In v done).
  { intros Hin. destruct (Hdone v Hin) as [dv [Hdv Hle]].
    unfold getDist in Elt. rewrite Hdv in Elt. cbn in Elt.
    apply Qltb_true_iff in Elt. unfold nd in Elt. lra. }
  assert (Hvs : v <> startNodeId).
  { intros ->. unfold getDist in Elt. rewrite Hstart in Elt. cbn in Elt.
    apply Qltb_true_iff in Elt. unfold nd in Elt. lra. }
  assert (Hvu : v <> u) by (intros ->; contradiction).
  assert (Hold : forall entry, In entry (ds_heap st) -> he_nodeId entry = v ->
                               nd < he_distance entry).
  { intros entry Hin Hid. destruct (Hentry entry Hin) as [_ [dx [Hdx Hle]]].
    rewrite Hid in Hdx. unfold getDist in Elt. rewrite Hdx in Elt. cbn in Elt.
    apply Qltb_true_iff in Elt. lra. }
  pose proof (push_Permutation compareEntries (ds_heap st) (mkHeapEntry v nd)) as Hperm.
  split; [|split].
  - constructor; cbn [ds_dist ds_prev ds_heap].
    + apply (push_ordered compareEntries he_distance compareEntries_key). assumption.
    + assumption.
    + rewrite get_set_other by congruence. assumption.
    + intros entry Hin. apply (Permutation_in _ Hperm) in Hin.
      destruct Hin as [<-|Hin]; cbn [he_nodeId he_distance].
      * split; [unfold nd; lra|]. exists nd. rewrite get_set_same. split; [reflexivity|lra].
      * destruct (Hentry entry Hin) as [Hb [dx [Hdx Hle]]]. split; [assumption|].
        destruct (eq_dec (he_nodeId entry) v) as [Hid|Hid].
        -- exists nd. rewrite Hid, get_set_same. split; [reflexivity|].
           pose proof (Hold entry Hin Hid). lra.
        -- exists dx. rewrite get_set_other by assumption. split; assumption.
    + intros x. rewrite (freshCount_Permutation _ x _ _ Hperm), freshCount_cons.
      destruct (eq_dec x v) as [->|Hxv].
      * rewrite (freshCount_none _ v (ds_heap st)).
        -- split; [destruct (freshOf _ _ _); lia|intros; contradiction].
        -- intros entry Hin Hid. unfold isFresh, getDist. rewrite Hid, get_set_same.
           cbn. pose proof (Hold entry Hin Hid) as Hlt.
           apply Qltb_true_iff in Hlt. rewrite Hlt. reflexivity.
      * assert (Enew : freshOf (JsMap.set v (Fin nd) (ds_dist st)) x (mkHeapEntry v nd) = false).
        { unfold freshOf. cbn [he_nodeId].
          assert (E : eqb v x = false) by (apply eqb_false_iff; congruence).
          rewrite E. reflexivity. }
        rewrite Enew, (freshCount_same_dist (ds_dist st)) by (apply get_set_other; assumption).
        apply Hfresh.
    + intros x Hx. destruct (Hdone x Hx) as [dx [Hdx Hle]]. exists dx.
      rewrite get_set_other by (intros ->; contradiction). split; assumption.
    + intros v' u' e' Hget.
      destruct (eq_dec v' v) as [->|Hne].
      * rewrite get_set_same in Hget. injection Hget as <- <-.
        split; [assumption|]. split; [assumption|]. split; [intros; contradiction|].
        exists edge, du, nd. split; [assumption|].
        rewrite get_set_other by congruence. rewrite get_set_same.
        split; [assumption|]. split; [reflexivity|]. unfold nd. lra.
      * rewrite get_set_other in Hget by assumption.
        destruct (Hprev v' u' e' Hget) as [Hrec [Hu' [Hrank [edge' [du' [dv' [He' [Hdu' [Hdv' Heq]]]]]]]]].
        split; [assumption|]. split; [assumption|]. split; [assumption|].
        exists edge', du', dv'. split; [assumption|].
        rewrite !get_set_other by (try assumption; intros ->; contradiction).
        repeat split; assumption.
    + intros x dx Hget.
      destruct (eq_dec x v) as [->|Hne].
      * right. rewrite get_set_same. eauto.
      * rewrite get_set_other in Hget by assumption.
        destruct (Hfinite x dx Hget) as [->|[step Hstep]]; [left; reflexivity|].
        right. exists step. rewrite get_set_other by assumption. assumption.
  - intros x Hx. cbn [ds_dist]. apply get_set_other. intros ->. contradiction.
  - cbn [ds_heap]. rewrite (Permutation_length Hperm). simpl. lia.
Qed.

(** All the neighbours of [current] relaxed. *)
Lemma relaxAll_inv done (current : HeapEntry) (neighbors : list GraphNeighbor) st :
  loopInv done (he_distance current) st ->
  In (he_nodeId current) done ->
  (exists du, JsMap.get (he_nodeId current) (ds_dist st) = Some (Fin du)
              /\ du == he_distance current) ->
  incl neighbors (neighborsOf graph (he_nodeId current)) ->
  loopInv done (he_distance current) (fold_left (relaxNeighbor graph current) neighbors st)
  /\ (length (ds_heap (fold_left (relaxNeighbor graph current) neighbors st))
      <= length neighbors + length (ds_heap st))%nat.
Proof.
  revert st. induction neighbors as [|n neighbors IH]; intros st Hinv Hcur Hdu Hincl.
  - simpl. split; [assumption|lia].
  - cbn [fold_left].
    destruct (relaxNeighbor_inv done current st n Hinv Hcur Hdu
                (Hincl n (or_introl eq_refl))) as [Hinv' [Hsame Hlen]].
    destruct (IH (relaxNeighbor graph current st n) Hinv' Hcur) as [Hinv2 Hlen2].
    + destruct Hdu as [du [Hdu Heq]]. exists du. rewrite (Hsame _ Hcur). split; assumption.
    + intros x Hx. apply Hincl. right. assumption.
    + split; [assumption|]. cbn [length]. lia.
Qed.

(** The heap loop returns within the turns counted by the heap size and the
    adjacency records not used yet, and leaves the heap empty. *)
Lemma dijkstraLoop_inv (fuel : nat) done bound st :
  loopInv done bound st ->
  (length (ds_heap st) + pendingRecords (adjacency graph) done <= fuel)%nat ->
  exists st' done' bound',
    dijkstraLoop fuel graph st = Some st'
    /\ loopInv done' bound' st'
    /\ ds_heap st' = [].
Proof.
  revert done bound st. induction fuel as [|fuel IH]; intros done bound st Hinv Hfuel.
  - destruct (ds_heap st) as [|top tl] eqn:Eheap; [|simpl in Hfuel; lia].
    exists st, done, bound. simpl. rewrite Eheap. auto.
  - destruct (ds_heap st) as [|top tl] eqn:Eheap.
    { exists st, done, bound. simpl. rewrite Eheap. auto. }
    cbn [dijkstraLoop]. rewrite Eheap.
    destruct (pop_cons compareEntries he_distance compareEntries_key top tl)
      as [heap' [Epop [Hperm Hord]]].
    rewrite Epop. cbv zeta.
    destruct Hinv as [Hheap Hbound Hstart Hentry Hfresh Hdone Hprev Hfinite].
    rewrite Eheap in Hheap, Hentry, Hfresh.
    specialize (Hord Hheap).
    assert (Hlen : length (top :: tl) = S (length heap')).
    { rewrite (Permutation_length Hperm). reflexivity. }
    cbn [length] in Hfuel.
    assert (Hsub : forall entry, In entry heap' -> In entry (top :: tl)).
    { intros entry Hin. apply (Permutation_in _ (Permutation_sym Hperm)). right. assumption. }
    destruct (dnum_ltb (getDist (ds_dist st) (he_nodeId top)) (Fin (he_distance top)))
      eqn:Estale.
    + (* a stale entry is dropped *)
      apply (IH done bound); [|cbn [ds_heap]; cbn [length] in Hlen; lia].
      constructor; cbn [ds_dist ds_prev ds_heap]; try assumption.
      * intros entry Hin. apply Hentry. apply Hsub. assumption.
      * intros x. specialize (Hfresh x).
        rewrite (freshCount_Permutation _ x _ _ Hperm), freshCount_cons in Hfresh.
        destruct Hfresh as [H1 H2]. split; [lia|]. intros Hx. specialize (H2 Hx). lia.
    + (* the node is expanded *)
      set (u := he_nodeId top) in *. set (d := he_distance top) in *.
      destruct (Hentry top (or_introl eq_refl)) as [Hbd [du [Hdu Hdule]]].
      fold u in Hdu. fold d in Hbd, Hdule.
      assert (Hdueq : du == d).
      { unfold getDist in Estale. rewrite Hdu in Estale. cbn in Estale.
        apply Qltb_false_iff in Estale. lra. }
      assert (Htopfresh : freshOf (ds_dist st) u top = true).
      { unfold freshOf, isFresh. fold u. rewrite eqb_refl. fold d. rewrite Estale. reflexivity. }
      assert (Hu : ~ In u done).
      { intros Hin. destruct (Hfresh u) as [_ H0]. specialize (H0 Hin).
        rewrite freshCount_cons, Htopfresh in H0. lia. }
      assert (Hinv1 : loopInv (u :: done) d (mkDijkstraState (ds_dist st) (ds_prev st) heap')).
      { constructor; cbn [ds_dist ds_prev ds_heap].
        - assumption.
        - lra.
        - assumption.
        - intros entry Hin. split.
          + apply (heapOrdered_top he_distance top tl entry Hheap). apply Hsub. assumption.
          + apply Hentry. apply Hsub. assumption.
        - intros x. specialize (Hfresh x).
          rewrite (freshCount_Permutation _ x _ _ Hperm), freshCount_cons in Hfresh.
          destruct Hfresh as [H1 H2]. split; [lia|].
          intros [<-|Hx]; [rewrite Htopfresh in H1; lia|]. specialize (H2 Hx). lia.
        - intros x [<-|Hx].
          + exists du. split; [assumption|lra].
          + destruct (Hdone x Hx) as [dx [Hdx Hle]]. exists dx. split; [assumption|lra].
        - intros v' u' e' Hget.
          destruct (Hprev v' u' e' Hget) as [Hrec [Hu' [Hrank Hrest]]].
          split; [assumption|]. split; [right; assumption|]. split; [|assumption].
          assert (Eu' : eqb u' u = false).
          { apply eqb_false_iff. intros ->. contradiction. }
          intros Hv'. cbn [rankIn]. rewrite Eu'.
          destruct (eqb v' u) eqn:Ev'.
          * pose proof (rankIn_le done u'). lia.
          * apply eqb_false_iff in Ev'. apply Hrank.
            destruct Hv' as [Heq|Hin]; [congruence|assumption].
        - assumption. }
      destruct (relaxAll_inv (u :: done) top (neighborsOf graph u)
                  (mkDijkstraState (ds_dist st) (ds_prev st) heap'))
        as [Hinv2 Hlen2].
      * exact Hinv1.
      * left. reflexivity.
      * exists du. split; assumption.
      * apply incl_refl.
      * apply (IH (u :: done) d); [exact Hinv2|].
        cbn [ds_heap] in Hlen2.
        pose proof (pendingRecords_expand (adjacency graph) done u Hu) as Hpend.
        fold (neighborsOf graph u) in Hpend. cbn [length] in Hlen. lia.
Qed.

Lemma initial_dist_infinite (ids : list string) (d : Map string dnum) (v : string) x :
  (forall y, JsMap.get v d = Some y -> y = PosInf) ->
  JsMap.get v (fold_left (fun d nodeId => JsMap.set nodeId PosInf d) ids d) = Some x ->
  x = PosInf.
Proof.
  revert d. induction ids as [|i ids IH]; intros d Hd; [apply Hd|].
  cbn [fold_left]. apply IH. intros y. rewrite get_set.
  destruct (eq_dec v i); [congruence|apply Hd].
Qed.

Lemma initialDijkstraState_inv :
  loopInv [] 0 (initialDijkstraState graph startNodeId)
  /\ (length (ds_heap (initialDijkstraState graph startNodeId))
      + pendingRecords (adjacency graph) [] <= dijkstraFuel graph)%nat.
Proof.
  split; [|rewrite pendingRecords_nil; simpl; lia].
  unfold initialDijkstraState. cbv zeta.
  assert (Eheap : MinHeap.push compareEntries [] (mkHeapEntry startNodeId 0)
                  = [mkHeapEntry startNodeId 0]) by reflexivity.
  rewrite Eheap.
  constructor; cbn [ds_dist ds_prev ds_heap].
  - intros i Hi. simpl in Hi. lia.
  - lra.
  - apply get_set_same.
  - intros entry [<-|[]]. cbn [he_nodeId he_distance]. split; [lra|].
    exists 0. rewrite get_set_same. split; [reflexivity|lra].
  - intros x. split; [|intros []].
    unfold freshCount. cbn [filter]. destruct (freshOf _ _ _); simpl; lia.
  - intros u [].
  - intros v u e Hget. discriminate.
  - intros v dv Hget. rewrite get_set in Hget.
    destruct (eq_dec v startNodeId) as [->|Hne]; [left; reflexivity|].
    apply initial_dist_infinite in Hget; [discriminate|]. intros y Hy. discriminate.
Qed.

(** What the maps returned by [runDijkstra] satisfy. *)
Definition resultOk (done : list string) (result : DijkstraResult) : Prop :=
  JsMap.get startNodeId (dist result) = Some (Fin 0)
  /\ (forall v u e, JsMap.get v (prev result) = Some (mkPrevStep u e) ->
        prevOk done (dist result) v u e)
  /\ (forall v dv, JsMap.get v (dist result) = Some (Fin dv) ->
        v = startNodeId \/ exists step, JsMap.get v (prev result) = Some step).

Lemma dijkstraLoop_returns :
  exists result done, runDijkstra graph startNodeId = Some result /\ resultOk done result.
Proof.
  destruct initialDijkstraState_inv as [Hinv Hfuel].
  destruct (dijkstraLoop_inv (dijkstraFuel graph) [] 0 _ Hinv Hfuel)
    as [st' [done' [bound' [Eloop [Hinv' _]]]]].
  exists (mkDijkstraResult (ds_dist st') (ds_prev st')), done'.
  unfold runDijkstra, runDijkstraWithin. rewrite Eloop. split; [reflexivity|].
  destruct Hinv' as [_ _ Hstart _ _ _ Hprev Hfinite].
  split; [exact Hstart|split; [exact Hprev|exact Hfinite]].
Qed.

Lemma depthIn_prev done d v u e : prevOk done d v u e -> (depthIn done u < depthIn done v)%nat.
Proof.
  intros [_ [Hu [Hrank _]]]. unfold depthIn.
  apply rankIn_pos in Hu. pose proof (rankIn_le done u) as Hle.
  destruct (rankIn done u) as [|ru] eqn:Eu; [lia|].
  destruct (rankIn done v) as [|rv] eqn:Ev; [lia|].
  assert (Hv : In v done) by (apply rankIn_pos; lia).
  specialize (Hrank Hv). lia.
Qed.

Lemma sumEdgeKm_snoc (edgeIds : list string) (e : string) :
  sumEdgeKm graph (edgeIds ++ [e]) == sumEdgeKm graph edgeIds + edgeKm graph e.
Proof.
  induction edgeIds as [|x edgeIds IH].
  - unfold sumEdgeKm. simpl. lra.
  - change (edgeKm graph x + sumEdgeKm graph (edgeIds ++ [e])
            == edgeKm graph x + sumEdgeKm graph edgeIds + edgeKm graph e).
    rewrite IH. lra.
Qed.

Lemma pathInGraph_snoc (a u c e : string) (edgeIds : list string) edge :
  pathInGraph graph a edgeIds u = true ->
  In (mkGraphNeighbor e c) (neighborsOf graph u) ->
  JsMap.get e (edges graph) = Some edge ->
  pathInGraph graph a (edgeIds ++ [e]) c = true.
Proof.
  intros Hpath Hrec Hedge. revert a Hpath.
  induction edgeIds as [|x edgeIds IH]; intros a Hpath.
  - cbn [pathInGraph] in Hpath. apply eqb_true_iff in Hpath. subst a.
    cbn [app pathInGraph]. unfold JsMap.has. rewrite Hedge. cbn [andb].
    apply existsb_exists. exists (mkGraphNeighbor e c). split; [assumption|].
    cbn [nb_edgeId nb_neighbor]. rewrite !eqb_refl. reflexivity.
  - cbn [app pathInGraph] in *. apply andb_true_iff in Hpath. destruct Hpath as [Hhas Hex].
    rewrite Hhas. cbn [andb]. apply existsb_exists in Hex.
    destruct Hex as [nb [Hnb Hstep]]. apply andb_true_iff in Hstep.
    destruct Hstep as [Hid Hrest]. apply existsb_exists. exists nb.
    split; [assumption|]. rewrite Hid. cbn [andb]. apply IH. assumption.
Qed.

(** The walk back along [prev] from a node of finite distance reaches the
    start within [length prev] steps: the nodes it visits are distinct keys
    of [prev]. *)
Lemma walkPrev_reaches done result :
  resultOk done result ->
  forall (fuel : nat) (cursor : string) (acc visited : list string) (dc : Q),
    JsMap.get cursor (dist result) = Some (Fin dc) ->
    NoDup visited ->
    (forall x, In x visited ->
       In x (JsMap.keys (prev result)) /\ (depthIn done cursor < depthIn done x)%nat) ->
    (length (prev result) <= fuel + length visited)%nat ->
    exists tail,
      walkPrev fuel (prev result) startNodeId cursor acc = Some (Some (acc ++ tail))
      /\ dc == sumEdgeKm graph (rev tail)
      /\ pathInGraph graph startNodeId (rev tail) cursor = true.
Proof.
  intros [Hstart [Hprev Hfinite]].
  induction fuel as [|fuel IH]; intros cursor acc visited dc Hdc Hnd Hvis Hfuel.
  - destruct (eq_dec cursor startNodeId) as [->|Hne].
    + exists []. cbn [walkPrev]. rewrite eqb_refl, app_nil_r.
      split; [reflexivity|]. rewrite Hstart in Hdc. injection Hdc as <-.
      split; [reflexivity|]. cbn. apply eqb_refl.
    + exfalso.
      destruct (Hfinite cursor dc Hdc) as [Heq|[step Hstep]]; [contradiction|].
      assert (Hkey : In cursor (JsMap.keys (prev result))).
      { apply get_In in Hstep. unfold JsMap.keys.
        change cursor with (fst (cursor, step)). apply in_map. assumption. }
      assert (Hfreshc : ~ In cursor visited).
      { intros Hin. destruct (Hvis cursor Hin). lia. }
      assert (Hle : (length (cursor :: visited) <= length (JsMap.keys (prev result)))%nat).
      { apply NoDup_incl_length; [constructor; assumption|].
        intros x [<-|Hx]; [assumption|apply Hvis; assumption]. }
      unfold JsMap.keys in Hle. rewrite length_map in Hle. cbn [length] in Hle. lia.
  - destruct (eq_dec cursor startNodeId) as [->|Hne].
    + exists []. cbn [walkPrev]. rewrite eqb_refl, app_nil_r.
      split; [reflexivity|]. rewrite Hstart in Hdc. injection Hdc as <-.
      split; [reflexivity|]. cbn. apply eqb_refl.
    + destruct (Hfinite cursor dc Hdc) as [Heq|[[u e] Hstep]]; [contradiction|].
      pose proof (Hprev cursor u e Hstep) as Hok.
      pose proof (depthIn_prev _ _ _ _ _ Hok) as Hdepth.
      destruct Hok as [Hrec [Hu [Hrank [edge [du [dv [Hedge [Hdu [Hdv Heq]]]]]]]]].
      assert (Hkey : In cursor (JsMap.keys (prev result))).
      { apply get_In in Hstep. unfold JsMap.keys.
        change cursor with (fst (cursor, mkPrevStep u e)). apply in_map. assumption. }
      assert (Hfreshc : ~ In cursor visited).
      { intros Hin. destruct (Hvis cursor Hin). lia. }
      destruct (IH u (acc ++ [e]) (cursor :: visited) du Hdu) as [tail [Ewalk [Hsum Hpath]]].
      * constructor; assumption.
      * intros x [<-|Hx]; [split; assumption|].
        destruct (Hvis x Hx) as [Hk Hd]. split; [assumption|lia].
      * cbn [length]. lia.
      * exists (e :: tail). cbn [walkPrev].
        assert (Ecur : eqb cursor startNodeId = false) by (apply eqb_false_iff; assumption).
        rewrite Ecur, Hstep. cbn [prev_nodeId prev_edgeId].
        rewrite Ewalk, <- app_assoc. split; [reflexivity|].
        cbn [rev]. split.
        -- rewrite sumEdgeKm_snoc. unfold edgeKm. rewrite Hedge.
           rewrite Hdv in Hdc. injection Hdc as <-. rewrite <- Hsum. exact Heq.
        -- apply (pathInGraph_snoc _ u _ _ _ edge); assumption.
Qed.

(** [runDijkstra] returns, and for every node of finite distance
    [reconstructPathEdges] returns edge ids that lead from the start to the
    node and whose lengths add up to the distance. *)
Lemma runDijkstra_paths :
  exists result,
    runDijkstra graph startNodeId = Some result
    /\ forall t d, JsMap.get t (dist result) = Some (Fin d) ->
         exists edgeIds,
           reconstructPathEdges result startNodeId t = Some edgeIds
           /\ d == sumEdgeKm graph edgeIds
           /\ pathInGraph graph startNodeId edgeIds t = true.
Proof.
  destruct dijkstraLoop_returns as [result [done [Erun Hok]]].
  exists result. split; [assumption|].
  intros t d Hd. unfold reconstructPathEdges.
  destruct (eqb startNodeId t) eqn:Est.
  - apply eqb_true_iff in Est. subst t. exists []. split; [reflexivity|].
    destruct Hok as [Hstart _]. rewrite Hstart in Hd. injection Hd as <-.
    split; [reflexivity|]. cbn. apply eqb_refl.
  - destruct (walkPrev_reaches done result Hok (length (prev result)) t [] [] d Hd)
      as [tail [Ewalk [Hsum Hpath]]].
    + constructor.
    + intros x [].
    + cbn [length]. lia.
    + rewrite Ewalk. cbn [app]. exists (rev tail). auto.
Qed.

End Dijkstra.

(** *** The reconstructed path as oriented steps *)

Lemma NoDup_map_unique {A B} (f : A -> B) (l : list A) (a b : A) :
  NoDup (map f l) -> In a l -> In b l -> f a = f b -> a = b.
Proof.
  induction l as [|x l IH]; simpl; [tauto|].
  intros Hnd Ha Hb Hf. inversion Hnd as [|? ? Hnotin Hnd']; subst.
  destruct Ha as [->|Ha], Hb as [->|Hb].
  - reflexivity.
  - exfalso. apply Hnotin. rewrite Hf. apply in_map. assumption.
  - exfalso. apply Hnotin. rewrite <- Hf. apply in_map. assumption.
  - apply IH; assumption.
Qed.

Lemma last_cons {A} (l : list A) (a d : A) : last (a :: l) d = last l a.
Proof.
  revert a d. induction l as [|x l IH]; intros a d; [reflexivity|].
  change (last (a :: x :: l) d) with (last (x :: l) d). rewrite !IH. reflexivity.
Qed.

Section Orientation.

Variable haversineKm : LatLng -> LatLng -> Q.
Variable streets : list StreetSegment.
Hypothesis ids_distinct : NoDup (edgeStreetIds streets).

Local Abbreviation builtGraph := (buildStreetGraph haversineKm streets).

(** With distinct ids, an adjacency record names the other end of its edge. *)
Lemma record_endpoints (u : string) (nb : GraphNeighbor) (edge : GraphEdge) :
  In nb (neighborsOf builtGraph u) ->
  JsMap.get (nb_edgeId nb) (edges builtGraph) = Some edge ->
  (edge_from edge = u /\ edge_to edge = nb_neighbor nb)
  \/ (edge_to edge = u /\ edge_from edge = nb_neighbor nb).
Proof.
  intros Hin Hget. rewrite neighborsOf_buildStreetGraph in Hin.
  apply in_flat_map in Hin. destruct Hin as [street' [Hin' Hrec]].
  destruct (edges_buildStreetGraph_origin _ _ _ _ Hget) as [street [Hin [Hv [Hid ->]]]].
  unfold recordsAt in Hrec. destruct (validStreet street') eqn:Hv'; [|contradiction].
  assert (Hsame : seg_id street' = nb_edgeId nb -> street = street').
  { intros E. apply (NoDup_map_unique seg_id (filter validStreet streets)).
    - exact ids_distinct.
    - apply filter_In. auto.
    - apply filter_In. auto.
    - congruence. }
  cbn [edgeOfStreet edge_from edge_to].
  apply in_app_or in Hrec. destruct Hrec as [Hrec|Hrec].
  - destruct (eq_dec u _) as [Hu|]; [|contradiction].
    destruct Hrec as [<-|[]]. cbn [nb_edgeId nb_neighbor] in *.
    rewrite (Hsame eq_refl). left. auto.
  - destruct (eq_dec u _) as [Hu|]; [|contradiction].
    destruct Hrec as [<-|[]]. cbn [nb_edgeId nb_neighbor] in *.
    rewrite (Hsame eq_refl). right. auto.
Qed.

(** With distinct ids, a path in the graph is oriented by [orientPathEdges]
    into steps that end at its last node. *)
Lemma pathInGraph_orients (fromNodeId toNodeId : string) (edgeIds : list string) :
  pathInGraph builtGraph fromNodeId edgeIds toNodeId = true ->
  exists steps,
    orientPathEdges builtGraph fromNodeId edgeIds = Some steps
    /\ map step_edgeId steps = edgeIds
    /\ last (map step_to steps) fromNodeId = toNodeId.
Proof.
  unfold orientPathEdges. revert fromNodeId.
  induction edgeIds as [|e edgeIds IH]; intros fromNodeId Hpath.
  - cbn in Hpath. apply eqb_true_iff in Hpath. exists []. auto.
  - cbn [pathInGraph] in Hpath. apply andb_true_iff in Hpath.
    destruct Hpath as [Hhas Hex]. apply existsb_exists in Hex.
    destruct Hex as [nb [Hnb Hstep]]. apply andb_true_iff in Hstep.
    destruct Hstep as [Hid Hrest]. apply eqb_true_iff in Hid.
    unfold JsMap.has in Hhas.
    destruct (JsMap.get e (edges builtGraph)) as [edge|] eqn:Eedge; [|discriminate].
    rewrite <- Hid in Eedge.
    pose proof (record_endpoints fromNodeId nb edge Hnb Eedge) as Hends.
    rewrite Hid in Eedge.
    destruct (IH _ Hrest) as [steps [Eor [Hids Hlast]]].
    cbn [orientFrom]. rewrite Eedge.
    destruct (eqb (edge_from edge) fromNodeId) eqn:Efrom.
    + apply eqb_true_iff in Efrom.
      assert (Hto : edge_to edge = nb_neighbor nb).
      { destruct Hends as [[_ H]|[H1 H2]]; [assumption|congruence]. }
      rewrite Hto, Eor. cbn [option_map]. eexists. split; [reflexivity|].
      cbn [map step_edgeId step_to]. rewrite last_cons, Hids. auto.
    + apply eqb_false_iff in Efrom.
      destruct Hends as [[H _]|[H1 H2]]; [contradiction|].
      rewrite H1, eqb_refl, H2, Eor. cbn [option_map]. eexists. split; [reflexivity|].
      cbn [map step_edgeId step_to]. rewrite last_cons, Hids. auto.
Qed.

(** With distinct ids, a path along the adjacency records is a path of the
    stored edges. *)
Lemma pathInGraph_edgesFormPath (fromNodeId toNodeId : string) (edgeIds : list string) :
  pathInGraph builtGraph fromNodeId edgeIds toNodeId = true ->
  edgesFormPath builtGraph fromNodeId edgeIds toNodeId = true.
Proof.
  revert fromNodeId. induction edgeIds as [|e edgeIds IH]; intros fromNodeId Hpath.
  - exact Hpath.
  - cbn [pathInGraph] in Hpath. apply andb_true_iff in Hpath.
    destruct Hpath as [Hhas Hex]. apply existsb_exists in Hex.
    destruct Hex as [nb [Hnb Hstep]]. apply andb_true_iff in Hstep.
    destruct Hstep as [Hid Hrest]. apply eqb_true_iff in Hid.
    unfold JsMap.has in Hhas.
    destruct (JsMap.get e (edges builtGraph)) as [edge|] eqn:Eedge; [|discriminate].
    rewrite <- Hid in Eedge.
    pose proof (record_endpoints fromNodeId nb edge Hnb Eedge) as Hends.
    rewrite Hid in Eedge.
    cbn [edgesFormPath]. rewrite Eedge. apply orb_true_iff.
    destruct Hends as [[Hfrom Hto]|[Hto Hfrom]].
    + left. rewrite Hfrom, Hto, eqb_refl. apply IH. assumption.
    + right. rewrite Hfrom, Hto, eqb_refl. apply IH. assumption.
Qed.

End Orientation.

Lemma buildStreetGraph_edges_nonneg (haversineKm : LatLng -> LatLng -> Q)
    (streets : list StreetSegment) (e : string) (edge : GraphEdge) :
  (forall a b, 0 <= haversineKm a b) ->
  JsMap.get e (edges (buildStreetGraph haversineKm streets)) = Some edge ->
  0 <= edge_distanceKm edge.
Proof.
  intros Hnn Hget.
  destruct (edges_buildStreetGraph_origin _ _ _ _ Hget) as [street [_ [_ [_ ->]]]].
  apply polylineDistanceKm_nonneg. assumption.
Qed.

(** C2, as stated, fails when two segments share an id. Of the segments
    ["e"] from [a] to [b] and ["e"] from [a] to [c] the graph stores the later
    one under ["e"] and keeps an adjacency record of both. From [a] the node
    [b] gets a finite [dist], the length of the stored edge, and
    [reconstructPathEdges] returns [["e"]] for it; but the edge stored under
    ["e"] leads from [a] to [c], not to [b]. *)
Lemma shared_id_breaks_path :
  exists result d,
    runDijkstra (buildStreetGraph flatKm [forkToB; forkToC]) "a" = Some result
    /\ JsMap.get "b" (dist result) = Some (Fin d)
    /\ reconstructPathEdges result "a" "b" = Some ["e"]
    /\ d == sumEdgeKm (buildStreetGraph flatKm [forkToB; forkToC]) ["e"]
    /\ edgesFormPath (buildStreetGraph flatKm [forkToB; forkToC]) "a" ["e"] "b" = false
    /\ edgesFormPath (buildStreetGraph flatKm [forkToB; forkToC]) "a" ["e"] "c" = true.
Proof.
  destruct (runDijkstra (buildStreetGraph flatKm [forkToB; forkToC]) "a")
    as [result|] eqn:Erun; [|vm_compute in Erun; discriminate].
  vm_compute in Erun. injection Erun as <-.
  eexists. eexists. split; [reflexivity|]. split; [reflexivity|].
  split; [reflexivity|]. split; [vm_compute; reflexivity|].
  split; reflexivity.
Qed.

(** C2 (amended): for every graph built by [buildStreetGraph] (with a distance
    function that is never negative, as the great-circle distance is) and
    every source node, [runDijkstra] returns, and for every node whose [dist]
    is finite [reconstructPathEdges] returns edge ids whose [distanceKm] add
    up to that [dist] and which lead from the source to the node along the
    adjacency records of the graph. When the segments with at least two
    points have pairwise distinct ids, the edges stored under these ids form
    a path from the source to the node. *)
Theorem dijkstra_distance_is_path_length
    (haversineKm : LatLng -> LatLng -> Q) (streets : list StreetSegment)
    (startNodeId : string) :
  (forall a b, 0 <= haversineKm a b) ->
  exists result,
    runDijkstra (buildStreetGraph haversineKm streets) startNodeId = Some result
    /\ forall endNodeId d,
         JsMap.get endNodeId (dist result) = Some (Fin d) ->
         exists edgeIds,
           reconstructPathEdges result startNodeId endNodeId = Some edgeIds
           /\ d == sumEdgeKm (buildStreetGraph haversineKm streets) edgeIds
           /\ pathInGraph (buildStreetGraph haversineKm streets)
                startNodeId edgeIds endNodeId = true
           /\ (NoDup (edgeStreetIds streets) ->
               edgesFormPath (buildStreetGraph haversineKm streets)
                 startNodeId edgeIds endNodeId = true).
Proof.
  intros Hnn.
  destruct (runDijkstra_paths (buildStreetGraph haversineKm streets) startNodeId)
    as [result [Erun Hall]].
  { intros e edge. apply buildStreetGraph_edges_nonneg. assumption. }
  exists result. split; [exact Erun|].
  intros endNodeId d Hd.
  destruct (Hall endNodeId d Hd) as [edgeIds [Erec [Hsum Hpath]]].
  exists edgeIds. split; [exact Erec|]. split; [exact Hsum|]. split; [exact Hpath|].
  intros Hids. apply pathInGraph_edgesFormPath; assumption.
Qed.

(** The theorem on the street [a - b - c]: from [a], the node [c] is reached
    over both segments, which form a path from [a] to [c]. *)
Lemma dijkstra_distance_is_path_length_witness :
  (forall a b, 0 <= flatKm a b)
  /\ NoDup (edgeStreetIds [elmFirst; elmSecond])
  /\ exists result d,
       runDijkstra (buildStreetGraph flatKm [elmFirst; elmSecond]) "a" = Some result
       /\ JsMap.get "c" (dist result) = Some (Fin d)
       /\ reconstructPathEdges result "a" "c" = Some ["s1"; "s2"]
       /\ d == sumEdgeKm (buildStreetGraph flatKm [elmFirst; elmSecond]) ["s1"; "s2"]
       /\ pathInGraph (buildStreetGraph flatKm [elmFirst; elmSecond])
            "a" ["s1"; "s2"] "c" = true
       /\ edgesFormPath (buildStreetGraph flatKm [elmFirst; elmSecond])
            "a" ["s1"; "s2"] "c" = true.
Proof.
  split; [exact flatKm_nonneg|].
  assert (Hids : NoDup (edgeStreetIds [elmFirst; elmSecond])).
  { vm_compute. repeat constructor; cbn; intuition discriminate. }
  split; [exact Hids|].
  destruct (dijkstra_distance_is_path_length flatKm [elmFirst; elmSecond] "a" flatKm_nonneg)
    as [result [Erun Hall]].
  exists result.
  assert (Hd : exists d, JsMap.get "c" (dist result) = Some (Fin d)).
  { vm_compute in Erun. injection Erun as <-. eexists. reflexivity. }
  destruct Hd as [d Hd]. exists d.
  destruct (Hall "c" d Hd) as [edgeIds [Erec [Hsum [Hpath Hedges]]]].
  assert (Eids : edgeIds = ["s1"; "s2"]).
  { vm_compute in Erun. injection Erun as <-. vm_compute in Erec. congruence. }
  subst edgeIds. auto 8.
Defined.

(* ------------------------------------------------------------------ *)
(** ** Further facts about maps and lists *)

Section MapKeys.
Context {K V : Type} `{EqDec K}.

Lemma has_keys (k : K) (m : list (K * V)) :
  JsMap.has k m = true <-> In k (JsMap.keys m).
Proof.
  unfold JsMap.has, JsMap.keys. induction m as [|[k' v'] m IH]; simpl.
  - split; [discriminate|tauto].
  - destruct (eq_dec k k') as [->|Hne].
    + split; auto.
    + rewrite IH. split; [auto|]. intros [E|Hin]; [congruence|assumption].
Qed.

Lemma get_none_keys (k : K) (m : list (K * V)) :
  JsMap.get k m = None <-> ~ In k (JsMap.keys m).
Proof.
  rewrite <- has_keys. unfold JsMap.has. destruct (JsMap.get k m); split; congruence.
Qed.

Lemma keys_set (k : K) (v : V) (m : list (K * V)) :
  JsMap.keys (JsMap.set k v m)
  = if JsMap.has k m then JsMap.keys m else JsMap.keys m ++ [k].
Proof.
  unfold JsMap.has, JsMap.keys. induction m as [|[k' v'] m IH]; simpl; [reflexivity|].
  destruct (eq_dec k k') as [->|Hne]; simpl; [reflexivity|].
  rewrite IH. destruct (JsMap.get k m); reflexivity.
Qed.

Lemma keys_set_NoDup (k : K) (v : V) (m : list (K * V)) :
  NoDup (JsMap.keys m) -> NoDup (JsMap.keys (JsMap.set k v m)).
Proof.
  intros Hnd. rewrite keys_set. destruct (JsMap.has k m) eqn:E; [assumption|].
  apply NoDup_app; [assumption|repeat constructor; simpl; tauto|].
  intros x Hx [<-|[]]. apply has_keys in Hx. congruence.
Qed.

Lemma get_of_entry (k : K) (v : V) (m : list (K * V)) :
  NoDup (JsMap.keys m) -> In (k, v) m -> JsMap.get k m = Some v.
Proof.
  unfold JsMap.keys. induction m as [|[k' v'] m IH]; simpl; [tauto|].
  intros Hnd [E|Hin].
  - injection E as -> ->. destruct (eq_dec k k); congruence.
  - inversion Hnd as [|? ? Hnotin Hnd']; subst.
    destruct (eq_dec k k') as [->|Hne]; [|apply IH; assumption].
    exfalso. apply Hnotin. change k' with (fst (k', v)). apply in_map. assumption.
Qed.

End MapKeys.

(** [map.has(k) ? keys : keys + [k]], on the keys alone. *)
Definition addKey (k : string) (ks : list string) : list string :=
  if existsb (eqb k) ks then ks else ks ++ [k].

Lemma has_existsb {V} (k : string) (m : Map string V) :
  JsMap.has k m = existsb (eqb k) (JsMap.keys m).
Proof.
  unfold JsMap.has, JsMap.keys. induction m as [|[k' v'] m IH]; simpl; [reflexivity|].
  unfold eqb at 1. destruct (eq_dec k k'); simpl; [reflexivity|assumption].
Qed.

Lemma keys_ensureKey {V} (k : string) (v : V) (m : Map string V) :
  JsMap.keys (ensureKey k v m) = addKey k (JsMap.keys m).
Proof.
  unfold ensureKey, addKey. rewrite <- has_existsb.
  destruct (JsMap.has k m) eqn:E; [reflexivity|]. rewrite keys_set, E. reflexivity.
Qed.

Lemma get_ensureKey {V} (k k0 : string) (v : V) (m : Map string V) :
  JsMap.get k0 (ensureKey k v m)
  = match JsMap.get k0 m with
    | Some x => Some x
    | None => if eq_dec k0 k then Some v else None
    end.
Proof.
  unfold ensureKey, JsMap.has.
  destruct (JsMap.get k m) eqn:Ek.
  - destruct (JsMap.get k0 m) eqn:E0; [reflexivity|].
    destruct (eq_dec k0 k) as [->|]; [congruence|reflexivity].
  - rewrite get_set. destruct (eq_dec k0 k) as [->|].
    + rewrite Ek. reflexivity.
    + destruct (JsMap.get k0 m); reflexivity.
Qed.

Lemma addKey_NoDup (k : string) (ks : list string) : NoDup ks -> NoDup (addKey k ks).
Proof.
  intros Hnd. unfold addKey. destruct (existsb (eqb k) ks) eqn:E; [assumption|].
  apply NoDup_app; [assumption|repeat constructor; simpl; tauto|].
  intros x Hx [<-|[]].
  assert (existsb (eqb k) ks = true); [|congruence].
  apply existsb_exists. exists k. split; [assumption|apply eqb_refl].
Qed.

Lemma addKey_In (k x : string) (ks : list string) :
  In x (addKey k ks) <-> x = k \/ In x ks.
Proof.
  unfold addKey. destruct (existsb (eqb k) ks) eqn:E.
  - apply existsb_exists in E. destruct E as [y [Hy Ey]]. apply eqb_true_iff in Ey. subst y.
    split; [auto|]. intros [->|]; assumption.
  - rewrite in_app_iff. simpl. split; [intros [|[<-|[]]]; auto|intros [->|]; auto].
Qed.

(* ------------------------------------------------------------------ *)
(** ** [MinHeap]: what its users rely on *)

Section HeapUse.
Context {T : Type}.
Variable compare : T -> T -> Q.
Variable key : T -> Q.
Hypothesis compare_key : forall a b, compare a b == key a - key b.

Lemma heapReached_ordered (data : list T) :
  heapReached compare data -> heapOrdered key data.
Proof.
  induction 1 as [|data value _ IH|data _ IH].
  - apply heapOrdered_nil.
  - apply (push_ordered compare key compare_key). assumption.
  - destruct data as [|top tl]; [apply heapOrdered_nil|].
    destruct (pop_cons compare key compare_key top tl) as [heap' [Epop [_ Hord]]].
    rewrite Epop. apply Hord. assumption.
Qed.

Lemma pushAll_from (values : list T) (data : list T) :
  heapOrdered key data ->
  heapOrdered key (fold_left (MinHeap.push compare) values data)
  /\ Permutation (fold_left (MinHeap.push compare) values data) (rev values ++ data).
Proof.
  revert data. induction values as [|v values IH]; intros data Hord.
  - split; [assumption|apply Permutation_refl].
  - cbn [fold_left].
    destruct (IH (MinHeap.push compare data v)
                (push_ordered compare key compare_key data v Hord)) as [H1 H2].
    split; [assumption|].
    eapply Permutation_trans; [exact H2|].
    cbn [rev]. rewrite <- app_assoc. apply Permutation_app_head.
    apply push_Permutation.
Qed.

Lemma popAll_sorted (count : nat) (data : list T) :
  heapOrdered key data -> (length data <= count)%nat ->
  Permutation (popAll compare count data) data
  /\ StronglySorted (fun a b => key a <= key b) (popAll compare count data).
Proof.
  revert data. induction count as [|count IH]; intros data Hord Hlen.
  - destruct data; [|simpl in Hlen; lia]. split; constructor.
  - destruct data as [|top tl]; [split; constructor|].
    destruct (pop_cons compare key compare_key top tl) as [heap' [Epop [Hperm Hord']]].
    cbn [popAll]. rewrite Epop.
    pose proof (Permutation_length Hperm) as Hl. cbn [length] in Hl, Hlen.
    destruct (IH heap' (Hord' Hord) ltac:(lia)) as [Hp Hs].
    split.
    + eapply Permutation_trans; [apply perm_skip; exact Hp|].
      apply Permutation_sym. assumption.
    + constructor; [assumption|].
      apply Forall_forall. intros x Hx.
      apply (heapOrdered_top key top tl x Hord).
      apply (Permutation_in _ (Permutation_sym Hperm)). right.
      apply (Permutation_in _ Hp). assumption.
Qed.

End HeapUse.

(** X1: on a heap reached from [new MinHeap] by any calls of [push] and [pop],
    with a comparator that is the difference of a key (as the planner's
    [(a, b) => a.distance - b.distance]), [pop] returns [undefined] exactly
    when the heap is empty; otherwise it returns an element whose key is least
    and leaves exactly the other elements in the heap. *)
Theorem MinHeap_pop_returns_least {T} (compare : T -> T -> Q) (key : T -> Q)
    (data : list T) :
  (forall a b, compare a b == key a - key b) ->
  heapReached compare data ->
  match MinHeap.pop compare data with
  | (None, rest) => data = [] /\ rest = []
  | (Some top, rest) =>
      Permutation data (top :: rest)
      /\ (forall x, In x data -> key top <= key x)
      /\ heapReached compare rest
  end.
Proof.
  intros Hkey Hreached.
  pose proof (heapReached_ordered compare key Hkey data Hreached) as Hord.
  destruct data as [|top tl]; [split; reflexivity|].
  destruct (pop_cons compare key Hkey top tl) as [heap' [Epop [Hperm _]]].
  pose proof (reached_pop compare _ Hreached) as Hrest.
  rewrite Epop in Hrest |- *. cbn [snd] in Hrest.
  split; [assumption|]. split; [|assumption].
  intros x Hx. apply (heapOrdered_top key top tl x Hord Hx).
Qed.

(** The theorem on the heap that holds the distances 3, 1 and 2. *)
Lemma MinHeap_pop_returns_least_witness :
  (forall a b, compareEntries a b == he_distance a - he_distance b)
  /\ heapReached compareEntries
       (pushAll compareEntries
          [mkHeapEntry "a" 3; mkHeapEntry "b" 1; mkHeapEntry "c" 2])
  /\ exists rest,
       MinHeap.pop compareEntries
         (pushAll compareEntries
            [mkHeapEntry "a" 3; mkHeapEntry "b" 1; mkHeapEntry "c" 2])
       = (Some (mkHeapEntry "b" 1), rest)
       /\ Permutation
            (pushAll compareEntries
               [mkHeapEntry "a" 3; mkHeapEntry "b" 1; mkHeapEntry "c" 2])
            (mkHeapEntry "b" 1 :: rest).
Proof.
  assert (Hreached : heapReached compareEntries
            (pushAll compareEntries
               [mkHeapEntry "a" 3; mkHeapEntry "b" 1; mkHeapEntry "c" 2])).
  { unfold pushAll. cbn [fold_left]. repeat apply reached_push. apply reached_new. }
  split; [exact compareEntries_key|]. split; [exact Hreached|].
  pose proof (MinHeap_pop_returns_least compareEntries he_distance _
                compareEntries_key Hreached) as H.
  destruct (MinHeap.pop compareEntries _) as [[top|] rest] eqn:Epop.
  - exists rest. vm_compute in Epop. injection Epop as <- _.
    split; [reflexivity|]. apply H.
  - vm_compute in Epop. discriminate.
Defined.

(** X2: when every value of a list is pushed onto a new heap and the heap is
    then popped as many times, the values come out in non-decreasing order of
    the key, each as often as it went in. *)
Theorem MinHeap_pops_in_order {T} (compare : T -> T -> Q) (key : T -> Q)
    (values : list T) :
  (forall a b, compare a b == key a - key b) ->
  Permutation (popAll compare (length values) (pushAll compare values)) values
  /\ StronglySorted (fun a b => key a <= key b)
       (popAll compare (length values) (pushAll compare values)).
Proof.
  intros Hkey. unfold pushAll.
  destruct (pushAll_from compare key Hkey values [] (heapOrdered_nil key)) as [Hord Hperm].
  rewrite app_nil_r in Hperm.
  assert (Hlen : (length (fold_left (MinHeap.push compare) values []) <= length values)%nat).
  { rewrite (Permutation_length Hperm), length_rev. lia. }
  destruct (popAll_sorted compare key Hkey _ _ Hord Hlen) as [Hp Hs].
  split; [|assumption].
  eapply Permutation_trans; [exact Hp|].
  eapply Permutation_trans; [exact Hperm|]. apply Permutation_sym, Permutation_rev.
Qed.

(** The theorem on the distances 3, 1, 2, 1. *)
Lemma MinHeap_pops_in_order_witness :
  (forall a b, compareEntries a b == he_distance a - he_distance b)
  /\ map he_distance
       (popAll compareEntries 4
          (pushAll compareEntries
             [mkHeapEntry "a" 3; mkHeapEntry "b" 1; mkHeapEntry "c" 2; mkHeapEntry "d" 1]))
     = [1; 1; 2; 3]
  /\ StronglySorted (fun a b => he_distance a <= he_distance b)
       (popAll compareEntries 4
          (pushAll compareEntries
             [mkHeapEntry "a" 3; mkHeapEntry "b" 1; mkHeapEntry "c" 2; mkHeapEntry "d" 1])).
Proof.
  split; [exact compareEntries_key|]. split; [reflexivity|].
  exact (proj2 (MinHeap_pops_in_order compareEntries he_distance
                  [mkHeapEntry "a" 3; mkHeapEntry "b" 1; mkHeapEntry "c" 2; mkHeapEntry "d" 1]
                  compareEntries_key)).
Defined.

(* ------------------------------------------------------------------ *)
(** ** [runDijkstra]: the distances are the shortest ones *)

Section ShortestPaths.

Variable graph : StreetGraph.
Variable startNodeId : string.
Hypothesis edges_nonneg :
  forall e edge, JsMap.get e (edges graph) = Some edge -> 0 <= edge_distanceKm edge.

(** No edge out of [u] leads to a shorter distance than the one recorded. *)
Definition settledAt (d : Map string dnum) (u : string) : Prop :=
  forall nb edge,
    In nb (neighborsOf graph u) ->
    JsMap.get (nb_edgeId nb) (edges graph) = Some edge ->
    exists du dv,
      JsMap.get u d = Some (Fin du)
      /\ JsMap.get (nb_neighbor nb) d = Some (Fin dv)
      /\ dv <= du + edge_distanceKm edge.

(** A node with a finite distance was expanded or waits in the heap with
    that distance. *)
Definition queuedOrDone (done : list string) (st : DijkstraState) : Prop :=
  forall v dv, JsMap.get v (ds_dist st) = Some (Fin dv) ->
    In v done
    \/ exists entry, In entry (ds_heap st) /\ he_nodeId entry = v /\ he_distance entry <= dv.

(** The neighbours relaxed so far while [current] is expanded. *)
Definition relaxedSoFar (current : HeapEntry) (processed : list GraphNeighbor)
    (d : Map string dnum) : Prop :=
  forall nb edge,
    In nb processed ->
    JsMap.get (nb_edgeId nb) (edges graph) = Some edge ->
    exists dv, JsMap.get (nb_neighbor nb) d = Some (Fin dv)
               /\ dv <= he_distance current + edge_distanceKm edge.

Lemma relaxNeighbor_shape (current : HeapEntry) (st : DijkstraState) (n : GraphNeighbor) :
  (forall entry, In entry (ds_heap st) ->
     In entry (ds_heap (relaxNeighbor graph current st n)))
  /\ (forall x dx, JsMap.get x (ds_dist st) = Some (Fin dx) ->
        exists dx', JsMap.get x (ds_dist (relaxNeighbor graph current st n)) = Some (Fin dx')
                    /\ dx' <= dx)
  /\ (forall x dx', JsMap.get x (ds_dist (relaxNeighbor graph current st n)) = Some (Fin dx') ->
        JsMap.get x (ds_dist st) = Some (Fin dx')
        \/ exists entry, In entry (ds_heap (relaxNeighbor graph current st n))
                         /\ he_nodeId entry = x /\ he_distance entry <= dx')
  /\ (forall edge, JsMap.get (nb_edgeId n) (edges graph) = Some edge ->
        exists dv, JsMap.get (nb_neighbor n) (ds_dist (relaxNeighbor graph current st n))
                   = Some (Fin dv)
                   /\ dv <= he_distance current + edge_distanceKm edge).
Proof.
  destruct n as [e v]. unfold relaxNeighbor. cbn [nb_edgeId nb_neighbor].
  destruct (JsMap.get e (edges graph)) as [edge|] eqn:Eedge.
  2:{ repeat split; auto.
      - intros x dx H. exists dx. split; [assumption|lra].
      - intros edge H. discriminate. }
  cbv zeta.
  set (nd := he_distance current + edge_distanceKm edge).
  destruct (dnum_ltb (Fin nd) (getDist (ds_dist st) v)) eqn:Elt.
  - cbn [ds_heap ds_dist].
    pose proof (push_Permutation compareEntries (ds_heap st) (mkHeapEntry v nd)) as Hperm.
    repeat split.
    + intros entry Hin. apply (Permutation_in _ (Permutation_sym Hperm)). right. assumption.
    + intros x dx Hx. destruct (eq_dec x v) as [->|Hne].
      * exists nd. rewrite get_set_same. split; [reflexivity|].
        unfold getDist in Elt. rewrite Hx in Elt. cbn in Elt.
        apply Qltb_true_iff in Elt. lra.
      * exists dx. rewrite get_set_other by assumption. split; [assumption|lra].
    + intros x dx' Hx. destruct (eq_dec x v) as [->|Hne].
      * right. rewrite get_set_same in Hx. injection Hx as <-.
        exists (mkHeapEntry v nd). split; [|split; [reflexivity|cbn; lra]].
        apply (Permutation_in _ (Permutation_sym Hperm)). left. reflexivity.
      * left. rewrite get_set_other in Hx by assumption. assumption.
    + intros edge' Hedge'. injection Hedge' as <-. exists nd.
      rewrite get_set_same. split; [reflexivity|unfold nd; lra].
  - repeat split; auto.
    + intros x dx H. exists dx. split; [assumption|lra].
    + intros edge' Hedge'. injection Hedge' as <-.
      unfold getDist in Elt.
      destruct (JsMap.get v (ds_dist st)) as [[k|]|]; cbn in Elt; try discriminate.
      exists k. split; [reflexivity|]. apply Qltb_false_iff in Elt. unfold nd in Elt. lra.
Qed.

Lemma relaxAll_closed (done kept : list string) (current : HeapEntry)
    (neighbors processed : list GraphNeighbor) (st : DijkstraState) :
  loopInv graph startNodeId done (he_distance current) st ->
  In (he_nodeId current) done ->
  (exists du, JsMap.get (he_nodeId current) (ds_dist st) = Some (Fin du)
              /\ du == he_distance current) ->
  incl neighbors (neighborsOf graph (he_nodeId current)) ->
  incl kept done ->
  queuedOrDone done st ->
  (forall u, In u kept -> settledAt (ds_dist st) u) ->
  relaxedSoFar current processed (ds_dist st) ->
  loopInv graph startNodeId done (he_distance current)
    (fold_left (relaxNeighbor graph current) neighbors st)
  /\ queuedOrDone done (fold_left (relaxNeighbor graph current) neighbors st)
  /\ (forall u, In u kept ->
        settledAt (ds_dist (fold_left (relaxNeighbor graph current) neighbors st)) u)
  /\ relaxedSoFar current (processed ++ neighbors)
       (ds_dist (fold_left (relaxNeighbor graph current) neighbors st))
  /\ (forall x, In x done ->
        JsMap.get x (ds_dist (fold_left (relaxNeighbor graph current) neighbors st))
        = JsMap.get x (ds_dist st))
  /\ (length (ds_heap (fold_left (relaxNeighbor graph current) neighbors st))
      <= length neighbors + length (ds_heap st))%nat.
Proof.
  revert st processed.
  induction neighbors as [|n neighbors IH];
    intros st processed Hinv Hcur Hdu Hincl Hkept Hq Hs Hr.
  - cbn [fold_left]. rewrite app_nil_r.
    split; [assumption|]. split; [assumption|]. split; [assumption|].
    split; [assumption|]. split; [reflexivity|]. cbn [length]. lia.
  - cbn [fold_left].
    destruct (relaxNeighbor_inv graph startNodeId edges_nonneg done current st n
                Hinv Hcur Hdu (Hincl n (or_introl eq_refl))) as [Hinv' [Hsame Hlen]].
    destruct (relaxNeighbor_shape current st n) as [Hheap [Hdec [Hqueued Hrelaxed]]].
    set (st' := relaxNeighbor graph current st n) in *.
    destruct (IH st' (processed ++ [n])) as [H1 [H2 [H3 [H4 [H5 H6]]]]].
    + assumption.
    + assumption.
    + destruct Hdu as [du [Hdu Heq]]. exists du. rewrite (Hsame _ Hcur). split; assumption.
    + intros x Hx. apply Hincl. right. assumption.
    + assumption.
    + intros v dv Hv. destruct (Hqueued v dv Hv) as [Hold|Hnew]; [|right; assumption].
      destruct (Hq v dv Hold) as [Hd|[entry [Hin [Hid Hle]]]]; [left; assumption|].
      right. exists entry. split; [apply Hheap; assumption|split; assumption].
    + intros u Hu nb edge Hnb Hedge.
      destruct (Hs u Hu nb edge Hnb Hedge) as [du' [dv [Hdu' [Hdv Hle]]]].
      destruct (Hdec _ _ Hdv) as [dv' [Hdv' Hle']].
      exists du', dv'. rewrite (Hsame u (Hkept u Hu)).
      split; [assumption|]. split; [assumption|lra].
    + intros nb edge Hnb Hedge. apply in_app_or in Hnb.
      destruct Hnb as [Hnb|[<-|[]]].
      * destruct (Hr nb edge Hnb Hedge) as [dv [Hdv Hle]].
        destruct (Hdec _ _ Hdv) as [dv' [Hdv' Hle']].
        exists dv'. split; [assumption|lra].
      * apply Hrelaxed. assumption.
    + rewrite <- app_assoc in H4. cbn [app] in H4.
      split; [assumption|]. split; [assumption|]. split; [assumption|].
      split; [assumption|]. split.
      * intros x Hx. rewrite (H5 x Hx). apply Hsame. assumption.
      * cbn [length]. lia.
Qed.

(** The heap loop, with what it leaves settled. *)
Lemma dijkstraLoop_closed (fuel : nat) done bound st :
  loopInv graph startNodeId done bound st ->
  queuedOrDone done st ->
  (forall u, In u done -> settledAt (ds_dist st) u) ->
  (length (ds_heap st) + pendingRecords (adjacency graph) done <= fuel)%nat ->
  exists st' done',
    dijkstraLoop fuel graph st = Some st'
    /\ JsMap.get startNodeId (ds_dist st') = Some (Fin 0)
    /\ (forall v dv, JsMap.get v (ds_dist st') = Some (Fin dv) -> In v done')
    /\ (forall u, In u done' -> settledAt (ds_dist st') u).
Proof.
  revert done bound st. induction fuel as [|fuel IH]; intros done bound st Hinv Hq Hs Hfuel.
  - destruct (ds_heap st) as [|top tl] eqn:Eheap; [|simpl in Hfuel; lia].
    exists st, done. simpl. rewrite Eheap. split; [reflexivity|].
    split; [apply (inv_start _ _ _ _ _ Hinv)|]. split; [|assumption].
    intros v dv Hv. destruct (Hq v dv Hv) as [H|[entry [Hin _]]]; [assumption|].
    rewrite Eheap in Hin. contradiction.
  - destruct (ds_heap st) as [|top tl] eqn:Eheap.
    { exists st, done. simpl. rewrite Eheap. split; [reflexivity|].
      split; [apply (inv_start _ _ _ _ _ Hinv)|]. split; [|assumption].
      intros v dv Hv. destruct (Hq v dv Hv) as [H|[entry [Hin _]]]; [assumption|].
      rewrite Eheap in Hin. contradiction. }
    cbn [dijkstraLoop]. rewrite Eheap.
    destruct (pop_cons compareEntries he_distance compareEntries_key top tl)
      as [heap' [Epop [Hperm Hord]]].
    rewrite Epop. cbv zeta.
    unfold queuedOrDone in Hq. rewrite Eheap in Hq.
    destruct Hinv as [Hheap Hbound Hstart Hentry Hfresh Hdone Hprev Hfinite].
    rewrite Eheap in Hheap, Hentry, Hfresh.
    specialize (Hord Hheap).
    assert (Hlen : length (top :: tl) = S (length heap')).
    { rewrite (Permutation_length Hperm). reflexivity. }
    cbn [length] in Hfuel, Hlen.
    assert (Hsub : forall entry, In entry heap' -> In entry (top :: tl)).
    { intros entry Hin. apply (Permutation_in _ (Permutation_sym Hperm)). right. assumption. }
    assert (Hrest : forall entry, In entry (top :: tl) -> entry = top \/ In entry heap').
    { intros entry Hin. apply (Permutation_in _ Hperm) in Hin.
      destruct Hin as [<-|Hin]; auto. }
    destruct (dnum_ltb (getDist (ds_dist st) (he_nodeId top)) (Fin (he_distance top)))
      eqn:Estale.
    + (* a stale entry is dropped *)
      apply (IH done bound); [| | |cbn [ds_heap]; lia].
      * constructor; cbn [ds_dist ds_prev ds_heap]; try assumption.
        -- intros entry Hin. apply Hentry. apply Hsub. assumption.
        -- intros x. specialize (Hfresh x).
           rewrite (freshCount_Permutation _ x _ _ Hperm), freshCount_cons in Hfresh.
           destruct Hfresh as [H1 H2]. split; [lia|]. intros Hx. specialize (H2 Hx). lia.
      * intros v dv Hv. cbn [ds_dist ds_heap] in *.
        destruct (Hq v dv Hv) as [H|[entry [Hin [Hid Hle]]]]; [left; assumption|].
        right. exists entry. split; [|split; assumption].
        destruct (Hrest entry Hin) as [->|H]; [|assumption].
        exfalso. unfold getDist in Estale. rewrite Hid, Hv in Estale. cbn in Estale.
        apply Qltb_true_iff in Estale. lra.
      * assumption.
    + (* the node is expanded *)
      set (u := he_nodeId top) in *. set (d := he_distance top) in *.
      destruct (Hentry top (or_introl eq_refl)) as [Hbd [du [Hdu Hdule]]].
      fold u in Hdu. fold d in Hbd, Hdule.
      assert (Hdueq : du == d).
      { unfold getDist in Estale. rewrite Hdu in Estale. cbn in Estale.
        apply Qltb_false_iff in Estale. lra. }
      assert (Htopfresh : freshOf (ds_dist st) u top = true).
      { unfold freshOf, isFresh. fold u. rewrite eqb_refl. fold d. rewrite Estale. reflexivity. }
      assert (Hu : ~ In u done).
      { intros Hin. destruct (Hfresh u) as [_ H0]. specialize (H0 Hin).
        rewrite freshCount_cons, Htopfresh in H0. lia. }
      assert (Hinv1 : loopInv graph startNodeId (u :: done) d
                        (mkDijkstraState (ds_dist st) (ds_prev st) heap')).
      { constructor; cbn [ds_dist ds_prev ds_heap].
        - assumption.
        - lra.
        - assumption.
        - intros entry Hin. split.
          + apply (heapOrdered_top he_distance top tl entry Hheap). apply Hsub. assumption.
          + apply Hentry. apply Hsub. assumption.
        - intros x. specialize (Hfresh x).
          rewrite (freshCount_Permutation _ x _ _ Hperm), freshCount_cons in Hfresh.
          destruct Hfresh as [H1 H2]. split; [lia|].
          intros [<-|Hx]; [rewrite Htopfresh in H1; lia|]. specialize (H2 Hx). lia.
        - intros x [<-|Hx].
          + exists du. split; [assumption|lra].
          + destruct (Hdone x Hx) as [dx [Hdx Hle]]. exists dx. split; [assumption|lra].
        - intros v' u' e' Hget.
          destruct (Hprev v' u' e' Hget) as [Hrec [Hu' [Hrank Hrest']]].
          split; [assumption|]. split; [right; assumption|]. split; [|assumption].
          assert (Eu' : eqb u' u = false).
          { apply eqb_false_iff. intros ->. contradiction. }
          intros Hv'. cbn [rankIn]. rewrite Eu'.
          destruct (eqb v' u) eqn:Ev'.
          * pose proof (rankIn_le done u'). lia.
          * apply eqb_false_iff in Ev'. apply Hrank.
            destruct Hv' as [Heq|Hin]; [congruence|assumption].
        - assumption. }
      destruct (relaxAll_closed (u :: done) done top (neighborsOf graph u) []
                  (mkDijkstraState (ds_dist st) (ds_prev st) heap'))
        as [Hinv2 [Hq2 [Hs2 [Hr2 [Hsame2 Hlen2]]]]].
      * exact Hinv1.
      * left. reflexivity.
      * exists du. split; assumption.
      * apply incl_refl.
      * intros x Hx. right. assumption.
      * intros v dv Hv. cbn [ds_dist ds_heap] in *.
        destruct (eq_dec v u) as [->|Hne]; [left; left; reflexivity|].
        destruct (Hq v dv Hv) as [H|[entry [Hin [Hid Hle]]]]; [left; right; assumption|].
        right. exists entry. split; [|split; assumption].
        destruct (Hrest entry Hin) as [->|H]; [|assumption].
        exfalso. apply Hne. symmetry. exact Hid.
      * assumption.
      * intros nb edge [].
      * apply (IH (u :: done) d); [exact Hinv2|exact Hq2| |].
        -- intros x [<-|Hx]; [|apply Hs2; assumption].
           intros nb edge Hnb Hedge.
           destruct (Hr2 nb edge Hnb Hedge) as [dv [Hdv Hle]].
           exists du, dv. rewrite (Hsame2 u (or_introl eq_refl)).
           split; [assumption|]. split; [assumption|].
           fold d in Hle. lra.
        -- cbn [ds_heap] in Hlen2.
           pose proof (pendingRecords_expand (adjacency graph) done u Hu) as Hpend.
           fold (neighborsOf graph u) in Hpend. lia.
Qed.

(** What [runDijkstra] returns is closed under the edges of the graph. *)
Lemma runDijkstra_closed :
  exists result done,
    runDijkstra graph startNodeId = Some result
    /\ JsMap.get startNodeId (dist result) = Some (Fin 0)
    /\ (forall v dv, JsMap.get v (dist result) = Some (Fin dv) -> In v done)
    /\ (forall u, In u done -> settledAt (dist result) u).
Proof.
  destruct (initialDijkstraState_inv graph startNodeId) as [Hinv Hfuel].
  destruct (dijkstraLoop_closed (dijkstraFuel graph) [] 0
              (initialDijkstraState graph startNodeId) Hinv)
    as [st' [done' [Eloop [Hstart [Hall Hs]]]]].
  - intros v dv Hv. right.
    exists (mkHeapEntry startNodeId 0). cbn [he_nodeId he_distance].
    unfold initialDijkstraState in Hv |- *. cbn [ds_dist ds_heap] in *.
    rewrite get_set in Hv. destruct (eq_dec v startNodeId) as [->|Hne].
    + injection Hv as <-. split; [left; reflexivity|split; [reflexivity|lra]].
    + apply initial_dist_infinite in Hv; [discriminate|]. intros y Hy. discriminate.
  - intros u [].
  - exact Hfuel.
  - exists (mkDijkstraResult (ds_dist st') (ds_prev st')), done'.
    unfold runDijkstra, runDijkstraWithin. rewrite Eloop. auto.
Qed.

(** Along a path in the graph the recorded distance grows by no more than the
    lengths of the edges. *)
Lemma settled_along_path (d : Map string dnum) (done : list string) :
  (forall v dv, JsMap.get v d = Some (Fin dv) -> In v done) ->
  (forall u, In u done -> settledAt d u) ->
  forall (edgeIds : list string) (a t : string) (da : Q),
    JsMap.get a d = Some (Fin da) ->
    pathInGraph graph a edgeIds t = true ->
    exists dt, JsMap.get t d = Some (Fin dt) /\ dt <= da + sumEdgeKm graph edgeIds.
Proof.
  intros Hall Hs. induction edgeIds as [|e edgeIds IH]; intros a t da Ha Hpath.
  - cbn in Hpath. apply eqb_true_iff in Hpath. subst t. exists da.
    split; [assumption|]. unfold sumEdgeKm. simpl. lra.
  - cbn [pathInGraph] in Hpath. apply andb_true_iff in Hpath.
    destruct Hpath as [Hhas Hex]. apply existsb_exists in Hex.
    destruct Hex as [nb [Hnb Hstep]]. apply andb_true_iff in Hstep.
    destruct Hstep as [Hid Hrest]. apply eqb_true_iff in Hid.
    unfold JsMap.has in Hhas.
    destruct (JsMap.get e (edges graph)) as [edge|] eqn:Eedge; [|discriminate].
    rewrite <- Hid in Eedge.
    destruct (Hs a (Hall a da Ha) nb edge Hnb Eedge) as [da' [dv [Ha' [Hdv Hle]]]].
    rewrite Ha in Ha'. injection Ha' as <-.
    destruct (IH _ t dv Hdv Hrest) as [dt [Hdt Hle']].
    exists dt. split; [assumption|].
    change (sumEdgeKm graph (e :: edgeIds)) with (edgeKm graph e + sumEdgeKm graph edgeIds).
    unfold edgeKm at 1. rewrite <- Hid, Eedge. lra.
Qed.

(** The distances of [runDijkstra] are lower bounds of every path. *)
Lemma runDijkstra_least :
  exists result,
    runDijkstra graph startNodeId = Some result
    /\ JsMap.get startNodeId (dist result) = Some (Fin 0)
    /\ forall edgeIds t,
         pathInGraph graph startNodeId edgeIds t = true ->
         exists dt, JsMap.get t (dist result) = Some (Fin dt)
                    /\ dt <= sumEdgeKm graph edgeIds.
Proof.
  destruct runDijkstra_closed as [result [done [Erun [Hstart [Hall Hs]]]]].
  exists result. split; [assumption|]. split; [assumption|].
  intros edgeIds t Hpath.
  destruct (settled_along_path (dist result) done Hall Hs edgeIds startNodeId t 0 Hstart Hpath)
    as [dt [Hdt Hle]].
  exists dt. split; [assumption|lra].
Qed.

End ShortestPaths.

(** X3: on a graph built by [buildStreetGraph] (with a distance function that
    is never negative) [runDijkstra] records 0 for the source, a finite
    distance for exactly the nodes that a path in the graph reaches from the
    source, and for such a node a distance that no path to it undercuts. *)
Theorem runDijkstra_distances_are_least
    (haversineKm : LatLng -> LatLng -> Q) (streets : list StreetSegment)
    (startNodeId : string) :
  (forall a b, 0 <= haversineKm a b) ->
  exists result,
    runDijkstra (buildStreetGraph haversineKm streets) startNodeId = Some result
    /\ JsMap.get startNodeId (dist result) = Some (Fin 0)
    /\ forall endNodeId,
         (isFinite (getDist (dist result) endNodeId) = true
          <-> exists edgeIds,
                pathInGraph (buildStreetGraph haversineKm streets)
                  startNodeId edgeIds endNodeId = true)
         /\ forall edgeIds,
              pathInGraph (buildStreetGraph haversineKm streets)
                startNodeId edgeIds endNodeId = true ->
              dnum_leb (getDist (dist result) endNodeId)
                (Fin (sumEdgeKm (buildStreetGraph haversineKm streets) edgeIds)) = true.
Proof.
  intros Hnn.
  set (graph := buildStreetGraph haversineKm streets).
  assert (Hedges : forall e edge, JsMap.get e (edges graph) = Some edge ->
                                  0 <= edge_distanceKm edge).
  { intros e edge. apply buildStreetGraph_edges_nonneg. assumption. }
  destruct (runDijkstra_least graph startNodeId Hedges) as [result [Erun [Hstart Hleast]]].
  destruct (runDijkstra_paths graph startNodeId Hedges) as [result' [Erun' Hpaths]].
  rewrite Erun in Erun'. injection Erun' as <-.
  exists result. split; [assumption|]. split; [assumption|].
  intros t. split.
  - split.
    + intros Hfin. unfold getDist in Hfin.
      destruct (JsMap.get t (dist result)) as [[d|]|] eqn:Ed; try discriminate.
      destruct (Hpaths t d Ed) as [edgeIds [_ [_ Hpath]]]. exists edgeIds. assumption.
    + intros [edgeIds Hpath]. destruct (Hleast edgeIds t Hpath) as [dt [Hdt _]].
      unfold getDist. rewrite Hdt. reflexivity.
  - intros edgeIds Hpath. destruct (Hleast edgeIds t Hpath) as [dt [Hdt Hle]].
    unfold getDist. rewrite Hdt. cbn. apply Qleb_true_iff. assumption.
Qed.

(** The theorem on the street [a - b - c], from [a]. *)
Lemma runDijkstra_distances_are_least_witness :
  (forall a b, 0 <= flatKm a b)
  /\ exists result,
       runDijkstra (buildStreetGraph flatKm [elmFirst; elmSecond]) "a" = Some result
       /\ JsMap.get "a" (dist result) = Some (Fin 0)
       /\ isFinite (getDist (dist result) "c") = true
       /\ dnum_leb (getDist (dist result) "c")
            (Fin (sumEdgeKm (buildStreetGraph flatKm [elmFirst; elmSecond])
                    ["s1"; "s2"; "s2"; "s2"])) = true.
Proof.
  split; [exact flatKm_nonneg|].
  destruct (runDijkstra_distances_are_least flatKm [elmFirst; elmSecond] "a" flatKm_nonneg)
    as [result [Erun [Hstart Hall]]].
  exists result. split; [assumption|]. split; [assumption|].
  destruct (Hall "c") as [Hfin Hleast]. split.
  - apply Hfin. exists ["s1"; "s2"]. reflexivity.
  - apply Hleast. reflexivity.
Defined.

(** X4: on a graph built by [buildStreetGraph] and with no entry for the source
    in the cache, [shortestPathEdges] stores the result of [runDijkstra] under
    the source and returns either infinity and no edges, when no path in the
    graph leads from the source to the target, or a path from the source to
    the target together with its length, which no other such path undercuts. *)
Theorem shortestPathEdges_is_shortest
    (haversineKm : LatLng -> LatLng -> Q) (streets : list StreetSegment)
    (cache : Map string DijkstraResult) (fromNodeId toNodeId : string) :
  (forall a b, 0 <= haversineKm a b) ->
  JsMap.get fromNodeId cache = None ->
  exists distanceKm edgeIds result,
    runDijkstra (buildStreetGraph haversineKm streets) fromNodeId = Some result
    /\ shortestPathEdges (buildStreetGraph haversineKm streets) cache fromNodeId toNodeId
       = Some (distanceKm, edgeIds, JsMap.set fromNodeId result cache)
    /\ match distanceKm with
       | PosInf =>
           edgeIds = []
           /\ forall ids, pathInGraph (buildStreetGraph haversineKm streets)
                            fromNodeId ids toNodeId = false
       | Fin d =>
           pathInGraph (buildStreetGraph haversineKm streets)
             fromNodeId edgeIds toNodeId = true
           /\ d == sumEdgeKm (buildStreetGraph haversineKm streets) edgeIds
           /\ forall ids, pathInGraph (buildStreetGraph haversineKm streets)
                            fromNodeId ids toNodeId = true ->
                          d <= sumEdgeKm (buildStreetGraph haversineKm streets) ids
       end.
Proof.
  intros Hnn Hmiss.
  set (graph := buildStreetGraph haversineKm streets).
  assert (Hedges : forall e edge, JsMap.get e (edges graph) = Some edge ->
                                  0 <= edge_distanceKm edge).
  { intros e edge. apply buildStreetGraph_edges_nonneg. assumption. }
  destruct (runDijkstra_least graph fromNodeId Hedges) as [result [Erun [Hstart Hleast]]].
  destruct (runDijkstra_paths graph fromNodeId Hedges) as [result' [Erun' Hpaths]].
  rewrite Erun in Erun'. injection Erun' as <-.
  unfold shortestPathEdges, getDijkstraCached. rewrite Hmiss, Erun. cbv zeta.
  unfold getDist.
  destruct (JsMap.get toNodeId (dist result)) as [[d|]|] eqn:Ed; cbn [isFinite negb].
  - destruct (Hpaths toNodeId d Ed) as [edgeIds [Erec [Hsum Hpath]]].
    rewrite Erec. exists (Fin d), edgeIds, result.
    split; [reflexivity|]. split; [reflexivity|].
    split; [assumption|]. split; [assumption|].
    intros ids Hids. destruct (Hleast ids toNodeId Hids) as [dt [Hdt Hle]].
    rewrite Ed in Hdt. injection Hdt as <-. assumption.
  - exists PosInf, [], result. split; [reflexivity|]. split; [reflexivity|].
    split; [reflexivity|]. intros ids.
    destruct (pathInGraph graph fromNodeId ids toNodeId) eqn:Hp; [|reflexivity].
    destruct (Hleast ids toNodeId Hp) as [dt [Hdt _]]. congruence.
  - exists PosInf, [], result. split; [reflexivity|]. split; [reflexivity|].
    split; [reflexivity|]. intros ids.
    destruct (pathInGraph graph fromNodeId ids toNodeId) eqn:Hp; [|reflexivity].
    destruct (Hleast ids toNodeId Hp) as [dt [Hdt _]]. congruence.
Qed.

(** The theorem on the street [a - b - c], from [a] to [c] and with an empty
    cache. *)
Lemma shortestPathEdges_is_shortest_witness :
  (forall a b, 0 <= flatKm a b)
  /\ JsMap.get "a" ([] : Map string DijkstraResult) = None
  /\ exists d result,
       shortestPathEdges (buildStreetGraph flatKm [elmFirst; elmSecond]) [] "a" "c"
       = Some (Fin d, ["s1"; "s2"], JsMap.set "a" result [])
       /\ d == sumEdgeKm (buildStreetGraph flatKm [elmFirst; elmSecond]) ["s1"; "s2"].
Proof.
  split; [exact flatKm_nonneg|]. split; [reflexivity|].
  destruct (shortestPathEdges_is_shortest flatKm [elmFirst; elmSecond] [] "a" "c"
              flatKm_nonneg eq_refl) as [distanceKm [edgeIds [result [Erun [Epath Hcase]]]]].
  assert (Hshape : exists d, distanceKm = Fin d /\ edgeIds = ["s1"; "s2"]).
  { vm_compute in Erun. injection Erun as <-. vm_compute in Epath.
    injection Epath as <- <-. eexists. split; reflexivity. }
  destruct Hshape as [d [-> ->]].
  exists d, result. split; [exact Epath|]. apply Hcase.
Defined.


(* ------------------------------------------------------------------ *)
(** ** [buildStreetGraph]: nodes, edges and adjacency lists agree *)

Section GraphShape.

Variable haversineKm : LatLng -> LatLng -> Q.

(** [nodes.get(k)?.edgeIds ?? []]. *)
Definition edgeIdsAt (ns : Map string GraphNode) (k : string) : list string :=
  match JsMap.get k ns with Some n => node_edgeIds n | None => [] end.

Lemma keys_pushNeighbor (k : string) x (m : Map string (list GraphNeighbor)) :
  JsMap.keys (pushNeighbor k x m) = JsMap.keys m.
Proof.
  unfold pushNeighbor. destruct (JsMap.get k m) eqn:E; [|reflexivity].
  rewrite keys_set. unfold JsMap.has. rewrite E. reflexivity.
Qed.

Lemma keys_pushEdgeId (k e : string) (m : Map string GraphNode) :
  JsMap.keys (pushEdgeId k e m) = JsMap.keys m.
Proof.
  unfold pushEdgeId. destruct (JsMap.get k m) eqn:E; [|reflexivity].
  rewrite keys_set. unfold JsMap.has. rewrite E. reflexivity.
Qed.

Lemma get_pushEdgeId (k k0 e : string) (m : Map string GraphNode) :
  JsMap.get k0 (pushEdgeId k e m)
  = match JsMap.get k0 m with
    | Some n =>
        if eq_dec k0 k
        then Some (mkGraphNode (node_id n) (node_point n) (node_edgeIds n ++ [e]))
        else Some n
    | None => None
    end.
Proof.
  unfold pushEdgeId. destruct (JsMap.get k m) eqn:E.
  - rewrite get_set. destruct (eq_dec k0 k) as [->|].
    + rewrite E. reflexivity.
    + destruct (JsMap.get k0 m); reflexivity.
  - destruct (JsMap.get k0 m) eqn:E0; [|reflexivity].
    destruct (eq_dec k0 k) as [->|]; [congruence|reflexivity].
Qed.

(** What [addStreet] does to the nodes. *)
Lemma nodes_addStreet (graph : StreetGraph) (street : StreetSegment) (k : string) :
  validStreet street = true ->
  JsMap.get k (nodes (addStreet haversineKm graph street))
  = let from := nodeIdForStreetEndpoint street EndpointStart in
    let to := nodeIdForStreetEndpoint street EndpointEnd in
    let added := (if eq_dec k from then [seg_id street] else [])
                 ++ (if eq_dec k to then [seg_id street] else []) in
    match JsMap.get k (nodes graph) with
    | Some n => Some (mkGraphNode (node_id n) (node_point n) (node_edgeIds n ++ added))
    | None =>
        if eq_dec k from
        then Some (mkGraphNode from (firstPoint (seg_path street)) added)
        else if eq_dec k to
             then Some (mkGraphNode to (lastPoint (seg_path street)) added)
             else None
    end.
Proof.
  intros Hv. unfold addStreet. rewrite Hv. cbn [negb nodes]. cbv zeta.
  set (from := nodeIdForStreetEndpoint street EndpointStart).
  set (to := nodeIdForStreetEndpoint street EndpointEnd).
  rewrite !get_pushEdgeId, !get_ensureKey.
  destruct (JsMap.get k (nodes graph)) as [[i p ids]|] eqn:E.
  - destruct (eq_dec k from), (eq_dec k to); cbn [node_id node_point node_edgeIds app];
      rewrite <- ?app_assoc, ?app_nil_r; reflexivity.
  - destruct (eq_dec k from), (eq_dec k to); cbn [node_id node_point node_edgeIds app];
      reflexivity.
Qed.

Lemma keys_nodes_addStreet (graph : StreetGraph) (street : StreetSegment) :
  JsMap.keys (nodes (addStreet haversineKm graph street))
  = if validStreet street
    then addKey (nodeIdForStreetEndpoint street EndpointEnd)
           (addKey (nodeIdForStreetEndpoint street EndpointStart) (JsMap.keys (nodes graph)))
    else JsMap.keys (nodes graph).
Proof.
  unfold addStreet. destruct (validStreet street); cbn [negb nodes]; [|reflexivity].
  cbv zeta. rewrite !keys_pushEdgeId, !keys_ensureKey. reflexivity.
Qed.

Lemma keys_adjacency_addStreet (graph : StreetGraph) (street : StreetSegment) :
  JsMap.keys (adjacency (addStreet haversineKm graph street))
  = if validStreet street
    then addKey (nodeIdForStreetEndpoint street EndpointEnd)
           (addKey (nodeIdForStreetEndpoint street EndpointStart)
              (JsMap.keys (adjacency graph)))
    else JsMap.keys (adjacency graph).
Proof.
  unfold addStreet. destruct (validStreet street); cbn [negb adjacency]; [|reflexivity].
  cbv zeta. rewrite !keys_pushNeighbor, !keys_ensureKey. reflexivity.
Qed.

(** The bookkeeping that every turn of the loop of [buildStreetGraph] keeps. *)
Record graphShape (graph : StreetGraph) : Prop := {
  shape_keys : JsMap.keys (nodes graph) = JsMap.keys (adjacency graph);
  shape_nodup : NoDup (JsMap.keys (adjacency graph));
  shape_ids : forall k n, JsMap.get k (nodes graph) = Some n -> node_id n = k;
  shape_edgeIds : forall k n, JsMap.get k (nodes graph) = Some n ->
    node_edgeIds n = map nb_edgeId (neighborsOf graph k)
}.

Lemma map_edgeId_recordsAt (k : string) (street : StreetSegment) :
  validStreet street = true ->
  map nb_edgeId (recordsAt k street)
  = (if eq_dec k (nodeIdForStreetEndpoint street EndpointStart) then [seg_id street] else [])
    ++ (if eq_dec k (nodeIdForStreetEndpoint street EndpointEnd) then [seg_id street] else []).
Proof.
  intros Hv. unfold recordsAt. rewrite Hv.
  destruct (eq_dec k _), (eq_dec k _); reflexivity.
Qed.

Lemma graphShape_addStreet (graph : StreetGraph) (street : StreetSegment) :
  graphShape graph -> graphShape (addStreet haversineKm graph street).
Proof.
  intros [Hkeys Hnd Hids Hedge].
  destruct (validStreet street) eqn:Hv.
  2:{ unfold addStreet. rewrite Hv. cbn [negb]. constructor; assumption. }
  constructor.
  - rewrite keys_nodes_addStreet, keys_adjacency_addStreet, Hv, Hkeys. reflexivity.
  - rewrite keys_adjacency_addStreet, Hv. apply addKey_NoDup, addKey_NoDup. assumption.
  - intros k n. rewrite (nodes_addStreet graph street k Hv). cbv zeta.
    destruct (JsMap.get k (nodes graph)) as [n0|] eqn:E.
    + intros H. injection H as <-. cbn [node_id]. apply (Hids k n0 E).
    + destruct (eq_dec k _) as [->|]; [intros H; injection H as <-; reflexivity|].
      destruct (eq_dec k _) as [->|]; [intros H; injection H as <-; reflexivity|].
      discriminate.
  - intros k n. rewrite (nodes_addStreet graph street k Hv), neighborsOf_addStreet.
    cbv zeta. rewrite map_app, (map_edgeId_recordsAt k street Hv).
    destruct (JsMap.get k (nodes graph)) as [n0|] eqn:E.
    + intros H. injection H as <-. cbn [node_edgeIds]. rewrite (Hedge k n0 E). reflexivity.
    + assert (Hnone : neighborsOf graph k = []).
      { unfold neighborsOf.
        destruct (JsMap.get k (adjacency graph)) eqn:Ea; [|reflexivity].
        exfalso. apply (proj1 (get_none_keys k (nodes graph)) E). rewrite Hkeys.
        apply has_keys. unfold JsMap.has. rewrite Ea. reflexivity. }
      rewrite Hnone. cbn [map app].
      destruct (eq_dec k _) as [Hf|].
      * intros H. injection H as <-. reflexivity.
      * destruct (eq_dec k _) as [Ht|]; [|discriminate].
        intros H. injection H as <-. reflexivity.
Qed.

Lemma graphShape_buildStreetGraph (streets : list StreetSegment) :
  graphShape (buildStreetGraph haversineKm streets).
Proof.
  unfold buildStreetGraph.
  assert (H0 : graphShape emptyGraph).
  { constructor; cbn; try reflexivity; try constructor; intros; discriminate. }
  revert H0. generalize emptyGraph.
  induction streets as [|s streets IH]; intros graph Hg; [assumption|].
  cbn [fold_left]. apply IH. apply graphShape_addStreet. assumption.
Qed.

(** The adjacency records of a graph, counted. *)
Definition totalRecords (adj : Map string (list GraphNeighbor)) : nat :=
  list_sum (map (fun entry => length (snd entry)) adj).

Lemma totalRecords_set (k : string) (l : list GraphNeighbor)
    (adj : Map string (list GraphNeighbor)) :
  (totalRecords (JsMap.set k l adj) + length (listAt adj k)
   = totalRecords adj + length l)%nat.
Proof.
  unfold totalRecords, listAt. induction adj as [|[k' l'] adj IH]; simpl.
  - lia.
  - destruct (eq_dec k k') as [->|Hne]; simpl; lia.
Qed.

Lemma totalRecords_ensureKey (k : string) (adj : Map string (list GraphNeighbor)) :
  totalRecords (ensureKey k [] adj) = totalRecords adj.
Proof.
  unfold ensureKey, JsMap.has. destruct (JsMap.get k adj) eqn:E; [reflexivity|].
  pose proof (totalRecords_set k [] adj) as H. unfold listAt in H. rewrite E in H.
  simpl in H. lia.
Qed.

Lemma totalRecords_pushNeighbor (k : string) x (adj : Map string (list GraphNeighbor)) :
  JsMap.has k adj = true ->
  totalRecords (pushNeighbor k x adj) = S (totalRecords adj).
Proof.
  unfold pushNeighbor, JsMap.has. destruct (JsMap.get k adj) as [l|] eqn:E; [|discriminate].
  intros _. pose proof (totalRecords_set k (l ++ [x]) adj) as H.
  unfold listAt in H. rewrite E, length_app in H. simpl in H. lia.
Qed.

Lemma has_ensureKey_same {V} (k : string) (v : V) (m : Map string V) :
  JsMap.has k (ensureKey k v m) = true.
Proof.
  apply has_keys. rewrite keys_ensureKey. apply addKey_In. left. reflexivity.
Qed.

Lemma has_ensureKey_keeps {V} (k k0 : string) (v : V) (m : Map string V) :
  JsMap.has k0 m = true -> JsMap.has k0 (ensureKey k v m) = true.
Proof.
  intros Hh. apply has_keys. rewrite keys_ensureKey. apply addKey_In. right.
  apply has_keys. assumption.
Qed.

Lemma totalRecords_addStreet (graph : StreetGraph) (street : StreetSegment) :
  totalRecords (adjacency (addStreet haversineKm graph street))
  = ((if validStreet street then 2 else 0) + totalRecords (adjacency graph))%nat.
Proof.
  unfold addStreet. destruct (validStreet street); cbn [negb adjacency]; [|reflexivity].
  cbv zeta.
  set (from := nodeIdForStreetEndpoint street EndpointStart).
  set (to := nodeIdForStreetEndpoint street EndpointEnd).
  rewrite totalRecords_pushNeighbor.
  - rewrite totalRecords_pushNeighbor.
    + rewrite !totalRecords_ensureKey. reflexivity.
    + apply has_ensureKey_keeps, has_ensureKey_same.
  - apply has_keys. rewrite keys_pushNeighbor. apply has_keys. apply has_ensureKey_same.
Qed.

Lemma totalRecords_fold (streets : list StreetSegment) (graph : StreetGraph) :
  totalRecords (adjacency (fold_left (addStreet haversineKm) streets graph))
  = (2 * length (filter validStreet streets) + totalRecords (adjacency graph))%nat.
Proof.
  revert graph. induction streets as [|s streets IH]; intros graph; [reflexivity|].
  cbn [fold_left filter]. rewrite IH, totalRecords_addStreet.
  destruct (validStreet s); cbn [length]; lia.
Qed.

Lemma degrees_of_keys (adj : Map string (list GraphNeighbor)) :
  NoDup (JsMap.keys adj) ->
  map (listAt adj) (JsMap.keys adj) = map snd adj.
Proof.
  unfold JsMap.keys. intros Hnd.
  assert (H : forall entry, In entry adj -> listAt adj (fst entry) = snd entry).
  { intros [k l] Hin. unfold listAt. cbn [fst snd].
    rewrite (get_of_entry k l adj Hnd Hin). reflexivity. }
  rewrite map_map. apply map_ext_in. assumption.
Qed.

End GraphShape.

(** X5: in the graph built by [buildStreetGraph] the map of nodes and the map
    of adjacency lists have the same keys in the same order, every node is
    stored under its own id, and the [edgeIds] of a node are the edge ids of
    its adjacency records, in the same order. *)
Theorem buildStreetGraph_nodes_mirror_adjacency
    (haversineKm : LatLng -> LatLng -> Q) (streets : list StreetSegment) :
  JsMap.keys (nodes (buildStreetGraph haversineKm streets))
  = JsMap.keys (adjacency (buildStreetGraph haversineKm streets))
  /\ NoDup (JsMap.keys (nodes (buildStreetGraph haversineKm streets)))
  /\ forall k n,
       JsMap.get k (nodes (buildStreetGraph haversineKm streets)) = Some n ->
       node_id n = k
       /\ node_edgeIds n
          = map nb_edgeId (neighborsOf (buildStreetGraph haversineKm streets) k).
Proof.
  destruct (graphShape_buildStreetGraph haversineKm streets) as [Hkeys Hnd Hids Hedge].
  split; [assumption|]. split; [rewrite Hkeys; assumption|].
  intros k n Hget. split; [apply (Hids k n Hget)|apply (Hedge k n Hget)].
Qed.

(** X6: the degrees of the nodes of the graph built by [buildStreetGraph] add
    up to twice the number of segments with at least two points: every such
    segment is recorded once at each of its ends, whatever its id. *)
Theorem buildStreetGraph_degree_sum
    (haversineKm : LatLng -> LatLng -> Q) (streets : list StreetSegment) :
  list_sum
    (map (degreeOf (buildStreetGraph haversineKm streets))
       (JsMap.keys (nodes (buildStreetGraph haversineKm streets))))
  = (2 * length (filter validStreet streets))%nat.
Proof.
  destruct (graphShape_buildStreetGraph haversineKm streets) as [Hkeys Hnd _ _].
  rewrite Hkeys.
  pose proof (totalRecords_fold haversineKm streets emptyGraph) as Htotal.
  fold (buildStreetGraph haversineKm streets) in Htotal.
  cbn [emptyGraph adjacency] in Htotal. unfold totalRecords at 2 in Htotal.
  cbn [map list_sum] in Htotal. rewrite Nat.add_0_r in Htotal.
  rewrite <- Htotal. unfold totalRecords.
  rewrite <- (map_map snd (@length GraphNeighbor)).
  rewrite <- (degrees_of_keys _ Hnd), map_map. reflexivity.
Qed.

Section EdgeLookup.

Variable haversineKm : LatLng -> LatLng -> Q.

Lemma edges_fold_other (streets : list StreetSegment) (graph : StreetGraph) (e : string) :
  ~ In e (edgeStreetIds streets) ->
  JsMap.get e (edges (fold_left (addStreet haversineKm) streets graph))
  = JsMap.get e (edges graph).
Proof.
  unfold edgeStreetIds. revert graph.
  induction streets as [|s streets IH]; intros graph Hnot; [reflexivity|].
  cbn [fold_left]. cbn [filter] in Hnot.
  destruct (validStreet s) eqn:Hv.
  - cbn [map] in Hnot. rewrite IH by (intros H; apply Hnot; right; assumption).
    rewrite edges_addStreet, Hv. cbn [andb].
    destruct (eqb e (seg_id s)) eqn:E; [|reflexivity].
    apply eqb_true_iff in E. exfalso. apply Hnot. left. congruence.
  - rewrite IH by assumption. rewrite edges_addStreet, Hv. reflexivity.
Qed.

Lemma edges_fold_get (streets : list StreetSegment) (graph : StreetGraph)
    (street : StreetSegment) :
  NoDup (edgeStreetIds streets) -> In street streets -> validStreet street = true ->
  JsMap.get (seg_id street) (edges (fold_left (addStreet haversineKm) streets graph))
  = Some (edgeOfStreet haversineKm street).
Proof.
  unfold edgeStreetIds. revert graph.
  induction streets as [|s streets IH]; intros graph Hnd Hin Hv; [contradiction|].
  cbn [fold_left]. cbn [filter] in Hnd.
  destruct Hin as [->|Hin].
  - rewrite Hv in Hnd. cbn [map] in Hnd. inversion Hnd as [|? ? Hnotin Hnd']; subst.
    rewrite (edges_fold_other streets _ _ Hnotin), edges_addStreet, Hv, eqb_refl.
    reflexivity.
  - apply IH; [|assumption|assumption].
    destruct (validStreet s); [|assumption].
    cbn [map] in Hnd. inversion Hnd; assumption.
Qed.

Lemma keys_edges_fold (streets : list StreetSegment) (graph : StreetGraph) :
  NoDup (JsMap.keys (edges graph) ++ edgeStreetIds streets) ->
  JsMap.keys (edges (fold_left (addStreet haversineKm) streets graph))
  = JsMap.keys (edges graph) ++ edgeStreetIds streets.
Proof.
  unfold edgeStreetIds. revert graph.
  induction streets as [|s streets IH]; intros graph Hnd.
  - cbn. rewrite app_nil_r. reflexivity.
  - cbn [fold_left filter] in *.
    assert (Hstep : JsMap.keys (edges (addStreet haversineKm graph s))
                    = JsMap.keys (edges graph)
                      ++ (if validStreet s then [seg_id s] else [])).
    { unfold addStreet. destruct (validStreet s) eqn:Hv; cbn [negb edges].
      - rewrite keys_set.
        destruct (JsMap.has (seg_id s) (edges graph)) eqn:Hh; [|reflexivity].
        exfalso. cbn [map] in Hnd. apply has_keys in Hh.
        apply NoDup_remove_2 in Hnd. apply Hnd. apply in_or_app. left. assumption.
      - rewrite app_nil_r. reflexivity. }
    rewrite IH; rewrite Hstep.
    + destruct (validStreet s); cbn [map]; rewrite <- app_assoc; reflexivity.
    + destruct (validStreet s); cbn [map] in *; rewrite <- app_assoc; exact Hnd.
Qed.

Lemma keys_nodes_fold_incl (streets : list StreetSegment) (graph : StreetGraph)
    (k : string) :
  In k (JsMap.keys (nodes graph)) ->
  In k (JsMap.keys (nodes (fold_left (addStreet haversineKm) streets graph))).
Proof.
  revert graph. induction streets as [|s streets IH]; intros graph Hin; [assumption|].
  cbn [fold_left]. apply IH. rewrite keys_nodes_addStreet.
  destruct (validStreet s); [|assumption].
  apply addKey_In. right. apply addKey_In. right. assumption.
Qed.

Lemma keys_nodes_fold_ends (streets : list StreetSegment) (graph : StreetGraph)
    (street : StreetSegment) (endpoint : Endpoint) :
  In street streets -> validStreet street = true ->
  In (nodeIdForStreetEndpoint street endpoint)
    (JsMap.keys (nodes (fold_left (addStreet haversineKm) streets graph))).
Proof.
  revert graph. induction streets as [|s streets IH]; intros graph Hin Hv; [contradiction|].
  cbn [fold_left]. destruct Hin as [->|Hin]; [|apply IH; assumption].
  apply keys_nodes_fold_incl. rewrite keys_nodes_addStreet, Hv.
  destruct endpoint.
  - apply addKey_In. right. apply addKey_In. left. reflexivity.
  - apply addKey_In. left. reflexivity.
Qed.

End EdgeLookup.

(** X7: when the segments with at least two points have pairwise distinct
    ids, the edges of the graph built by [buildStreetGraph] are exactly these
    segments, in their order; each is found under its id with its two end
    nodes, its name, its path and the length of its polyline, and both end
    nodes are nodes of the graph. *)
Theorem buildStreetGraph_edge_lookup
    (haversineKm : LatLng -> LatLng -> Q) (streets : list StreetSegment) :
  NoDup (edgeStreetIds streets) ->
  JsMap.keys (edges (buildStreetGraph haversineKm streets)) = edgeStreetIds streets
  /\ forall street,
       In street streets -> validStreet street = true ->
       JsMap.get (seg_id street) (edges (buildStreetGraph haversineKm streets))
       = Some (mkGraphEdge (seg_id street) (seg_id street) (seg_name street)
                 (nodeIdForStreetEndpoint street EndpointStart)
                 (nodeIdForStreetEndpoint street EndpointEnd)
                 (seg_path street)
                 (polylineDistanceKm haversineKm (seg_path street)))
       /\ JsMap.has (nodeIdForStreetEndpoint street EndpointStart)
            (nodes (buildStreetGraph haversineKm streets)) = true
       /\ JsMap.has (nodeIdForStreetEndpoint street EndpointEnd)
            (nodes (buildStreetGraph haversineKm streets)) = true.
Proof.
  intros Hnd. unfold buildStreetGraph. split.
  - rewrite keys_edges_fold; [reflexivity|exact Hnd].
  - intros street Hin Hv. split; [|split].
    + apply (edges_fold_get haversineKm streets emptyGraph street Hnd Hin Hv).
    + apply has_keys. apply keys_nodes_fold_ends; assumption.
    + apply has_keys. apply keys_nodes_fold_ends; assumption.
Qed.

(** The theorem on the street [a - b - c] made of two segments. *)
Lemma buildStreetGraph_edge_lookup_witness :
  NoDup (edgeStreetIds [elmFirst; elmSecond])
  /\ JsMap.keys (edges (buildStreetGraph flatKm [elmFirst; elmSecond])) = ["s1"; "s2"]
  /\ JsMap.has "c" (nodes (buildStreetGraph flatKm [elmFirst; elmSecond])) = true.
Proof.
  assert (Hnd : NoDup (edgeStreetIds [elmFirst; elmSecond])).
  { repeat constructor; simpl; intuition discriminate. }
  split; [exact Hnd|].
  destruct (buildStreetGraph_edge_lookup flatKm [elmFirst; elmSecond] Hnd) as [Hkeys Hall].
  split; [exact Hkeys|].
  apply (Hall elmSecond); [right; left; reflexivity|reflexivity].
Defined.

(** X8: the steps that [orientPathEdges] returns carry the given edge ids in
    their order, the first starts at the start node, each next one starts
    where the one before it ended, and each runs along the edge stored under
    its id, from one of its ends to the other. *)
Theorem orientPathEdges_steps_chain (graph : StreetGraph) (startNodeId : string)
    (edgeIds : list string) (steps : list RouteTraversalStep) :
  orientPathEdges graph startNodeId edgeIds = Some steps ->
  map step_edgeId steps = edgeIds
  /\ stepsChain startNodeId steps = true
  /\ forallb (stepAlongEdge graph) steps = true.
Proof.
  unfold orientPathEdges. revert startNodeId steps.
  induction edgeIds as [|e edgeIds IH]; intros cursor steps E.
  - cbn in E. injection E as <-. auto.
  - cbn [orientFrom] in E.
    destruct (JsMap.get e (edges graph)) as [edge|] eqn:Eedge; [|discriminate].
    destruct (eqb (edge_from edge) cursor) eqn:Efrom.
    + destruct (orientFrom graph (edge_to edge) edgeIds) as [rest|] eqn:Erest;
        [|discriminate].
      cbn in E. injection E as <-.
      destruct (IH _ _ Erest) as [H1 [H2 H3]].
      cbn [map stepsChain forallb step_edgeId step_from step_to].
      rewrite H1, H2, H3, Efrom. unfold stepAlongEdge.
      cbn [step_edgeId step_from step_to]. rewrite Eedge, !eqb_refl. auto.
    + destruct (eqb (edge_to edge) cursor) eqn:Eto; [|discriminate].
      destruct (orientFrom graph (edge_from edge) edgeIds) as [rest|] eqn:Erest;
        [|discriminate].
      cbn in E. injection E as <-.
      destruct (IH _ _ Erest) as [H1 [H2 H3]].
      cbn [map stepsChain forallb step_edgeId step_from step_to].
      rewrite H1, H2, H3, Eto. unfold stepAlongEdge.
      cbn [step_edgeId step_from step_to]. rewrite Eedge, !eqb_refl.
      rewrite orb_true_r. auto.
Qed.

(** The theorem on the street [a - b - c], walked from [c] to [a]. *)
Lemma orientPathEdges_steps_chain_witness :
  exists steps,
    orientPathEdges (buildStreetGraph flatKm [elmFirst; elmSecond]) "c" ["s2"; "s1"]
    = Some steps
    /\ map step_to steps = ["b"; "a"]
    /\ stepsChain "c" steps = true.
Proof.
  destruct (orientPathEdges (buildStreetGraph flatKm [elmFirst; elmSecond]) "c" ["s2"; "s1"])
    as [steps|] eqn:E; [|vm_compute in E; discriminate].
  exists steps. split; [reflexivity|]. split.
  - vm_compute in E. injection E as <-. reflexivity.
  - apply (orientPathEdges_steps_chain _ _ _ _ E).
Defined.

(* ------------------------------------------------------------------ *)
(** ** Nearest node, candidate selection and distance to a path *)

Section Nearest.

Variable haversineKm : LatLng -> LatLng -> Q.
Variable target : LatLng.

Local Abbreviation nearer :=
  (fun (acc : option string * dnum) (node : GraphNode) =>
     let distance := haversineKm (node_point node) target in
     if dnum_ltb (Fin distance) (snd acc) then (Some (node_id node), Fin distance)
     else acc).

(** The best node so far is a nearest one of the nodes seen. *)
Definition nearestOf (seen : list GraphNode) (acc : option string * dnum) : Prop :=
  (seen = [] /\ acc = (None, PosInf))
  \/ exists node,
       In node seen
       /\ acc = (Some (node_id node), Fin (haversineKm (node_point node) target))
       /\ forall other, In other seen ->
            haversineKm (node_point node) target <= haversineKm (node_point other) target.

Lemma nearestOf_fold (rest seen : list GraphNode) (acc : option string * dnum) :
  nearestOf seen acc -> nearestOf (seen ++ rest) (fold_left nearer rest acc).
Proof.
  revert seen acc. induction rest as [|n rest IH]; intros seen acc Hacc.
  - rewrite app_nil_r. assumption.
  - cbn [fold_left].
    replace (seen ++ n :: rest) with ((seen ++ [n]) ++ rest)
      by (rewrite <- app_assoc; reflexivity).
    apply IH. destruct Hacc as [[-> ->]|[node [Hin [-> Hmin]]]].
    + right. exists n. cbn. split; [left; reflexivity|]. split; [reflexivity|].
      intros other [<-|[]]. lra.
    + right. cbn [snd dnum_ltb].
      destruct (Qltb (haversineKm (node_point n) target)
                  (haversineKm (node_point node) target)) eqn:E.
      * apply Qltb_true_iff in E. exists n.
        split; [apply in_or_app; right; left; reflexivity|]. split; [reflexivity|].
        intros other Ho. apply in_app_or in Ho. destruct Ho as [Ho|[<-|[]]]; [|lra].
        specialize (Hmin other Ho). lra.
      * apply Qltb_false_iff in E. exists node.
        split; [apply in_or_app; left; assumption|]. split; [reflexivity|].
        intros other Ho. apply in_app_or in Ho. destruct Ho as [Ho|[<-|[]]]; [auto|lra].
Qed.

End Nearest.

(** X9: [findNearestNodeId] returns [null] only for a graph without nodes;
    otherwise it returns the id of a node that no other node of the graph
    beats in distance to the target. *)
Theorem findNearestNodeId_is_nearest
    (haversineKm : LatLng -> LatLng -> Q) (ns : Map string GraphNode) (target : LatLng) :
  match findNearestNodeId haversineKm ns target with
  | None => ns = []
  | Some nodeId =>
      exists node,
        In node (JsMap.values ns) /\ node_id node = nodeId
        /\ forall other, In other (JsMap.values ns) ->
             haversineKm (node_point node) target
             <= haversineKm (node_point other) target
  end.
Proof.
  unfold findNearestNodeId.
  pose proof (nearestOf_fold haversineKm target (JsMap.values ns) [] (None, PosInf)
                (or_introl (conj eq_refl eq_refl))) as H.
  cbn [app] in H.
  destruct H as [[Hnil ->]|[node [Hin [-> Hmin]]]]; cbn [fst].
  - unfold JsMap.values in Hnil. destruct ns; [reflexivity|discriminate].
  - exists node. auto.
Qed.

(* ------------------------------------------------------------------ *)

Section Candidates.

Variable haversineKm : LatLng -> LatLng -> Q.
Variable home : LatLng.

Local Abbreviation byEntry :=
  (fun a b : StreetSegment * Q => snd a <= snd b).

Local Abbreviation withEntry :=
  (fun street : StreetSegment =>
     (street, Qmin (haversineKm home (firstPoint (seg_path street)))
                   (haversineKm home (lastPoint (seg_path street))))).

Lemma insertByEntry_Permutation x l : Permutation (insertByEntry x l) (x :: l).
Proof.
  induction l as [|y l IH]; cbn [insertByEntry]; [apply Permutation_refl|].
  destruct (Qltb (snd x) (snd y)); [apply Permutation_refl|].
  eapply Permutation_trans; [apply perm_skip; exact IH|apply perm_swap].
Qed.

Lemma insertByEntry_sorted x l :
  StronglySorted byEntry l -> StronglySorted byEntry (insertByEntry x l).
Proof.
  induction 1 as [|y l Hs IH Hall]; cbn [insertByEntry]; [repeat constructor|].
  destruct (Qltb (snd x) (snd y)) eqn:E.
  - apply Qltb_true_iff in E. constructor; [constructor; assumption|].
    constructor; [lra|]. apply Forall_forall. intros z Hz.
    rewrite Forall_forall in Hall. specialize (Hall z Hz). cbn in Hall. lra.
  - apply Qltb_false_iff in E. constructor; [assumption|].
    apply Forall_forall. intros z Hz.
    apply (Permutation_in _ (insertByEntry_Permutation x l)) in Hz.
    destruct Hz as [<-|Hz]; [assumption|].
    rewrite Forall_forall in Hall. apply Hall. assumption.
Qed.

Lemma sortByEntry_from (l acc : list (StreetSegment * Q)) :
  StronglySorted byEntry acc ->
  StronglySorted byEntry (fold_left (fun sorted x => insertByEntry x sorted) l acc)
  /\ Permutation (fold_left (fun sorted x => insertByEntry x sorted) l acc) (l ++ acc).
Proof.
  revert acc. induction l as [|x l IH]; intros acc Hacc.
  - split; [assumption|apply Permutation_refl].
  - cbn [fold_left]. destruct (IH _ (insertByEntry_sorted x acc Hacc)) as [Hs Hp].
    split; [assumption|].
    eapply Permutation_trans; [exact Hp|].
    eapply Permutation_trans;
      [apply Permutation_app_head; apply insertByEntry_Permutation|].
    cbn [app]. apply Permutation_sym, Permutation_middle.
Qed.

Lemma sortByEntry_sorted l :
  StronglySorted byEntry (sortByEntry l) /\ Permutation (sortByEntry l) l.
Proof.
  destruct (sortByEntry_from l [] (SSorted_nil _)) as [Hs Hp].
  rewrite app_nil_r in Hp. split; assumption.
Qed.

(** In a sorted list the entries up to a bound are a prefix. *)
Lemma filter_sorted_prefix (radius : Q) (l : list (StreetSegment * Q)) :
  StronglySorted byEntry l ->
  exists j, filter (fun entry => Qleb (snd entry) radius) l = firstn j l.
Proof.
  induction 1 as [|x l Hs [j IH] Hall].
  - exists O. reflexivity.
  - cbn [filter]. destruct (Qleb (snd x) radius) eqn:E.
    + exists (S j). cbn [firstn]. rewrite IH. reflexivity.
    + exists O. cbn [firstn]. apply Qleb_false_iff in E.
      clear IH. induction l as [|y l IHl]; [reflexivity|].
      cbn [filter]. inversion Hall as [|? ? Hy Hall']; subst. cbn in Hy.
      assert (Ey : Qleb (snd y) radius = false) by (apply Qleb_false_iff; lra).
      rewrite Ey. apply IHl; [inversion Hs; assumption|assumption].
Qed.

(** The entries, sorted, that [selectCandidateStreets] picks from. *)
Definition scoredOf (streets : list StreetSegment) : list (StreetSegment * Q) :=
  sortByEntry (map withEntry (filter validStreet streets)).

Lemma selectCandidateStreets_prefix (streets : list StreetSegment) (targetKm : Q) :
  exists k,
    selectCandidateStreets haversineKm streets home targetKm
    = map fst (firstn k (scoredOf streets))
    /\ (scoredOf streets <> [] -> (0 < k)%nat).
Proof.
  unfold selectCandidateStreets. cbv zeta.
  change (sortByEntry _) with (scoredOf streets).
  destruct (scoredOf streets) as [|x scored] eqn:Escored.
  - exists O. split; [reflexivity|]. intros H. contradiction.
  - destruct (sortByEntry_sorted (map withEntry (filter validStreet streets))) as [Hsorted _].
    fold (scoredOf streets) in Hsorted. rewrite Escored in Hsorted.
    destruct (filter_sorted_prefix
                (Qmax 2.2 (Qmin 32 (Qmax 0.8 targetKm * 1.45 + 1.3)))
                (x :: scored) Hsorted) as [j Hj].
    rewrite Hj, firstn_firstn.
    match goal with
    | |- context [(?bound <=? Z.of_nat (length ?l))%Z] =>
        destruct (bound <=? Z.of_nat (length l))%Z eqn:Eenough
    end.
    + eexists. split; [reflexivity|]. intros _.
      apply Z.leb_le in Eenough.
      match type of Eenough with
      | (_ <= Z.of_nat (length (map fst (firstn ?n _))))%Z =>
          destruct n eqn:En; [cbn in Eenough; lia|lia]
      end.
    + eexists. split; [reflexivity|]. intros _. cbn [length]. lia.
Qed.

Lemma scoredOf_entries (streets : list StreetSegment) (entry : StreetSegment * Q) :
  In entry (scoredOf streets) <->
  In (fst entry) streets /\ validStreet (fst entry) = true
  /\ snd entry = entryKm haversineKm home (fst entry).
Proof.
  unfold scoredOf.
  destruct (sortByEntry_sorted (map withEntry (filter validStreet streets))) as [_ Hperm].
  split.
  - intros Hin. apply (Permutation_in _ Hperm) in Hin.
    apply in_map_iff in Hin. destruct Hin as [s [<- Hs]]. apply filter_In in Hs.
    cbn [fst snd]. unfold entryKm. tauto.
  - intros [Hin [Hv Hsnd]]. apply (Permutation_in _ (Permutation_sym Hperm)).
    apply in_map_iff. exists (fst entry). split; [|apply filter_In; auto].
    destruct entry as [s q]. cbn [fst snd] in *. unfold entryKm in Hsnd. congruence.
Qed.

End Candidates.

(** X10: [selectCandidateStreets] returns segments of its input that have at
    least two points, ordered by the distance from home to their nearer end,
    and never leaves out a segment that is nearer than one it returns; it
    returns none only when no segment of the input has two points. *)
Theorem selectCandidateStreets_nearest_first
    (haversineKm : LatLng -> LatLng -> Q) (streets : list StreetSegment)
    (home : LatLng) (targetKm : Q) :
  (forall street,
     In street (selectCandidateStreets haversineKm streets home targetKm) ->
     In street streets /\ validStreet street = true)
  /\ StronglySorted
       (fun a b => entryKm haversineKm home a <= entryKm haversineKm home b)
       (selectCandidateStreets haversineKm streets home targetKm)
  /\ (forall chosen nearer,
        In chosen (selectCandidateStreets haversineKm streets home targetKm) ->
        In nearer streets -> validStreet nearer = true ->
        entryKm haversineKm home nearer < entryKm haversineKm home chosen ->
        In nearer (selectCandidateStreets haversineKm streets home targetKm))
  /\ (selectCandidateStreets haversineKm streets home targetKm = []
      <-> forall street, In street streets -> validStreet street = false).
Proof.
  destruct (selectCandidateStreets_prefix haversineKm home streets targetKm)
    as [k [-> Hpos]].
  set (scored := scoredOf haversineKm home streets) in *.
  assert (Hsorted : StronglySorted (fun a b : StreetSegment * Q => snd a <= snd b) scored).
  { apply sortByEntry_sorted. }
  assert (Hentries := scoredOf_entries haversineKm home streets). fold scored in Hentries.
  assert (Hsplit : scored = firstn k scored ++ skipn k scored)
    by (symmetry; apply firstn_skipn).
  assert (Hpre : forall entry, In entry (firstn k scored) -> In entry scored).
  { intros entry Hin. rewrite Hsplit. apply in_or_app. left. assumption. }
  split; [|split; [|split]].
  - intros street Hin. apply in_map_iff in Hin. destruct Hin as [entry [<- Hin]].
    apply Hpre, Hentries in Hin. tauto.
  - rewrite Hsplit in Hsorted.
    assert (Hs : StronglySorted (fun a b : StreetSegment * Q => snd a <= snd b)
                   (firstn k scored)).
    { clear - Hsorted. induction (firstn k scored) as [|x l IH]; [constructor|].
      cbn [app] in Hsorted. inversion Hsorted as [|? ? Hs Hall]; subst.
      constructor; [apply IH; assumption|].
      apply Forall_forall. intros z Hz. rewrite Forall_forall in Hall.
      apply Hall. apply in_or_app. left. assumption. }
    clear Hsorted Hsplit. induction Hs as [|x l Hs IH Hall]; [constructor|].
    cbn [map]. constructor.
    + apply IH. intros entry Hin. apply Hpre. right. assumption.
    + apply Forall_forall. intros s Hs'. apply in_map_iff in Hs'.
      destruct Hs' as [entry [<- Hin]]. rewrite Forall_forall in Hall.
      specialize (Hall entry Hin). cbn in Hall.
      rewrite <- (proj2 (proj2 (proj1 (Hentries x) (Hpre x (or_introl eq_refl))))).
      rewrite <- (proj2 (proj2 (proj1 (Hentries entry) (Hpre entry (or_intror Hin))))).
      assumption.
  - intros chosen nearer Hchosen Hin Hv Hlt.
    apply in_map_iff in Hchosen. destruct Hchosen as [entry [<- Hentry]].
    assert (Hnear : In (nearer, entryKm haversineKm home nearer) scored).
    { apply Hentries. cbn [fst snd]. auto. }
    rewrite Hsplit in Hnear. apply in_app_or in Hnear. destruct Hnear as [Hnear|Hnear].
    + apply in_map_iff. exists (nearer, entryKm haversineKm home nearer). auto.
    + exfalso. rewrite Hsplit in Hsorted.
      assert (Hle : snd entry <= entryKm haversineKm home nearer).
      { clear - Hsorted Hentry Hnear.
        induction (firstn k scored) as [|x l IH]; [contradiction|].
        cbn [app] in Hsorted. inversion Hsorted as [|? ? Hs Hall]; subst.
        destruct Hentry as [->|Hentry]; [|apply IH; assumption].
        rewrite Forall_forall in Hall.
        apply (Hall (nearer, entryKm haversineKm home nearer)).
        apply in_or_app. right. assumption. }
      rewrite (proj2 (proj2 (proj1 (Hentries entry) (Hpre entry Hentry)))) in Hle. lra.
  - split.
    + intros Hnil street Hin.
      destruct (validStreet street) eqn:Hv; [|reflexivity]. exfalso.
      assert (Hs : In (street, entryKm haversineKm home street) scored).
      { apply Hentries. cbn [fst snd]. auto. }
      assert (Hne : scored <> []) by (intros E; rewrite E in Hs; contradiction).
      specialize (Hpos Hne).
      destruct scored as [|x scored']; [contradiction|].
      destruct k as [|k]; [lia|]. cbn in Hnil. discriminate.
    + intros Hall. destruct scored as [|x scored'] eqn:E.
      * destruct k; reflexivity.
      * exfalso. assert (Hx : In x (x :: scored')) by (left; reflexivity).
        apply Hentries in Hx. destruct Hx as [Hin [Hv _]].
        rewrite (Hall _ Hin) in Hv. discriminate.
Qed.

(* ------------------------------------------------------------------ *)

Section PathDistance.

Variable distancePointToSegmentMeters : LatLng -> LatLng -> LatLng -> Q.
Variable point : LatLng.

Local Abbreviation toSegment :=
  (fun seg : LatLng * LatLng => distancePointToSegmentMeters point (fst seg) (snd seg)).

(** The least distance so far, against the segments seen. *)
Definition leastOf (seen : list (LatLng * LatLng)) (acc : dnum) : Prop :=
  match acc with
  | PosInf => seen = []
  | Fin d => In d (map toSegment seen) /\ forall seg, In seg seen -> d <= toSegment seg
  end.

Lemma minSegmentDistance_least (path : list LatLng) (seen : list (LatLng * LatLng))
    (acc : dnum) :
  leastOf seen acc ->
  leastOf (seen ++ segmentsOf path)
    (minSegmentDistance distancePointToSegmentMeters point path acc).
Proof.
  revert seen acc. induction path as [|a path IH]; intros seen acc Hacc.
  - cbn. rewrite app_nil_r. assumption.
  - destruct path as [|b path].
    + cbn. rewrite app_nil_r. assumption.
    + change (segmentsOf (a :: b :: path)) with ((a, b) :: segmentsOf (b :: path)).
      replace (seen ++ (a, b) :: segmentsOf (b :: path))
        with ((seen ++ [(a, b)]) ++ segmentsOf (b :: path))
        by (rewrite <- app_assoc; reflexivity).
      cbn [minSegmentDistance]. apply IH.
      destruct acc as [d|]; cbn [dnum_ltb leastOf] in *.
      * destruct Hacc as [Hin Hmin].
        destruct (Qltb (distancePointToSegmentMeters point a b) d) eqn:E.
        -- apply Qltb_true_iff in E. split.
           ++ rewrite map_app. apply in_or_app. right. left. reflexivity.
           ++ intros seg Hseg. apply in_app_or in Hseg.
              destruct Hseg as [Hseg|[<-|[]]]; [|cbn; lra].
              specialize (Hmin seg Hseg). lra.
        -- apply Qltb_false_iff in E. split.
           ++ rewrite map_app. apply in_or_app. left. assumption.
           ++ intros seg Hseg. apply in_app_or in Hseg.
              destruct Hseg as [Hseg|[<-|[]]]; [auto|cbn; lra].
      * subst seen. cbn. split; [left; reflexivity|].
        intros seg [<-|[]]. cbn. lra.
Qed.

Lemma segmentsOf_length (path : list LatLng) :
  length (segmentsOf path) = (length path - 1)%nat.
Proof.
  unfold segmentsOf. rewrite length_combine.
  destruct path as [|a path]; cbn [tl length]; lia.
Qed.

Lemma distancePointToPathMeters_least (path : list LatLng) :
  leastOf (segmentsOf path)
    (distancePointToPathMeters distancePointToSegmentMeters point path).
Proof.
  unfold distancePointToPathMeters.
  destruct (length path <? 2)%nat eqn:E.
  - apply Nat.ltb_lt in E. cbn [leastOf].
    pose proof (segmentsOf_length path) as Hl.
    destruct (segmentsOf path); [reflexivity|cbn [length] in Hl; lia].
  - apply (minSegmentDistance_least path [] PosInf). reflexivity.
Qed.

End PathDistance.

(** X11: [distancePointToPathMeters] returns infinity exactly for a path of
    fewer than two points; otherwise it returns the distance from the point to
    one of the segments of the path, and no segment of the path is nearer. *)
Theorem distancePointToPathMeters_is_least
    (distancePointToSegmentMeters : LatLng -> LatLng -> LatLng -> Q)
    (point : LatLng) (path : list LatLng) :
  match distancePointToPathMeters distancePointToSegmentMeters point path with
  | PosInf => (length path < 2)%nat
  | Fin d =>
      (2 <= length path)%nat
      /\ (exists seg, In seg (segmentsOf path)
                      /\ d = distancePointToSegmentMeters point (fst seg) (snd seg))
      /\ forall seg, In seg (segmentsOf path) ->
           d <= distancePointToSegmentMeters point (fst seg) (snd seg)
  end.
Proof.
  pose proof (distancePointToPathMeters_least distancePointToSegmentMeters point path) as H.
  pose proof (segmentsOf_length path) as Hl.
  destruct (distancePointToPathMeters distancePointToSegmentMeters point path) as [d|];
    cbn [leastOf] in H.
  - destruct H as [Hin Hmin]. apply in_map_iff in Hin. destruct Hin as [seg [Hd Hseg]].
    split; [|split; [exists seg; auto|assumption]].
    destruct (segmentsOf path); [contradiction|cbn [length] in Hl; lia].
  - rewrite H in Hl. cbn [length] in Hl. lia.
Qed.

(** X12: [coveredNodeIdsForPath] lists the id of a node exactly when some
    segment of the route lies within 6.096 m of the node; a route of fewer
    than two points covers no node. *)
Theorem coveredNodeIdsForPath_within_radius
    (distancePointToSegmentMeters : LatLng -> LatLng -> LatLng -> Q)
    (points : list LatLng) (ns : list RouteNode) (nodeId : string) :
  In nodeId (coveredNodeIdsForPath distancePointToSegmentMeters points ns)
  <-> exists node seg,
        In node ns /\ rn_id node = nodeId /\ In seg (segmentsOf points)
        /\ distancePointToSegmentMeters (rn_point node) (fst seg) (snd seg)
           <= NODE_CAPTURE_RADIUS_METERS.
Proof.
  unfold coveredNodeIdsForPath. rewrite in_map_iff. split.
  - intros [node [Hid Hin]]. apply filter_In in Hin. destruct Hin as [Hin Hle].
    pose proof (distancePointToPathMeters_least distancePointToSegmentMeters
                  (rn_point node) points) as H.
    destruct (distancePointToPathMeters _ _ _) as [d|]; [|discriminate].
    cbn in Hle. apply Qleb_true_iff in Hle. destruct H as [Hd _].
    apply in_map_iff in Hd. destruct Hd as [seg [Hd Hseg]].
    exists node, seg. split; [assumption|]. split; [assumption|].
    split; [assumption|]. rewrite Hd. assumption.
  - intros [node [seg [Hin [Hid [Hseg Hle]]]]].
    exists node. split; [assumption|]. apply filter_In. split; [assumption|].
    pose proof (distancePointToPathMeters_least distancePointToSegmentMeters
                  (rn_point node) points) as H.
    destruct (distancePointToPathMeters _ _ _) as [d|]; cbn [leastOf] in H.
    + destruct H as [_ Hmin]. specialize (Hmin seg Hseg). cbn.
      apply Qleb_true_iff. lra.
    + rewrite H in Hseg. contradiction.
Qed.

(* ------------------------------------------------------------------ *)
(** ** The planner: it returns, and what its route lists *)

Section PlannerReturns.

Variable haversineKm : LatLng -> LatLng -> Q.
Variable graph : StreetGraph.
Variable completedByStreetId : Map string bool.
Variable targetKmN hardMaxKm : Q.
Hypothesis edges_nonneg :
  forall e edge, JsMap.get e (edges graph) = Some edge -> 0 <= edge_distanceKm edge.

(** Every result in the cache is what [runDijkstra] returns for its key. *)
Definition cacheOk (cache : Map string DijkstraResult) : Prop :=
  forall k r, JsMap.get k cache = Some r -> runDijkstra graph k = Some r.

Lemma cache_applyTraversalStep step st st' nextNodeId km :
  applyTraversalStep haversineKm graph completedByStreetId step st
  = Some (st', nextNodeId, km) ->
  dijkstraCache (advance st' nextNodeId km) = dijkstraCache st.
Proof.
  unfold applyTraversalStep.
  destruct (appendRouteStep _ _ _ _) as [[pts edge]|]; [|discriminate].
  intros E. injection E as <- _ _. reflexivity.
Qed.

Lemma cache_applySpurSteps steps st :
  dijkstraCache (fst (applySpurSteps haversineKm graph completedByStreetId steps st))
  = dijkstraCache st.
Proof.
  revert st. induction steps as [|s steps IH]; intros st; [reflexivity|].
  cbn [applySpurSteps].
  destruct (applyTraversalStep _ _ _ s st) as [[[st' nx] km]|] eqn:E; [|reflexivity].
  rewrite IH. apply (cache_applyTraversalStep _ _ _ _ _ E).
Qed.

Lemma cache_runDeadEndSpurSweeps n st :
  dijkstraCache
    (runDeadEndSpurSweeps haversineKm graph completedByStreetId targetKmN hardMaxKm n st)
  = dijkstraCache st.
Proof.
  revert st. induction n as [|n IH]; intros st; [reflexivity|].
  cbn [runDeadEndSpurSweeps].
  destruct (negb _); [reflexivity|].
  destruct (findBestDeadEndSpurAtNode _ _ _ _ _ _ _) as [spur|]; [|reflexivity].
  destruct (Qltb _ _ && _); [reflexivity|].
  pose proof (cache_applySpurSteps (spur_steps spur) st) as Hs.
  destruct (applySpurSteps _ _ _ _ st) as [st1 failed]. cbn [fst] in Hs.
  destruct (_ || _); [assumption|].
  destruct (_ || _); [assumption|].
  rewrite IH. assumption.
Qed.

Lemma cache_runImmediateBranchSweep n st :
  dijkstraCache
    (runImmediateBranchSweep haversineKm graph completedByStreetId targetKmN hardMaxKm n st)
  = dijkstraCache st.
Proof.
  revert st. induction n as [|n IH]; intros st; [reflexivity|].
  cbn -[runDeadEndSpurSweeps].
  destruct (negb _); [reflexivity|].
  destruct (findBestImmediateBranchStep _ _ _ _ _ _ _) as [branchStep|]; [|reflexivity].
  destruct (applyTraversalStep _ _ _ branchStep st) as [[[st' nx] km]|] eqn:E; [|reflexivity].
  pose proof (cache_applyTraversalStep _ _ _ _ _ E) as H1.
  destruct (_ || _).
  - rewrite cache_runDeadEndSpurSweeps. assumption.
  - rewrite IH, cache_runDeadEndSpurSweeps. assumption.
Qed.

Lemma cache_walkConnector steps st :
  dijkstraCache
    (fst (walkConnector haversineKm graph completedByStreetId targetKmN hardMaxKm steps st))
  = dijkstraCache st.
Proof.
  revert st. induction steps as [|s steps IH]; intros st; [reflexivity|].
  cbn -[runDeadEndSpurSweeps runImmediateBranchSweep].
  destruct (JsMap.get (step_edgeId s) (edges graph)) as [edge|]; [|reflexivity].
  destruct (Qltb _ _ && _); [reflexivity|].
  destruct (applyTraversalStep _ _ _ s st) as [[[st' nx] km]|] eqn:E; [|reflexivity].
  pose proof (cache_applyTraversalStep _ _ _ _ _ E) as H1.
  destruct (_ || _).
  - cbn [fst]. rewrite cache_runImmediateBranchSweep, cache_runDeadEndSpurSweeps.
    assumption.
  - rewrite IH, cache_runImmediateBranchSweep, cache_runDeadEndSpurSweeps. assumption.
Qed.

Lemma getDijkstraCached_returns (cache : Map string DijkstraResult) (k : string) :
  cacheOk cache ->
  exists result cache',
    getDijkstraCached cache graph k = Some (result, cache')
    /\ runDijkstra graph k = Some result
    /\ cacheOk cache'.
Proof.
  intros Hok. unfold getDijkstraCached.
  destruct (JsMap.get k cache) as [cached|] eqn:E.
  - exists cached, cache. auto.
  - destruct (dijkstraLoop_returns graph k edges_nonneg) as [result [done [Erun _]]].
    rewrite Erun. exists result, (JsMap.set k result cache).
    split; [reflexivity|]. split; [reflexivity|].
    intros k' r. rewrite get_set. destruct (eq_dec k' k) as [->|].
    + intros H. injection H as <-. assumption.
    + apply Hok.
Qed.

Lemma reconstructPathEdges_returns (k t : string) (result : DijkstraResult) (d : Q) :
  runDijkstra graph k = Some result ->
  getDist (dist result) t = Fin d ->
  exists edgeIds, reconstructPathEdges result k t = Some edgeIds.
Proof.
  intros Erun Hd.
  destruct (runDijkstra_paths graph k edges_nonneg) as [result' [Erun' Hpaths]].
  rewrite Erun in Erun'. injection Erun' as <-.
  unfold getDist in Hd.
  destruct (JsMap.get t (dist result)) as [x|] eqn:E; [|discriminate]. subst x.
  destruct (Hpaths t d E) as [edgeIds [Erec _]]. exists edgeIds. assumption.
Qed.

Lemma coverageCandidate_returns current currentDistanceKm fromCurrent pending st edge :
  runDijkstra graph current = Some fromCurrent ->
  exists candidate,
    coverageCandidate graph current targetKmN currentDistanceKm hardMaxKm fromCurrent
      pending completedByStreetId st edge = Some candidate.
Proof.
  intros Erun. unfold coverageCandidate.
  destruct (isCompleted _ _); [eauto|].
  destruct (JsSet.has _ _); [eauto|]. cbv zeta.
  destruct (negb _ && negb _); [eauto|].
  destruct (dnum_leb _ _) eqn:Eleb.
  - destruct (getDist (dist fromCurrent) (edge_from edge)) as [c|] eqn:Ec; [|eauto].
    destruct (Qltb _ _ && _); [eauto|].
    destruct (reconstructPathEdges_returns current (edge_from edge) fromCurrent c Erun Ec)
      as [ids Eids].
    rewrite Eids. destruct (orientPathEdges _ _ _); eauto.
  - destruct (getDist (dist fromCurrent) (edge_to edge)) as [c|] eqn:Ec; [|eauto].
    destruct (Qltb _ _ && _); [eauto|].
    destruct (reconstructPathEdges_returns current (edge_to edge) fromCurrent c Erun Ec)
      as [ids Eids].
    rewrite Eids. destruct (orientPathEdges _ _ _); eauto.
Qed.

Lemma bestCoverageOver_returns candidateOf es best :
  (forall edge, exists candidate, candidateOf edge = Some candidate) ->
  exists result, bestCoverageOver candidateOf es best = Some result.
Proof.
  intros Hall. revert best. induction es as [|edge es IH]; intros best; [cbn; eauto|].
  cbn [bestCoverageOver]. destruct (Hall edge) as [[candidate|] ->]; apply IH.
Qed.

Lemma findBestCoverageMove_returns st :
  cacheOk (dijkstraCache st) ->
  exists best cache',
    findBestCoverageMove graph (currentNodeId st) targetKmN (distanceKm st) hardMaxKm
      completedByStreetId st = Some (best, cache')
    /\ cacheOk cache'.
Proof.
  intros Hok. unfold findBestCoverageMove.
  destruct (getDijkstraCached_returns (dijkstraCache st) (currentNodeId st) Hok)
    as [result [cache' [-> [Erun Hok']]]].
  cbv zeta.
  match goal with
  | |- context [bestCoverageOver ?f ?es ?b] =>
      destruct (bestCoverageOver_returns f es b) as [best ->]
  end.
  - intros edge. apply coverageCandidate_returns. assumption.
  - exists best, cache'. auto.
Qed.

Lemma coverageTurn_returns st :
  cacheOk (dijkstraCache st) ->
  exists st' again,
    coverageTurn haversineKm graph completedByStreetId targetKmN hardMaxKm st
    = Some (st', again)
    /\ cacheOk (dijkstraCache st').
Proof.
  intros Hok. unfold coverageTurn.
  destruct (findBestCoverageMove_returns st Hok) as [best [cache' [-> Hok']]].
  destruct best as [move|].
  - cbv zeta.
    pose proof (cache_walkConnector (connectorSteps move) (withCache st cache')) as Hw.
    destruct (walkConnector _ _ _ _ _ _ (withCache st cache')) as [st1 aborted].
    cbn [fst] in Hw. cbn [withCache dijkstraCache] in Hw.
    assert (H1 : cacheOk (dijkstraCache st1)) by (rewrite Hw; assumption).
    destruct aborted; [eauto|].
    destruct (JsMap.get _ (edges graph)) as [targetEdge|]; [|eauto].
    destruct (Qltb _ _ && _); [eauto|].
    destruct (applyTraversalStep _ _ _ (targetStep move) st1) as [[[st' nx] km]|] eqn:E;
      [|eauto].
    pose proof (cache_applyTraversalStep _ _ _ _ _ E) as H2.
    assert (H3 : cacheOk
              (dijkstraCache
                 (runImmediateBranchSweep haversineKm graph completedByStreetId targetKmN
                    hardMaxKm 2
                    (runDeadEndSpurSweeps haversineKm graph completedByStreetId targetKmN
                       hardMaxKm 3 (advance st' nx km))))).
    { rewrite cache_runImmediateBranchSweep, cache_runDeadEndSpurSweeps, H2. assumption. }
    cbv zeta. destruct (Qleb _ _ && _); eauto.
  - cbv zeta.
    assert (H1 : cacheOk (dijkstraCache (withCache st cache'))) by assumption.
    destruct (Qleb _ _ && _); [eauto|].
    destruct (findBestLocalExtension _ _ _ _ _ _ _) as [localStep|]; [|eauto].
    destruct (applyTraversalStep _ _ _ localStep (withCache st cache'))
      as [[[st' nx] km]|] eqn:E; [|eauto].
    pose proof (cache_applyTraversalStep _ _ _ _ _ E) as H2.
    eexists _, _. split; [reflexivity|]. rewrite H2. assumption.
Qed.

Lemma mainLoop_returns n st :
  cacheOk (dijkstraCache st) ->
  exists st',
    mainLoop haversineKm graph completedByStreetId targetKmN hardMaxKm n st = Some st'.
Proof.
  revert st. induction n as [|n IH]; intros st Hok; [cbn; eauto|].
  cbn -[runDeadEndSpurSweeps runImmediateBranchSweep coverageTurn].
  destruct (negb _); [eauto|].
  destruct (Qleb _ _); [eauto|].
  match goal with
  | |- context [coverageTurn _ _ _ _ _ ?s] =>
      destruct (coverageTurn_returns s) as [st3 [again [-> Hok3]]]
  end.
  - rewrite cache_runImmediateBranchSweep, cache_runDeadEndSpurSweeps. assumption.
  - destruct again; [apply IH; assumption|eauto].
Qed.

End PlannerReturns.

(** X13: with a distance function that is never negative,
    [buildEfficientCoverageRoute] returns on every input, with a route or with
    [null]: its shortest-path searches end and its main loop stops within the
    iterations it allows itself. *)
Theorem buildEfficientCoverageRoute_returns
    (haversineKm : LatLng -> LatLng -> Q)
    (distancePointToSegmentMeters : LatLng -> LatLng -> LatLng -> Q)
    (isPointInCityBounds : LatLng -> CityBounds -> bool)
    (uuid : string) (streets : list StreetSegment) (home : LatLng) (targetKm : Q)
    (cityBounds : option CityBounds) :
  (forall a b, 0 <= haversineKm a b) ->
  exists outcome,
    buildEfficientCoverageRoute haversineKm distancePointToSegmentMeters
      isPointInCityBounds uuid streets home targetKm cityBounds = Some outcome.
Proof.
  intros Hnn. unfold buildEfficientCoverageRoute. cbv zeta.
  destruct (plannerCandidates _ _ _ _ _ _) as [|c candidates]; [eauto|].
  destruct (_ || _); [eauto|].
  destruct (findNearestNodeId _ _ _) as [startNodeId|]; [|eauto].
  destruct (negb (truthy startNodeId)); [eauto|].
  destruct (_ =? 0)%nat; [eauto|].
  match goal with
  | |- context [mainLoop ?h ?g ?c ?t ?m ?i ?s] =>
      assert (Hedges : forall e edge, JsMap.get e (edges g) = Some edge ->
                                      0 <= edge_distanceKm edge)
        by (intros e edge; apply buildStreetGraph_edges_nonneg; assumption);
      assert (Hcache : cacheOk g (dijkstraCache s)) by (intros k r H; discriminate);
      destruct (mainLoop_returns h g c t m Hedges i s Hcache) as [st ->]
  end.
  eauto.
Qed.

(** The theorem on the run over [shortRoad]. *)
Lemma buildEfficientCoverageRoute_returns_witness :
  (forall a b, 0 <= flatKm a b)
  /\ exists outcome,
       buildEfficientCoverageRoute flatKm flatSegmentMeters boxContains
         "run-1" [shortRoad] homeAtOrigin 0.8 None = Some outcome.
Proof.
  split; [exact flatKm_nonneg|].
  exact (buildEfficientCoverageRoute_returns flatKm flatSegmentMeters boxContains
           "run-1" [shortRoad] homeAtOrigin 0.8 None flatKm_nonneg).
Defined.

(* ------------------------------------------------------------------ *)

Lemma set_add_NoDup {K} `{EqDec K} (k : K) (s : list K) :
  NoDup s -> NoDup (JsSet.add k s).
Proof.
  intros Hnd. unfold JsSet.add. destruct (JsSet.has k s) eqn:E; [assumption|].
  apply NoDup_app; [assumption|repeat constructor; simpl; tauto|].
  intros x Hx [<-|[]]. apply set_has_true_iff in Hx. congruence.
Qed.

Section RouteStreets.

Variable haversineKm : LatLng -> LatLng -> Q.
Variable isPointInCityBounds : LatLng -> CityBounds -> bool.

(** The street ids and names collected so far are without repetition and
    belong to edges of the graph. *)
Definition listsEdges (graph : StreetGraph) (st : PlannerState) : Prop :=
  NoDup (coveredStreetIds st)
  /\ NoDup (coveredStreetNames st)
  /\ (forall streetId, In streetId (coveredStreetIds st) ->
        exists k edge, JsMap.get k (edges graph) = Some edge
                       /\ edge_streetId edge = streetId)
  /\ (forall name, In name (coveredStreetNames st) ->
        exists k edge, JsMap.get k (edges graph) = Some edge
                       /\ edge_streetName edge = name).

Lemma listsEdges_step graph completedByStreetId st st' :
  listsEdges graph st ->
  plannerStep haversineKm graph completedByStreetId st st' ->
  listsEdges graph st'.
Proof.
  intros [Hn1 [Hn2 [Hids Hnames]]] Hstep.
  destruct Hstep as [st step st1 nx km E|st cache].
  - unfold applyTraversalStep, appendRouteStep in E.
    destruct (JsMap.get (step_edgeId step) (edges graph)) as [edge|] eqn:Eedge;
      [|discriminate].
    cbv zeta in E. destruct (_ <? 2)%nat; [discriminate|].
    injection E as <- _ _.
    unfold listsEdges.
    cbn [advance coveredStreetIds coveredStreetNames].
    split; [apply set_add_NoDup; assumption|].
    split; [apply set_add_NoDup; assumption|]. split.
    + intros streetId Hin. apply set_add_In in Hin. destruct Hin as [->|Hin]; eauto.
    + intros name Hin. apply set_add_In in Hin. destruct Hin as [->|Hin]; eauto.
  - unfold listsEdges. cbn [withCache coveredStreetIds coveredStreetNames]. auto.
Qed.

Lemma plannerCandidates_origin streets home targetKm cityBounds street :
  In street (plannerCandidates haversineKm isPointInCityBounds streets home targetKm
               cityBounds) ->
  In street streets /\ validStreet street = true
  /\ match cityBounds with
     | Some bounds => isStreetInsideCityBounds isPointInCityBounds street bounds = true
     | None => True
     end.
Proof.
  unfold plannerCandidates. cbv zeta. intros Hin.
  match type of Hin with
  | In _ (selectCandidateStreets _ ?inCity _ ?t) =>
      destruct (selectCandidateStreets_prefix haversineKm home inCity t) as [k [Ek _]];
      rewrite Ek in Hin;
      assert (Hcity : In street inCity /\ validStreet street = true)
  end.
  { apply in_map_iff in Hin. destruct Hin as [entry [<- Hentry]].
    assert (Hscored : In entry (scoredOf haversineKm home
              match cityBounds with
              | Some bounds => filterStreetsToCityBounds isPointInCityBounds streets bounds
              | None => streets
              end)).
    { rewrite <- (firstn_skipn k). apply in_or_app. left. assumption. }
    apply scoredOf_entries in Hscored. tauto. }
  destruct Hcity as [Hcity Hv]. destruct cityBounds as [bounds|].
  - unfold filterStreetsToCityBounds in Hcity. apply filter_In in Hcity. tauto.
  - tauto.
Qed.

End RouteStreets.

(** X14: the [streetIds] and the [streetNames] of a route returned by
    [buildEfficientCoverageRoute] hold no value twice; every id is the id, and
    every name the name, of a segment of the input that has at least two
    points and, when city bounds are given, passes [isStreetInsideCityBounds]. *)
Theorem route_lists_input_streets
    (haversineKm : LatLng -> LatLng -> Q)
    (distancePointToSegmentMeters : LatLng -> LatLng -> LatLng -> Q)
    (isPointInCityBounds : LatLng -> CityBounds -> bool)
    (uuid : string) (streets : list StreetSegment) (home : LatLng) (targetKm : Q)
    (cityBounds : option CityBounds) (r : SuggestedRoute) :
  buildEfficientCoverageRoute haversineKm distancePointToSegmentMeters isPointInCityBounds
    uuid streets home targetKm cityBounds = Some (Some r) ->
  let eligible street :=
    In street streets /\ validStreet street = true
    /\ match cityBounds with
       | Some bounds => isStreetInsideCityBounds isPointInCityBounds street bounds = true
       | None => True
       end in
  NoDup (route_streetIds r)
  /\ NoDup (route_streetNames r)
  /\ (forall streetId, In streetId (route_streetIds r) ->
        exists street, eligible street /\ seg_id street = streetId)
  /\ (forall name, In name (route_streetNames r) ->
        exists street, eligible street /\ seg_name street = name).
Proof.
  intros Hplan eligible.
  destruct (plan_returns_route _ _ _ _ _ _ _ _ _ Hplan) as [start [st [Hloop Hfin]]].
  cbv zeta in Hloop, Hfin.
  apply finishRoute_fields in Hfin. destruct Hfin as [_ [Hids [Hnames _]]].
  apply mainLoop_run in Hloop.
  set (candidates := plannerCandidates haversineKm isPointInCityBounds streets home
                       targetKm cityBounds) in *.
  set (graph := buildStreetGraph haversineKm candidates) in *.
  assert (Hlists : listsEdges graph st).
  { apply (plannerRun_invariant haversineKm graph _ (listsEdges graph)
             (fun s s' => listsEdges_step haversineKm graph _ s s') _ _ Hloop).
    unfold listsEdges. cbn. repeat split; try constructor; intros x []. }
  destruct Hlists as [Hn1 [Hn2 [Hi Hn]]].
  assert (Horigin : forall k edge, JsMap.get k (edges graph) = Some edge ->
            exists street, eligible street /\ seg_id street = edge_streetId edge
                           /\ seg_name street = edge_streetName edge).
  { intros k edge Hget.
    destruct (edges_buildStreetGraph_origin _ _ _ _ Hget) as [street [Hin [_ [_ ->]]]].
    exists street. split; [|split; reflexivity].
    apply (plannerCandidates_origin haversineKm isPointInCityBounds _ _ _ _ _ Hin). }
  rewrite Hids, Hnames.
  split; [assumption|]. split; [assumption|]. split.
  - intros streetId Hin. destruct (Hi streetId Hin) as [k [edge [Hget <-]]].
    destruct (Horigin k edge Hget) as [street [He [Hid _]]]. eauto.
  - intros name Hin. destruct (Hn name Hin) as [k [edge [Hget <-]]].
    destruct (Horigin k edge Hget) as [street [He [_ Hname]]]. eauto.
Qed.

(** The theorem on the run over [shortRoad]. *)
Lemma route_lists_input_streets_witness :
  exists r,
    planWith "run-1" [shortRoad] homeAtOrigin 0.8 None = Some (Some r)
    /\ NoDup (route_streetIds r)
    /\ forall streetId, In streetId (route_streetIds r) ->
         exists street,
           (In street [shortRoad] /\ validStreet street = true /\ True)
           /\ seg_id street = streetId.
Proof.
  destruct (planWith "run-1" [shortRoad] homeAtOrigin 0.8 None) as [[r|]|] eqn:E;
    [|vm_compute in E; discriminate|vm_compute in E; discriminate].
  exists r. split; [reflexivity|].
  pose proof (route_lists_input_streets flatKm flatSegmentMeters boxContains
                "run-1" [shortRoad] homeAtOrigin 0.8 None r E) as H.
  cbv zeta in H. split; [apply H|apply H].
Defined.

(* ------------------------------------------------------------------ *)
(** ** [normalizeStreetName]: the second application is the last that changes
    a name *)

Lemma lowerChar_idempotent (c : ascii) : lowerChar (lowerChar c) = lowerChar c.
Proof. destruct c as [[] [] [] [] [] [] [] []]; reflexivity. Qed.

Lemma space_is_whitespace : isWhitespace " "%char = true.
Proof. reflexivity. Qed.

(** A character that [toLowerCase] leaves as it is and that is no period. *)
Definition plainChar (c : ascii) : bool :=
  Ascii.eqb (lowerChar c) c && negb (Ascii.eqb c "."%char).

(** White space occurs only as single spaces; [inRun] tells that the
    character before was one. *)
Fixpoint collapsedFrom (inRun : bool) (l : list ascii) : bool :=
  match l with
  | [] => true
  | c :: rest =>
      if isWhitespace c
      then negb inRun && Ascii.eqb c " "%char && collapsedFrom true rest
      else collapsedFrom false rest
  end.

Lemma collapseRun_collapsed (inRun : bool) (l : list ascii) :
  collapsedFrom inRun (collapseRun inRun l) = true.
Proof.
  revert inRun. induction l as [|c l IH]; intros inRun; [reflexivity|].
  cbn [collapseRun]. destruct (isWhitespace c) eqn:E.
  - destruct inRun; [apply IH|].
    cbn [collapsedFrom]. rewrite space_is_whitespace. cbn. apply IH.
  - cbn [collapsedFrom]. rewrite E. apply IH.
Qed.

Lemma collapsed_fixed (inRun : bool) (l : list ascii) :
  collapsedFrom inRun l = true -> collapseRun inRun l = l.
Proof.
  revert inRun. induction l as [|c l IH]; intros inRun H; [reflexivity|].
  cbn [collapsedFrom collapseRun] in *. destruct (isWhitespace c).
  - apply andb_true_iff in H. destruct H as [H Hrest].
    apply andb_true_iff in H. destruct H as [Hrun Hc].
    destruct inRun; [discriminate|]. apply Ascii.eqb_eq in Hc. subst c.
    rewrite (IH true Hrest). reflexivity.
  - rewrite (IH false H). reflexivity.
Qed.

Lemma collapsed_weaken (inRun : bool) (l : list ascii) :
  collapsedFrom inRun l = true -> collapsedFrom false l = true.
Proof.
  destruct l as [|c l]; [reflexivity|]. cbn [collapsedFrom].
  destruct (isWhitespace c); [|tauto].
  destruct inRun; [discriminate|tauto].
Qed.

Lemma collapsed_prefix (inRun : bool) (l1 l2 : list ascii) :
  collapsedFrom inRun (l1 ++ l2) = true -> collapsedFrom inRun l1 = true.
Proof.
  revert inRun. induction l1 as [|c l1 IH]; intros inRun H; [reflexivity|].
  cbn [app collapsedFrom] in *. destruct (isWhitespace c).
  - apply andb_true_iff in H. destruct H as [H Hrest]. rewrite H. apply (IH true Hrest).
  - apply (IH false H).
Qed.

Lemma collapsed_suffix (inRun : bool) (l1 l2 : list ascii) :
  collapsedFrom inRun (l1 ++ l2) = true -> collapsedFrom false l2 = true.
Proof.
  revert inRun. induction l1 as [|c l1 IH]; intros inRun H.
  - apply (collapsed_weaken inRun). assumption.
  - cbn [app collapsedFrom] in H. destruct (isWhitespace c).
    + apply andb_true_iff in H. destruct H as [_ Hrest]. apply (IH true Hrest).
    + apply (IH false H).
Qed.

Lemma collapseRun_Forall (P : ascii -> Prop) (inRun : bool) (l : list ascii) :
  P " "%char -> Forall P l -> Forall P (collapseRun inRun l).
Proof.
  intros Hsp Hl. revert inRun. induction Hl as [|c l Hc Hl IH]; intros inRun; [constructor|].
  cbn [collapseRun]. destruct (isWhitespace c).
  - destruct inRun; [apply IH|constructor; [assumption|apply IH]].
  - constructor; [assumption|apply IH].
Qed.

(** What [dropLeadingWs] drops and what it keeps. *)
Lemma dropLeadingWs_split (l : list ascii) :
  exists dropped, l = dropped ++ dropLeadingWs l
                  /\ Forall (fun c => isWhitespace c = true) dropped.
Proof.
  induction l as [|c l [dropped [Hl Hd]]]; [exists []; split; [reflexivity|constructor]|].
  cbn [dropLeadingWs]. destruct (isWhitespace c) eqn:E.
  - exists (c :: dropped). split; [cbn; congruence|constructor; assumption].
  - exists []. split; [reflexivity|constructor].
Qed.

(** The list does not begin with white space. *)
Definition noLeadingWs (l : list ascii) : Prop :=
  match l with c :: _ => isWhitespace c = false | [] => True end.

Lemma dropLeadingWs_noLeadingWs (l : list ascii) : noLeadingWs (dropLeadingWs l).
Proof.
  induction l as [|c l IH]; [exact I|]. cbn [dropLeadingWs].
  destruct (isWhitespace c) eqn:E; [assumption|exact E].
Qed.

Lemma dropLeadingWs_fixed (l : list ascii) : noLeadingWs l -> dropLeadingWs l = l.
Proof. destruct l as [|c l]; [reflexivity|]. cbn. intros ->. reflexivity. Qed.

(** [trim] cuts white space off both ends and nothing else. *)
Lemma trimChars_split (l : list ascii) :
  exists before after,
    l = before ++ trimChars l ++ after
    /\ noLeadingWs (trimChars l) /\ noLeadingWs (rev (trimChars l)).
Proof.
  unfold trimChars.
  destruct (dropLeadingWs_split l) as [before [Hl _]].
  set (d := dropLeadingWs l) in *.
  destruct (dropLeadingWs_split (rev d)) as [after [Hd _]].
  set (e := dropLeadingWs (rev d)) in *.
  assert (Hd' : d = rev e ++ rev after).
  { rewrite <- (rev_involutive d), Hd, rev_app_distr. reflexivity. }
  exists before, (rev after). split; [rewrite Hl at 1; rewrite Hd' at 1; reflexivity|].
  split.
  - pose proof (dropLeadingWs_noLeadingWs l) as Hn. fold d in Hn. rewrite Hd' in Hn.
    destruct (rev e) as [|c r]; [exact I|exact Hn].
  - rewrite rev_involutive. apply dropLeadingWs_noLeadingWs.
Qed.

Lemma trimChars_fixed (l : list ascii) :
  noLeadingWs l -> noLeadingWs (rev l) -> trimChars l = l.
Proof.
  intros H1 H2. unfold trimChars.
  rewrite (dropLeadingWs_fixed l H1), (dropLeadingWs_fixed (rev l) H2).
  apply rev_involutive.
Qed.

Lemma trimChars_idempotent (l : list ascii) : trimChars (trimChars l) = trimChars l.
Proof.
  destruct (trimChars_split l) as [before [after [_ [H1 H2]]]].
  apply trimChars_fixed; assumption.
Qed.

Lemma trimChars_Forall (P : ascii -> Prop) (l : list ascii) :
  Forall P l -> Forall P (trimChars l).
Proof.
  intros Hl. destruct (trimChars_split l) as [before [after [E _]]].
  rewrite E in Hl. apply Forall_app in Hl. destruct Hl as [_ Hl].
  apply Forall_app in Hl. tauto.
Qed.

Lemma trimChars_collapsed (l : list ascii) :
  collapsedFrom false l = true -> collapsedFrom false (trimChars l) = true.
Proof.
  intros Hl. destruct (trimChars_split l) as [before [after [E _]]].
  rewrite E in Hl. apply collapsed_suffix in Hl. apply collapsed_prefix in Hl. assumption.
Qed.

Lemma plain_unchanged (l : list ascii) :
  Forall (fun c => plainChar c = true) l -> removePeriods (map lowerChar l) = l.
Proof.
  induction 1 as [|c l Hc _ IH]; [reflexivity|].
  unfold plainChar in Hc. apply andb_true_iff in Hc. destruct Hc as [Hlow Hdot].
  apply Ascii.eqb_eq in Hlow. cbn [map removePeriods filter].
  rewrite Hlow, Hdot. fold (removePeriods (map lowerChar l)). rewrite IH. reflexivity.
Qed.

Lemma normalizeChars_plain (l : list ascii) :
  Forall (fun c => plainChar c = true) (normalizeChars l)
  /\ collapsedFrom false (normalizeChars l) = true.
Proof.
  unfold normalizeChars, collapseWs. split; [|apply collapseRun_collapsed].
  apply collapseRun_Forall; [reflexivity|].
  unfold removePeriods. apply Forall_forall. intros c Hc.
  apply filter_In in Hc. destruct Hc as [Hc Hdot].
  apply in_map_iff in Hc. destruct Hc as [c0 [<- _]].
  unfold plainChar. rewrite lowerChar_idempotent, Ascii.eqb_refl. exact Hdot.
Qed.

(** On a name that is already in lower case, free of periods and with single
    spaces only, [normalizeStreetName] is [trim]. *)
Lemma normalizeChars_of_plain (l : list ascii) :
  Forall (fun c => plainChar c = true) l -> collapsedFrom false l = true ->
  normalizeChars l = trimChars l.
Proof.
  intros Hp Hc. unfold normalizeChars, collapseWs.
  rewrite (plain_unchanged _ (trimChars_Forall _ l Hp)).
  apply collapsed_fixed. apply trimChars_collapsed. assumption.
Qed.

(** X15: a second application of [normalizeStreetName] only trims the result
    of the first, and a third changes nothing: [normalizeStreetName] applied
    twice is idempotent, although applied once it is not. *)
Theorem normalizeStreetName_settles (name : string) :
  normalizeStreetName (normalizeStreetName name) = jsTrim (normalizeStreetName name)
  /\ normalizeStreetName (normalizeStreetName (normalizeStreetName name))
     = normalizeStreetName (normalizeStreetName name).
Proof.
  unfold normalizeStreetName, jsTrim. rewrite !list_ascii_of_string_of_list_ascii.
  destruct (normalizeChars_plain (list_ascii_of_string name)) as [Hp Hc].
  set (once := normalizeChars (list_ascii_of_string name)) in *.
  rewrite (normalizeChars_of_plain once Hp Hc).
  split; [reflexivity|].
  rewrite (normalizeChars_of_plain (trimChars once)
             (trimChars_Forall _ once Hp) (trimChars_collapsed once Hc)).
  rewrite trimChars_idempotent. reflexivity.
Qed.

(* ------------------------------------------------------------------ *)
(** ** [escapeXml] *)

Lemma replaceChar_flat_map (c : ascii) (replacement : string) (f : ascii -> list ascii)
    (l : list ascii) :
  replaceChar c replacement (flat_map f l)
  = flat_map (fun x => replaceChar c replacement (f x)) l.
Proof.
  unfold replaceChar. induction l as [|x l IH]; [reflexivity|].
  cbn [flat_map]. rewrite flat_map_app, IH. reflexivity.
Qed.

Lemma escapeXmlChars_one (c : ascii) : escapeXmlChars [c] = escapeOne c.
Proof. destruct c as [[] [] [] [] [] [] [] []]; reflexivity. Qed.

Lemma escapeXmlChars_charwise (l : list ascii) :
  escapeXmlChars l = flat_map escapeOne l.
Proof.
  unfold escapeXmlChars.
  assert (H0 : replaceChar "&" "&amp;" l
               = flat_map (fun x => replaceChar "&" "&amp;" [x]) l).
  { unfold replaceChar. apply flat_map_ext. intros x. cbn [flat_map].
    rewrite app_nil_r. reflexivity. }
  rewrite H0, !replaceChar_flat_map.
  apply flat_map_ext. intros x. apply (escapeXmlChars_one x).
Qed.

Lemma escapeOne_no_markup (c : ascii) :
  forallb (fun x => negb (isMarkupChar x)) (escapeOne c) = true.
Proof. destruct c as [[] [] [] [] [] [] [] []]; reflexivity. Qed.

Lemma escapeOne_plain (c : ascii) :
  isMarkupChar c = false -> c <> "&"%char -> escapeOne c = [c].
Proof.
  intros Hm Hamp. unfold isMarkupChar in Hm. unfold escapeOne.
  apply orb_false_iff in Hm. destruct Hm as [Hm H4].
  apply orb_false_iff in Hm. destruct Hm as [Hm H3].
  apply orb_false_iff in Hm. destruct Hm as [H1 H2].
  rewrite H1, H2, H3, H4.
  destruct (Ascii.eqb c "&") eqn:E; [|reflexivity].
  apply Ascii.eqb_eq in E. contradiction.
Qed.

(** X16: [escapeXml] amounts to replacing every character on its own: the
    ampersand, the two angle brackets and the two quotes by their entities
    and nothing else, so that an ampersand written by a later replacement is
    never escaped again. The result holds no angle bracket and no quote, and a
    value without these five characters is returned as it is. *)
Theorem escapeXml_replaces_each_character (value : string) :
  list_ascii_of_string (escapeXml value)
  = flat_map escapeOne (list_ascii_of_string value)
  /\ forallb (fun c => negb (isMarkupChar c)) (list_ascii_of_string (escapeXml value)) = true
  /\ (forallb (fun c => negb (isMarkupChar c) && negb (Ascii.eqb c "&"%char))
        (list_ascii_of_string value) = true ->
      escapeXml value = value).
Proof.
  unfold escapeXml. rewrite list_ascii_of_string_of_list_ascii, escapeXmlChars_charwise.
  split; [reflexivity|]. split.
  - induction (list_ascii_of_string value) as [|c l IH]; [reflexivity|].
    cbn [flat_map]. rewrite forallb_app, IH, escapeOne_no_markup. reflexivity.
  - intros Hplain.
    rewrite <- (string_of_list_ascii_of_string value) at 2. f_equal.
    induction (list_ascii_of_string value) as [|c l IH]; [reflexivity|].
    cbn [forallb] in Hplain. apply andb_true_iff in Hplain. destruct Hplain as [Hc Hl].
    apply andb_true_iff in Hc. destruct Hc as [Hm Hamp].
    cbn [flat_map]. rewrite (IH Hl), escapeOne_plain; [reflexivity| |].
    + destruct (isMarkupChar c); [discriminate|reflexivity].
    + intros ->. discriminate.
Qed.

Lemma escapeOne_head (c : ascii) :
  (escapeOne c = [c] /\ c <> "&"%char)
  \/ exists tail, escapeOne c = "&"%char :: tail.
Proof.
  destruct c as [[] [] [] [] [] [] [] []]; cbn;
    first [right; eexists; reflexivity|left; split; [reflexivity|discriminate]].
Qed.

Lemma escapeOne_entities (c : ascii) (tail : list ascii) :
  escapeOne c = "&"%char :: tail ->
  (c = "&"%char \/ c = "<"%char \/ c = ">"%char \/ c = dquote \/ c = "'"%char).
Proof.
  destruct c as [[] [] [] [] [] [] [] []]; cbn; intros H;
    try (injection H as H0 _; discriminate H0); try discriminate; tauto.
Qed.

Lemma escapeOne_prefix_free (a b : ascii) (r1 r2 : list ascii) :
  escapeOne a ++ r1 = escapeOne b ++ r2 -> a = b /\ r1 = r2.
Proof.
  intros E.
  destruct (escapeOne_head a) as [[Ha Hna]|[ta Ha]], (escapeOne_head b) as [[Hb Hnb]|[tb Hb]].
  - rewrite Ha, Hb in E. injection E as -> ->. auto.
  - rewrite Ha, Hb in E. injection E as -> _. contradiction.
  - rewrite Ha, Hb in E. injection E as <- _. contradiction.
  - pose proof (escapeOne_entities a ta Ha) as Ca.
    pose proof (escapeOne_entities b tb Hb) as Cb.
    destruct Ca as [->|[->|[->|[->| ->]]]], Cb as [->|[->|[->|[->| ->]]]];
      cbn in E; try (split; [reflexivity|]); try discriminate E;
      repeat (injection E as E); try assumption; try discriminate.
Qed.

Lemma escape_charwise_injective (l1 l2 : list ascii) :
  flat_map escapeOne l1 = flat_map escapeOne l2 -> l1 = l2.
Proof.
  revert l2. induction l1 as [|a l1 IH]; intros l2 E.
  - destruct l2 as [|b l2]; [reflexivity|]. cbn [flat_map] in E.
    destruct (escapeOne_head b) as [[Hb _]|[tb Hb]]; rewrite Hb in E; discriminate.
  - destruct l2 as [|b l2].
    + cbn [flat_map] in E.
      destruct (escapeOne_head a) as [[Ha _]|[ta Ha]]; rewrite Ha in E; discriminate.
    + cbn [flat_map] in E. apply escapeOne_prefix_free in E. destruct E as [-> E].
      rewrite (IH l2 E). reflexivity.
Qed.

(** X17: [escapeXml] loses nothing: two values with the same escaped text are
    the same value. *)
Theorem escapeXml_injective (value1 value2 : string) :
  escapeXml value1 = escapeXml value2 -> value1 = value2.
Proof.
  unfold escapeXml. intros E.
  apply (f_equal list_ascii_of_string) in E.
  rewrite !list_ascii_of_string_of_list_ascii, !escapeXmlChars_charwise in E.
  apply escape_charwise_injective in E.
  rewrite <- (string_of_list_ascii_of_string value1),
          <- (string_of_list_ascii_of_string value2), E.
  reflexivity.
Qed.

(** The theorem on a route name with an ampersand and a bracket. *)
Lemma escapeXml_injective_witness :
  escapeXml "Elm & Oak <loop>" = "Elm &amp; Oak &lt;loop&gt;"
  /\ "Elm & Oak <loop>" = "Elm & Oak <loop>".
Proof.
  split; [reflexivity|].
  exact (escapeXml_injective "Elm & Oak <loop>" "Elm & Oak <loop>" eq_refl).
Defined.

(* ------------------------------------------------------------------ *)
(** ** [slugify] *)

Lemma dash_is_no_slugChar : isSlugChar "-"%char = false.
Proof. reflexivity. Qed.

Lemma dashRuns_chars (inRun : bool) (l : list ascii) :
  Forall (fun c => isSlugChar c = true \/ c = "-"%char) (dashRuns inRun l).
Proof.
  revert inRun. induction l as [|c l IH]; intros inRun; [constructor|].
  cbn [dashRuns]. destruct (isSlugChar c) eqn:E.
  - constructor; [left; assumption|apply IH].
  - destruct inRun; [apply IH|constructor; [right; reflexivity|apply IH]].
Qed.

Lemma dashRuns_single (inRun : bool) (l : list ascii) :
  singleDashes inRun (dashRuns inRun l) = true.
Proof.
  revert inRun. induction l as [|c l IH]; intros inRun; [reflexivity|].
  cbn [dashRuns]. destruct (isSlugChar c) eqn:E.
  - cbn [singleDashes].
    destruct (Ascii.eqb c "-") eqn:Ed; [|apply IH].
    apply Ascii.eqb_eq in Ed. subst c. discriminate.
  - destruct inRun; [apply IH|]. cbn. apply IH.
Qed.

Lemma singleDashes_weaken (afterDash : bool) (l : list ascii) :
  singleDashes afterDash l = true -> singleDashes false l = true.
Proof.
  destruct l as [|c l]; [reflexivity|]. cbn [singleDashes].
  destruct (Ascii.eqb c "-"); [|tauto]. destruct afterDash; [discriminate|tauto].
Qed.

Lemma singleDashes_prefix (afterDash : bool) (l1 l2 : list ascii) :
  singleDashes afterDash (l1 ++ l2) = true -> singleDashes afterDash l1 = true.
Proof.
  revert afterDash. induction l1 as [|c l1 IH]; intros afterDash H; [reflexivity|].
  cbn [app singleDashes] in *. destruct (Ascii.eqb c "-").
  - apply andb_true_iff in H. destruct H as [H Hrest]. rewrite H. apply (IH true Hrest).
  - apply (IH false H).
Qed.

Lemma singleDashes_suffix (afterDash : bool) (l1 l2 : list ascii) :
  singleDashes afterDash (l1 ++ l2) = true -> singleDashes false l2 = true.
Proof.
  revert afterDash. induction l1 as [|c l1 IH]; intros afterDash H.
  - apply (singleDashes_weaken afterDash). assumption.
  - cbn [app singleDashes] in H. destruct (Ascii.eqb c "-").
    + apply andb_true_iff in H. destruct H as [_ Hrest]. apply (IH true Hrest).
    + apply (IH false H).
Qed.

(** The list does not begin with a dash. *)
Definition noLeadingDash (l : list ascii) : Prop :=
  match l with c :: _ => c <> "-"%char | [] => True end.

Lemma dropLeadingDashes_split (l : list ascii) :
  exists dropped, l = dropped ++ dropLeadingDashes l.
Proof.
  induction l as [|c l [dropped Hl]]; [exists []; reflexivity|].
  cbn [dropLeadingDashes]. destruct (Ascii.eqb c "-").
  - exists (c :: dropped). cbn. congruence.
  - exists []. reflexivity.
Qed.

Lemma dropLeadingDashes_noLeadingDash (l : list ascii) :
  noLeadingDash (dropLeadingDashes l).
Proof.
  induction l as [|c l IH]; [exact I|]. cbn [dropLeadingDashes].
  destruct (Ascii.eqb c "-") eqn:E; [assumption|].
  cbn. intros ->. discriminate.
Qed.

Lemma stripDashes_split (l : list ascii) :
  exists before after,
    l = before ++ stripDashes l ++ after
    /\ noLeadingDash (stripDashes l) /\ noLeadingDash (rev (stripDashes l)).
Proof.
  unfold stripDashes.
  destruct (dropLeadingDashes_split l) as [before Hl].
  set (d := dropLeadingDashes l) in *.
  destruct (dropLeadingDashes_split (rev d)) as [after Hd].
  set (e := dropLeadingDashes (rev d)) in *.
  assert (Hd' : d = rev e ++ rev after).
  { rewrite <- (rev_involutive d), Hd, rev_app_distr. reflexivity. }
  exists before, (rev after). split; [rewrite Hl at 1; rewrite Hd' at 1; reflexivity|].
  split.
  - pose proof (dropLeadingDashes_noLeadingDash l) as Hn. fold d in Hn. rewrite Hd' in Hn.
    destruct (rev e) as [|c r]; [exact I|exact Hn].
  - rewrite rev_involutive. apply dropLeadingDashes_noLeadingDash.
Qed.

(** X18: the result of [slugify] has at most 60 characters, all of them small
    letters, digits or dashes; it does not begin with a dash and holds no two
    dashes in a row; it does not end with a dash either, unless it was cut at
    the 60th character. *)
Theorem slugify_shape (value : string) :
  let slug := list_ascii_of_string (slugify value) in
  (length slug <= 60)%nat
  /\ Forall (fun c => isSlugChar c = true \/ c = "-"%char) slug
  /\ noLeadingDash slug
  /\ singleDashes false slug = true
  /\ ((length slug < 60)%nat -> noLeadingDash (rev slug)).
Proof.
  unfold slugify. rewrite list_ascii_of_string_of_list_ascii. cbv zeta.
  unfold slugifyChars.
  set (runs := dashRuns false (map lowerChar (list_ascii_of_string value))).
  destruct (stripDashes_split runs) as [before [after [E [Hfirst Hlast]]]].
  set (stripped := stripDashes runs) in *.
  assert (Hchars : Forall (fun c => isSlugChar c = true \/ c = "-"%char) stripped).
  { pose proof (dashRuns_chars false (map lowerChar (list_ascii_of_string value))) as H.
    fold runs in H. rewrite E in H. apply Forall_app in H. destruct H as [_ H].
    apply Forall_app in H. tauto. }
  assert (Hsingle : singleDashes false stripped = true).
  { pose proof (dashRuns_single false (map lowerChar (list_ascii_of_string value))) as H.
    fold runs in H. rewrite E in H. apply singleDashes_suffix in H.
    apply singleDashes_prefix in H. assumption. }
  split; [apply firstn_le_length|]. split; [|split; [|split]].
  - rewrite <- (firstn_skipn 60 stripped) in Hchars. apply Forall_app in Hchars. tauto.
  - destruct stripped as [|c rest]; [exact I|exact Hfirst].
  - rewrite <- (firstn_skipn 60 stripped) in Hsingle.
    apply singleDashes_prefix in Hsingle. assumption.
  - intros Hshort. rewrite firstn_all2; [assumption|].
    destruct (Nat.le_gt_cases (length stripped) 60) as [Hle|Hgt]; [assumption|].
    rewrite length_firstn in Hshort. lia.
Qed.

(* ------------------------------------------------------------------ *)
(** ** [hashPin] *)

Lemma toInt32_range (z : Z) : (- 2 ^ 31 <= toInt32 z < 2 ^ 31)%Z.
Proof.
  unfold toInt32. pose proof (Z.mod_pos_bound (z + 2 ^ 31) (2 ^ 32) ltac:(lia)). lia.
Qed.

Lemma toInt32_shift (z k : Z) : toInt32 (z + 2 ^ 32 * k) = toInt32 z.
Proof.
  unfold toInt32.
  replace (z + 2 ^ 32 * k + 2 ^ 31)%Z with (z + 2 ^ 31 + k * 2 ^ 32)%Z by ring.
  rewrite Z.mod_add by lia. reflexivity.
Qed.

Lemma toInt32_wraps (z : Z) : exists k, toInt32 z = (z + 2 ^ 32 * k)%Z.
Proof.
  unfold toInt32. exists (- ((z + 2 ^ 31) / 2 ^ 32))%Z.
  pose proof (Z.div_mod (z + 2 ^ 31) (2 ^ 32) ltac:(lia)). lia.
Qed.

Lemma hashStep_horner (h : Z) (c : ascii) :
  hashStep (toInt32 h) c = toInt32 (31 * h + Z.of_nat (nat_of_ascii c)).
Proof.
  unfold hashStep, shiftLeft32. rewrite Z.shiftl_mul_pow2 by lia.
  destruct (toInt32_wraps h) as [k1 E1].
  destruct (toInt32_wraps (toInt32 h)) as [k2 E2].
  destruct (toInt32_wraps (toInt32 (toInt32 h) * 2 ^ 5)) as [k3 E3].
  rewrite E3, E2, E1.
  rewrite <- (toInt32_shift (31 * h + Z.of_nat (nat_of_ascii c)) (31 * k1 + 32 * k2 + k3)).
  f_equal. ring.
Qed.

Lemma hashOf_from (l : list ascii) (h : Z) :
  fold_left hashStep l (toInt32 h)
  = toInt32 (fold_left (fun h c => (31 * h + Z.of_nat (nat_of_ascii c))%Z) l h).
Proof.
  revert h. induction l as [|c l IH]; intros h; [reflexivity|].
  cbn [fold_left]. rewrite hashStep_horner. apply IH.
Qed.

(** X19: [hashPin] hashes the pin without the white space around it: the hash
    is the polynomial of base 31 over the character codes, wrapped to a signed
    32-bit integer, and what is printed is its absolute value, at most 2^31,
    in hexadecimal. *)
Theorem hashPin_is_base31_hash (pin : string) :
  hashOf (trimChars (list_ascii_of_string pin))
  = toInt32 (horner31 (trimChars (list_ascii_of_string pin)))
  /\ (0 <= Z.abs (hashOf (trimChars (list_ascii_of_string pin))) <= 2 ^ 31)%Z
  /\ hashPin (jsTrim pin) = hashPin pin.
Proof.
  assert (H : forall l, hashOf l = toInt32 (horner31 l)).
  { intros l. unfold hashOf, horner31. apply (hashOf_from l 0). }
  split; [apply H|]. split.
  - rewrite H. pose proof (toInt32_range (horner31 (trimChars (list_ascii_of_string pin)))).
    lia.
  - unfold hashPin, jsTrim.
    rewrite list_ascii_of_string_of_list_ascii, trimChars_idempotent. reflexivity.
Qed.

(* ------------------------------------------------------------------ *)
(** ** [calculateBoundingBox] and [matchActivityToStreets] *)

(** The box so far against the points seen. *)
Definition boxOf (seen : list LatLng) (box : Bounds) : Prop :=
  match seen with
  | [] => box = mkBounds PosInfinity NegInfinity PosInfinity NegInfinity
  | _ :: _ =>
      exists s n w e,
        box = mkBounds (Finite s) (Finite n) (Finite w) (Finite e)
        /\ (forall p, In p seen -> s <= lat p /\ lat p <= n /\ w <= lon p /\ lon p <= e)
        /\ (exists p, In p seen /\ lat p == s)
        /\ (exists p, In p seen /\ lat p == n)
        /\ (exists p, In p seen /\ lon p == w)
        /\ (exists p, In p seen /\ lon p == e)
  end.

Lemma boxOf_step (seen : list LatLng) (box : Bounds) (point : LatLng) :
  boxOf seen box ->
  boxOf (seen ++ [point])
    (mkBounds (xmin (minLat box) (lat point)) (xmax (maxLat box) (lat point))
              (xmin (minLon box) (lon point)) (xmax (maxLon box) (lon point))).
Proof.
  intros H. destruct seen as [|p0 seen].
  - cbn [boxOf] in H. subst box. cbn.
    exists (lat point), (lat point), (lon point), (lon point).
    split; [reflexivity|]. split.
    + intros p [<-|[]]. repeat split; lra.
    + repeat split; exists point; (split; [left; reflexivity|reflexivity]).
  - cbn [boxOf] in H. destruct H as [s [n [w [e [-> [Hall [Hs [Hn [Hw He]]]]]]]]].
    change ((p0 :: seen) ++ [point]) with (p0 :: seen ++ [point]).
    cbn [boxOf minLat maxLat minLon maxLon xmin xmax].
    exists (Qmin s (lat point)), (Qmax n (lat point)),
           (Qmin w (lon point)), (Qmax e (lon point)).
    split; [reflexivity|].
    pose proof (Q.le_min_l s (lat point)). pose proof (Q.le_min_r s (lat point)).
    pose proof (Q.le_max_l n (lat point)). pose proof (Q.le_max_r n (lat point)).
    pose proof (Q.le_min_l w (lon point)). pose proof (Q.le_min_r w (lon point)).
    pose proof (Q.le_max_l e (lon point)). pose proof (Q.le_max_r e (lon point)).
    assert (Hin : forall p, In p (p0 :: seen ++ [point]) <-> In p (p0 :: seen) \/ p = point).
    { intros p. change (p0 :: seen ++ [point]) with ((p0 :: seen) ++ [point]).
      rewrite in_app_iff. cbn. split; [intros [[|]|[|[]]]|intros [[|]|]]; auto. }
    split.
    + intros p Hp. apply Hin in Hp. destruct Hp as [Hp| ->].
      * destruct (Hall p Hp) as [Hp1 [Hp2 [Hp3 Hp4]]]. repeat split; lra.
      * repeat split; lra.
    + repeat split.
      * destruct (Q.min_spec s (lat point)) as [[_ E]|[_ E]].
        -- destruct Hs as [p [Hp Hp']]. exists p. split; [apply Hin; auto|]. rewrite E. assumption.
        -- exists point. split; [apply Hin; auto|]. rewrite E. reflexivity.
      * destruct (Q.max_spec n (lat point)) as [[_ E]|[_ E]].
        -- exists point. split; [apply Hin; auto|]. rewrite E. reflexivity.
        -- destruct Hn as [p [Hp Hp']]. exists p. split; [apply Hin; auto|]. rewrite E. assumption.
      * destruct (Q.min_spec w (lon point)) as [[_ E]|[_ E]].
        -- destruct Hw as [p [Hp Hp']]. exists p. split; [apply Hin; auto|]. rewrite E. assumption.
        -- exists point. split; [apply Hin; auto|]. rewrite E. reflexivity.
      * destruct (Q.max_spec e (lon point)) as [[_ E]|[_ E]].
        -- exists point. split; [apply Hin; auto|]. rewrite E. reflexivity.
        -- destruct He as [p [Hp Hp']]. exists p. split; [apply Hin; auto|]. rewrite E. assumption.
Qed.

Lemma boxOf_fold (rest seen : list LatLng) (box : Bounds) :
  boxOf seen box ->
  boxOf (seen ++ rest)
    (fold_left
       (fun box point =>
          mkBounds (xmin (minLat box) (lat point)) (xmax (maxLat box) (lat point))
                   (xmin (minLon box) (lon point)) (xmax (maxLon box) (lon point)))
       rest box).
Proof.
  revert seen box. induction rest as [|point rest IH]; intros seen box H.
  - rewrite app_nil_r. assumption.
  - cbn [fold_left].
    replace (seen ++ point :: rest) with ((seen ++ [point]) ++ rest)
      by (rewrite <- app_assoc; reflexivity).
    apply IH. apply boxOf_step. assumption.
Qed.

(** X20: for a path that is not empty [calculateBoundingBox] returns four
    finite bounds; every point of the path lies within them, and each bound is
    the latitude or longitude of a point of the path. For the empty path it
    returns the bounds it starts from, plus and minus infinity. *)
Theorem calculateBoundingBox_encloses (path : list LatLng) :
  match path with
  | [] =>
      calculateBoundingBox path
      = mkBounds PosInfinity NegInfinity PosInfinity NegInfinity
  | _ :: _ =>
      exists s n w e,
        calculateBoundingBox path
        = mkBounds (Finite s) (Finite n) (Finite w) (Finite e)
        /\ (forall p, In p path -> s <= lat p /\ lat p <= n /\ w <= lon p /\ lon p <= e)
        /\ (exists p, In p path /\ lat p == s)
        /\ (exists p, In p path /\ lat p == n)
        /\ (exists p, In p path /\ lon p == w)
        /\ (exists p, In p path /\ lon p == e)
  end.
Proof.
  exact (boxOf_fold path [] _ eq_refl).
Qed.

(* ------------------------------------------------------------------ *)

Lemma everyNth_samples (step : nat) (l : list LatLng) (fuel : nat) (p : LatLng) :
  (0 < step)%nat -> (length l <= fuel)%nat ->
  (In p (everyNth fuel step l) <-> exists i, nth_error l (i * step) = Some p).
Proof.
  intros Hstep. revert l. induction fuel as [|fuel IH]; intros l Hlen.
  - destruct l; [|simpl in Hlen; lia]. cbn. split; [tauto|].
    intros [i Hi]. destruct (i * step)%nat; discriminate.
  - destruct l as [|a l].
    + cbn. split; [tauto|]. intros [i Hi]. destruct (i * step)%nat; discriminate.
    + cbn [everyNth In]. rewrite IH.
      * split.
        -- intros [<-|[i Hi]]; [exists O; reflexivity|].
           exists (S i). rewrite nth_error_skipn in Hi.
           replace (S i * step)%nat with (step + i * step)%nat by lia. assumption.
        -- intros [i Hi]. destruct i as [|i]; [left; cbn in Hi; congruence|].
           right. exists i. rewrite nth_error_skipn.
           replace (step + i * step)%nat with (S i * step)%nat by lia. assumption.
      * rewrite length_skipn. cbn [length] in *. lia.
Qed.

Section MatchingFacts.

Variable distancePointToSegmentMeters : LatLng -> LatLng -> LatLng -> Q.

Local Abbreviation boxed :=
  (fun street : StreetSegment => (street, calculateBoundingBox (seg_path street))).

Lemma matchCandidate_In (point : LatLng) (matched : list string)
    (street : StreetSegment) (streetId : string) :
  In streetId (matchCandidate distancePointToSegmentMeters point matched (boxed street))
  <-> In streetId matched
      \/ (seg_id street = streetId
          /\ matchesStreet distancePointToSegmentMeters point street = true).
Proof.
  unfold matchCandidate, matchesStreet. cbv zeta.
  destruct (JsSet.has (seg_id street) matched) eqn:Ehas.
  - apply set_has_true_iff in Ehas. split; [auto|].
    intros [H|[<- _]]; assumption.
  - destruct (_ || _); cbn [negb andb].
    + split; [auto|]. intros [H|[_ H]]; [assumption|discriminate].
    + destruct (dnum_leb _ _).
      * rewrite set_add_In. split; [intros [->|H]; auto|intros [H|[<- _]]; auto].
      * split; [auto|]. intros [H|[_ H]]; [assumption|discriminate].
Qed.

Lemma matchCandidate_NoDup (point : LatLng) (matched : list string)
    (candidate : StreetSegment * Bounds) :
  NoDup matched -> NoDup (matchCandidate distancePointToSegmentMeters point matched candidate).
Proof.
  intros Hnd. unfold matchCandidate. destruct candidate as [street box].
  destruct (JsSet.has _ _); [assumption|].
  destruct (_ || _); [assumption|].
  destruct (dnum_leb _ _); [apply set_add_NoDup|]; assumption.
Qed.

Lemma matchCandidates_In (point : LatLng) (streets : list StreetSegment)
    (matched : list string) (streetId : string) :
  In streetId
    (fold_left (matchCandidate distancePointToSegmentMeters point) (map boxed streets) matched)
  <-> In streetId matched
      \/ exists street,
           In street streets /\ seg_id street = streetId
           /\ matchesStreet distancePointToSegmentMeters point street = true.
Proof.
  revert matched. induction streets as [|s streets IH]; intros matched.
  - cbn. split; [auto|]. intros [H|[street [[] _]]]. assumption.
  - cbn [map fold_left]. rewrite IH, matchCandidate_In. split.
    + intros [[H|[Hid Hm]]|[street [Hin H]]]; eauto 6.
      * right. exists s. split; [left; reflexivity|auto].
      * right. exists street. split; [right; assumption|assumption].
    + intros [H|[street [[<-|Hin] [Hid Hm]]]]; eauto 6.
Qed.

Lemma matchCandidates_NoDup (point : LatLng) (candidates : list (StreetSegment * Bounds))
    (matched : list string) :
  NoDup matched ->
  NoDup (fold_left (matchCandidate distancePointToSegmentMeters point) candidates matched).
Proof.
  revert matched. induction candidates as [|c candidates IH]; intros matched Hnd;
    [assumption|].
  cbn [fold_left]. apply IH. apply matchCandidate_NoDup. assumption.
Qed.

Lemma matchPoints_In (points : list LatLng) (streets : list StreetSegment)
    (matched : list string) (streetId : string) :
  In streetId
    (fold_left
       (fun matched point =>
          fold_left (matchCandidate distancePointToSegmentMeters point)
            (map boxed streets) matched)
       points matched)
  <-> In streetId matched
      \/ exists point street,
           In point points /\ In street streets /\ seg_id street = streetId
           /\ matchesStreet distancePointToSegmentMeters point street = true.
Proof.
  revert matched. induction points as [|p points IH]; intros matched.
  - cbn. split; [auto|]. intros [H|[point [street [[] _]]]]. assumption.
  - cbn [fold_left]. rewrite IH, matchCandidates_In. split.
    + intros [[H|[street [Hin H]]]|[point [street [Hp H]]]].
      * auto.
      * right. exists p, street. split; [left; reflexivity|]. tauto.
      * right. exists point, street. split; [right; assumption|]. tauto.
    + intros [H|[point [street [[<-|Hp] H]]]].
      * auto.
      * left. right. exists street. tauto.
      * right. exists point, street. tauto.
Qed.

Lemma matchPoints_NoDup (points : list LatLng) (candidates : list (StreetSegment * Bounds))
    (matched : list string) :
  NoDup matched ->
  NoDup
    (fold_left
       (fun matched point =>
          fold_left (matchCandidate distancePointToSegmentMeters point) candidates matched)
       points matched).
Proof.
  revert matched. induction points as [|p points IH]; intros matched Hnd; [assumption|].
  cbn [fold_left]. apply IH. apply matchCandidates_NoDup. assumption.
Qed.

End MatchingFacts.

(** X21: [matchActivityToStreets] returns every id once. It returns the id of
    a segment exactly when the segment is not completed and has at least two
    points, the activity has at least two points, and one of the sampled
    points of the activity (every [max(1, floor(length / 700))]-th, from the
    first) lies within 0.00045 degrees of the segment's bounding box and
    within 40 m of its path. *)
Theorem matchActivityToStreets_matches
    (distancePointToSegmentMeters : LatLng -> LatLng -> LatLng -> Q)
    (activity : list LatLng) (streets : list StreetSegment) (streetId : string) :
  NoDup (matchActivityToStreets distancePointToSegmentMeters activity streets)
  /\ (In streetId (matchActivityToStreets distancePointToSegmentMeters activity streets)
      <-> (2 <= length activity)%nat
          /\ exists street i point,
               In street streets /\ seg_id street = streetId
               /\ seg_completed street = false
               /\ (2 <= length (seg_path street))%nat
               /\ nth_error activity (i * Nat.max 1 (length activity / 700)) = Some point
               /\ matchesStreet distancePointToSegmentMeters point street = true).
Proof.
  unfold matchActivityToStreets. cbv zeta.
  set (eligible := filter (fun street => negb (seg_completed street)
                                         && (2 <=? length (seg_path street))%nat) streets).
  assert (Hel : forall street, In street eligible <->
            In street streets /\ seg_completed street = false
            /\ (2 <= length (seg_path street))%nat).
  { intros street. unfold eligible. rewrite filter_In, andb_true_iff, negb_true_iff.
    rewrite Nat.leb_le. tauto. }
  rewrite length_map.
  destruct (length eligible =? 0)%nat eqn:Ecand; cbn [orb].
  - split; [constructor|]. apply Nat.eqb_eq in Ecand.
    split; [intros []|]. intros [_ [street [i [point [Hin [_ [Hc [Hp _]]]]]]]].
    assert (Hs : In street eligible) by (apply Hel; auto).
    destruct eligible; [contradiction|discriminate].
  - destruct (length activity <? 2)%nat eqn:Eact.
    + split; [constructor|]. apply Nat.ltb_lt in Eact.
      split; [intros []|]. intros [H _]. lia.
    + apply Nat.ltb_ge in Eact. split.
      * apply matchPoints_NoDup. constructor.
      * rewrite (matchPoints_In distancePointToSegmentMeters _ eligible [] streetId).
        split.
        -- intros [[]|[point [street [Hp [Hs [Hid Hm]]]]]].
           split; [assumption|].
           apply everyNth_samples in Hp; [|lia|lia]. destruct Hp as [i Hi].
           apply Hel in Hs. exists street, i, point. tauto.
        -- intros [_ [street [i [point [Hin [Hid [Hc [Hp [Hi Hm]]]]]]]]].
           right. exists point, street.
           split; [apply everyNth_samples; [lia|lia|exists i; assumption]|].
           split; [apply Hel; auto|]. auto.
Qed.

(* ------------------------------------------------------------------ *)
(** ** [dedupeByName] *)

(** The keys of the segments, where they have one. *)
Definition keysOf (streets : list StreetSegment) : list string :=
  flat_map (fun street => match dedupeKey street with Some k => [k] | None => [] end) streets.

Lemma keysOf_app (l1 l2 : list StreetSegment) : keysOf (l1 ++ l2) = keysOf l1 ++ keysOf l2.
Proof. apply flat_map_app. Qed.

Lemma keysOf_In (streets : list StreetSegment) (k : string) :
  In k (keysOf streets) <-> exists street, In street streets /\ dedupeKey street = Some k.
Proof.
  unfold keysOf. rewrite in_flat_map. split.
  - intros [street [Hin Hk]]. exists street. split; [assumption|].
    destruct (dedupeKey street); [destruct Hk as [->|[]]; reflexivity|contradiction].
  - intros [street [Hin Hk]]. exists street. split; [assumption|]. rewrite Hk. left. reflexivity.
Qed.

(** What the loop of [dedupeByName] has so far. *)
Definition dedupeInv (seen : list string) (result : list StreetSegment) : Prop :=
  keysOf result = seen /\ NoDup seen
  /\ forall r, In r result -> dedupeKey r <> None.

Lemma dedupeLoop_spec (streets : list StreetSegment) (seen : list string)
    (result out : list StreetSegment) :
  dedupeInv seen result ->
  dedupeLoop streets seen result = Some out ->
  dedupeInv (keysOf out) out
  /\ (forall r, In r out -> In r result \/ In r streets)
  /\ (forall r, In r result -> In r out)
  /\ (forall s, In s streets -> exists r, In r out /\ dedupeKey r = dedupeKey s).
Proof.
  revert seen result. induction streets as [|street rest IH]; intros seen result Hinv E.
  - cbn in E. injection E as <-. destruct Hinv as [Hk [Hnd Hdef]].
    split; [split; [reflexivity|split; [rewrite Hk; assumption|assumption]]|].
    split; [auto|]. split; [auto|]. intros s [].
  - cbn [dedupeLoop] in E. destruct (dedupeKey street) as [key|] eqn:Ekey; [|discriminate].
    destruct Hinv as [Hk [Hnd Hdef]].
    destruct (JsSet.has key seen) eqn:Ehas.
    + destruct (IH seen result (conj Hk (conj Hnd Hdef)) E) as [H1 [H2 [H3 H4]]].
      split; [assumption|]. split; [intros r Hr; destruct (H2 r Hr); auto; right; right; assumption|].
      split; [assumption|].
      intros s [<-|Hs]; [|apply H4; assumption].
      apply set_has_true_iff in Ehas. rewrite <- Hk in Ehas.
      apply keysOf_In in Ehas. destruct Ehas as [r [Hr Hrk]].
      exists r. split; [apply H3; assumption|congruence].
    + assert (Hinv' : dedupeInv (JsSet.add key seen) (result ++ [street])).
      { unfold JsSet.add. rewrite Ehas. split; [|split].
        - rewrite keysOf_app, Hk. unfold keysOf. cbn. rewrite Ekey. reflexivity.
        - pose proof (set_add_NoDup key seen Hnd) as H. unfold JsSet.add in H.
          rewrite Ehas in H. assumption.
        - intros r Hr. apply in_app_or in Hr. destruct Hr as [Hr|[<-|[]]]; [auto|congruence]. }
      destruct (IH _ _ Hinv' E) as [H1 [H2 [H3 H4]]].
      split; [assumption|]. split; [|split].
      * intros r Hr. destruct (H2 r Hr) as [Hr'|Hr']; [|right; right; assumption].
        apply in_app_or in Hr'. destruct Hr' as [Hr'|[<-|[]]]; [left; assumption|].
        right. left. reflexivity.
      * intros r Hr. apply H3. apply in_or_app. left. assumption.
      * intros s [<-|Hs]; [|apply H4; assumption].
        exists street. split; [|reflexivity]. apply H3. apply in_or_app. right. left. reflexivity.
Qed.

Lemma dedupeLoop_keeps_distinct (streets : list StreetSegment) (seen : list string)
    (result : list StreetSegment) :
  NoDup (seen ++ keysOf streets) ->
  (forall s, In s streets -> dedupeKey s <> None) ->
  dedupeLoop streets seen result = Some (result ++ streets).
Proof.
  revert seen result. induction streets as [|street rest IH]; intros seen result Hnd Hdef.
  - cbn. rewrite app_nil_r. reflexivity.
  - cbn [dedupeLoop]. destruct (dedupeKey street) as [key|] eqn:Ekey.
    2:{ exfalso. apply (Hdef street); [left; reflexivity|assumption]. }
    assert (Hk : keysOf (street :: rest) = key :: keysOf rest).
    { unfold keysOf. cbn [flat_map]. rewrite Ekey. reflexivity. }
    rewrite Hk in Hnd.
    assert (Ehas : JsSet.has key seen = false).
    { apply not_true_is_false. intros H. apply set_has_true_iff in H.
      apply NoDup_remove_2 in Hnd. apply Hnd. apply in_or_app. left. assumption. }
    rewrite Ehas. unfold JsSet.add. rewrite Ehas.
    rewrite IH.
    + rewrite <- app_assoc. reflexivity.
    + rewrite <- app_assoc. exact Hnd.
    + intros s Hs. apply Hdef. right. assumption.
Qed.

Lemma keysOf_map (streets : list StreetSegment) :
  (forall s, In s streets -> dedupeKey s <> None) ->
  map dedupeKey streets = map Some (keysOf streets).
Proof.
  induction streets as [|s streets IH]; intros Hdef; [reflexivity|].
  unfold keysOf. cbn [map flat_map].
  destruct (dedupeKey s) as [k|] eqn:E.
  - cbn [app map]. f_equal. apply IH. intros x Hx. apply Hdef. right. assumption.
  - exfalso. apply (Hdef s); [left; reflexivity|assumption].
Qed.

Lemma dedupeByName_result (streets result : list StreetSegment) :
  dedupeByName streets = Some result ->
  NoDup (map dedupeKey result)
  /\ (forall r, In r result -> In r streets /\ dedupeKey r <> None)
  /\ (forall s, In s streets -> exists r, In r result /\ dedupeKey r = dedupeKey s)
  /\ dedupeByName result = Some result.
Proof.
  unfold dedupeByName. intros E.
  assert (H0 : dedupeInv [] []).
  { split; [reflexivity|]. split; [constructor|]. intros r []. }
  destruct (dedupeLoop_spec streets [] [] result H0 E) as [[_ [Hnd Hdef]] [Hin [_ Hall]]].
  split; [|split; [|split]].
  - rewrite (keysOf_map result Hdef).
    clear - Hnd. induction Hnd as [|k ks Hk _ IH]; [constructor|].
    cbn [map]. constructor; [|assumption].
    rewrite in_map_iff. intros [k' [Heq Hin]]. congruence.
  - intros r Hr. split; [|apply Hdef; assumption].
    destruct (Hin r Hr) as [[]|H]. assumption.
  - assumption.
  - apply (dedupeLoop_keeps_distinct result [] []); assumption.
Qed.

Lemma dedupeLoop_throws (streets : list StreetSegment) (seen : list string)
    (result : list StreetSegment) :
  dedupeLoop streets seen result = None ->
  exists street, In street streets /\ dedupeKey street = None.
Proof.
  revert seen result. induction streets as [|street rest IH]; intros seen result E.
  - discriminate.
  - cbn [dedupeLoop] in E. destruct (dedupeKey street) as [key|] eqn:Ekey.
    + destruct (JsSet.has key seen);
        destruct (IH _ _ E) as [s [Hs Hk]]; exists s; split; [right| |right|]; assumption.
    + exists street. split; [left; reflexivity|assumption].
Qed.

Lemma dedupeKey_none (street : StreetSegment) :
  dedupeKey street = None ->
  seg_path street = []
  /\ match seg_startNodeId street, seg_endNodeId street with
     | Some startNodeId, Some endNodeId => truthy startNodeId && truthy endNodeId = false
     | _, _ => True
     end.
Proof.
  unfold dedupeKey, endKeys.
  destruct (seg_startNodeId street) as [s|]; destruct (seg_endNodeId street) as [e|];
    try (destruct (truthy s && truthy e) eqn:Et);
    destruct (seg_path street) as [|p path];
    try destruct (orderedPair _ _); try discriminate; intros _; auto.
Qed.

(** X22: when [dedupeByName] returns, the segments it returns are segments of
    the input with pairwise different keys (the normalized name and the two
    end keys in order); every segment of the input has its key among them;
    and they pass a second [dedupeByName] unchanged. It throws only when a
    segment of the input has an empty path and lacks a node id. *)
Theorem dedupeByName_keeps_one_per_key (streets : list StreetSegment) :
  match dedupeByName streets with
  | Some result =>
      NoDup (map dedupeKey result)
      /\ (forall r, In r result -> In r streets /\ dedupeKey r <> None)
      /\ (forall s, In s streets -> exists r, In r result /\ dedupeKey r = dedupeKey s)
      /\ dedupeByName result = Some result
  | None =>
      exists street,
        In street streets /\ seg_path street = []
        /\ match seg_startNodeId street, seg_endNodeId street with
           | Some startNodeId, Some endNodeId =>
               truthy startNodeId && truthy endNodeId = false
           | _, _ => True
           end
  end.
Proof.
  destruct (dedupeByName streets) as [result|] eqn:E.
  - apply dedupeByName_result. assumption.
  - destruct (dedupeLoop_throws streets [] [] E) as [street [Hin Hkey]].
    exists street. split; [assumption|]. apply dedupeKey_none. assumption.
Qed.

(* ------------------------------------------------------------------ *)
(** ** [oddDegreeNodes] *)

Definition sumValues (m : Map string Z) : Z := fold_right Z.add 0%Z (map snd m).

Lemma sumValues_set (k : string) (v : Z) (m : Map string Z) :
  sumValues (JsMap.set k v m)
  = (sumValues m - (match JsMap.get k m with Some d => d | None => 0 end) + v)%Z.
Proof.
  unfold sumValues. induction m as [|[k' v'] m IH]; cbn [JsMap.set JsMap.get map fold_right].
  - cbn. lia.
  - destruct (eq_dec k k') as [->|Hne]; cbn [map fold_right snd]; [lia|].
    rewrite IH. lia.
Qed.

Lemma values_set_nonneg (k : string) (v : Z) (m : Map string Z) :
  (0 <= v)%Z -> Forall (fun entry => (0 <= snd entry)%Z) m ->
  Forall (fun entry => (0 <= snd entry)%Z) (JsMap.set k v m).
Proof.
  intros Hv Hm. induction Hm as [|[k' v'] m Hx Hm IH]; cbn [JsMap.set].
  - constructor; [assumption|constructor].
  - destruct (eq_dec k k'); constructor; assumption.
Qed.

Lemma get_nonneg (k : string) (m : Map string Z) :
  Forall (fun entry => (0 <= snd entry)%Z) m ->
  (0 <= match JsMap.get k m with Some d => d | None => 0 end)%Z.
Proof.
  intros Hm. destruct (JsMap.get k m) as [d|] eqn:E; [|lia].
  apply get_In in E. rewrite Forall_forall in Hm. apply (Hm (k, d) E).
Qed.

(** Every degree is not negative and the degrees add up to an even number. *)
Definition degreesEven (m : Map string Z) : Prop :=
  Forall (fun entry => (0 <= snd entry)%Z) m /\ Z.even (sumValues m) = true.

Lemma addDegree_sum (k : string) (count : Z) (m : Map string Z) :
  sumValues (addDegree k count m) = (sumValues m + count)%Z.
Proof. unfold addDegree. rewrite sumValues_set. lia. Qed.

Lemma addDegree_nonneg (k : string) (count : Z) (m : Map string Z) :
  (0 <= count)%Z -> Forall (fun entry => (0 <= snd entry)%Z) m ->
  Forall (fun entry => (0 <= snd entry)%Z) (addDegree k count m).
Proof.
  intros Hc Hm. unfold addDegree. apply values_set_nonneg; [|assumption].
  pose proof (get_nonneg k m Hm). lia.
Qed.

Lemma odd_count_parity (m : Map string Z) :
  Forall (fun entry => (0 <= snd entry)%Z) m ->
  Nat.even (length (filter (fun entry => (Z.rem (snd entry) 2 =? 1)%Z) m))
  = Z.even (sumValues m).
Proof.
  unfold sumValues. induction 1 as [|[k v] m Hv Hm IH]; [reflexivity|].
  cbn [filter map fold_right snd] in *.
  rewrite Z.even_add, <- IH.
  rewrite Z.rem_mod_nonneg by lia.
  rewrite (Zmod_even v).
  destruct (Z.even v) eqn:Ev.
  - change (0 =? 1)%Z with false. cbv iota. destruct (Nat.even _); reflexivity.
  - change (1 =? 1)%Z with true. cbv iota. cbn [length].
    rewrite Nat.even_succ, <- Nat.negb_even. destruct (Nat.even _); reflexivity.
Qed.

Lemma odd_nodes_come_in_pairs (multiset : Map string Z) (graph : StreetGraph) :
  Nat.even (length (oddDegreeNodes multiset graph)) = true.
Proof.
  unfold oddDegreeNodes. cbv zeta. rewrite length_map.
  assert (H0 : degreesEven
            (fold_left (fun degree nodeId => JsMap.set nodeId 0%Z degree)
               (JsMap.keys (nodes graph)) [])).
  { assert (Hz : forall m, Forall (fun entry : string * Z => snd entry = 0%Z) m ->
                           sumValues m = 0%Z).
    { unfold sumValues. induction 1 as [|[k v] m Hv _ IH]; [reflexivity|].
      cbn [map fold_right snd] in *. lia. }
    assert (Hall : forall ks m, Forall (fun entry : string * Z => snd entry = 0%Z) m ->
              Forall (fun entry : string * Z => snd entry = 0%Z)
                (fold_left (fun degree nodeId => JsMap.set nodeId 0%Z degree) ks m)).
    { induction ks as [|k ks IH]; intros m Hm; [assumption|].
      cbn [fold_left]. apply IH. clear IH.
      induction Hm as [|[k' v'] m Hx Hm IHm]; cbn [JsMap.set].
      - repeat constructor.
      - destruct (eq_dec k k'); constructor; auto. }
    specialize (Hall (JsMap.keys (nodes graph)) [] (Forall_nil _)).
    split.
    - eapply Forall_impl; [|exact Hall]. intros entry H. cbn in H. lia.
    - rewrite (Hz _ Hall). reflexivity. }
  revert H0. generalize (fold_left (fun degree nodeId => JsMap.set nodeId 0%Z degree)
                           (JsMap.keys (nodes graph)) []).
  induction multiset as [|[edgeId count] multiset IH]; intros degree [Hnn Heven].
  - cbn [fold_left]. rewrite (odd_count_parity degree Hnn). assumption.
  - cbn [fold_left]. apply IH.
    destruct (JsMap.get edgeId (edges graph)) as [edge|]; [|split; assumption].
    destruct (count <=? 0)%Z eqn:Ec; [split; assumption|].
    apply Z.leb_gt in Ec. split.
    + apply addDegree_nonneg; [lia|]. apply addDegree_nonneg; [lia|assumption].
    + rewrite !addDegree_sum.
      replace (sumValues degree + count + count)%Z with (sumValues degree + 2 * count)%Z by ring.
      rewrite Z.even_add_mul_2. assumption.
Qed.


(* ------------------------------------------------------------------ *)
(** ** [isPointInRing] *)

Lemma isPointOnSegment_pointAt (a b point : LatLng) (t : Q) :
  pointAt a b t point -> isPointOnSegment point a b = true.
Proof.
  intros [Ht0 [Ht1 [Hlat Hlon]]]. unfold isPointOnSegment. cbv zeta.
  assert (Hcross : (lat point - lat a) * (lon b - lon a)
                   - (lon point - lon a) * (lat b - lat a) == 0).
  { rewrite Hlat, Hlon. ring. }
  assert (Hno : Qltb ringTolerance
                  (Qabs ((lat point - lat a) * (lon b - lon a)
                         - (lon point - lon a) * (lat b - lat a))) = false).
  { apply Qltb_false_iff. rewrite Hcross. vm_compute. discriminate. }
  rewrite Hno.
  assert (Htol : 0 < ringTolerance) by reflexivity.
  assert (Hbetween : forall x y z : Q, z == x + t * (y - x) ->
            Qmin x y <= z /\ z <= Qmax x y).
  { intros x y z Hz. destruct (Qlt_le_dec x y) as [Hxy|Hxy].
    - rewrite (Q.min_l x y), (Q.max_r x y) by lra. split; nra.
    - rewrite (Q.min_r x y), (Q.max_l x y) by lra. split; nra. }
  destruct (Hbetween _ _ _ Hlat) as [H1 H2]. destruct (Hbetween _ _ _ Hlon) as [H3 H4].
  rewrite !andb_true_iff. repeat split; apply Qleb_true_iff; lra.
Qed.

Lemma ringScan_on_edge (point a : LatLng) (rest : list LatLng) (inside : bool)
    (x y : LatLng) :
  In (x, y) (segmentsOf (a :: rest)) ->
  isPointOnSegment point x y = true ->
  ringScan point a rest inside = true.
Proof.
  revert a inside. induction rest as [|b rest IH]; intros a inside Hin Hon.
  - destruct Hin.
  - cbn [ringScan]. unfold segmentsOf in Hin. cbn [tl combine] in Hin.
    destruct Hin as [Heq|Hin].
    + injection Heq as <- <-. rewrite Hon. reflexivity.
    + destruct (isPointOnSegment point a b); [reflexivity|].
      apply IH; assumption.
Qed.

(** X24: a ring of at least three points contains every point that lies on
    one of its edges, the edge from the last point back to the first one
    included; the corners of the ring are such points. *)
Theorem isPointInRing_contains_its_edges (ring : list LatLng) (a b point : LatLng) (t : Q) :
  (3 <= length ring)%nat ->
  In (a, b) (ringEdges ring) ->
  pointAt a b t point ->
  isPointInRing point ring = true.
Proof.
  intros Hlen Hin Hat. unfold isPointInRing.
  rewrite (proj2 (Nat.ltb_ge (length ring) 3) Hlen).
  apply (ringScan_on_edge point (last ring origin) ring false a b Hin).
  apply (isPointOnSegment_pointAt a b point t Hat).
Qed.

(** The theorem on a triangle, at the middle of the edge that closes it. *)
Lemma isPointInRing_contains_its_edges_witness :
  isPointInRing (mkLatLng 1 0) [mkLatLng 0 0; mkLatLng 0 2; mkLatLng 2 0] = true.
Proof.
  apply (isPointInRing_contains_its_edges
           [mkLatLng 0 0; mkLatLng 0 2; mkLatLng 2 0]
           (mkLatLng 2 0) (mkLatLng 0 0) (mkLatLng 1 0) (1 # 2)).
  - cbn. lia.
  - left. reflexivity.
  - unfold pointAt. cbn. repeat split; try apply Qle_bool_imp_le; reflexivity.
Defined.

(* ------------------------------------------------------------------ *)
(** ** [parseOverpassResponse]: where its segments come from *)

Lemma collectNodes_from (payload : OverpassPayload) (nodeId : Z) (point : LatLng) :
  JsMap.get nodeId (collectNodes payload) = Some point -> isPayloadNode payload point.
Proof.
  unfold collectNodes.
  assert (H : forall l nodeMap,
             incl l (payloadElements payload) ->
             (forall k p, JsMap.get k nodeMap = Some p -> isPayloadNode payload p) ->
             forall k p,
               JsMap.get k
                 (fold_left
                    (fun nodeMap element =>
                       match el_type element, el_lat element, el_lon element with
                       | ElNode, Some la, Some lo =>
                           JsMap.set (el_id element) (mkLatLng la lo) nodeMap
                       | _, _, _ => nodeMap
                       end) l nodeMap) = Some p ->
               isPayloadNode payload p).
  { induction l as [|element l IH]; intros nodeMap Hincl Hmap k p; [apply Hmap|].
    cbn [fold_left]. apply IH.
    - intros x Hx. apply Hincl. right. assumption.
    - intros k' p'. destruct (el_type element) eqn:Et; [|apply Hmap].
      destruct (el_lat element) as [la|] eqn:Ela; [|apply Hmap].
      destruct (el_lon element) as [lo|] eqn:Elo; [|apply Hmap].
      rewrite get_set. destruct (eq_dec k' (el_id element)); [|apply Hmap].
      intros E. injection E as <-. exists element.
      split; [apply Hincl; left; reflexivity|]. split; [assumption|].
      split; assumption. }
  apply (H (payloadElements payload) []).
  - apply incl_refl.
  - intros k p E. discriminate.
Qed.

Lemma lookupPath_points (nodeMap : Map Z LatLng) (ids : list Z) (path : list LatLng) :
  lookupPath nodeMap ids = Some path ->
  forall p, In p path -> exists nodeId, JsMap.get nodeId nodeMap = Some p.
Proof.
  revert path. induction ids as [|x ids IH]; intros path E p Hp; cbn [lookupPath] in E.
  - injection E as <-. destruct Hp.
  - destruct (JsMap.get x nodeMap) as [node|] eqn:Ex; [|discriminate].
    destruct (lookupPath nodeMap ids) as [rest|]; [|discriminate].
    cbn in E. injection E as <-. destruct Hp as [<-|Hp]; [eauto|].
    apply (IH rest eq_refl p Hp).
Qed.

(** What a produced segment has of its way. *)
Definition segmentOfWay (nodeMap : Map Z LatLng) (way : Way) (street : StreetSegment) : Prop :=
  seg_name street = way_name way
  /\ (2 <= length (seg_path street))%nat
  /\ (forall p, In p (seg_path street) -> exists nodeId, JsMap.get nodeId nodeMap = Some p)
  /\ seg_completed street = false /\ seg_source street = osm
  /\ exists a b, In a (way_nodes way) /\ In b (way_nodes way)
       /\ seg_startNodeId street = Some (osmNodeId a)
       /\ seg_endNodeId street = Some (osmNodeId b).

Lemma hd_In {A} (l : list A) (d : A) : l <> [] -> In (hd d l) l.
Proof. destruct l; [congruence|]. intros _. left. reflexivity. Qed.

Lemma last_In {A} (l : list A) (d : A) : l <> [] -> In (last l d) l.
Proof.
  induction l as [|x l IH]; [congruence|]. intros _.
  destruct l as [|y l]; [left; reflexivity|].
  right. apply IH. discriminate.
Qed.

Lemma splitSegment_of_way (nodeMap : Map Z LatLng) (way : Way) (splits : list nat)
    (i : nat) (street : StreetSegment) :
  In street (splitSegment nodeMap way splits i) -> segmentOfWay nodeMap way street.
Proof.
  unfold splitSegment.
  destruct (nth_error splits (i - 1)) as [fromIndex|]; [|intros []].
  destruct (nth_error splits i) as [toIndex|]; [|intros []].
  destruct (toIndex <=? fromIndex)%nat; [intros []|].
  destruct (length (slice (way_nodes way) fromIndex (toIndex + 1)) <? 2)%nat eqn:Elen;
    [intros []|].
  destruct (lookupPath nodeMap (slice (way_nodes way) fromIndex (toIndex + 1)))
    as [path|] eqn:Epath; [|intros []].
  destruct (length path <? 2)%nat eqn:Ep; [intros []|].
  intros [<-|[]]. apply Nat.ltb_ge in Elen, Ep.
  assert (Hne : slice (way_nodes way) fromIndex (toIndex + 1) <> []).
  { intros H. rewrite H in Elen. cbn in Elen. lia. }
  split; [reflexivity|]. split; [exact Ep|].
  split; [exact (lookupPath_points _ _ _ Epath)|].
  split; [reflexivity|]. split; [reflexivity|].
  exists (hd 0%Z (slice (way_nodes way) fromIndex (toIndex + 1))),
         (last (slice (way_nodes way) fromIndex (toIndex + 1)) 0%Z).
  split; [eapply In_slice; apply hd_In; assumption|].
  split; [eapply In_slice; apply last_In; assumption|].
  split; reflexivity.
Qed.

Lemma wholeWay_of_way (nodeMap : Map Z LatLng) (way : Way) (street : StreetSegment) :
  In street (wholeWay nodeMap way) -> segmentOfWay nodeMap way street.
Proof.
  unfold wholeWay.
  destruct (lookupPath nodeMap (way_nodes way)) as [path|] eqn:Epath; [|intros []].
  destruct (length path <? 2)%nat eqn:Ep; [intros []|].
  intros [<-|[]]. apply Nat.ltb_ge in Ep.
  assert (Hne : way_nodes way <> []).
  { intros H. apply lookupPath_length in Epath. rewrite H in Epath. cbn in Epath. lia. }
  split; [reflexivity|]. split; [exact Ep|].
  split; [exact (lookupPath_points _ _ _ Epath)|].
  split; [reflexivity|]. split; [reflexivity|].
  exists (hd 0%Z (way_nodes way)), (last (way_nodes way) 0%Z).
  split; [apply hd_In; assumption|]. split; [apply last_In; assumption|].
  split; reflexivity.
Qed.

Lemma retainedWay_runnable (element : OverpassElement) (way : Way) :
  retainedWay element = Some way ->
  exists tags name,
    el_type element = ElWay /\ el_tags element = Some tags
    /\ isRunnableCityStreet (Some tags) = true
    /\ tag_name tags = Some name /\ way_name way = jsTrim name
    /\ el_nodes element = Some (way_nodes way).
Proof.
  unfold retainedWay. destruct (el_type element); [discriminate|].
  destruct (isRunnableCityStreet (el_tags element)) eqn:Erun; [|discriminate].
  cbn [negb]. destruct (el_nodes element) as [ns|]; [|discriminate].
  destruct (length ns <? 2)%nat; [discriminate|].
  destruct (el_tags element) as [tags|]; [|discriminate].
  destruct (tag_name tags) as [name|] eqn:En; [|discriminate].
  destruct (negb _); [discriminate|].
  intros E. injection E as <-. exists tags, name. cbn. auto 7.
Qed.

(** X25: every segment that [parseOverpassResponse] returns has the trimmed
    name of a way of the payload that passes [isRunnableCityStreet], node ids
    made of two nodes of that way, a path of at least two points that are
    positions of node elements of the payload, and is an uncompleted [osm]
    segment. *)
Theorem parseOverpassResponse_segments_come_from_runnable_ways
    (payload : OverpassPayload) (street : StreetSegment) :
  In street (parseOverpassResponse payload) ->
  fromRunnableWay payload street
  /\ (2 <= length (seg_path street))%nat
  /\ Forall (isPayloadNode payload) (seg_path street)
  /\ seg_completed street = false
  /\ seg_source street = osm.
Proof.
  intros Hin.
  assert (Hway : exists way, In way (retainedWays payload)
                             /\ segmentOfWay (collectNodes payload) way street).
  { unfold parseOverpassResponse in Hin. cbv zeta in Hin.
    destruct (retainedWays payload) as [|w ws] eqn:Eways; [destruct Hin|].
    destruct (flat_map (splitWay (collectNodes payload) (countNodeUsage (w :: ws))) (w :: ws))
      as [|s0 segs] eqn:Esegs.
    - apply in_flat_map in Hin. destruct Hin as [way [Hw Hs]].
      exists way. split; [assumption|]. apply wholeWay_of_way. assumption.
    - rewrite <- Esegs in Hin. apply in_flat_map in Hin. destruct Hin as [way [Hw Hs]].
      exists way. split; [assumption|].
      unfold splitWay in Hs. cbv zeta in Hs. apply in_flat_map in Hs.
      destruct Hs as [i [_ Hs]]. eapply splitSegment_of_way. eassumption. }
  destruct Hway as [way [Hw [Hname [Hlen [Hpts [Hdone [Hsrc [a [b [Ha [Hb [Hs He]]]]]]]]]]]].
  unfold retainedWays in Hw. apply in_flat_map in Hw. destruct Hw as [element [Hel Hw]].
  destruct (retainedWay element) as [w|] eqn:Eret; [|destruct Hw].
  destruct Hw as [->|[]].
  destruct (retainedWay_runnable element way Eret)
    as [tags [name [Ht [Htags [Hrun [Hn [Hwn Hns]]]]]]].
  split.
  - exists element, tags, name, (way_nodes way), a, b.
    rewrite Hname, Hwn. auto 12.
  - split; [assumption|]. split; [|split; assumption].
    apply Forall_forall. intros p Hp. destruct (Hpts p Hp) as [nodeId Hget].
    apply (collectNodes_from payload nodeId p Hget).
Qed.

(** The theorem on the first segment of two ways that cross at node 2. *)
Lemma parseOverpassResponse_segments_come_from_runnable_ways_witness :
  exists street,
    hd_error (parseOverpassResponse crossingPayload) = Some street
    /\ seg_id street = "osm-10-1-2-1"
    /\ fromRunnableWay crossingPayload street
    /\ Forall (isPayloadNode crossingPayload) (seg_path street).
Proof.
  destruct (parseOverpassResponse crossingPayload) as [|street rest] eqn:E;
    [vm_compute in E; discriminate|].
  exists street. split; [reflexivity|].
  assert (Hin : In street (parseOverpassResponse crossingPayload))
    by (rewrite E; left; reflexivity).
  split; [vm_compute in E; injection E as <- _; reflexivity|].
  destruct (parseOverpassResponse_segments_come_from_runnable_ways crossingPayload street Hin)
    as [H1 [_ [H3 _]]].
  split; assumption.
Defined.

(* ------------------------------------------------------------------ *)
(** ** [polylineDistanceKm] against the direct distance *)

Lemma flatKm_triangle (a b c : LatLng) : flatKm a c <= flatKm a b + flatKm b c.
Proof.
  unfold flatKm.
  assert (Hk : 0 <= kmPerDegree) by (vm_compute; discriminate).
  assert (H1 : Qabs (lat a - lat c) <= Qabs (lat a - lat b) + Qabs (lat b - lat c)).
  { assert (E : lat a - lat c == (lat a - lat b) + (lat b - lat c)) by ring.
    rewrite E. apply Qabs_triangle. }
  assert (H2 : Qabs (lon a - lon c) <= Qabs (lon a - lon b) + Qabs (lon b - lon c)).
  { assert (E : lon a - lon c == (lon a - lon b) + (lon b - lon c)) by ring.
    rewrite E. apply Qabs_triangle. }
  nra.
Qed.

Section PolylineLength.

Variable haversineKm : LatLng -> LatLng -> Q.
Hypothesis haversine_triangle :
  forall a b c, haversineKm a c <= haversineKm a b + haversineKm b c.

Lemma polyline_direct (a b : LatLng) (rest : list LatLng) :
  haversineKm a (last (b :: rest) origin) <= polylineDistanceKm haversineKm (a :: b :: rest).
Proof.
  revert a b. induction rest as [|c rest IH]; intros a b.
  - cbn. lra.
  - change (last (b :: c :: rest) origin) with (last (c :: rest) origin).
    change (polylineDistanceKm haversineKm (a :: b :: c :: rest))
      with (haversineKm a b + polylineDistanceKm haversineKm (b :: c :: rest)).
    pose proof (IH b c) as H.
    pose proof (haversine_triangle a b (last (c :: rest) origin)) as Ht. lra.
Qed.

End PolylineLength.

(** X26: when the distance function obeys the triangle inequality, the
    length that [polylineDistanceKm] gives a path of at least two points is
    never less than the distance from its first point to its last one. *)
Theorem polylineDistanceKm_at_least_direct
    (haversineKm : LatLng -> LatLng -> Q) (path : list LatLng) :
  (forall a b c, haversineKm a c <= haversineKm a b + haversineKm b c) ->
  (2 <= length path)%nat ->
  haversineKm (firstPoint path) (lastPoint path) <= polylineDistanceKm haversineKm path.
Proof.
  intros Htri Hlen. destruct path as [|a [|b rest]]; [cbn in Hlen; lia|cbn in Hlen; lia|].
  unfold firstPoint, lastPoint. cbn [hd].
  change (last (a :: b :: rest) origin) with (last (b :: rest) origin).
  apply polyline_direct. assumption.
Qed.

(** The theorem on a path around a corner. *)
Lemma polylineDistanceKm_at_least_direct_witness :
  flatKm (mkLatLng 0 0) (mkLatLng 1 1)
  <= polylineDistanceKm flatKm [mkLatLng 0 0; mkLatLng 0 1; mkLatLng 1 1].
Proof.
  apply (polylineDistanceKm_at_least_direct flatKm
           [mkLatLng 0 0; mkLatLng 0 1; mkLatLng 1 1]).
  - exact flatKm_triangle.
  - cbn. lia.
Defined.

(* ------------------------------------------------------------------ *)
(** ** [parseCsvRows] reads back what was written *)

Lemma splitCommas_plain (x piece rest : list ascii) :
  ~ In ","%char x -> splitCommas (x ++ rest) piece = splitCommas rest (piece ++ x).
Proof.
  revert piece. induction x as [|c x IH]; intros piece Hno.
  - cbn. rewrite app_nil_r. reflexivity.
  - cbn [app splitCommas]. destruct (Ascii.eqb c ",") eqn:E.
    + apply Ascii.eqb_eq in E. exfalso. apply Hno. left. assumption.
    + rewrite IH by (intros H; apply Hno; right; assumption).
      rewrite <- app_assoc. reflexivity.
Qed.

Lemma splitCommas_join (row : list (list ascii)) (piece : list ascii) :
  row <> [] -> Forall (fun cell => ~ In ","%char cell) row ->
  splitCommas (joinWith [","%char] row) piece = (piece ++ hd [] row) :: tl row.
Proof.
  revert piece. induction row as [|x row IH]; intros piece Hne Hall; [congruence|].
  inversion Hall as [|? ? Hx Hrow]; subst.
  destruct row as [|y row].
  - cbn [joinWith hd tl]. rewrite <- (app_nil_r x) at 1.
    rewrite splitCommas_plain by assumption. reflexivity.
  - change (joinWith [","%char] (x :: y :: row))
      with (x ++ ","%char :: joinWith [","%char] (y :: row)).
    rewrite splitCommas_plain by assumption.
    cbn [splitCommas]. change (Ascii.eqb "," ",") with true. cbv iota.
    rewrite IH by (assumption || discriminate). reflexivity.
Qed.

(** The piece does not end with a carriage return. *)
Definition noFinalReturn (x : list ascii) : Prop :=
  forall before, x <> before ++ [carriageReturn].

Lemma splitLines_plain (x piece rest : list ascii) :
  ~ In lineFeed x -> noFinalReturn x ->
  splitLines (x ++ rest) piece = splitLines rest (piece ++ x).
Proof.
  revert piece. induction x as [|c x IH]; intros piece Hno Hend.
  - cbn. rewrite app_nil_r. reflexivity.
  - assert (Hc : Ascii.eqb c lineFeed = false).
    { apply Ascii.eqb_neq. intros ->. apply Hno. left. reflexivity. }
    assert (Hx : ~ In lineFeed x) by (intros H; apply Hno; right; assumption).
    assert (Hend' : noFinalReturn x).
    { intros before E. apply (Hend (c :: before)). rewrite E. reflexivity. }
    specialize (IH (piece ++ [c]) Hx Hend'). rewrite <- app_assoc in IH. cbn [app] in IH.
    cbn [app splitLines]. rewrite Hc.
    destruct (x ++ rest) as [|n rest'] eqn:Erest.
    + destruct x; [|discriminate]. cbn in Erest. subst rest. reflexivity.
    + destruct (Ascii.eqb c carriageReturn && Ascii.eqb n lineFeed) eqn:E; [|exact IH].
      exfalso. apply andb_true_iff in E. destruct E as [E1 E2].
      apply Ascii.eqb_eq in E1, E2. subst c n.
      destruct x as [|n x].
      * apply (Hend []). reflexivity.
      * cbn in Erest. injection Erest as -> _. apply Hx. left. reflexivity.
Qed.

Lemma splitLines_join (lines : list (list ascii)) (piece : list ascii) :
  lines <> [] ->
  Forall (fun line => ~ In lineFeed line /\ noFinalReturn line) lines ->
  splitLines (joinWith [lineFeed] lines) piece = (piece ++ hd [] lines) :: tl lines.
Proof.
  revert piece. induction lines as [|x lines IH]; intros piece Hne Hall; [congruence|].
  inversion Hall as [|? ? [Hx Hend] Hrest]; subst.
  destruct lines as [|y lines].
  - cbn [joinWith hd tl]. rewrite <- (app_nil_r x) at 1.
    rewrite splitLines_plain by assumption. reflexivity.
  - change (joinWith [lineFeed] (x :: y :: lines))
      with (x ++ lineFeed :: joinWith [lineFeed] (y :: lines)).
    rewrite splitLines_plain by assumption.
    cbn [splitLines]. change (Ascii.eqb lineFeed lineFeed) with true. cbv iota.
    rewrite IH by (assumption || discriminate). reflexivity.
Qed.

Lemma joinWith_last (sep : list ascii) (parts : list (list ascii)) (x : list ascii) :
  parts <> [] -> joinWith sep (parts ++ [x]) = joinWith sep parts ++ sep ++ x.
Proof.
  induction parts as [|p parts IH]; [congruence|]. intros _.
  destruct parts as [|q parts]; [reflexivity|].
  change (joinWith sep ((p :: q :: parts) ++ [x]))
    with (p ++ sep ++ joinWith sep ((q :: parts) ++ [x])).
  rewrite IH by discriminate.
  change (joinWith sep (p :: q :: parts)) with (p ++ sep ++ joinWith sep (q :: parts)).
  rewrite <- !app_assoc. reflexivity.
Qed.

(** A joined row begins as its first cell does, or with the separator. *)
Lemma joinWith_noLeadingWs (c : ascii) (row : list (list ascii)) :
  isWhitespace c = false -> Forall noLeadingWs row -> noLeadingWs (joinWith [c] row).
Proof.
  intros Hc Hall. destruct row as [|x row]; [exact I|].
  inversion Hall as [|? ? Hx _]; subst.
  destruct row as [|y row]; [exact Hx|].
  change (joinWith [c] (x :: y :: row)) with (x ++ c :: joinWith [c] (y :: row)).
  destruct x as [|a x]; [exact Hc|exact Hx].
Qed.

Lemma joinWith_rev (c : ascii) (row : list (list ascii)) :
  rev (joinWith [c] row) = joinWith [c] (map (@rev ascii) (rev row)).
Proof.
  induction row as [|x row IH]; [reflexivity|].
  destruct row as [|y row]; [reflexivity|].
  change (joinWith [c] (x :: y :: row)) with (x ++ [c] ++ joinWith [c] (y :: row)).
  rewrite !rev_app_distr, IH.
  change (rev (x :: y :: row)) with (rev (y :: row) ++ [x]).
  rewrite map_app. cbn [map].
  rewrite joinWith_last; [rewrite <- app_assoc; reflexivity|].
  intros H. apply map_eq_nil in H. apply (f_equal (@rev _)) in H.
  rewrite rev_involutive in H. discriminate.
Qed.

Lemma joinWith_char (c a : ascii) (row : list (list ascii)) :
  In a (joinWith [c] row) -> a = c \/ exists cell, In cell row /\ In a cell.
Proof.
  induction row as [|x row IH]; [intros []|].
  destruct row as [|y row].
  - intros H. right. exists x. split; [left; reflexivity|assumption].
  - change (joinWith [c] (x :: y :: row)) with (x ++ c :: joinWith [c] (y :: row)).
    intros H. apply in_app_or in H. destruct H as [H|[H|H]].
    + right. exists x. split; [left; reflexivity|assumption].
    + left. congruence.
    + destruct (IH H) as [E|[cell [Hc Ha]]]; [left; assumption|].
      right. exists cell. split; [right; assumption|assumption].
Qed.

Lemma trimmed_ends (l : list ascii) :
  trimChars l = l -> noLeadingWs l /\ noLeadingWs (rev l).
Proof.
  intros E. destruct (trimChars_split l) as [before [after [_ [H1 H2]]]].
  rewrite E in H1, H2. split; assumption.
Qed.

Lemma noLeadingWs_noFinalReturn (l : list ascii) : noLeadingWs (rev l) -> noFinalReturn l.
Proof.
  intros H before E. rewrite E, rev_app_distr in H. cbn in H. discriminate.
Qed.

(** Cells on lists of characters. *)
Definition cleanChars (cell : list ascii) : Prop :=
  trimChars cell = cell /\ ~ In ","%char cell /\ ~ In lineFeed cell.

Lemma cleanCell_chars (cell : string) :
  cleanCell cell -> cleanChars (list_ascii_of_string cell).
Proof.
  intros [Ht [Hc Hl]]. split; [|split; assumption].
  unfold jsTrim in Ht. apply (f_equal list_ascii_of_string) in Ht.
  rewrite list_ascii_of_string_of_list_ascii in Ht. exact Ht.
Qed.

Lemma clean_line (row : list (list ascii)) :
  Forall cleanChars row ->
  trimChars (joinWith [","%char] row) = joinWith [","%char] row
  /\ ~ In lineFeed (joinWith [","%char] row)
  /\ noFinalReturn (joinWith [","%char] row).
Proof.
  intros Hall.
  assert (Hends : noLeadingWs (joinWith [","%char] row)
                  /\ noLeadingWs (rev (joinWith [","%char] row))).
  { split.
    - apply joinWith_noLeadingWs; [reflexivity|].
      eapply Forall_impl; [|exact Hall]. intros cell [Ht _]. apply trimmed_ends. assumption.
    - rewrite joinWith_rev. apply joinWith_noLeadingWs; [reflexivity|].
      apply Forall_forall. intros x Hx. apply in_map_iff in Hx.
      destruct Hx as [cell [<- Hcell]]. apply in_rev in Hcell.
      rewrite Forall_forall in Hall. destruct (Hall cell Hcell) as [Ht _].
      apply trimmed_ends. assumption. }
  destruct Hends as [H1 H2]. split; [apply trimChars_fixed; assumption|].
  split; [|apply noLeadingWs_noFinalReturn; assumption].
  intros Hin. apply joinWith_char in Hin. destruct Hin as [E|[cell [Hc Ha]]]; [discriminate|].
  rewrite Forall_forall in Hall. destruct (Hall cell Hc) as [_ [_ Hl]]. contradiction.
Qed.

Lemma parseCsvChars_reads_back (rows : list (list (list ascii))) :
  Forall (fun row => row <> [] /\ row <> [[]] /\ Forall cleanChars row) rows ->
  parseCsvChars (joinWith [lineFeed] (map (joinWith [","%char]) rows)) = rows.
Proof.
  intros Hrows. unfold parseCsvChars.
  destruct rows as [|row0 rows0] eqn:Erows; [reflexivity|]. rewrite <- Erows in *.
  assert (Hne : map (joinWith [","%char]) rows <> []) by (rewrite Erows; discriminate).
  rewrite splitLines_join.
  2: exact Hne.
  2:{ apply Forall_forall. intros line Hline. apply in_map_iff in Hline.
      destruct Hline as [row [<- Hrow]]. rewrite Forall_forall in Hrows.
      destruct (Hrows row Hrow) as [_ [_ Hcells]].
      destruct (clean_line row Hcells) as [_ [H2 H3]]. split; assumption. }
  assert (Hlines : (([] : list ascii) ++ hd [] (map (joinWith [","%char]) rows))
                   :: tl (map (joinWith [","%char]) rows)
                   = map (joinWith [","%char]) rows).
  { cbn [app]. destruct (map (joinWith [","%char]) rows); [congruence|reflexivity]. }
  rewrite Hlines. clear Hlines Hne Erows row0 rows0.
  induction Hrows as [|row rows [Hr1 [Hr2 Hcells]] Hrows IH]; [reflexivity|].
  cbn [map filter].
  destruct (clean_line row Hcells) as [Htrim _]. rewrite Htrim.
  assert (Hlen : (0 <? length (joinWith [","%char] row))%nat = true).
  { apply Nat.ltb_lt. destruct row as [|x row]; [congruence|].
    destruct row as [|y row].
    - cbn [joinWith]. destruct x; [congruence|cbn; lia].
    - change (joinWith [","%char] (x :: y :: row))
        with (x ++ ","%char :: joinWith [","%char] (y :: row)).
      rewrite length_app. cbn [length]. lia. }
  rewrite Hlen. cbn [map]. f_equal; [|exact IH].
  rewrite splitCommas_join.
  - cbn [app]. destruct row as [|x row]; [congruence|]. cbn [hd tl map].
    inversion Hcells as [|? ? [Hx _] Hrest]; subst. rewrite Hx. f_equal.
    clear - Hrest. induction Hrest as [|y row [Hy _] _ IH]; [reflexivity|].
    cbn [map]. rewrite Hy, IH. reflexivity.
  - assumption.
  - eapply Forall_impl; [|exact Hcells]. intros cell [_ [Hc _]]. assumption.
Qed.

(** X27: rows of clean cells written as text, the cells of a row joined by
    commas and the rows by line feeds, are read back as they were by
    [parseCsvRows]. A clean cell is one that [trim] leaves as it is and that
    holds neither a comma nor a line feed; the line of a row is not empty. *)
Theorem parseCsvRows_reads_back_rows (rows : list (list string)) :
  Forall cleanRow rows -> parseCsvRows (csvText rows) = rows.
Proof.
  intros Hrows. unfold parseCsvRows, csvText.
  rewrite list_ascii_of_string_of_list_ascii.
  rewrite <- (map_map (map list_ascii_of_string) (joinWith [","%char])).
  rewrite parseCsvChars_reads_back.
  - rewrite map_map. rewrite <- (map_id rows) at 2. apply map_ext. intros row.
    rewrite map_map. rewrite <- (map_id row) at 2. apply map_ext. intros cell.
    apply string_of_list_ascii_of_string.
  - apply Forall_forall. intros chars Hin. apply in_map_iff in Hin.
    destruct Hin as [row [<- Hrow]]. rewrite Forall_forall in Hrows.
    destruct (Hrows row Hrow) as [H1 [H2 H3]]. split; [|split].
    + destruct row; [congruence|discriminate].
    + destruct row as [|x [|y row]]; [congruence| |discriminate].
      destruct x; [congruence|discriminate].
    + apply Forall_forall. intros chars Hin. apply in_map_iff in Hin.
      destruct Hin as [cell [<- Hcell]]. apply cleanCell_chars.
      rewrite Forall_forall in H3. apply H3. assumption.
Qed.

(** The theorem on two rows, one with an empty cell. *)
Lemma parseCsvRows_reads_back_rows_witness :
  parseCsvRows (csvText [["Elm Street"; "done"]; ["Oak Ave"; ""]])
  = [["Elm Street"; "done"]; ["Oak Ave"; ""]].
Proof.
  apply (parseCsvRows_reads_back_rows [["Elm Street"; "done"]; ["Oak Ave"; ""]]).
  repeat constructor; try discriminate; try reflexivity;
    cbn; intros H; repeat (destruct H as [H|H]; [discriminate|]); exact H.
Defined.

(* ------------------------------------------------------------------ *)
(** ** [eulerizeEdgeSet] *)

(** A sum over the entries of a map. *)
Definition sumOver (f : string -> Z -> Z) (m : Map string Z) : Z :=
  fold_right (fun entry acc => (f (fst entry) (snd entry) + acc)%Z) 0%Z m.

Lemma sumOver_set (f : string -> Z -> Z) (k : string) (v : Z) (m : Map string Z) :
  sumOver f (JsMap.set k v m)
  = (sumOver f m - match JsMap.get k m with Some old => f k old | None => 0 end + f k v)%Z.
Proof.
  unfold sumOver. induction m as [|[k' v'] m IH]; cbn [JsMap.set JsMap.get fold_right].
  - cbn. lia.
  - destruct (eq_dec k k') as [->|Hne]; cbn [fold_right fst snd]; [lia|].
    rewrite IH. lia.
Qed.

Lemma set_Forall_values (P : Z -> Prop) (k : string) (v : Z) (m : Map string Z) :
  P v -> Forall (fun entry => P (snd entry)) m ->
  Forall (fun entry => P (snd entry)) (JsMap.set k v m).
Proof.
  intros Hv Hm. induction Hm as [|[k' v'] m Hx Hm IH]; cbn [JsMap.set].
  - constructor; [assumption|constructor].
  - destruct (eq_dec k k'); constructor; assumption.
Qed.

Lemma rem_odd (d : Z) : (0 <= d)%Z -> (Z.rem d 2 =? 1)%Z = Z.odd d.
Proof.
  intros Hd. rewrite Z.rem_mod_nonneg by lia. rewrite Zmod_odd.
  destruct (Z.odd d); reflexivity.
Qed.

Lemma spliceOne_split {A} (l : list A) (i : nat) (x : A) :
  nth_error l i = Some x -> l = firstn i l ++ x :: skipn (S i) l.
Proof.
  revert i. induction l as [|a l IH]; intros [|i] E; cbn in E; try discriminate.
  - injection E as ->. reflexivity.
  - cbn [firstn skipn app]. f_equal. apply IH. assumption.
Qed.

Section Eulerize.

Variable graph : StreetGraph.

(** How many ends of the edge are at the node. *)
Definition endsAt (edgeId v : string) : Z :=
  match JsMap.get edgeId (edges graph) with
  | Some edge =>
      ((if eqb (edge_from edge) v then 1 else 0) + (if eqb (edge_to edge) v then 1 else 0))%Z
  | None => 0%Z
  end.

(** What an entry of the multiset adds to the degree of the node. *)
Definition share (v edgeId : string) (count : Z) : Z :=
  if (count <=? 0)%Z then 0%Z else (count * endsAt edgeId v)%Z.

Definition degreeIn (multiset : Map string Z) (v : string) : Z :=
  sumOver (share v) multiset.

Definition valueAt (degree : Map string Z) (v : string) : Z :=
  match JsMap.get v degree with Some d => d | None => 0%Z end.

Lemma endsAt_nonneg (edgeId v : string) : (0 <= endsAt edgeId v)%Z.
Proof.
  unfold endsAt. destruct (JsMap.get edgeId (edges graph)) as [edge|]; [|lia].
  destruct (eqb (edge_from edge) v), (eqb (edge_to edge) v); lia.
Qed.

Lemma degreeIn_nonneg (multiset : Map string Z) (v : string) : (0 <= degreeIn multiset v)%Z.
Proof.
  induction multiset as [|[e c] m IH]; [cbn; lia|].
  change (degreeIn ((e, c) :: m) v) with (share v e c + degreeIn m v)%Z.
  unfold share. pose proof (endsAt_nonneg e v).
  destruct (c <=? 0)%Z eqn:E; [lia|]. apply Z.leb_gt in E. nia.
Qed.

Lemma valueAt_addDegree (k : string) (count : Z) (degree : Map string Z) (v : string) :
  valueAt (addDegree k count degree) v
  = (valueAt degree v + if eqb k v then count else 0)%Z.
Proof.
  unfold addDegree, valueAt. rewrite get_set. unfold eqb.
  destruct (eq_dec v k) as [->|Hne].
  - destruct (eq_dec k k); [|congruence]. destruct (JsMap.get k degree); lia.
  - destruct (eq_dec k v); [congruence|]. lia.
Qed.

Lemma degree_fold (multiset degree : Map string Z) (v : string) :
  valueAt
    (fold_left
       (fun degree (entry : string * Z) =>
          let '(edgeId, count) := entry in
          match JsMap.get edgeId (edges graph) with
          | None => degree
          | Some edge =>
              if (count <=? 0)%Z then degree
              else addDegree (edge_to edge) count (addDegree (edge_from edge) count degree)
          end)
       multiset degree) v
  = (valueAt degree v + degreeIn multiset v)%Z.
Proof.
  revert degree. induction multiset as [|[e c] m IH]; intros degree.
  - cbn. lia.
  - cbn [fold_left]. rewrite IH.
    change (degreeIn ((e, c) :: m) v) with (share v e c + degreeIn m v)%Z.
    unfold share, endsAt.
    destruct (JsMap.get e (edges graph)) as [edge|].
    + destruct (c <=? 0)%Z; [lia|]. rewrite !valueAt_addDegree.
      destruct (eqb (edge_from edge) v), (eqb (edge_to edge) v); lia.
    + destruct (c <=? 0)%Z; lia.
Qed.

Lemma degree_fold_NoDup (multiset degree : Map string Z) :
  NoDup (JsMap.keys degree) ->
  NoDup (JsMap.keys
    (fold_left
       (fun degree (entry : string * Z) =>
          let '(edgeId, count) := entry in
          match JsMap.get edgeId (edges graph) with
          | None => degree
          | Some edge =>
              if (count <=? 0)%Z then degree
              else addDegree (edge_to edge) count (addDegree (edge_from edge) count degree)
          end)
       multiset degree)).
Proof.
  revert degree. induction multiset as [|[e c] m IH]; intros degree Hnd; [assumption|].
  cbn [fold_left]. apply IH.
  destruct (JsMap.get e (edges graph)) as [edge|]; [|assumption].
  destruct (c <=? 0)%Z; [assumption|].
  unfold addDegree. apply keys_set_NoDup. apply keys_set_NoDup. assumption.
Qed.

Lemma zero_fold (ks : list string) (degree : Map string Z) :
  NoDup (JsMap.keys degree) -> (forall v, valueAt degree v = 0%Z) ->
  NoDup (JsMap.keys (fold_left (fun degree nodeId => JsMap.set nodeId 0%Z degree) ks degree))
  /\ forall v,
       valueAt (fold_left (fun degree nodeId => JsMap.set nodeId 0%Z degree) ks degree) v
       = 0%Z.
Proof.
  revert degree. induction ks as [|k ks IH]; intros degree Hnd Hz; [split; assumption|].
  cbn [fold_left]. apply IH.
  - apply keys_set_NoDup. assumption.
  - intros v. unfold valueAt. rewrite get_set. destruct (eq_dec v k); [reflexivity|].
    apply Hz.
Qed.

(** The table of degrees that [oddDegreeNodes] filters. *)
Lemma oddDegreeNodes_table (multiset : Map string Z) :
  exists degree,
    oddDegreeNodes multiset graph
    = map fst (filter (fun entry => (Z.rem (snd entry) 2 =? 1)%Z) degree)
    /\ NoDup (JsMap.keys degree)
    /\ forall v, valueAt degree v = degreeIn multiset v.
Proof.
  eexists. split; [reflexivity|].
  destruct (zero_fold (JsMap.keys (nodes graph)) [] (NoDup_nil _) (fun v => eq_refl))
    as [Hnd0 Hz0].
  split.
  - apply degree_fold_NoDup. exact Hnd0.
  - intros v. rewrite degree_fold, Hz0. lia.
Qed.

(** [oddDegreeNodes] lists the nodes of odd degree, each one once. *)
Lemma oddDegreeNodes_In (multiset : Map string Z) (v : string) :
  In v (oddDegreeNodes multiset graph) <-> Z.odd (degreeIn multiset v) = true.
Proof.
  destruct (oddDegreeNodes_table multiset) as [degree [-> [Hnd Hval]]].
  specialize (Hval v). pose proof (degreeIn_nonneg multiset v) as Hnn.
  split.
  - intros Hin. apply in_map_iff in Hin. destruct Hin as [[k d] [Hk Hin]]. cbn in Hk. subst k.
    apply filter_In in Hin. destruct Hin as [Hin Hodd]. cbn [snd] in Hodd.
    apply (get_of_entry _ _ _ Hnd) in Hin.
    unfold valueAt in Hval. rewrite Hin in Hval. subst d.
    rewrite <- rem_odd; assumption.
  - intros Hodd. unfold valueAt in Hval.
    destruct (JsMap.get v degree) as [d|] eqn:Eget.
    + apply in_map_iff. exists (v, d). split; [reflexivity|].
      apply filter_In. split; [apply get_In; assumption|]. cbn [snd].
      subst d. rewrite rem_odd; assumption.
    + rewrite <- Hval in Hodd. discriminate.
Qed.

Lemma oddDegreeNodes_NoDup (multiset : Map string Z) :
  NoDup (oddDegreeNodes multiset graph).
Proof.
  destruct (oddDegreeNodes_table multiset) as [degree [-> [Hnd _]]].
  revert Hnd. unfold JsMap.keys. induction degree as [|[k d] m IH]; intros Hnd.
  - constructor.
  - cbn [map fst] in Hnd. inversion Hnd as [|? ? Hk Hm]; subst. cbn [filter snd].
    destruct (Z.rem d 2 =? 1)%Z; [|apply IH; assumption].
    cbn [map fst]. constructor; [|apply IH; assumption].
    intros Hin. apply Hk. apply in_map_iff in Hin. destruct Hin as [[k' d'] [E Hin]].
    cbn in E. subst k'. apply filter_In in Hin. destruct Hin as [Hin _].
    apply in_map_iff. exists (k, d'). auto.
Qed.

(** *** Counting a path into the multiset *)

Definition positiveCounts (multiset : Map string Z) : Prop :=
  Forall (fun entry => (1 <= snd entry)%Z) multiset.

Definition sumEnds (edgeIds : list string) (v : string) : Z :=
  fold_right (fun edgeId acc => (endsAt edgeId v + acc)%Z) 0%Z edgeIds.

Lemma countPath_degree (path : list string) (multiset : Map string Z) :
  positiveCounts multiset ->
  positiveCounts (countPath path multiset)
  /\ (forall v, degreeIn (countPath path multiset) v
                = (degreeIn multiset v + sumEnds path v)%Z)
  /\ (forall e c, JsMap.get e multiset = Some c ->
        exists c', JsMap.get e (countPath path multiset) = Some c' /\ (c <= c')%Z).
Proof.
  unfold countPath. revert multiset. induction path as [|e path IH]; intros multiset Hpos.
  - cbn [fold_left]. split; [assumption|].
    split; [intros v; unfold sumEnds; cbn [fold_right]; lia|].
    intros e c E. exists c. split; [assumption|lia].
  - cbn [fold_left].
    assert (Hold : (match JsMap.get e multiset with Some c => c | None => 0 end = 0
                    /\ JsMap.get e multiset = None)%Z
                   \/ exists c, JsMap.get e multiset = Some c /\ (1 <= c)%Z).
    { destruct (JsMap.get e multiset) as [c|] eqn:E; [right|left; auto].
      exists c. split; [reflexivity|]. apply get_In in E.
      unfold positiveCounts in Hpos. rewrite Forall_forall in Hpos. apply (Hpos (e, c) E). }
    set (next := JsMap.set e _ multiset).
    assert (Hpos' : positiveCounts next).
    { apply set_Forall_values; [|assumption].
      destruct Hold as [[-> _]|[c [-> Hc]]]; lia. }
    destruct (IH next Hpos') as [H1 [H2 H3]].
    split; [assumption|]. split.
    + intros v. rewrite H2. cbn [sumEnds fold_right]. fold (sumEnds path v).
      unfold degreeIn, next. rewrite sumOver_set. unfold share.
      destruct Hold as [[-> ->]|[c [-> Hc]]].
      * change (0 + 1 <=? 0)%Z with false. cbv iota. lia.
      * rewrite (proj2 (Z.leb_gt (c + 1) 0)) by lia.
        rewrite (proj2 (Z.leb_gt c 0)) by lia. lia.
    + intros e0 c0 E0.
      assert (Hnext : exists c1, JsMap.get e0 next = Some c1 /\ (c0 <= c1)%Z).
      { unfold next. rewrite get_set. destruct (eq_dec e0 e) as [->|Hne].
        - rewrite E0. eexists. split; [reflexivity|]. lia.
        - exists c0. split; [assumption|lia]. }
      destruct Hnext as [c1 [E1 Hle]]. destruct (H3 e0 c1 E1) as [c' [E' Hle']].
      exists c'. split; [assumption|lia].
Qed.

End Eulerize.

(** X23: [oddDegreeNodes] lists, each one once, exactly the nodes at which
    the counted edge ends add up to an odd number (an entry of the multiset
    adds its count for each end of its edge at the node, when the count is
    positive and the graph has the edge), and it lists an even number of
    nodes, whatever the multiset (of whole numbers) and the graph. *)
Theorem oddDegreeNodes_even_count (multiset : Map string Z) (graph : StreetGraph) :
  NoDup (oddDegreeNodes multiset graph)
  /\ (forall v, In v (oddDegreeNodes multiset graph)
                <-> Z.odd (degreeIn graph multiset v) = true)
  /\ Nat.even (length (oddDegreeNodes multiset graph)) = true.
Proof.
  split; [apply oddDegreeNodes_NoDup|].
  split; [intros v; apply oddDegreeNodes_In|].
  apply odd_nodes_come_in_pairs.
Qed.

Section EulerizeLoop.

Variable graph : StreetGraph.
Hypothesis edges_nonneg :
  forall e edge, JsMap.get e (edges graph) = Some edge -> 0 <= edge_distanceKm edge.
Hypothesis record_ends :
  forall u nb edge,
    In nb (neighborsOf graph u) ->
    JsMap.get (nb_edgeId nb) (edges graph) = Some edge ->
    (edge_from edge = u /\ edge_to edge = nb_neighbor nb)
    \/ (edge_to edge = u /\ edge_from edge = nb_neighbor nb).

(** Along a path only the two ends see an odd number of edge ends. *)
Lemma walk_parity (a b : string) (edgeIds : list string) (v : string) :
  pathInGraph graph a edgeIds b = true ->
  Z.odd (sumEnds graph edgeIds v) = xorb (eqb a v) (eqb b v).
Proof.
  revert a. induction edgeIds as [|e edgeIds IH]; intros a Hpath.
  - cbn in Hpath. apply eqb_true_iff in Hpath. subst b. cbn.
    destruct (eqb a v); reflexivity.
  - cbn [pathInGraph] in Hpath. apply andb_true_iff in Hpath.
    destruct Hpath as [Hhas Hex]. apply existsb_exists in Hex.
    destruct Hex as [nb [Hnb Hstep]]. apply andb_true_iff in Hstep.
    destruct Hstep as [Hid Hrest]. apply eqb_true_iff in Hid.
    unfold JsMap.has in Hhas.
    destruct (JsMap.get e (edges graph)) as [edge|] eqn:Eedge; [|discriminate].
    assert (Hends : (edge_from edge = a /\ edge_to edge = nb_neighbor nb)
                    \/ (edge_to edge = a /\ edge_from edge = nb_neighbor nb)).
    { apply (record_ends a nb edge Hnb). rewrite Hid. assumption. }
    change (sumEnds graph (e :: edgeIds) v)
      with (endsAt graph e v + sumEnds graph edgeIds v)%Z.
    rewrite Z.odd_add, (IH _ Hrest). unfold endsAt. rewrite Eedge.
    destruct Hends as [[-> ->]|[-> ->]];
      destruct (eqb a v), (eqb (nb_neighbor nb) v), (eqb b v); reflexivity.
Qed.

Lemma shortestPathEdges_joins (cache : Map string DijkstraResult) (a b : string) :
  cacheOk graph cache -> a <> b ->
  (exists ids, pathInGraph graph a ids b = true) ->
  exists d edgeIds cache',
    shortestPathEdges graph cache a b = Some (Fin d, edgeIds, cache')
    /\ edgeIds <> []
    /\ pathInGraph graph a edgeIds b = true
    /\ cacheOk graph cache'.
Proof.
  intros Hok Hab [ids Hids].
  destruct (getDijkstraCached_returns graph edges_nonneg cache a Hok)
    as [result [cache' [Eget [Erun Hok']]]].
  destruct (runDijkstra_least graph a edges_nonneg) as [r1 [Erun1 [_ Hleast]]].
  destruct (runDijkstra_paths graph a edges_nonneg) as [r2 [Erun2 Hpaths]].
  rewrite Erun in Erun1, Erun2. injection Erun1 as <-. injection Erun2 as <-.
  destruct (Hleast ids b Hids) as [dt [Hdt _]].
  destruct (Hpaths b dt Hdt) as [edgeIds [Erec [_ Hpath]]].
  exists dt, edgeIds, cache'. unfold shortestPathEdges. rewrite Eget. cbv zeta.
  unfold getDist. rewrite Hdt. cbn [isFinite negb]. rewrite Erec.
  split; [reflexivity|]. split; [|split; assumption].
  intros ->. cbn in Hpath. apply eqb_true_iff in Hpath. contradiction.
Qed.

(** What the scan has found so far: nothing yet, or a path from [nodeA] to
    the candidate at [bestIndex]. *)
Definition bestGood (all : list string) (nodeA : string) (best : PairingBest) : Prop :=
  match bestIndex best with
  | None => bestDistance best = PosInf
  | Some i =>
      exists nodeB, nth_error all i = Some nodeB
                    /\ pathInGraph graph nodeA (bestPath best) nodeB = true
  end.

Lemma pairingScan_finds (nodeA : string) (candidates : list string) :
  forall (pre : list string) (best : PairingBest) (cache : Map string DijkstraResult),
    cacheOk graph cache ->
    bestGood (pre ++ candidates) nodeA best ->
    (forall b, In b candidates ->
       nodeA <> b /\ exists ids, pathInGraph graph nodeA ids b = true) ->
    exists best' cache',
      pairingScan graph nodeA candidates (length pre) best cache = Some (best', cache')
      /\ bestGood (pre ++ candidates) nodeA best'
      /\ cacheOk graph cache'
      /\ (candidates <> [] \/ bestIndex best <> None -> bestIndex best' <> None).
Proof.
  induction candidates as [|b rest IH]; intros pre best cache Hok Hbest Hall.
  - exists best, cache. cbn [pairingScan]. split; [reflexivity|].
    split; [assumption|]. split; [assumption|]. intros [H|H]; [congruence|assumption].
  - destruct (Hall b (or_introl eq_refl)) as [Hab Hreach].
    destruct (shortestPathEdges_joins cache nodeA b Hok Hab Hreach)
      as [d [edgeIds [cache1 [Esp [Hne [Hpath Hok1]]]]]].
    cbn [pairingScan]. rewrite Esp.
    assert (Hlen : (length edgeIds =? 0)%nat = false).
    { apply Nat.eqb_neq. destruct edgeIds; [congruence|cbn; lia]. }
    rewrite Hlen.
    assert (Hall' : forall b', In b' rest ->
              nodeA <> b' /\ exists ids, pathInGraph graph nodeA ids b' = true).
    { intros b' Hb'. apply Hall. right. assumption. }
    assert (Happ : (pre ++ [b]) ++ rest = pre ++ b :: rest).
    { rewrite <- app_assoc. reflexivity. }
    assert (Hpre : length (pre ++ [b]) = S (length pre)).
    { rewrite length_app. cbn. lia. }
    destruct (dnum_ltb (Fin d) (bestDistance best)) eqn:Elt.
    + destruct (IH (pre ++ [b]) (mkPairingBest (Some (length pre)) (Fin d) edgeIds) cache1)
        as [best' [cache' [Escan [Hgood [Hok' Hsome]]]]].
      * assumption.
      * rewrite Happ. unfold bestGood. cbn [bestIndex bestPath]. exists b.
        split; [|assumption]. rewrite nth_error_app2 by lia. rewrite Nat.sub_diag. reflexivity.
      * assumption.
      * rewrite Hpre, Happ in *. exists best', cache'.
        split; [assumption|]. split; [assumption|]. split; [assumption|].
        intros _. apply Hsome. right. cbn. discriminate.
    + destruct (IH (pre ++ [b]) best cache1) as [best' [cache' [Escan [Hgood [Hok' Hsome]]]]].
      * assumption.
      * rewrite Happ. assumption.
      * assumption.
      * rewrite Hpre, Happ in *. exists best', cache'.
        split; [assumption|]. split; [assumption|]. split; [assumption|].
        intros _. apply Hsome. right. intros Hnone.
        unfold bestGood in Hbest. rewrite Hnone in Hbest. rewrite Hbest in Elt.
        cbn in Elt. discriminate.
Qed.

Lemma eulerizeLoop_evens (fuel : nat) :
  forall (oddNodes : list string) (multiset : Map string Z)
         (cache : Map string DijkstraResult),
    (length oddNodes <= fuel)%nat ->
    Nat.even (length oddNodes) = true ->
    NoDup oddNodes ->
    (forall v, In v oddNodes <-> Z.odd (degreeIn graph multiset v) = true) ->
    positiveCounts multiset ->
    cacheOk graph cache ->
    (forall v, In v oddNodes -> truthy v = true) ->
    (forall a b, In a oddNodes -> In b oddNodes ->
       exists ids, pathInGraph graph a ids b = true) ->
    exists multiset' cache',
      eulerizeLoop fuel graph oddNodes multiset cache = Some (multiset', cache')
      /\ (forall v, Z.odd (degreeIn graph multiset' v) = false)
      /\ positiveCounts multiset'
      /\ (forall e c, JsMap.get e multiset = Some c ->
            exists c', JsMap.get e multiset' = Some c' /\ (c <= c')%Z)
      /\ cacheOk graph cache'.
Proof.
  induction fuel as [|fuel IH];
    intros oddNodes multiset cache Hfuel Heven Hnd Hodd Hpos Hok Htruthy Hreach.
  - destruct oddNodes as [|a rest]; [|cbn in Hfuel; lia].
    exists multiset, cache. cbn. split; [reflexivity|]. split.
    + intros v. destruct (Z.odd (degreeIn graph multiset v)) eqn:E; [|reflexivity].
      apply Hodd in E. destruct E.
    + split; [assumption|]. split; [|assumption].
      intros e c E. exists c. split; [assumption|lia].
  - destruct oddNodes as [|a rest].
    + exists multiset, cache. cbn. split; [reflexivity|]. split.
      * intros v. destruct (Z.odd (degreeIn graph multiset v)) eqn:E; [|reflexivity].
        apply Hodd in E. destruct E.
      * split; [assumption|]. split; [|assumption].
        intros e c E. exists c. split; [assumption|lia].
    + cbn [eulerizeLoop]. rewrite (Htruthy a (or_introl eq_refl)). cbn [negb].
      inversion Hnd as [|? ? Ha Hrest]; subst.
      assert (Hne : rest <> []).
      { intros ->. cbn in Heven. discriminate. }
      destruct (pairingScan_finds a rest [] (mkPairingBest None PosInf []) cache)
        as [best [cache1 [Escan [Hgood [Hok1 Hsome]]]]].
      * assumption.
      * reflexivity.
      * intros b Hb. split; [intros ->; contradiction|].
        apply Hreach; [left; reflexivity|right; assumption].
      * cbn [length app] in Escan, Hgood. rewrite Escan.
        specialize (Hsome (or_introl Hne)). unfold bestGood in Hgood.
        destruct (bestIndex best) as [i|]; [|congruence].
        destruct Hgood as [nodeB [Hnth Hpath]].
        pose proof (spliceOne_split rest i nodeB Hnth) as Hsplit.
        assert (HB : In nodeB rest) by (eapply nth_error_In; eassumption).
        assert (Hnd' : NoDup (spliceOne i rest)).
        { unfold spliceOne. rewrite Hsplit in Hrest. apply NoDup_remove_1 in Hrest.
          assumption. }
        assert (Hin' : forall v, In v (spliceOne i rest) <-> In v rest /\ v <> nodeB).
        { intros v. unfold spliceOne. rewrite Hsplit in Hrest.
          pose proof (NoDup_remove_2 _ _ _ Hrest) as Hout.
          split.
          - intros Hv. split.
            + rewrite Hsplit. apply in_app_or in Hv. apply in_or_app.
              destruct Hv; [left|right; right]; assumption.
            + intros ->. contradiction.
          - intros [Hv Hneq]. rewrite Hsplit in Hv. apply in_app_or in Hv.
            apply in_or_app. destruct Hv as [Hv|[Hv|Hv]]; [left; assumption| |right; assumption].
            congruence. }
        assert (Hlen' : length rest = S (length (spliceOne i rest))).
        { rewrite Hsplit at 1. unfold spliceOne. rewrite !length_app. cbn [length]. lia. }
        destruct (countPath_degree graph (bestPath best) multiset Hpos)
          as [Hpos' [Hdeg Hmono]].
        destruct (IH (spliceOne i rest) (countPath (bestPath best) multiset) cache1)
          as [multiset' [cache' [Eloop [Hall [Hpos'' [Hmono' Hok']]]]]].
        -- cbn [length] in Hfuel. lia.
        -- cbn [length] in Heven. rewrite Hlen' in Heven. exact Heven.
        -- assumption.
        -- intros v. rewrite Hdeg, Z.odd_add, (walk_parity a nodeB _ v Hpath).
           rewrite Hin'. specialize (Hodd v). cbn [In] in Hodd.
           destruct (eq_dec a v) as [Eav|Eav].
           ++ subst v. rewrite eqb_refl.
              assert (Hab : eqb nodeB a = false).
              { apply eqb_false_iff. intros ->. contradiction. }
              rewrite Hab. rewrite (proj1 Hodd (or_introl eq_refl)). cbn.
              split; [intros [H _]; contradiction|discriminate].
           ++ rewrite (proj2 (eqb_false_iff a v) Eav).
              destruct (eq_dec nodeB v) as [Ebv|Ebv].
              ** subst v. rewrite eqb_refl.
                 rewrite (proj1 Hodd (or_intror HB)). cbn.
                 split; [intros [_ H]; congruence|discriminate].
              ** rewrite (proj2 (eqb_false_iff nodeB v) Ebv). cbn [xorb].
                 rewrite xorb_false_r. rewrite <- Hodd.
                 split; [intros [H _]; right; assumption|].
                 intros [H|H]; [contradiction|]. split; [assumption|congruence].
        -- assumption.
        -- assumption.
        -- intros v Hv. apply Htruthy. right. apply Hin' in Hv. tauto.
        -- intros x y Hx Hy. apply Hreach; right; [apply Hin' in Hx|apply Hin' in Hy]; tauto.
        -- exists multiset', cache'. split; [assumption|]. split; [assumption|].
           split; [assumption|]. split; [|assumption].
           intros e c E. destruct (Hmono e c E) as [c1 [E1 Hle1]].
           destruct (Hmono' e c1 E1) as [c2 [E2 Hle2]].
           exists c2. split; [assumption|lia].
Qed.

End EulerizeLoop.

Lemma onceEach_counts (edgeIds : list string) :
  positiveCounts (onceEach edgeIds)
  /\ forall e, In e edgeIds -> JsMap.get e (onceEach edgeIds) = Some 1%Z.
Proof.
  unfold onceEach.
  assert (H : forall l m,
             positiveCounts m ->
             positiveCounts (fold_left (fun multiset edgeId => JsMap.set edgeId 1%Z multiset) l m)
             /\ forall e, In e l \/ JsMap.get e m = Some 1%Z ->
                  JsMap.get e (fold_left (fun multiset edgeId => JsMap.set edgeId 1%Z multiset) l m)
                  = Some 1%Z).
  { induction l as [|x l IH]; intros m Hm.
    - cbn. split; [assumption|]. intros e [[]|E]. assumption.
    - cbn [fold_left].
      destruct (IH (JsMap.set x 1%Z m)) as [H1 H2].
      + apply set_Forall_values; [lia|assumption].
      + split; [assumption|]. intros e He. apply H2.
        rewrite get_set. destruct (eq_dec e x) as [->|Hne]; [right; reflexivity|].
        destruct He as [[E|He]|He]; [congruence|left; assumption|right; assumption]. }
  destruct (H edgeIds [] (Forall_nil _)) as [H1 H2].
  split; [assumption|]. intros e He. apply H2. left. assumption.
Qed.

(** X28: on a graph built by [buildStreetGraph] from segments with distinct
    ids (and with a distance function that is never negative), when the nodes
    that have an odd number of the given edges are joined to each other by
    paths in the graph and none of them is the empty string,
    [eulerizeEdgeSet] returns a multiset in which every node has an even
    degree ([oddDegreeNodes] finds none) and which counts every given edge at
    least once. The cache holds results of [runDijkstra]. *)
Theorem eulerizeEdgeSet_leaves_no_odd_node
    (haversineKm : LatLng -> LatLng -> Q) (streets : list StreetSegment)
    (edgeIds : list string) (cache : Map string DijkstraResult) :
  (forall a b, 0 <= haversineKm a b) ->
  NoDup (edgeStreetIds streets) ->
  (forall k r, JsMap.get k cache = Some r ->
     runDijkstra (buildStreetGraph haversineKm streets) k = Some r) ->
  ~ In EmptyString
      (oddDegreeNodes (onceEach edgeIds) (buildStreetGraph haversineKm streets)) ->
  (forall a b,
     In a (oddDegreeNodes (onceEach edgeIds) (buildStreetGraph haversineKm streets)) ->
     In b (oddDegreeNodes (onceEach edgeIds) (buildStreetGraph haversineKm streets)) ->
     exists ids, pathInGraph (buildStreetGraph haversineKm streets) a ids b = true) ->
  exists multiset cache',
    eulerizeEdgeSet edgeIds (buildStreetGraph haversineKm streets) cache
    = Some (multiset, cache')
    /\ oddDegreeNodes multiset (buildStreetGraph haversineKm streets) = []
    /\ forall e, In e edgeIds ->
         exists count, JsMap.get e multiset = Some count /\ (1 <= count)%Z.
Proof.
  intros Hnn Hids Hcache Hempty Hreach.
  set (graph := buildStreetGraph haversineKm streets) in *.
  assert (Hedges : forall e edge, JsMap.get e (edges graph) = Some edge ->
                                  0 <= edge_distanceKm edge).
  { intros e edge. apply buildStreetGraph_edges_nonneg. assumption. }
  destruct (onceEach_counts edgeIds) as [Hpos Hone].
  destruct (eulerizeLoop_evens graph Hedges (record_endpoints haversineKm streets Hids)
              (length (oddDegreeNodes (onceEach edgeIds) graph))
              (oddDegreeNodes (onceEach edgeIds) graph) (onceEach edgeIds) cache)
    as [multiset [cache' [Eloop [Hall [Hpos' [Hmono Hok']]]]]].
  - lia.
  - apply odd_nodes_come_in_pairs.
  - apply oddDegreeNodes_NoDup.
  - intros v. apply oddDegreeNodes_In.
  - assumption.
  - exact Hcache.
  - intros v Hv. unfold truthy. apply negb_true_iff. apply eqb_false_iff.
    intros ->. contradiction.
  - assumption.
  - exists multiset, cache'. split; [exact Eloop|]. split.
    + destruct (oddDegreeNodes multiset graph) as [|v l] eqn:E; [reflexivity|].
      assert (Hv : In v (oddDegreeNodes multiset graph)) by (rewrite E; left; reflexivity).
      apply oddDegreeNodes_In in Hv. rewrite Hall in Hv. discriminate.
    + intros e He. destruct (Hmono e 1%Z (Hone e He)) as [c [Ec Hle]].
      exists c. split; assumption.
Qed.

(** The theorem on the street [a - b - c] when only its first segment is
    asked for: the segment is counted twice. *)
Lemma eulerizeEdgeSet_leaves_no_odd_node_witness :
  exists multiset cache',
    eulerizeEdgeSet ["s1"] (buildStreetGraph flatKm [elmFirst; elmSecond]) []
    = Some (multiset, cache')
    /\ oddDegreeNodes multiset (buildStreetGraph flatKm [elmFirst; elmSecond]) = []
    /\ forall e, In e ["s1"] ->
         exists count, JsMap.get e multiset = Some count /\ (1 <= count)%Z.
Proof.
  apply (eulerizeEdgeSet_leaves_no_odd_node flatKm [elmFirst; elmSecond] ["s1"] []).
  - exact flatKm_nonneg.
  - vm_compute. repeat constructor; cbn; intuition discriminate.
  - intros k r E. discriminate.
  - vm_compute. intuition discriminate.
  - intros a b Ha Hb. vm_compute in Ha, Hb.
    destruct Ha as [<-|[<-|[]]]; destruct Hb as [<-|[<-|[]]].
    + exists ["s1"; "s1"]. reflexivity.
    + exists ["s1"]. reflexivity.
    + exists ["s1"]. reflexivity.
    + exists ["s1"; "s1"]. reflexivity.
Defined.

(* ------------------------------------------------------------------ *)
(** ** [buildEulerTraversal] *)

Lemma map_nth_seq {A} (l : list A) (d : A) :
  map (fun i => nth i l d) (seq 0 (length l)) = l.
Proof.
  induction l as [|a l IH]; [reflexivity|].
  cbn [length seq map nth]. f_equal.
  rewrite <- seq_shift, map_map. exact IH.
Qed.

Lemma filter_map_length {A B} (f : A -> B) (p : B -> bool) (l : list A) :
  length (filter p (map f l)) = length (filter (fun a => p (f a)) l).
Proof.
  induction l as [|a l IH]; [reflexivity|]. cbn [map filter].
  destruct (p (f a)); cbn [length]; congruence.
Qed.

Lemma timesWalked_app (l1 l2 : list EulerToken) (e : string) :
  timesWalked (l1 ++ l2) e = (timesWalked l1 e + timesWalked l2 e)%nat.
Proof. unfold timesWalked. rewrite filter_app, length_app. reflexivity. Qed.

Lemma timesWalked_cons (step : EulerToken) (l : list EulerToken) (e : string) :
  timesWalked (step :: l) e
  = ((if eqb (tok_edgeId step) e then 1 else 0) + timesWalked l e)%nat.
Proof. unfold timesWalked. cbn [filter]. destruct (eqb _ e); reflexivity. Qed.

Lemma timesWalked_rev (l : list EulerToken) (e : string) :
  timesWalked (rev l) e = timesWalked l e.
Proof.
  induction l as [|a l IH]; [reflexivity|]. cbn [rev].
  rewrite timesWalked_app, IH.
  change (a :: l) with ([a] ++ l). rewrite timesWalked_app. lia.
Qed.

Lemma nth_setNth {T} (i j : nat) (x d : T) (data : list T) :
  nth j (setNth i x data) d
  = if ((j =? i) && (i <? length data))%nat then x else nth j data d.
Proof.
  revert i j. induction data as [|y data IH]; intros i j.
  - destruct i, j; cbn; rewrite ?andb_false_r; reflexivity.
  - destruct i as [|i]; destruct j as [|j]; cbn [setNth nth length]; try reflexivity.
    rewrite IH. reflexivity.
Qed.

Lemma length_setNth {T} (i : nat) (x : T) (data : list T) :
  length (setNth i x data) = length data.
Proof.
  revert i. induction data as [|y data IH]; intros [|i]; cbn; congruence.
Qed.

Lemma get_pushTokenId (k0 k : string) (tokenId : nat) (m : Map string (list nat)) :
  JsMap.get k0 (pushTokenId k tokenId m)
  = if eq_dec k0 k then option_map (fun l => l ++ [tokenId]) (JsMap.get k m)
    else JsMap.get k0 m.
Proof.
  unfold pushTokenId. destruct (JsMap.get k m) as [l|] eqn:E.
  - rewrite get_set. destruct (eq_dec k0 k); reflexivity.
  - destruct (eq_dec k0 k) as [->|]; [rewrite E|]; reflexivity.
Qed.

(** The tokens of a multiset are edges of the graph, each one as often as
    the multiset counts it. *)
Lemma eulerTokens_edges (graph : StreetGraph) (multiset : Map string Z) (token : EulerToken) :
  In token (eulerTokens graph multiset) ->
  exists edge,
    JsMap.get (tok_edgeId token) (edges graph) = Some edge
    /\ tok_from token = edge_from edge /\ tok_to token = edge_to edge.
Proof.
  unfold eulerTokens. intros Hin. apply in_flat_map in Hin.
  destruct Hin as [[e c] [_ Hin]].
  destruct (JsMap.get e (edges graph)) as [edge|] eqn:E; [|destruct Hin].
  apply repeat_spec in Hin. subst token. exists edge. auto.
Qed.

Lemma eulerTokens_times (graph : StreetGraph) (multiset : Map string Z) (e : string) :
  (timesWalked (eulerTokens graph multiset) e <= timesIn multiset e)%nat.
Proof.
  unfold eulerTokens. induction multiset as [|[k c] m IH]; [cbn; lia|].
  cbn [flat_map]. rewrite timesWalked_app. cbn [timesIn fold_right fst snd].
  fold (timesIn m e).
  assert (H : (timesWalked
                 (match JsMap.get k (edges graph) with
                  | Some edge =>
                      repeat (mkToken k (edge_from edge) (edge_to edge)) (Z.to_nat c)
                  | None => []
                  end) e
               <= if eqb k e then Z.to_nat c else 0)%nat).
  { destruct (JsMap.get k (edges graph)) as [edge|]; [|cbn; destruct (eqb k e); lia].
    unfold timesWalked. induction (Z.to_nat c) as [|n IHn]; [cbn; destruct (eqb k e); lia|].
    cbn [repeat filter tok_edgeId]. destruct (eqb k e); cbn [length]; lia. }
  destruct (eqb k e); lia.
Qed.

Section EulerTraversal.

Variable tokens : list EulerToken.
Variable startNodeId : string.

Definition tokenAt (tokenId : nat) : EulerToken :=
  nth tokenId tokens (mkToken EmptyString EmptyString EmptyString).

(** Every token id listed at a node is a token that has an end there. *)
Definition adjacencyOk (adjacency : Map string (list nat)) : Prop :=
  forall node l tokenId,
    JsMap.get node adjacency = Some l -> In tokenId l ->
    (tokenId < length tokens)%nat
    /\ (tok_from (tokenAt tokenId) = node \/ tok_to (tokenAt tokenId) = node).

Lemma adjacencyOk_ensureKey (k : string) (adjacency : Map string (list nat)) :
  adjacencyOk adjacency -> adjacencyOk (ensureKey k [] adjacency).
Proof.
  intros Hok node l tokenId Hget Hin. rewrite get_ensureKey in Hget.
  destruct (JsMap.get node adjacency) as [l'|] eqn:E.
  - injection Hget as <-. apply (Hok node l' tokenId E Hin).
  - destruct (eq_dec node k); [|discriminate]. injection Hget as <-. destruct Hin.
Qed.

Lemma adjacencyOk_push (k : string) (tokenId : nat) (adjacency : Map string (list nat)) :
  adjacencyOk adjacency ->
  (tokenId < length tokens)%nat ->
  tok_from (tokenAt tokenId) = k \/ tok_to (tokenAt tokenId) = k ->
  adjacencyOk (pushTokenId k tokenId adjacency).
Proof.
  intros Hok Hlt Hend node l id Hget Hin. rewrite get_pushTokenId in Hget.
  destruct (eq_dec node k) as [->|Hne]; [|apply (Hok node l id Hget Hin)].
  destruct (JsMap.get k adjacency) as [l'|] eqn:E; [|discriminate].
  cbn in Hget. injection Hget as <-. apply in_app_or in Hin.
  destruct Hin as [Hin|[<-|[]]]; [apply (Hok k l' id E Hin)|]. auto.
Qed.

Lemma tokenAdjacencyFrom_ok (rest pre : list EulerToken) (adjacency : Map string (list nat)) :
  tokens = pre ++ rest -> adjacencyOk adjacency ->
  adjacencyOk (tokenAdjacencyFrom (length pre) rest adjacency).
Proof.
  revert pre adjacency. induction rest as [|token rest IH]; intros pre adjacency Hall Hok.
  - exact Hok.
  - cbn [tokenAdjacencyFrom].
    assert (Hlt : (length pre < length tokens)%nat).
    { rewrite Hall, length_app. cbn. lia. }
    assert (Hat : tokenAt (length pre) = token).
    { unfold tokenAt. rewrite Hall, app_nth2 by lia. rewrite Nat.sub_diag. reflexivity. }
    replace (S (length pre)) with (length (pre ++ [token]))
      by (rewrite length_app; cbn; lia).
    apply IH.
    + rewrite <- app_assoc. exact Hall.
    + apply adjacencyOk_push; [|assumption|right; rewrite Hat; reflexivity].
      apply adjacencyOk_push; [|assumption|left; rewrite Hat; reflexivity].
      apply adjacencyOk_ensureKey. apply adjacencyOk_ensureKey. assumption.
Qed.

Lemma skipUsed_found (used : list bool) (pending : list nat) (index index' tokenId : nat) :
  skipUsed used pending index = (index', Some tokenId) ->
  In tokenId pending /\ nth tokenId used false = false.
Proof.
  revert index. induction pending as [|x pending IH]; intros index E; cbn [skipUsed] in E.
  - discriminate.
  - destruct (nth x used false) eqn:Ex.
    + destruct (IH _ E) as [H1 H2]. split; [right; assumption|assumption].
    + injection E as _ <-. split; [left; reflexivity|assumption].
Qed.

Lemma takeToken_found (adjacency : Map string (list nat)) (used : list bool)
    (cursor cursor' : Map string nat) (nodeId : string) (tokenId : nat) :
  adjacencyOk adjacency ->
  takeToken adjacency used cursor nodeId = (cursor', Some tokenId) ->
  (tokenId < length tokens)%nat
  /\ nth tokenId used false = false
  /\ (tok_from (tokenAt tokenId) = nodeId \/ tok_to (tokenAt tokenId) = nodeId).
Proof.
  intros Hok. unfold takeToken. cbv zeta.
  destruct (skipUsed used _ _) as [index' found] eqn:Eskip.
  intros E. injection E as _ ->.
  destruct (skipUsed_found _ _ _ _ _ Eskip) as [Hin Hfree].
  destruct (JsMap.get nodeId adjacency) as [l|] eqn:El.
  - assert (Hin' : In tokenId l).
    { rewrite <- (firstn_skipn (match JsMap.get nodeId cursor with Some i => i | None => O end) l).
      apply in_or_app. right. assumption. }
    destruct (Hok nodeId l tokenId El Hin') as [Hlt Hend]. auto.
  - rewrite skipn_nil in Hin. destruct Hin.
Qed.

(** The steps that the entries of the stack came in by. *)
Definition incomingsOf (stack : list StackEntry) : list EulerToken :=
  flat_map (fun entry => match se_incoming entry with Some inc => [inc] | None => [] end)
    stack.

(** A step is a token, in its direction or against it. *)
Definition stepOfToken (step : EulerToken) : Prop :=
  exists tokenId,
    (tokenId < length tokens)%nat
    /\ tok_edgeId step = tok_edgeId (tokenAt tokenId)
    /\ ((tok_from step = tok_from (tokenAt tokenId) /\ tok_to step = tok_to (tokenAt tokenId))
        \/ (tok_from step = tok_to (tokenAt tokenId)
            /\ tok_to step = tok_from (tokenAt tokenId))).

(** Above the entry of the start node, every entry came in from the node of
    the entry below it. *)
Fixpoint stackOk (stack : list StackEntry) : Prop :=
  match stack with
  | [] => True
  | top :: below =>
      match below with
      | [] => top = mkStackEntry startNodeId None
      | next :: _ =>
          (exists inc, se_incoming top = Some inc /\ tok_from inc = se_nodeId next)
          /\ stackOk below
      end
  end.

(** Once the stack is back at the start node, the step written last leaves
    the start node. *)
Definition lastLeavesStart (stack : list StackEntry) (reverse : list EulerToken) : Prop :=
  (length stack <= 1)%nat ->
  match rev reverse with
  | [] => True
  | step :: _ => tok_from step = startNodeId
  end.

Definition timesTaken (taken : list nat) (e : string) : nat :=
  length (filter (fun tokenId => eqb (tok_edgeId (tokenAt tokenId)) e) taken).

Record traversalInv (taken : list nat) (used : list bool) (stack : list StackEntry)
    (reverse : list EulerToken) : Prop := {
  trav_used_length : length used = length tokens;
  trav_taken_distinct : NoDup taken;
  trav_taken_used :
    forall tokenId, In tokenId taken ->
      (tokenId < length tokens)%nat /\ nth tokenId used false = true;
  trav_times :
    forall e, timesWalked (incomingsOf stack ++ reverse) e = timesTaken taken e;
  trav_steps : Forall stepOfToken (incomingsOf stack ++ reverse);
  trav_stack : stackOk stack;
  trav_start : lastLeavesStart stack reverse
}.

Lemma taken_bounded (taken : list nat) :
  NoDup taken -> (forall tokenId, In tokenId taken -> (tokenId < length tokens)%nat) ->
  (length taken <= length tokens)%nat.
Proof.
  intros Hnd Hlt.
  apply Nat.le_trans with (length (seq 0%nat (length tokens))); [|rewrite length_seq; lia].
  apply NoDup_incl_length; [assumption|].
  intros x Hx. apply in_seq. specialize (Hlt x Hx). lia.
Qed.

Lemma timesTaken_bounded (taken : list nat) (e : string) :
  NoDup taken -> (forall tokenId, In tokenId taken -> (tokenId < length tokens)%nat) ->
  (timesTaken taken e <= timesWalked tokens e)%nat.
Proof.
  intros Hnd Hlt. unfold timesTaken, timesWalked.
  rewrite <- (map_nth_seq tokens (mkToken EmptyString EmptyString EmptyString)) at 1.
  rewrite filter_map_length. fold tokenAt.
  apply NoDup_incl_length; [apply NoDup_filter; assumption|].
  intros x Hx. apply filter_In in Hx. destruct Hx as [Hx Hp].
  apply filter_In. split; [|exact Hp].
  apply in_seq. specialize (Hlt x Hx). lia.
Qed.

Lemma eulerLoop_returns (adjacency : Map string (list nat)) (fuel : nat) :
  adjacencyOk adjacency ->
  forall taken used cursor stack reverse,
    traversalInv taken used stack reverse ->
    (2 * (length tokens - length taken) + length stack <= fuel)%nat ->
    exists steps,
      eulerLoop fuel tokens adjacency used cursor stack reverse = Some steps
      /\ Forall stepOfToken steps
      /\ (forall e, timesWalked steps e <= timesWalked tokens e)%nat
      /\ match steps with
         | [] => True
         | step :: _ => tok_from step = startNodeId
         end.
Proof.
  intros Hadj. induction fuel as [|fuel IH]; intros taken used cursor stack reverse Hinv Hfuel.
  - destruct stack as [|top below]; [|cbn [length] in Hfuel; lia].
    cbn [eulerLoop]. exists (rev reverse).
    destruct Hinv as [_ Hnd Htaken Htimes Hsteps _ Hstart].
    cbn [incomingsOf flat_map app] in *.
    split; [reflexivity|]. split; [apply Forall_rev; assumption|]. split.
    + intros e. rewrite timesWalked_rev, Htimes.
      apply timesTaken_bounded; [assumption|]. intros x Hx. apply Htaken. assumption.
    + apply Hstart. cbn. lia.
  - destruct stack as [|top below].
    + cbn [eulerLoop]. exists (rev reverse).
      destruct Hinv as [_ Hnd Htaken Htimes Hsteps _ Hstart].
      cbn [incomingsOf flat_map app] in *.
      split; [reflexivity|]. split; [apply Forall_rev; assumption|]. split.
      * intros e. rewrite timesWalked_rev, Htimes.
        apply timesTaken_bounded; [assumption|]. intros x Hx. apply Htaken. assumption.
      * apply Hstart. cbn. lia.
    + cbn [eulerLoop].
      destruct (takeToken adjacency used cursor (se_nodeId top)) as [cursor' found] eqn:Etake.
      destruct Hinv as [Hlen Hnd Htaken Htimes Hsteps Hstack Hstart].
      destruct found as [tokenId|].
      * destruct (takeToken_found _ _ _ _ _ _ Hadj Etake) as [Hlt [Hfree Hend]].
        assert (Hnth : nth_error tokens tokenId = Some (tokenAt tokenId)).
        { unfold tokenAt. apply nth_error_nth'. assumption. }
        rewrite Hnth.
        assert (Hnew : ~ In tokenId taken).
        { intros Hin. destruct (Htaken tokenId Hin) as [_ Hused]. congruence. }
        assert (Hbound : (length (tokenId :: taken) <= length tokens)%nat).
        { apply taken_bounded; [constructor; assumption|].
          intros x [<-|Hx]; [assumption|apply Htaken; assumption]. }
        apply (IH (tokenId :: taken)).
        -- split.
           ++ rewrite length_setNth. assumption.
           ++ constructor; assumption.
           ++ intros x [<-|Hx].
              ** split; [assumption|]. rewrite nth_setNth, Nat.eqb_refl.
                 rewrite (proj2 (Nat.ltb_lt tokenId (length used))) by lia. reflexivity.
              ** destruct (Htaken x Hx) as [H1 H2]. split; [assumption|].
                 rewrite nth_setNth. destruct ((x =? tokenId) && _)%nat; [reflexivity|assumption].
           ++ intros e. specialize (Htimes e).
              change (incomingsOf (?entry :: top :: below))
                with (match se_incoming entry with Some inc => [inc] | None => [] end
                      ++ incomingsOf (top :: below)).
              cbn [se_incoming app]. rewrite timesWalked_cons, Htimes.
              cbn [tok_edgeId]. unfold timesTaken. cbn [filter].
              destruct (eqb (tok_edgeId (tokenAt tokenId)) e); reflexivity.
           ++ change (incomingsOf (?entry :: top :: below))
                with (match se_incoming entry with Some inc => [inc] | None => [] end
                      ++ incomingsOf (top :: below)).
              cbn [se_incoming app]. constructor; [|assumption].
              exists tokenId. split; [assumption|]. cbn [tok_edgeId tok_from tok_to].
              split; [reflexivity|].
              destruct (eqb (tok_from (tokenAt tokenId)) (se_nodeId top)) eqn:Efrom.
              ** apply eqb_true_iff in Efrom. left. auto.
              ** apply eqb_false_iff in Efrom. right.
                 destruct Hend as [H|H]; [contradiction|]. auto.
           ++ cbn [stackOk]. split; [|exact Hstack].
              eexists. split; [reflexivity|]. reflexivity.
           ++ intros Hshort. cbn [length] in Hshort. lia.
        -- cbn [length] in *. lia.
      * assert (Hinc : incomingsOf (top :: below)
                       = match se_incoming top with Some inc => [inc] | None => [] end
                         ++ incomingsOf below) by reflexivity.
        rewrite Hinc in Htimes, Hsteps.
        apply (IH taken).
        -- split; try assumption.
           ++ intros e. specialize (Htimes e).
              destruct (se_incoming top) as [inc|]; [|exact Htimes].
              rewrite <- Htimes. rewrite !timesWalked_app. lia.
           ++ destruct (se_incoming top) as [inc|]; [|exact Hsteps].
              apply Forall_app in Hsteps. destruct Hsteps as [Hfront Hback].
              apply Forall_app in Hfront. destruct Hfront as [H0 H1].
              apply Forall_app. split; [assumption|].
              apply Forall_app. split; assumption.
           ++ cbn [stackOk] in Hstack. destruct below as [|next rest]; [exact I|].
              apply Hstack.
           ++ intros Hshort. cbn [stackOk] in Hstack.
              destruct below as [|next rest].
              ** subst top. cbn [se_incoming]. apply Hstart. cbn. lia.
              ** destruct rest as [|next2 rest]; [|cbn [length] in Hshort; lia].
                 destruct Hstack as [[inc [Einc Hfrom]] Hnext]. cbn [stackOk] in Hnext.
                 subst next. rewrite Einc, rev_app_distr. cbn. exact Hfrom.
        -- cbn [length] in *. lia.
Qed.

End EulerTraversal.

(** X29: [buildEulerTraversal] returns, whatever the graph, the multiset (of
    whole numbers) and the start node. Every step it returns walks an edge of
    the graph from one of its ends to the other, no edge is walked more often
    than the multiset counts it, and the first step, when there is one,
    leaves the start node. *)
Theorem buildEulerTraversal_walks_counted_edges
    (graph : StreetGraph) (multiset : Map string Z) (startNodeId : string) :
  exists steps,
    buildEulerTraversal graph multiset startNodeId = Some steps
    /\ Forall (walksEdge graph) steps
    /\ (forall e, timesWalked steps e <= timesIn multiset e)%nat
    /\ match steps with
       | [] => True
       | step :: _ => tok_from step = startNodeId
       end.
Proof.
  unfold buildEulerTraversal. cbv zeta.
  set (tokens := eulerTokens graph multiset).
  destruct (length tokens =? 0)%nat eqn:Elen.
  - exists []. split; [reflexivity|]. split; [constructor|]. split; [|exact I].
    intros e. cbn. lia.
  - destruct (eulerLoop_returns tokens startNodeId (tokenAdjacencyFrom 0 tokens [])
                (2 * length tokens + 1))
      with (taken := @nil nat) (used := repeat false (length tokens))
           (cursor := @nil (string * nat)) (stack := [mkStackEntry startNodeId None])
           (reverse := @nil EulerToken)
      as [steps [Eloop [Hsteps [Htimes Hstart]]]].
    + apply (tokenAdjacencyFrom_ok tokens tokens []); [reflexivity|].
      intros node l tokenId E. discriminate.
    + split.
      * apply repeat_length.
      * constructor.
      * intros tokenId [].
      * intros e. reflexivity.
      * constructor.
      * reflexivity.
      * intros _. exact I.
    + cbn [length]. lia.
    + exists steps. split; [exact Eloop|]. split; [|split; [|exact Hstart]].
      * eapply Forall_impl; [|exact Hsteps].
        intros step [tokenId [Hlt [Hid Hdir]]].
        assert (Hin : In (tokenAt tokens tokenId) tokens).
        { unfold tokenAt. apply nth_In. assumption. }
        destruct (eulerTokens_edges graph multiset _ Hin) as [edge [Hget [Hfrom Hto]]].
        exists edge. rewrite Hid. split; [assumption|].
        rewrite <- Hfrom, <- Hto. exact Hdir.
      * intros e. specialize (Htimes e).
        pose proof (eulerTokens_times graph multiset e) as Hle. fold tokens in Hle. lia.
Qed.
